(** * dyng: dynamic graph layout, a shallow embedding

    The development follows the C++ headers under [src/dyng]:
    - [identifiers.h], [node.h], [edge.h], [container.h], [graph.h]:
      the static graph container with its id maps and adjacency index;
    - [dynamic_graph.h]: the modification log and [build];
    - [live_set.h], [partitions.h], [mapped_graph.h]: partitioning;
    - [foresighted_layout.h], [foresighted_parallel.h]: the tolerance pass;
    - [fruchterman_reingold.h]: the border force;
    - [interpolator.h]: phases and frames;
    - [parse.h]: the text format.

    Conventions.  [unsigned] ids are [N]; positions in a [std::vector] are
    [nat]; an [std::unordered_map] is a [gmap]; a [float] is an element of a
    type [F] carrying the operations of the class [Scalar], so that every
    statement proved inside the sections holds for any interpretation of the
    arithmetic; the two interpretations given are IEEE 754 binary32, the
    [float] of the code, and the exact rationals.  A member function that
    may throw returns an [outcome]: the object as the call leaves it,
    normally or with the exception. *)

From Stdlib Require Import QArith Qround Qabs Sorted Lqa Field Ascii SpecFloat.
From stdpp Require Import gmap list strings.

Local Open Scope nat_scope.

(** ** Scalars ([float]) *)

Class Scalar (F : Type) := {
  fzero : F;
  fone : F;
  fadd : F -> F -> F;
  fsub : F -> F -> F;
  fmul : F -> F -> F;
  fdiv : F -> F -> F;
  fneg : F -> F;                 (* unary minus *)
  fabs : F -> F;                 (* std::fabs *)
  fsqrt : F -> F;                (* std::sqrt *)
  fltb : F -> F -> bool;         (* operator< *)
  fleb : F -> F -> bool;         (* operator<= *)
  feqb : F -> F -> bool;         (* operator== *)
  of_Z : Z -> F;                 (* conversion of an integer *)
  of_Q : Q -> F;                 (* a decimal literal such as 0.5f *)
  ffloor : F -> Z;               (* std::floor, read as an integer *)
  fceil : F -> Z                 (* std::ceil, read as an integer *)
}.

Definition fgtb `{Scalar F} (a b : F) : bool := fltb b a.   (* operator> *)
Definition fgeb `{Scalar F} (a b : F) : bool := fleb b a.   (* operator>= *)
(* the conversion of a bool used as a number *)
Definition of_bool `{Scalar F} (b : bool) : F := of_Z (if b then 1 else 0).
Definition of_nat `{Scalar F} (n : nat) : F := of_Z (Z.of_nat n).

(** ** Exceptions *)

Inductive exception :=
  | invalid_graph (msg : string)       (* dyng::invalid_graph *)
  | out_of_range (msg : string)        (* std::out_of_range *)
  | invalid_argument (msg : string)    (* std::invalid_argument *)
  | runtime_error (msg : string).      (* std::runtime_error *)

(** The object after a call: [Normal s] when the call returns, [Throws e s]
    when [e] propagates and the object is left as [s]. *)
Inductive outcome (S : Type) :=
  | Normal (s : S)
  | Throws (e : exception) (s : S).
Arguments Normal {S} s.
Arguments Throws {S} e s.

Definition left_state {S} (o : outcome S) : S :=
  match o with Normal s => s | Throws _ s => s end.

Definition returns {S} (o : outcome S) : bool :=
  match o with Normal _ => true | Throws _ _ => false end.

(** ** Identified elements (the duck typing of the templates) *)

Class Identified (T : Type) := elem_id : T -> N.        (* id() *)
Arguments elem_id : simpl never.

Class Connecting (E : Type) := {
  one_id : E -> N;
  two_id : E -> N
}.

(** [std::unordered_map::emplace]: no effect when the key is present. *)
Definition emplace {V} (k : N) (v : V) (m : gmap N V) : gmap N V :=
  match m !! k with
  | Some _ => m
  | None => <[k := v]> m
  end.

(** ** container.h *)

Record container (T : Type) := mk_container {
  c_vec : list T;            (* vec *)
  c_map : gmap N nat         (* map: id -> position in vec *)
}.
Arguments mk_container {T} _ _.
Arguments c_vec {T} _.
Arguments c_map {T} _.

Definition empty_container {T} : container T := mk_container [] ∅.

(* at(id) = vec[map.at(id)] *)
Definition container_at {T} (c : container T) (i : N) : option T :=
  match c_map c !! i with
  | Some k => c_vec c !! k
  | None => None
  end.

(** ** graph.h *)

Record graph (NodeType EdgeType : Type) := mk_graph {
  m_nodes : container NodeType;
  m_edges : container EdgeType;
  m_index : gmap N (gmap N N)     (* node -> (neighbour -> edge) *)
}.
Arguments mk_graph {NodeType EdgeType} _ _ _.
Arguments m_nodes {NodeType EdgeType} _.
Arguments m_edges {NodeType EdgeType} _.
Arguments m_index {NodeType EdgeType} _.

Section Graph.
Context {NodeType EdgeType : Type}.
Context `{!Identified NodeType, !Identified EdgeType, !Connecting EdgeType}.

Local Abbreviation graph := (graph NodeType EdgeType).

Definition empty_graph : graph := mk_graph empty_container empty_container ∅.

Definition nodes (g : graph) : list NodeType := c_vec (m_nodes g).
Definition edges (g : graph) : list EdgeType := c_vec (m_edges g).

Definition node_at (g : graph) (i : N) : option NodeType := container_at (m_nodes g) i.
Definition edge_at (g : graph) (i : N) : option EdgeType := container_at (m_edges g) i.
Definition node_index (g : graph) (i : N) : option nat := c_map (m_nodes g) !! i.
Definition edge_index (g : graph) (i : N) : option nat := c_map (m_edges g) !! i.

Definition node_exists (g : graph) (i : N) : bool :=
  bool_decide (is_Some (c_map (m_nodes g) !! i)).
Definition edge_exists (g : graph) (i : N) : bool :=
  bool_decide (is_Some (c_map (m_edges g) !! i)).

(* m_index.at(node_at(node).id()); None stands for std::out_of_range *)
Definition edges_at_node (g : graph) (n : N) : option (gmap N N) :=
  match node_at g n with
  | Some nd => m_index g !! elem_id nd
  | None => None
  end.

(* edge_exists(one, two) = edges_at_node(one).count(node_at(two).id()) *)
Definition edge_exists_between (g : graph) (one two : N) : option bool :=
  match edges_at_node g one, node_at g two with
  | Some adj, Some nd => Some (bool_decide (is_Some (adj !! elem_id nd)))
  | _, _ => None
  end.

(* the loop "elem.map[elem.vec[i].id()] = i" of remove_elements_if *)
Fixpoint reestablish {T} `{!Identified T} (l : list T) (i : nat) (m : gmap N nat)
  : gmap N nat :=
  match l with
  | [] => m
  | x :: l' => reestablish l' (S i) (<[elem_id x := i]> m)
  end.

Definition rebuilt {T} `{!Identified T} (l : list T) : container T :=
  mk_container l (reestablish l 0 ∅).

(* the side effect of remove_edges_if on one removed edge *)
Definition erase_ends (e : EdgeType) (idx : gmap N (gmap N N)) : gmap N (gmap N N) :=
  (fun adj => delete (two_id e) (delete (one_id e) adj)) <$> idx.

(* std::remove_if over the edges, the predicate called once per element in
   order; returns the kept edges and the index after the side effects *)
Fixpoint sweep_edges (f : EdgeType -> bool) (l : list EdgeType)
    (idx : gmap N (gmap N N)) : list EdgeType * gmap N (gmap N N) :=
  match l with
  | [] => ([], idx)
  | e :: l' =>
      if f e then sweep_edges f l' (erase_ends e idx)
      else let '(kept, idx') := sweep_edges f l' idx in (e :: kept, idx')
  end.

Definition remove_edges_if (f : EdgeType -> bool) (g : graph) : graph :=
  let '(kept, idx) := sweep_edges f (edges g) (m_index g) in
  mk_graph (m_nodes g) (rebuilt kept) idx.

Definition touches (i : N) (e : EdgeType) : bool :=
  bool_decide (one_id e = i) || bool_decide (two_id e = i).

(* std::remove_if over the nodes; the predicate removes the incident edges
   and the index entry of every node it selects *)
Fixpoint sweep_nodes (f : NodeType -> bool) (l : list NodeType) (g : graph)
  : list NodeType * graph :=
  match l with
  | [] => ([], g)
  | n :: l' =>
      if f n then
        let g1 := remove_edges_if (touches (elem_id n)) g in
        let g2 := mk_graph (m_nodes g1) (m_edges g1) (delete (elem_id n) (m_index g1)) in
        sweep_nodes f l' g2
      else let '(kept, g') := sweep_nodes f l' g in (n :: kept, g')
  end.

Definition remove_nodes_if (f : NodeType -> bool) (g : graph) : graph :=
  let '(kept, g') := sweep_nodes f (nodes g) g in
  mk_graph (rebuilt kept) (m_edges g') (m_index g').

Definition remove_edge (i : N) (g : graph) : outcome graph :=
  if edge_exists g i
  then Normal (remove_edges_if (fun e => bool_decide (elem_id e = i)) g)
  else Throws (invalid_graph "edge not available") g.

Definition remove_node (i : N) (g : graph) : outcome graph :=
  if node_exists g i
  then Normal (remove_nodes_if (fun n => bool_decide (elem_id n = i)) g)
  else Throws (invalid_graph "edge not available") g.

(* push_node; also gives the position of the node the call returns *)
Definition push_node_at (n : NodeType) (g : graph) : graph * nat :=
  match c_map (m_nodes g) !! elem_id n with
  | Some k => (g, k)
  | None =>
      let k := length (nodes g) in
      (mk_graph
         (mk_container (nodes g ++ [n]) (emplace (elem_id n) k (c_map (m_nodes g))))
         (m_edges g)
         (emplace (elem_id n) ∅ (m_index g)), k)
  end.

Definition push_node (n : NodeType) (g : graph) : graph := fst (push_node_at n g).

(* push_edge; the first emplace stays when the second lookup throws *)
Definition push_edge_at (e : EdgeType) (g : graph) : outcome graph * nat :=
  match c_map (m_edges g) !! elem_id e with
  | Some k => (Normal g, k)
  | None =>
      let k := length (edges g) in
      match m_index g !! one_id e with
      | None => (Throws (invalid_graph "node not available") g, k)
      | Some adj1 =>
          let idx1 := <[one_id e := emplace (two_id e) (elem_id e) adj1]> (m_index g) in
          match idx1 !! two_id e with
          | None =>
              (Throws (invalid_graph "node not available")
                 (mk_graph (m_nodes g) (m_edges g) idx1), k)
          | Some adj2 =>
              let idx2 := <[two_id e := emplace (one_id e) (elem_id e) adj2]> idx1 in
              (Normal (mk_graph (m_nodes g)
                 (mk_container (edges g ++ [e]) (emplace (elem_id e) k (c_map (m_edges g))))
                 idx2), k)
          end
      end
  end.

Definition push_edge (e : EdgeType) (g : graph) : outcome graph := fst (push_edge_at e g).

Definition clear_edges (g : graph) : graph :=
  mk_graph (m_nodes g) empty_container ((fun _ => ∅) <$> m_index g).

Definition clear_nodes (g : graph) : graph :=
  mk_graph empty_container (m_edges g) ∅.

End Graph.

(** ** node.h, edge.h *)

Class Animated (F T : Type) := {
  is_new : T -> bool;
  is_old : T -> bool;
  alpha : T -> F;
  set_is_new : bool -> T -> T;
  set_is_old : bool -> T -> T;
  set_alpha : F -> T -> T
}.

Section Elements.
Context {F : Type} `{!Scalar F}.

(** Modelled from the spec: [coords.h] is not among the sources.  The spec
    gives a node a position [pos: Coord] with default [(0,0)]; the sources
    read and write its members [x] and [y]. *)
Record coords := mk_coords { c_x : F; c_y : F }.

Record node := mk_node {
  node_coords : coords;            (* m_coords *)
  node_id : N;                     (* m_id *)
  node_alpha : F;                  (* m_alpha = 1.0 *)
  node_newly_added : bool;         (* m_newly_added = false *)
  node_to_be_deleted : bool        (* m_to_be_deleted = false *)
}.

Record edge := mk_edge {
  edge_one : N;                    (* m_one *)
  edge_two : N;                    (* m_two *)
  edge_id : N;                     (* m_id *)
  edge_alpha : F;
  edge_newly_added : bool;
  edge_to_be_deleted : bool
}.

(* node(id), edge(id, one, two) *)
Definition new_node (i : N) : node := mk_node (mk_coords fzero fzero) i fone false false.
Definition new_edge (i one two : N) : edge := mk_edge one two i fone false false.

Definition pos (n : node) : coords := node_coords n.
Definition set_pos (c : coords) (n : node) : node :=
  mk_node c (node_id n) (node_alpha n) (node_newly_added n) (node_to_be_deleted n).

#[global] Instance node_identified : Identified node := node_id.
#[global] Instance edge_identified : Identified edge := edge_id.
#[global] Instance edge_connecting : Connecting edge :=
  {| one_id := edge_one; two_id := edge_two |}.

#[global] Instance node_animated : Animated F node := {|
  is_new := node_newly_added;
  is_old := node_to_be_deleted;
  alpha := node_alpha;
  set_is_new b n :=
    mk_node (node_coords n) (node_id n) (node_alpha n) b (node_to_be_deleted n);
  set_is_old b n :=
    mk_node (node_coords n) (node_id n) (node_alpha n) (node_newly_added n) b;
  set_alpha a n :=
    mk_node (node_coords n) (node_id n) a (node_newly_added n) (node_to_be_deleted n)
|}.

#[global] Instance edge_animated : Animated F edge := {|
  is_new := edge_newly_added;
  is_old := edge_to_be_deleted;
  alpha := edge_alpha;
  set_is_new b e :=
    mk_edge (edge_one e) (edge_two e) (edge_id e) (edge_alpha e) b (edge_to_be_deleted e);
  set_is_old b e :=
    mk_edge (edge_one e) (edge_two e) (edge_id e) (edge_alpha e) (edge_newly_added e) b;
  set_alpha a e :=
    mk_edge (edge_one e) (edge_two e) (edge_id e) a (edge_newly_added e) (edge_to_be_deleted e)
|}.

End Elements.
Arguments coords F : clear implicits.
Arguments node F : clear implicits.
Arguments edge F : clear implicits.

(** graph_state = graph<node, edge> *)
Abbreviation graph_state F := (graph (node F) (edge F)).

(** ** dynamic_graph.h *)

(** The queued operations: the four closures of [add_node], [add_edge],
    [remove_node] and [remove_edge], named by what they capture. *)
Inductive modification :=
  | mod_push_node (i : N)
  | mod_push_edge (i one two : N)
  | mod_remove_node (i : N)
  | mod_remove_edge (i : N).

Definition uint_wrap (z : Z) : Z := z mod 2 ^ 32.

Section DynamicGraph.
Context {F : Type} `{!Scalar F}.

Local Abbreviation graph_state := (graph_state F).

Record dynamic_graph := mk_dynamic_graph {
  m_last_node_id : N;
  m_last_edge_id : N;
  m_states : list graph_state;
  m_modifications : list (list modification)
}.

Definition empty_dynamic_graph : dynamic_graph := mk_dynamic_graph 0 0 [] [].

Definition states (d : dynamic_graph) : list graph_state := m_states d.

(* operation(new_state) *)
Definition apply_operation (op : modification) (g : graph_state) : outcome graph_state :=
  match op with
  | mod_push_node i => Normal (push_node (new_node i) g)
  | mod_push_edge i one two => push_edge (new_edge i one two) g
  | mod_remove_node i => remove_node i g
  | mod_remove_edge i => remove_edge i g
  end.

(* for (const auto& operation : mod) operation(new_state); *)
Fixpoint apply_operations (ops : list modification) (g : graph_state)
  : outcome graph_state :=
  match ops with
  | [] => Normal g
  | op :: ops' =>
      match apply_operation op g with
      | Normal g' => apply_operations ops' g'
      | Throws e g' => Throws e g'
      end
  end.

(* the times of add_modification with a defined behaviour: at the largest
   [unsigned], 4294967295, time + 1 wraps to 0, the vector is resized to
   nothing and m_modifications[time] lies outside it *)
Definition valid_time (time : nat) : Prop := (Z.of_nat time < 2 ^ 32 - 1)%Z.

(* m_modifications.resize(time + 1) when time >= size, then push_back, for
   a [valid_time] *)
Fixpoint add_at (time : nat) (op : modification) (mods : list (list modification))
  : list (list modification) :=
  match time, mods with
  | 0, [] => [[op]]
  | 0, m :: rest => (m ++ [op]) :: rest
  | S t, [] => [] :: add_at t op []
  | S t, m :: rest => m :: add_at t op rest
  end.

Definition add_modification (time : nat) (op : modification) (d : dynamic_graph)
  : dynamic_graph :=
  mk_dynamic_graph (m_last_node_id d) (m_last_edge_id d) (m_states d)
    (add_at time op (m_modifications d)).

Definition next_id (i : N) : N := Z.to_N (uint_wrap (Z.of_N i + 1)).

Definition add_node (time : nat) (d : dynamic_graph) : dynamic_graph * N :=
  let i := m_last_node_id d in
  (add_modification time (mod_push_node i)
     (mk_dynamic_graph (next_id i) (m_last_edge_id d) (m_states d) (m_modifications d)), i).

Definition add_edge (time : nat) (one two : N) (d : dynamic_graph) : dynamic_graph * N :=
  let i := m_last_edge_id d in
  (add_modification time (mod_push_edge i one two)
     (mk_dynamic_graph (m_last_node_id d) (next_id i) (m_states d) (m_modifications d)), i).

Definition dg_remove_node (time : nat) (i : N) (d : dynamic_graph) : dynamic_graph :=
  add_modification time (mod_remove_node i) d.

Definition dg_remove_edge (time : nat) (i : N) (d : dynamic_graph) : dynamic_graph :=
  add_modification time (mod_remove_edge i) d.

(* the loop of apply_modifications over the steps, [acc] being m_states *)
Fixpoint apply_steps (mods : list (list modification)) (acc : list graph_state)
  : outcome (list graph_state) :=
  match mods with
  | [] => Normal acc
  | m :: rest =>
      let new_state := match last acc with Some s => s | None => empty_graph end in
      match apply_operations m new_state with
      | Normal s => apply_steps rest (acc ++ [s])
      | Throws e _ => Throws e acc
      end
  end.

(* one element of states[i] in set_bool_values *)
Definition set_flags {T} `{!Identified T, !Animated F T}
    (exists_in : graph_state -> N -> bool)
    (sts : list graph_state) (i : nat) (el : T) : T :=
  let old :=
    Nat.ltb i (length sts - 1) &&
    match sts !! (i + 1) with
    | Some nxt => negb (exists_in nxt (elem_id el))
    | None => false
    end in
  let new :=
    Nat.ltb 0 i &&
    match sts !! (i - 1) with
    | Some prv => negb (exists_in prv (elem_id el))
    | None => false
    end in
  set_is_new new (set_is_old old el).

(* the body of the loop of set_bool_values for index i: states[i] is
   rewritten in place, its id maps and adjacency index untouched *)
Definition set_bool_values_at (sts : list graph_state) (i : nat) : list graph_state :=
  match sts !! i with
  | Some g =>
      <[i := mk_graph
          (mk_container (set_flags node_exists sts i <$> nodes g) (c_map (m_nodes g)))
          (mk_container (set_flags edge_exists sts i <$> edges g) (c_map (m_edges g)))
          (m_index g)]> sts
  | None => sts
  end.

Definition set_bool_values (sts : list graph_state) : list graph_state :=
  foldl set_bool_values_at sts (seq 0 (length sts)).

(* build() *)
Definition build (d : dynamic_graph) : outcome dynamic_graph :=
  match apply_steps (m_modifications d) [] with
  | Normal sts =>
      Normal (mk_dynamic_graph (m_last_node_id d) (m_last_edge_id d)
                (set_bool_values sts) [])
  | Throws e sts =>
      Throws e (mk_dynamic_graph (m_last_node_id d) (m_last_edge_id d)
                  sts (m_modifications d))
  end.

(* recalculate_ids: max id + 1 over the states, in unsigned arithmetic *)
Definition max_id {T} `{!Identified T} (l : list T) : N :=
  foldl N.max 0%N (elem_id <$> l).

Definition recalculate_ids (d : dynamic_graph) : dynamic_graph :=
  let step '(ln, le) (g : graph_state) :=
    (match nodes g with [] => ln | _ => N.max ln (next_id (max_id (nodes g))) end,
     match edges g with [] => le | _ => N.max le (next_id (max_id (edges g))) end) in
  let '(ln, le) := foldl step (m_last_node_id d, m_last_edge_id d) (m_states d) in
  mk_dynamic_graph ln le (m_states d) (m_modifications d).

(* build(std::vector<graph_state> states) *)
Definition build_from (sts : list graph_state) (d : dynamic_graph) : dynamic_graph :=
  recalculate_ids
    (mk_dynamic_graph (m_last_node_id d) (m_last_edge_id d) (set_bool_values sts) []).

End DynamicGraph.
Arguments dynamic_graph F : clear implicits.

(** A value-returning call: the value, or the exception that propagates. *)
Inductive result (A : Type) :=
  | Ok (a : A)
  | Raise (e : exception).
Arguments Ok {A} a.
Arguments Raise {A} e.

Definition of_outcome {S} (o : outcome S) : result S :=
  match o with Normal s => Ok s | Throws e _ => Raise e end.

(* std::unordered_map::at *)
Definition map_at {V} (m : gmap N V) (k : N) : result V :=
  match m !! k with
  | Some v => Ok v
  | None => Raise (out_of_range "unordered_map::at")
  end.

(** ** live_set.h *)

Abbreviation live_set := (list nat).       (* m_values *)

Definition live_add (t : nat) (s : live_set) : live_set := s ++ [t].

(** [std::set_intersection] and [std::set_union] of the standard library,
    as their merge walks over two sorted ranges. *)
Fixpoint set_intersection (a b : list nat) {struct a} : list nat :=
  match a with
  | [] => []
  | x :: a' =>
      (fix walk (b : list nat) : list nat :=
         match b with
         | [] => []
         | y :: b' =>
             if x <? y then set_intersection a' b
             else if y <? x then walk b'
             else x :: set_intersection a' b'
         end) b
  end.

Fixpoint set_union (a b : list nat) {struct a} : list nat :=
  match a with
  | [] => b
  | x :: a' =>
      (fix walk (b : list nat) : list nat :=
         match b with
         | [] => x :: a'
         | y :: b' =>
             if y <? x then y :: walk b'
             else if x <? y then x :: set_union a' b
             else x :: set_union a' b'
         end) b
  end.

Definition intersection (s other : live_set) : live_set := set_intersection s other.
Definition setunion (s other : live_set) : live_set := set_union s other.
Definition join (other : live_set) (s : live_set) : live_set := setunion s other.
Definition live_empty (s : live_set) : bool :=
  match s with [] => true | _ => false end.

(** ** partitions.h, mapped_graph.h *)

Section Partitions.
Context {F : Type} `{!Scalar F}.

Record node_partition := mk_node_partition {
  np_node : node F;
  np_live_time : live_set          (* m_live_time *)
}.

Record edge_partition := mk_edge_partition {
  ep_edge : edge F;
  ep_live_time : live_set
}.

#[global] Instance node_partition_identified : Identified node_partition :=
  fun p => node_id (np_node p).
#[global] Instance edge_partition_identified : Identified edge_partition :=
  fun p => edge_id (ep_edge p).
#[global] Instance edge_partition_connecting : Connecting edge_partition :=
  {| one_id p := edge_one (ep_edge p); two_id p := edge_two (ep_edge p) |}.

Definition new_node_partition (i : N) : node_partition :=
  mk_node_partition (new_node i) [].
Definition new_edge_partition (i one two : N) : edge_partition :=
  mk_edge_partition (new_edge i one two) [].

Definition live_time (p : node_partition) : live_set := np_live_time p.

Definition add_live_time (l : live_set) (p : node_partition) : node_partition :=
  mk_node_partition (np_node p) (join l (np_live_time p)).

Definition edge_add_live_time (l : live_set) (p : edge_partition) : edge_partition :=
  mk_edge_partition (ep_edge p) (join l (ep_live_time p)).

Local Abbreviation graph_partitioning := (graph node_partition edge_partition).

Record mapped_graph := mk_mapped_graph {
  m_graph : graph_partitioning;
  m_node_map : gmap N N;
  m_edge_map : gmap N N
}.

Definition empty_mapped_graph : mapped_graph := mk_mapped_graph empty_graph ∅ ∅.

Definition mg_node_at (g : mapped_graph) (i : N) : option node_partition :=
  match m_node_map g !! i with
  | Some target => node_at (m_graph g) target
  | None => node_at (m_graph g) i
  end.

Definition mg_edge_at (g : mapped_graph) (i : N) : option edge_partition :=
  match m_edge_map g !! i with
  | Some target => edge_at (m_graph g) target
  | None => edge_at (m_graph g) i
  end.

Definition map_node (n target : N) (g : mapped_graph) : mapped_graph :=
  mk_mapped_graph (m_graph g) (emplace n target (m_node_map g)) (m_edge_map g).

Definition map_edge (e target : N) (g : mapped_graph) : mapped_graph :=
  mk_mapped_graph (m_graph g) (m_node_map g) (emplace e target (m_edge_map g)).

(** ** foresighted_layout.h: live times, supergraph, GAP *)

(* result[el.id()].add(t) *)
Definition note_live (t : nat) (m : gmap N live_set) (i : N) : gmap N live_set :=
  <[i := live_add t (default [] (m !! i))]> m.

Fixpoint live_times_from {T} `{!Identified T} (elems : graph_state F -> list T)
    (t : nat) (sts : list (graph_state F)) (m : gmap N live_set) : gmap N live_set :=
  match sts with
  | [] => m
  | g :: rest =>
      live_times_from elems (S t) rest (foldl (note_live t) m (elem_id <$> elems g))
  end.

Definition node_live_times (sts : list (graph_state F)) : gmap N live_set :=
  live_times_from nodes 0 sts ∅.
Definition edge_live_times (sts : list (graph_state F)) : gmap N live_set :=
  live_times_from edges 0 sts ∅.

(* the two inner loops of calculate_supergraph for one state *)
Fixpoint emplace_edges (es : list (edge F)) (sg : graph_state F) : result (graph_state F) :=
  match es with
  | [] => Ok sg
  | e :: es' =>
      match push_edge (new_edge (elem_id e) (one_id e) (two_id e)) sg with
      | Normal sg' => emplace_edges es' sg'
      | Throws ex _ => Raise ex
      end
  end.

Definition supergraph_add (g : graph_state F) (sg : graph_state F) : result (graph_state F) :=
  emplace_edges (edges g)
    (foldl (fun acc n => push_node (new_node (elem_id n)) acc) sg (nodes g)).

Fixpoint supergraph_from (animation : list (graph_state F)) (sg : graph_state F)
  : result (graph_state F) :=
  match animation with
  | [] => Ok sg
  | g :: rest =>
      match supergraph_add g sg with
      | Ok sg' => supergraph_from rest sg'
      | Raise ex => Raise ex
      end
  end.

Definition calculate_supergraph (animation : list (graph_state F)) : result (graph_state F) :=
  supergraph_from animation empty_graph.

(* the loop over gap.graph().nodes() with its break: the first partition
   whose live time does not meet [l] is extended *)
Fixpoint extend_first (l : live_set) (ps : list node_partition)
  : option (list node_partition * N) :=
  match ps with
  | [] => None
  | p :: ps' =>
      if live_empty (intersection (live_time p) l)
      then Some (add_live_time l p :: ps', elem_id p)
      else match extend_first l ps' with
           | Some (ps'', target) => Some (p :: ps'', target)
           | None => None
           end
  end.

Definition with_nodes (ps : list node_partition) (g : graph_partitioning)
  : graph_partitioning :=
  mk_graph (mk_container ps (c_map (m_nodes g))) (m_edges g) (m_index g).

Definition with_edges (es : list edge_partition) (g : graph_partitioning)
  : graph_partitioning :=
  mk_graph (m_nodes g) (mk_container es (c_map (m_edges g))) (m_index g).

(* the body of the first loop of calculate_gap *)
Definition gap_node (nodes_live : gmap N live_set) (gap : mapped_graph) (n : node F)
  : result mapped_graph :=
  match map_at nodes_live (elem_id n) with
  | Raise ex => Raise ex
  | Ok l =>
      match extend_first l (nodes (m_graph gap)) with
      | Some (ps, target) =>
          Ok (map_node (elem_id n) target
                (mk_mapped_graph (with_nodes ps (m_graph gap))
                   (m_node_map gap) (m_edge_map gap)))
      | None =>
          let '(g, k) := push_node_at (new_node_partition (elem_id n)) (m_graph gap) in
          Ok (mk_mapped_graph
                (with_nodes (alter (add_live_time l) k (nodes g)) g)
                (m_node_map gap) (m_edge_map gap))
      end
  end.

Fixpoint gap_nodes (nodes_live : gmap N live_set) (ns : list (node F)) (gap : mapped_graph)
  : result mapped_graph :=
  match ns with
  | [] => Ok gap
  | n :: ns' =>
      match gap_node nodes_live gap n with
      | Ok gap' => gap_nodes nodes_live ns' gap'
      | Raise ex => Raise ex
      end
  end.

(* the body of the second loop of calculate_gap *)
Definition gap_edge (edges_live : gmap N live_set) (gap : mapped_graph) (e : edge F)
  : result mapped_graph :=
  match mg_node_at gap (one_id e), mg_node_at gap (two_id e) with
  | Some p1, Some p2 =>
      match push_edge_at (new_edge_partition (elem_id e) (elem_id p1) (elem_id p2))
              (m_graph gap) with
      | (Normal g, k) =>
          match map_at edges_live (elem_id e) with
          | Ok l =>
              Ok (mk_mapped_graph
                    (with_edges (alter (edge_add_live_time l) k (edges g)) g)
                    (m_node_map gap) (m_edge_map gap))
          | Raise ex => Raise ex
          end
      | (Throws ex _, _) => Raise ex
      end
  | _, _ => Raise (out_of_range "unordered_map::at")
  end.

Fixpoint gap_edges (edges_live : gmap N live_set) (es : list (edge F)) (gap : mapped_graph)
  : result mapped_graph :=
  match es with
  | [] => Ok gap
  | e :: es' =>
      match gap_edge edges_live gap e with
      | Ok gap' => gap_edges edges_live es' gap'
      | Raise ex => Raise ex
      end
  end.

Definition calculate_gap (supergraph : graph_state F)
    (nodes_live edges_live : gmap N live_set) : result mapped_graph :=
  match gap_nodes nodes_live (nodes supergraph) empty_mapped_graph with
  | Ok gap => gap_edges edges_live (edges supergraph) gap
  | Raise ex => Raise ex
  end.

(* the GAP of a keyframe sequence, as basic_layout computes it *)
Definition gap_of (sts : list (graph_state F)) : result mapped_graph :=
  match calculate_supergraph sts with
  | Ok sg => calculate_gap sg (node_live_times sts) (edge_live_times sts)
  | Raise ex => Raise ex
  end.

(* gap.node_at(n).id(): the partition node a supergraph node is assigned to *)
Definition partition_of (gap : mapped_graph) (n : N) : option N :=
  elem_id <$> mg_node_at gap n.

End Partitions.
Arguments node_partition F : clear implicits.
Arguments edge_partition F : clear implicits.

Abbreviation graph_partitioning F := (graph (node_partition F) (edge_partition F)).
Arguments mapped_graph F : clear implicits.

(** ** cooling.h *)

Record cooling (F : Type) := mk_cooling {
  iterations : nat;
  start_temperature : F;
  anneal : F -> F
}.
Arguments mk_cooling {F} _ _ _.
Arguments iterations {F} _.
Arguments start_temperature {F} _.
Arguments anneal {F} _.

(** ** The static layout a foresighted layout is instantiated with

    [foresighted_layout<StaticLayout>] uses its template parameter through
    [iteration(graph, width, height, temperature)], which rewrites the graph
    in place, and [relative_unit(width, height)]. *)
Class StaticLayout (F : Type) `{!Scalar F} := {
  iteration : graph_state F -> F -> F -> F -> graph_state F;
  relative_unit : F -> F -> F
}.

(** ** foresighted_layout.h: the tolerance pass *)

Section Tolerance.
Context {F : Type} `{!Scalar F} `{!StaticLayout F}.

Local Abbreviation graph_state := (graph_state F).

(* the members the pass reads: m_cooling and m_relative_distance *)
Record layout_settings := mk_layout_settings {
  m_cooling : cooling F;
  m_relative_distance : bool
}.

(* the body of the loop of distance(): (result, count) after one node *)
Definition distance_step (two : graph_state) (acc : F * nat) (n : node F) : F * nat :=
  if node_exists two (elem_id n) then
    match node_at two (elem_id n) with
    | Some other =>
        let diff_x := fsub (c_x (pos n)) (c_x (pos other)) in
        let diff_y := fsub (c_y (pos n)) (c_y (pos other)) in
        (fadd (fst acc) (fsqrt (fadd (fmul diff_x diff_x) (fmul diff_y diff_y))),
         S (snd acc))
    | None => acc
    end
  else acc.

Definition distance (cfg : layout_settings) (one two : graph_state) : F :=
  let '(result, count) := foldl (distance_step two) (fzero, 0) (nodes one) in
  if m_relative_distance cfg then fdiv result (of_nat count) else result.

(* max_nodes: the size of the largest state *)
Definition max_nodes (sts : list graph_state) : nat :=
  foldl Nat.max 0 ((fun g => length (nodes g)) <$> sts).

(* tolerance_value after the adjustment at the head of tolerance() *)
Definition tolerance_abs (cfg : layout_settings) (sts : list graph_state)
    (width height tolerance_value : F) : F :=
  if m_relative_distance cfg then tolerance_value
  else fmul tolerance_value (fmul (relative_unit width height) (of_nat (max_nodes sts))).

(* (s == 0 || distance(copy, left) < tol) && (s >= size - 1 || distance(copy, right) < tol),
   [left] and [right] being what is read at s - 1 and s + 1 *)
Definition within (cfg : layout_settings) (tol : F) (size s : nat)
    (copy : graph_state) (left right : option graph_state) : bool :=
  (Nat.eqb s 0
   || match left with Some l => fltb (distance cfg copy l) tol | None => false end)
  && (Nat.leb (size - 1) s
      || match right with Some r => fltb (distance cfg copy r) tol | None => false end).

(* the body of the inner loop of tolerance() for index s; the boolean tells
   whether states[s] took the copy *)
Definition seq_step (cfg : layout_settings) (width height tol temp : F)
    (sts : list graph_state) (s : nat) : list graph_state * bool :=
  match sts !! s with
  | Some g =>
      let copy := iteration g width height temp in
      if within cfg tol (length sts) s copy (sts !! (s - 1)) (sts !! (s + 1))
      then (<[s := copy]> sts, true)
      else (sts, false)
  | None => (sts, false)
  end.

(* the inner loop over the indices [ss], with the branches taken *)
Fixpoint seq_sweep (cfg : layout_settings) (width height tol temp : F)
    (ss : list nat) (sts : list graph_state) : list graph_state * list bool :=
  match ss with
  | [] => (sts, [])
  | s :: ss' =>
      let '(sts1, b) := seq_step cfg width height tol temp sts s in
      let '(sts2, bs) := seq_sweep cfg width height tol temp ss' sts1 in
      (sts2, b :: bs)
  end.

Definition seq_round (cfg : layout_settings) (width height tol temp : F)
    (sts : list graph_state) : list graph_state * list bool :=
  seq_sweep cfg width height tol temp (seq 0 (length sts)) sts.

(* the outer loop: [rounds] iterations from temperature [temp]; the result
   carries the acceptance pattern of every round, first round first *)
Fixpoint seq_rounds (cfg : layout_settings) (width height tol : F)
    (rounds : nat) (temp : F) (sts : list graph_state)
  : list graph_state * list (list bool) :=
  match rounds with
  | 0 => (sts, [])
  | S r =>
      let '(sts1, bs) := seq_round cfg width height tol temp sts in
      let '(sts2, log) :=
        seq_rounds cfg width height tol r (anneal (m_cooling cfg) temp) sts1 in
      (sts2, bs :: log)
  end.

(* foresighted_layout::tolerance *)
Definition tolerance (cfg : layout_settings) (sts : list graph_state)
    (width height tolerance_value : F) : list graph_state * list (list bool) :=
  seq_rounds cfg width height (tolerance_abs cfg sts width height tolerance_value)
    (iterations (m_cooling cfg)) (start_temperature (m_cooling cfg)) sts.

(** ** foresighted_parallel.h *)

(* what the lambda of tolerance() shares by reference *)
Record shared := mk_shared {
  sh_states : list graph_state;
  sh_copies : list graph_state;
  sh_apply : list bool;
  sh_temp : F
}.

(* get(i) *)
Definition get (sh : shared) (i : nat) : option graph_state :=
  match sh_apply sh !! i with
  | Some true => sh_copies sh !! i
  | _ => sh_states sh !! i
  end.

(* the indices begin, begin + step, ... below size *)
Fixpoint strided_from (fuel i step size : nat) : list nat :=
  match fuel with
  | 0 => []
  | S fuel' => if i <? size then i :: strided_from fuel' (i + step) step size else []
  end.

Definition strided (begin step size : nat) : list nat :=
  strided_from size begin step size.

(* if (apply[i]) states[i] = copies[i]; else copies[i] = states[i]; *)
Definition reconcile (sh : shared) (i : nat) : shared :=
  match sh_apply sh !! i, sh_states sh !! i, sh_copies sh !! i with
  | Some true, _, Some c =>
      mk_shared (<[i := c]> (sh_states sh)) (sh_copies sh) (sh_apply sh) (sh_temp sh)
  | Some false, Some g, _ =>
      mk_shared (sh_states sh) (<[i := g]> (sh_copies sh)) (sh_apply sh) (sh_temp sh)
  | _, _, _ => sh
  end.

(* iteration(copies[i], width, height, temp) *)
Definition iterate_copy (width height : F) (sh : shared) (i : nat) : shared :=
  match sh_copies sh !! i with
  | Some c =>
      mk_shared (sh_states sh)
        (<[i := iteration c width height (sh_temp sh)]> (sh_copies sh))
        (sh_apply sh) (sh_temp sh)
  | None => sh
  end.

(* the two loops a worker runs before the first barrier of a round *)
Definition worker (width height : F) (begin step : nat) (sh : shared) : shared :=
  let own := strided begin step (length (sh_states sh)) in
  foldl (iterate_copy width height) (foldl reconcile sh own) own.

(* the scan of thread 0 for index i *)
Definition decide_at (cfg : layout_settings) (tol : F) (sh : shared) (i : nat) : shared :=
  let cleared :=
    mk_shared (sh_states sh) (sh_copies sh) (<[i := false]> (sh_apply sh)) (sh_temp sh) in
  match sh_copies sh !! i with
  | Some c =>
      if within cfg tol (length (sh_states sh)) i c
           (get cleared (i - 1))
           (sh_states sh !! (i + 1))
      then mk_shared (sh_states sh) (sh_copies sh) (<[i := true]> (sh_apply sh)) (sh_temp sh)
      else cleared
  | None => cleared
  end.

(* what thread 0 does between the two barriers *)
Definition scan (cfg : layout_settings) (tol : F) (sh : shared) : shared :=
  let sh' := foldl (decide_at cfg tol) sh (seq 0 (length (sh_states sh))) in
  mk_shared (sh_states sh') (sh_copies sh') (sh_apply sh')
    (anneal (m_cooling cfg) (sh_temp sh')).

(* one round: the workers in the order [schedule] reach the barrier, then
   thread 0 scans *)
Definition par_round (cfg : layout_settings) (width height tol : F)
    (threads : nat) (schedule : list nat) (sh : shared) : shared :=
  scan cfg tol (foldl (fun acc begin => worker width height begin threads acc) sh schedule).

(* the rounds, [schedules r] being the order of the workers in round r; the
   result carries the vector [apply] as each round leaves it *)
Fixpoint par_rounds (cfg : layout_settings) (width height tol : F)
    (threads : nat) (schedules : nat -> list nat) (rounds r : nat) (sh : shared)
  : shared * list (list bool) :=
  match rounds with
  | 0 => (sh, [])
  | S k =>
      let sh1 := par_round cfg width height tol threads (schedules r) sh in
      let '(sh2, log) :=
        par_rounds cfg width height tol threads schedules k (S r) sh1 in
      (sh2, sh_apply sh1 :: log)
  end.

(* parallel_foresighted_layout::tolerance *)
Definition parallel_tolerance (cfg : layout_settings) (threads : nat)
    (schedules : nat -> list nat) (sts : list graph_state)
    (width height tolerance_value : F) : list graph_state * list (list bool) :=
  let sh0 := mk_shared sts sts (replicate (length sts) false)
               (start_temperature (m_cooling cfg)) in
  let '(sh, log) :=
    par_rounds cfg width height (tolerance_abs cfg sts width height tolerance_value)
      threads schedules (iterations (m_cooling cfg)) 0 sh0 in
  (sh_states sh, log).

End Tolerance.
Arguments layout_settings F : clear implicits.
Arguments shared F : clear implicits.

(** ** fruchterman_reingold.h: the border force *)

Section FruchtermanReingold.
Context {F : Type} `{!Scalar F}.

Record fruchterman_reingold := mk_fruchterman_reingold {
  m_border_force : F;        (* 0.6 *)
  m_k_coeff : F              (* 0.6 *)
}.

Definition default_fruchterman_reingold : fruchterman_reingold :=
  mk_fruchterman_reingold (of_Q (6 # 10)) (of_Q (6 # 10)).

Definition SmallOffset : F := of_Q (1 # 1000).

(* the lambda [displace] of border_displacement *)
Definition displace (fr : fruchterman_reingold) (k coord size : F) : F :=
  fdiv (fmul (fmul k k) (m_border_force fr))
       (fadd (fabs (fsub (fmul size (of_Q (1 # 2))) coord))
             (fabs (fmul size SmallOffset))).

(* float border_displacement(float k, float coord, float size) *)
Definition border_displacement (fr : fruchterman_reingold) (k coord size : F) : F :=
  fsub (displace fr k coord (fneg size)) (displace fr k coord size).

(* reset_and_border: the vector [disp] it fills *)
Definition reset_and_border (fr : fruchterman_reingold) {E : Type}
    (g : graph (node F) E) (width height k : F) : list (coords F) :=
  (fun n =>
     mk_coords (border_displacement fr k width (c_x (pos n)))
               (border_displacement fr k height (c_y (pos n)))) <$> nodes g.

(* the k of iteration() *)
Definition iteration_k (fr : fruchterman_reingold) {E : Type}
    (g : graph (node F) E) (width height : F) : F :=
  let area := fmul width height in
  fmul (m_k_coeff fr) (fsqrt (fdiv area (of_nat (length (nodes g))))).

(* the displacements iteration() starts from *)
Definition initial_displacements (fr : fruchterman_reingold) {E : Type}
    (g : graph (node F) E) (width height : F) : list (coords F) :=
  reset_and_border fr g width height (iteration_k fr g width height).

End FruchtermanReingold.
Arguments fruchterman_reingold F : clear implicits.

(** ** interpolator.h *)

Inductive phase := idle | appear | disappear | morph | simultaneous.

#[global] Instance phase_eq_dec : EqDecision phase.
Proof. solve_decision. Defined.

(* the width of size_t, for dgraph.states().size() - 1 *)
Definition size_wrap (z : Z) : Z := z mod 2 ^ 64.

Section Interpolator.
Context {F : Type} `{!Scalar F}.

Local Abbreviation graph_state := (graph_state F).

Record frame_state := mk_frame_state {
  interpolation : F;
  fs_alpha : F;
  adding : bool;
  added : bool;
  deleting : bool;
  deleted : bool
}.

Definition initial_frame_state : frame_state :=
  mk_frame_state fzero fzero false false false false.

Record interpolator := mk_interpolator {
  m_phases : list phase;
  m_idle_time : F;
  m_appear_time : F;
  m_disappear_time : F;
  m_morph_time : F;
  m_simultaneous_time : F
}.

Definition interpolator_with (phases : list phase) : interpolator :=
  mk_interpolator phases
    (of_Q (1 # 2)) (of_Q (1 # 4)) (of_Q (1 # 4)) (of_Q 1) (of_Q (3 # 2)).

(* interpolator(phased), interpolator(simultaneous) *)
Definition interpolator_phased : interpolator :=
  interpolator_with [idle; disappear; morph; appear].

Definition set_m_phases (phases : list phase) (it : interpolator) : interpolator :=
  mk_interpolator phases (m_idle_time it) (m_appear_time it) (m_disappear_time it)
    (m_morph_time it) (m_simultaneous_time it).

(* unsigned a = count(p): the value of std::count(phases.begin(),
   phases.end(), p), narrowed to the 32 bits of [unsigned] *)
Definition count (phases : list phase) (p : phase) : Z :=
  uint_wrap (Z.of_nat (length (filter (fun q => q = p) phases))).

Definition set_phases (phases : list phase) (it : interpolator) : outcome interpolator :=
  let a := count phases appear in
  let d := count phases disappear in
  let m := count phases morph in
  let s := count phases simultaneous in
  let either_three := ((0 <? a) || (0 <? d) || (0 <? m))%Z in
  let three_correct := ((a =? 1) && (d =? 1) && (m =? 1))%Z in
  if ((1 <? s) || (1 <? a) || (1 <? d) || (1 <? m))%Z then
    Throws (invalid_argument "a phase != idle present multiple times") it
  else if (((s =? 0) && negb three_correct) || ((s =? 1) && either_three))%Z then
    Throws (invalid_argument "invalid phases") it
  else Normal (set_m_phases phases it).

Definition duration (it : interpolator) (p : phase) : F :=
  match p with
  | idle => m_idle_time it
  | appear => m_appear_time it
  | disappear => m_disappear_time it
  | morph => m_morph_time it
  | simultaneous => m_simultaneous_time it
  end.

Definition transition_duration (it : interpolator) : F :=
  foldl (fun total p => fadd total (duration it p)) fzero (m_phases it).

(* (dgraph.states().size() - 1) * transition_duration(), the difference
   taken in size_t *)
Definition length_of (it : interpolator) (dgraph : dynamic_graph F) : F :=
  fmul (of_Z (size_wrap (Z.of_nat (length (states dgraph)) - 1)))
       (transition_duration it).

Definition lerp (a b value : F) : F := fadd a (fmul value (fsub b a)).

Definition calc_alpha {T} `{!Animated F T} (animation : frame_state) (element : T) : T :=
  let new := is_new element in
  let old := is_old element in
  if negb old && negb new then element
  else
    let e1 := if new && negb (added animation) then set_alpha fzero element else element in
    let e2 := if old && deleted animation then set_alpha fzero e1 else e1 in
    let ape := new && adding animation && negb (added animation) in
    let dis := old && deleting animation in
    if ape || dis then
      set_alpha
        (fmul (fadd (of_bool (negb ape)) (fmul (fs_alpha animation) (of_bool ape)))
              (fsub fone (fmul (fs_alpha animation) (of_bool dis))))
        e2
    else e2.

(* the loop of get_current_phase from position i *)
Fixpoint current_phase_from (it : interpolator) (ps : list phase) (i : nat) (time : F)
  : result (F * nat) :=
  match ps with
  | [] => Raise (out_of_range "time overflow phases")
  | p :: ps' =>
      if fltb time (duration it p) then Ok (time, i)
      else current_phase_from it ps' (S i) (fsub time (duration it p))
  end.

Definition get_current_phase (it : interpolator) (time : F) : result (F * nat) :=
  current_phase_from it (m_phases it) 0 time.

Definition perform_phase (it : interpolator) (p : phase) (time : F)
    (animation : frame_state) : frame_state :=
  let d := duration it p in
  match p with
  | idle => animation
  | appear =>
      mk_frame_state (interpolation animation) (fdiv time d)
        (fltb time d) (if fgeb time d then true else added animation)
        (deleting animation) (deleted animation)
  | disappear =>
      mk_frame_state (interpolation animation) (fdiv time d)
        (adding animation) (added animation)
        (fltb time d) (if fgeb time d then true else deleted animation)
  | morph =>
      mk_frame_state (fdiv time d) (fs_alpha animation)
        (adding animation) (added animation) (deleting animation) (deleted animation)
  | simultaneous =>
      mk_frame_state (fdiv time d) (fdiv time d)
        (fltb time d) (if fgeb time d then true else added animation)
        (fltb time d) (if fgeb time d then true else deleted animation)
  end.

(* the frame state after the phases before the current one and the current
   one at its local time *)
Definition animation_at (it : interpolator) (current : F * nat) : frame_state :=
  let before :=
    foldl (fun an p => perform_phase it p (duration it p) an)
      initial_frame_state (take (snd current) (m_phases it)) in
  match m_phases it !! snd current with
  | Some p => perform_phase it p (fst current) before
  | None => before
  end.

Definition clear_new {T} `{!Animated F T} (el : T) : T := set_is_new false el.

(* "add new nodes and edges from the next state" *)
Definition import_nodes (next : graph_state) (cur : graph_state) : graph_state :=
  foldl (fun g n => if is_new n then push_node (set_is_old false n) g else g)
    cur (nodes next).

Fixpoint import_edges (es : list (edge F)) (cur : graph_state) : result graph_state :=
  match es with
  | [] => Ok cur
  | e :: es' =>
      if is_new e then
        match push_edge (set_is_old false e) cur with
        | Normal g => import_edges es' g
        | Throws ex _ => Raise ex
        end
      else import_edges es' cur
  end.

Definition with_elements (ns : list (node F)) (es : list (edge F)) (g : graph_state)
  : graph_state :=
  mk_graph (mk_container ns (c_map (m_nodes g))) (mk_container es (c_map (m_edges g)))
    (m_index g).

(* "interpolate between the two states and assign alpha values", one node *)
Definition morph_node (animation : frame_state) (next : graph_state) (n : node F)
  : node F :=
  let moved :=
    if node_exists next (elem_id n) then
      match node_at next (elem_id n) with
      | Some nx =>
          set_pos (mk_coords
                     (lerp (c_x (pos n)) (c_x (pos nx)) (interpolation animation))
                     (lerp (c_y (pos n)) (c_y (pos nx)) (interpolation animation))) n
      | None => n
      end
    else n in
  calc_alpha animation moved.

(* interpolator::operator() *)
Definition interpolate (it : interpolator) (dgraph : dynamic_graph F) (time : F)
  : result graph_state :=
  if fltb time fzero then Raise (out_of_range "time < 0")
  else if fgtb time (length_of it dgraph) then Raise (out_of_range "time > length()")
  else
    match states dgraph with
    | [] => Ok empty_graph
    | first :: _ =>
        let td := transition_duration it in
        let index_one := Z.to_nat (ffloor (fdiv time td)) in
        let index_two := Z.to_nat (fceil (fdiv time td)) in
        let value := fsub time (fmul (of_nat index_one) td) in
        match get_current_phase it value with
        | Raise ex => Raise ex
        | Ok current =>
            let animation := animation_at it current in
            let last := length (states dgraph) - 1 in
            let current_state := default first (states dgraph !! Nat.min index_one last) in
            let next_state := default first (states dgraph !! Nat.min index_two last) in
            let cleared :=
              with_elements (clear_new <$> nodes current_state)
                (clear_new <$> edges current_state) current_state in
            match import_edges (edges next_state) (import_nodes next_state cleared) with
            | Raise ex => Raise ex
            | Ok merged =>
                Ok (with_elements (morph_node animation next_state <$> nodes merged)
                      (calc_alpha animation <$> edges merged) merged)
            end
        end
    end.

End Interpolator.
Arguments frame_state F : clear implicits.
Arguments interpolator F : clear implicits.

(** ** parse.h

    A stream is the text it holds: an [std::ostream] is the characters
    written, an [std::istream] the characters left to read together with
    [good()].  [char] is taken as signed, so that the [char] made of the
    end-of-file value compares equal to it. *)

Definition text (s : string) : list ascii := String.list_ascii_of_string s.

Record istream := mk_istream {
  in_buf : list ascii;      (* what is left to read *)
  in_good : bool            (* good() *)
}.

Definition istream_of (s : list ascii) : istream := mk_istream s true.

(* in.get(): [None] stands for the end-of-file value *)
Definition in_get (s : istream) : (option ascii * istream)%type :=
  if in_good s then
    match in_buf s with
    | c :: rest => (Some c, mk_istream rest true)
    | [] => (None, mk_istream [] false)
    end
  else (None, s).

(* in.peek() *)
Definition in_peek (s : istream) : (option ascii * istream)%type :=
  if in_good s then
    match in_buf s with
    | c :: _ => (Some c, s)
    | [] => (None, mk_istream [] false)
    end
  else (None, s).

(* the conversion of the value of get() to char *)
Definition to_char (c : option ascii) : ascii := default "255"%char c.

(* std::isspace in the C locale *)
Definition isspace (c : ascii) : bool :=
  let n := nat_of_ascii c in
  (n =? 32) || ((9 <=? n) && (n <=? 13)).

(* the loop of reduce_whitespace *)
Fixpoint reduce_loop (str : list ascii) (ignore : bool) (result : list ascii)
  : list ascii :=
  match str with
  | [] => result
  | ch :: rest =>
      let white := isspace ch in
      reduce_loop rest white
        (if negb ignore || negb white
         then result ++ [if white then " "%char else ch]
         else result)
  end.

Definition reduce_whitespace (str : list ascii) : list ascii :=
  let result := reduce_loop str false [] in
  let result :=
    match result with
    | c :: r => if Ascii.eqb c " " then r else result
    | [] => result
    end in
  match last result with
  | Some c => if Ascii.eqb c " " then removelast result else result
  | None => result
  end.

(* the loop of split *)
Fixpoint split_loop (str : list ascii) (dlm : ascii) (chunk : list ascii)
    (result : list (list ascii)) : list (list ascii) :=
  match str with
  | [] => result
  | c :: rest =>
      let chunk := if Ascii.eqb c dlm then chunk else chunk ++ [c] in
      if Ascii.eqb c dlm || bool_decide (rest = [])
      then split_loop rest dlm [] (result ++ [chunk])
      else split_loop rest dlm chunk result
  end.

Definition split (str : list ascii) (dlm : ascii) : list (list ascii) :=
  split_loop str dlm [] [].

(* skip_until on a good stream, by the characters left: the end of the text
   makes get() return the end-of-file value, and the next turn returns false *)
Fixpoint skip_loop (buf : list ascii) (ch : ascii) : (bool * istream)%type :=
  match buf with
  | [] => (false, mk_istream [] false)
  | c :: rest => if Ascii.eqb c ch then (true, mk_istream rest true) else skip_loop rest ch
  end.

Definition skip_until (s : istream) (ch : ascii) : (bool * istream)%type :=
  if in_good s then skip_loop (in_buf s) ch else (false, s).

Definition stream_ended (ch : ascii) : exception :=
  runtime_error ("stream ended, expected '" +:+ String ch "'").

(* read_until on a good stream, by the characters left *)
Fixpoint read_loop (buf : list ascii) (ch : ascii) (str : list ascii)
  : result (list ascii * istream)%type :=
  match buf with
  | [] => Raise (stream_ended ch)
  | c :: rest =>
      if Ascii.eqb c ch then Ok (str, mk_istream rest true)
      else read_loop rest ch (str ++ [c])
  end.

Definition read_until (s : istream) (ch : ascii) : result (list ascii * istream)%type :=
  if in_good s then read_loop (in_buf s) ch [] else Raise (stream_ended ch).

Definition validate (ch : ascii) : result unit :=
  if Ascii.eqb ch "255" then Raise (runtime_error "unexpected end of input")
  else if negb (isspace ch)
  then Raise (runtime_error ("unexpected character '" +:+ String ch "'"))
  else Ok tt.

(** The conversions of the standard library. *)

Definition digit_value (c : ascii) : option Z :=
  let n := nat_of_ascii c in
  if (48 <=? n) && (n <=? 57) then Some (Z.of_nat (n - 48)) else None.

Definition digit_char (d : N) : ascii := ascii_of_nat (48 + N.to_nat d).

(* the value of the longest prefix of digits, after [acc], and what follows *)
Fixpoint digits_value (s : list ascii) (acc : Z) : (Z * list ascii)%type :=
  match s with
  | [] => (acc, [])
  | c :: rest =>
      match digit_value c with
      | Some d => digits_value rest (10 * acc + d)
      | None => (acc, s)
      end
  end.

Fixpoint skip_space (s : list ascii) : list ascii :=
  match s with
  | c :: rest => if isspace c then skip_space rest else s
  | [] => []
  end.

Definition signed (s : list ascii) : (bool * list ascii)%type :=
  match s with
  | c :: rest =>
      if Ascii.eqb c "-" then (true, rest)
      else if Ascii.eqb c "+" then (false, rest)
      else (false, s)
  | [] => (false, s)
  end.

Definition starts_with_digit (s : list ascii) : bool :=
  match s with
  | c :: _ => bool_decide (is_Some (digit_value c))
  | [] => false
  end.

(* std::stoi: leading white space, a sign, then digits; what follows the
   digits is not looked at *)
Definition stoi (str : list ascii) : result Z :=
  let '(negative, s) := signed (skip_space str) in
  if negb (starts_with_digit s) then Raise (invalid_argument "stoi")
  else
    let v := fst (digits_value s 0) in
    let v := if negative then (- v)%Z else v in
    if ((v <? - 2 ^ 31) || (2 ^ 31 - 1 <? v))%Z then Raise (out_of_range "stoi")
    else Ok v.

(* operator<<(unsigned): the decimal digits, at most ten of them *)
Fixpoint print_digits (fuel : nat) (n : N) (acc : list ascii) : list ascii :=
  match fuel with
  | 0 => acc
  | S f =>
      let acc := digit_char (n mod 10) :: acc in
      if (n / 10 =? 0)%N then acc else print_digits f (n / 10) acc
  end.

Definition print_unsigned (n : N) : list ascii := print_digits 10 n [].

(* the conversion of the int to the unsigned of node_id and edge_id *)
Definition id_of_int (v : Z) : N := Z.to_N (uint_wrap v).

(** The text of a [float]: [operator<<], which writes as [%g] does with six
    significant digits, and [std::stof]. *)
Class Textual (F : Type) := {
  print_float : F -> list ascii;
  stof : list ascii -> result F
}.

Section Parse.
Context {F : Type} `{!Scalar F, !Textual F}.

Local Abbreviation graph_state := (graph_state F).

(* operator<<(std::ostream&, const node&) *)
Definition write_node (n : node F) : list ascii :=
  text "n " ++ print_unsigned (elem_id n)
  ++ text " " ++ print_float (c_x (pos n))
  ++ text " " ++ print_float (c_y (pos n))
  ++ text ";".

(* operator<<(std::ostream&, const edge&) *)
Definition write_edge (e : edge F) : list ascii :=
  text "e " ++ print_unsigned (elem_id e)
  ++ text " " ++ print_unsigned (one_id e)
  ++ text " " ++ print_unsigned (two_id e)
  ++ text ";".

Definition newline : list ascii := ["010"%char].

(* operator<<(std::ostream&, const graph<N, E>&) *)
Definition write_graph (g : graph_state) : list ascii :=
  text "[" ++ newline
  ++ concat ((fun n => write_node n ++ newline) <$> nodes g)
  ++ concat ((fun e => write_edge e ++ newline) <$> edges g)
  ++ text "]" ++ newline.

(* operator<<(std::ostream&, const dynamic_graph&) *)
Definition write_dynamic_graph (dgraph : dynamic_graph F) : list ascii :=
  text "{" ++ newline
  ++ concat (write_graph <$> states dgraph)
  ++ text "}" ++ newline.

(* the three parameters of a statement *)
Definition parameters (str : list ascii) : list (list ascii) :=
  split (reduce_whitespace str) " ".

(* operator>>(std::istream&, node&) *)
Definition read_node (s : istream) (n : node F) : result (istream * node F)%type :=
  let '(found, s) := skip_until s "n" in
  if negb found then Ok (s, n)
  else
    match read_until s ";" with
    | Raise e => Raise e
    | Ok (str, s) =>
        match parameters str with
        | [b0; b1; b2] =>
            match stoi b0, stof b1, stof b2 with
            | Ok i, Ok x, Ok y =>
                Ok (s, set_pos (mk_coords x y) (new_node (id_of_int i)))
            | _, _, _ => Raise (runtime_error "invalid node parameters")
            end
        | _ => Raise (runtime_error "invalid number of node parameters")
        end
    end.

(* operator>>(std::istream&, edge&) *)
Definition read_edge (s : istream) (e : edge F) : result (istream * edge F)%type :=
  let '(found, s) := skip_until s "e" in
  if negb found then Ok (s, e)
  else
    match read_until s ";" with
    | Raise ex => Raise ex
    | Ok (str, s) =>
        match parameters str with
        | [b0; b1; b2] =>
            match stoi b0, stoi b1, stoi b2 with
            | Ok i, Ok one, Ok two =>
                Ok (s, new_edge (id_of_int i) (id_of_int one) (id_of_int two))
            | _, _, _ => Raise (runtime_error "invalid edge parameters")
            end
        | _ => Raise (runtime_error "invalid number of edge parameters")
        end
    end.

(* the loop of operator>>(std::istream&, graph<N, E>&): [None] when the
   turns allowed are used up *)
Fixpoint read_graph_loop (turns : nat) (s : istream) (g : graph_state)
  : option (result (istream * graph_state)%type) :=
  match turns with
  | 0 => None
  | S turns =>
      if negb (in_good s) then Some (Ok (s, g))
      else
        let '(c, s) := in_peek s in
        if bool_decide (c = Some "]"%char) then Some (Ok (snd (in_get s), g))
        else if bool_decide (c = Some "n"%char) then
          match read_node s (new_node 1337) with
          | Raise ex => Some (Raise ex)
          | Ok (s, n) => read_graph_loop turns s (push_node n g)
          end
        else if bool_decide (c = Some "e"%char) then
          match read_edge s (new_edge 1337 666 420) with
          | Raise ex => Some (Raise ex)
          | Ok (s, e) =>
              match push_edge e g with
              | Normal g => read_graph_loop turns s g
              | Throws ex _ => Some (Raise ex)
              end
          end
        else
          let '(c, s) := in_get s in
          match validate (to_char c) with
          | Raise ex => Some (Raise ex)
          | Ok _ => read_graph_loop turns s g
          end
  end.

(* every turn of the loops takes a character or ends the loop *)
Definition turns_for (s : istream) : nat := S (length (in_buf s)).

(* operator>>(std::istream&, graph<N, E>&) *)
Definition read_graph (s : istream) (g : graph_state)
  : option (result (istream * graph_state)%type) :=
  let '(found, s) := skip_until s "[" in
  if negb found then Some (Ok (s, g))
  else read_graph_loop (turns_for s) s g.

(* the loop of operator>>(std::istream&, dynamic_graph&) *)
Fixpoint read_states_loop (turns : nat) (s : istream) (sts : list graph_state)
    (dgraph : dynamic_graph F) : option (result (istream * dynamic_graph F)%type) :=
  match turns with
  | 0 => None
  | S turns =>
      if negb (in_good s) then Some (Raise (out_of_range "stream ended, expected '}'"))
      else
        let '(c, s) := in_peek s in
        if bool_decide (c = Some "}"%char)
        then Some (Ok (snd (in_get s), build_from sts dgraph))
        else if bool_decide (c = Some "["%char) then
          match read_graph s empty_graph with
          | None => None
          | Some (Raise ex) => Some (Raise ex)
          | Some (Ok (s, state)) => read_states_loop turns s (sts ++ [state]) dgraph
          end
        else
          let '(c, s) := in_get s in
          match validate (to_char c) with
          | Raise ex => Some (Raise ex)
          | Ok _ => read_states_loop turns s sts dgraph
          end
  end.

(* operator>>(std::istream&, dynamic_graph&) *)
Definition read_dynamic_graph (s : istream) (dgraph : dynamic_graph F)
  : option (result (istream * dynamic_graph F)%type) :=
  let '(found, s) := skip_until s "{" in
  if negb found then Some (Ok (s, dgraph))
  else read_states_loop (turns_for s) s [] dgraph.

End Parse.

(** ** Exact rational scalars

    The arithmetic of [Q] without rounding, for the statements that are
    made of the code in exact arithmetic.  It differs from [float] beyond
    rounding in two places, which those statements keep away from: a
    quotient by zero is 0 here and an infinity or a NaN in the code, and
    [Qsqrt] is exact on squares of rationals only and rounds down to a
    multiple of [1 / Qden q] otherwise. *)

Definition Qsqrt (q : Q) : Q := Z.sqrt (Qnum q * Z.pos (Qden q)) # Qden q.

Definition Qltb (a b : Q) : bool := negb (Qle_bool b a).

#[global] Instance Q_scalar : Scalar Q := {|
  fzero := 0%Q;
  fone := 1%Q;
  fadd := Qplus;
  fsub := Qminus;
  fmul := Qmult;
  fdiv := Qdiv;
  fneg := Qopp;
  fabs := Qabs;
  fsqrt := Qsqrt;
  fltb := Qltb;
  fleb := Qle_bool;
  feqb := Qeq_bool;
  of_Z := inject_Z;
  of_Q := fun q => q;
  ffloor := Qfloor;
  fceil := Qceiling
|}.

(** ** Concrete inputs *)

(* three nodes 0, 1, 2 and the edges 0 (between 0 and 1) and 1 (between 0
   and 2), then edge 0 removed *)
Definition star_operations : list modification :=
  [mod_push_node 0; mod_push_node 1; mod_push_node 2;
   mod_push_edge 0 0 1; mod_push_edge 1 0 2; mod_remove_edge 0].

(* the log of the test case "bool values": two nodes and an edge at step 0,
   node 0 removed at step 1, node 1 removed at step 2 *)
Definition fading_log : dynamic_graph Q :=
  mk_dynamic_graph 2 1 []
    [[mod_push_node 0; mod_push_node 1; mod_push_edge 0 0 1];
     [mod_remove_node 0];
     [mod_remove_node 1]].

(* a graph of one node, placed at (x, y) *)
Definition single_node (x y : Q) : graph_state Q :=
  push_node (set_pos (mk_coords x y) (new_node 0)) empty_graph.

(* three keyframes of the node 0, at x = 0, x = 1/2 and x = 0 *)
Definition three_keyframes : list (graph_state Q) :=
  [single_node 0 0; single_node (1 # 2) 0; single_node 0 0].

(* a static layout that moves every node to the right by the temperature *)
Definition drift (g : graph_state Q) (temp : Q) : graph_state Q :=
  with_elements
    ((fun n => set_pos (mk_coords (c_x (pos n) + temp)%Q (c_y (pos n))) n) <$> nodes g)
    (edges g) g.

Definition drift_layout : StaticLayout Q :=
  {| iteration g _ _ temp := drift g temp; relative_unit _ _ := 1%Q |}.

(* one iteration from temperature 1/2, relative distance *)
Definition one_round : layout_settings Q :=
  mk_layout_settings (mk_cooling 1 (1 # 2) (fun t => t * (1 # 2))%Q) true.

(* node 0 lives in state 0 only and node 1 in state 1 only *)
Definition relay_log : dynamic_graph Q :=
  mk_dynamic_graph 2 0 [] [[mod_push_node 0]; [mod_remove_node 0; mod_push_node 1]].

(* what build() leaves of a log *)
Definition built (d : dynamic_graph Q) : dynamic_graph Q := left_state (build d).

(* two threads, the second worker first in every round *)
Definition second_first (r : nat) : list nat := [1; 0].
(** ** Binary32 scalars

    The [float] of the code on the usual platforms: IEEE 754 binary32 with
    rounding to nearest, ties to even, as the parameterised operations of
    the standard library's [SpecFloat] define it for a precision of 24 bits
    and the exponent 128 of the infinities. *)

Abbreviation binary32 := spec_float.

(* the conversion of an integer, rounded *)
Definition b32_of_Z (z : Z) : binary32 := binary_normalize 24 128 z 0 false.

(* a decimal literal [p / q] with [p] and [q] below [2^24]: the quotient of
   two exact values, rounded once *)
Definition b32_of_Q (q : Q) : binary32 :=
  SFdiv 24 128 (b32_of_Z (Qnum q)) (b32_of_Z (Z.pos (Qden q))).

(* std::floor and std::ceil of a finite value, read as an integer; the
   conversion of an infinity or of a NaN to an integer is undefined and is
   given as 0 *)
Definition b32_floor (x : binary32) : Z :=
  match x with
  | S754_finite s m e => Z.shiftl (if s then Z.neg m else Z.pos m) e
  | _ => 0
  end.

Definition b32_ceil (x : binary32) : Z := - b32_floor (SFopp x).

#[global] Instance binary32_scalar : Scalar binary32 := {|
  fzero := S754_zero false;
  fone := b32_of_Z 1;
  fadd := SFadd 24 128;
  fsub := SFsub 24 128;
  fmul := SFmul 24 128;
  fdiv := SFdiv 24 128;
  fneg := SFopp;
  fabs := SFabs;
  fsqrt := SFsqrt 24 128;
  fltb := SFltb;
  fleb := SFleb;
  feqb := SFeqb;
  of_Z := b32_of_Z;
  of_Q := b32_of_Q;
  ffloor := b32_floor;
  fceil := b32_ceil
|}.

(** Inputs in binary32. *)

(* the phases disappear, morph, appear, lasting 0.3, 0.3 and 0.1 *)
Definition thirds : interpolator binary32 :=
  mk_interpolator [disappear; morph; appear]
    (b32_of_Q (1 # 2)) (b32_of_Q (1 # 10)) (b32_of_Q (3 # 10)) (b32_of_Q (3 # 10))
    (b32_of_Q (3 # 2)).

(* node 0 added at step 0 and removed at step 12 *)
Definition long_fade_log : dynamic_graph binary32 :=
  mk_dynamic_graph 1 0 []
    ([[mod_push_node 0]] ++ replicate 11 [] ++ [[mod_remove_node 0]]).

(* the float 7.7000003 = 16148071 / 2^21, the one above the float nearest
   to 7.7 *)
Definition late : binary32 := S754_finite false 16148071 (-21).

(* 1 + 13 / 2^23, about 1.0000015 *)
Definition above_one : binary32 := S754_finite false 8388621 (-23).


(** ** The text of exact rationals

    [operator<<] on a [float] writes as [printf] does with [%g] and the
    default precision: six significant digits of the value, rounded to
    nearest and to even on a tie, in the fixed style when the decimal
    exponent [X] has [-4 <= X < 6] and in the exponent style otherwise,
    the trailing zeros of the fraction removed.  [std::stof] reads the
    decimal forms: a sign, digits with a point, an exponent. *)

(* round to nearest, to even on a tie *)
Definition round_half_even (q : Q) : Z :=
  let n := Qnum q in
  let d := Z.pos (Qden q) in
  let f := (n / d)%Z in
  let r := (n mod d)%Z in
  if (2 * r <? d)%Z then f
  else if (d <? 2 * r)%Z then (f + 1)%Z
  else if Z.even f then f else (f + 1)%Z.

(* the decimal exponent of a positive rational: 10^X <= a < 10^(X+1) *)
Fixpoint exponent_loop (fuel : nat) (a : Q) (X : Z) : Z :=
  match fuel with
  | 0 => X
  | S fuel =>
      if Qle_bool (Qpower 10 (X + 1)) a then exponent_loop fuel a (X + 1) else X
  end.

Definition exponent10 (a : Q) : Z :=
  let below := Z.log2 (Z.pos (Qden a)) in
  let above := Z.log2 (Qnum a) in
  exponent_loop (Z.to_nat (below + above + 3)) a (- (below + 1)).

(* the six digits and the exponent of the exponent style *)
Definition significand (a : Q) : Z * Z :=
  let X := exponent10 a in
  let m := round_half_even (a * Qpower 10 (5 - X)) in
  if (m =? 10 ^ 6)%Z then (10 ^ 5, X + 1)%Z else (m, X).

Fixpoint drop_zeros (s : list ascii) : list ascii :=
  match s with
  | c :: rest => if Ascii.eqb c "0" then drop_zeros rest else s
  | [] => []
  end.

(* the fraction without its trailing zeros, and without the point when
   nothing is left of it *)
Definition fraction (digits : list ascii) : list ascii :=
  match reverse (drop_zeros (reverse digits)) with
  | [] => []
  | kept => "."%char :: kept
  end.

Definition print_exponent (X : Z) : list ascii :=
  let digits := print_digits 10 (Z.to_N (Z.abs X)) [] in
  (if (X <? 0)%Z then "-"%char else "+"%char)
  :: (if length digits <? 2 then "0"%char :: digits else digits).

Definition print_float_Q (v : Q) : list ascii :=
  if Qeq_bool v 0 then ["0"%char]
  else
    let '(m, X) := significand (Qabs v) in
    let digits := print_digits 6 (Z.to_N m) [] in
    (if Qle_bool 0 v then [] else ["-"%char])
    ++ (if ((X <? -4) || (6 <=? X))%Z then
          take 1 digits ++ fraction (drop 1 digits) ++ "e"%char :: print_exponent X
        else if (0 <=? X)%Z then
          take (S (Z.to_nat X)) digits ++ fraction (drop (S (Z.to_nat X)) digits)
        else
          "0"%char :: fraction (replicate (Z.to_nat (- X - 1)) "0"%char ++ digits)).

(* the exponent part: e or E, a sign, digits; nothing when no digit follows *)
Definition read_exponent (s : list ascii) : Z :=
  match s with
  | c :: rest =>
      if Ascii.eqb c "e" || Ascii.eqb c "E" then
        let '(negative, digits) := signed rest in
        if starts_with_digit digits then
          let X := fst (digits_value digits 0) in
          if negative then (- X)%Z else X
        else 0%Z
      else 0%Z
  | [] => 0%Z
  end.

Definition stof_Q (str : list ascii) : result Q :=
  let '(negative, s) := signed (skip_space str) in
  let '(whole, after) := digits_value s 0 in
  let '(all, decimals, after') :=
    match after with
    | c :: rest =>
        if Ascii.eqb c "." then
          let '(v, after') := digits_value rest whole in
          (v, length rest - length after', after')
        else (whole, 0, after)
    | [] => (whole, 0, after)
    end in
  if (length s - length after) + decimals =? 0 then Raise (invalid_argument "stof")
  else
    let X := (read_exponent after' - Z.of_nat decimals)%Z in
    let v := (inject_Z all * Qpower 10 X)%Q in
    Ok (Qred (if negative then - v else v)).

#[global] Instance Q_textual : Textual Q := {|
  print_float := print_float_Q;
  stof := stof_Q
|}.
(** ** Further parts of the sources *)

Section DynamicGraphRest.
Context {F : Type} `{!Scalar F}.

(* clear() *)
Definition clear (d : dynamic_graph F) : dynamic_graph F :=
  mk_dynamic_graph (m_last_node_id d) (m_last_edge_id d) [] [].

(* node_count(), edge_count() *)
Definition node_count (d : dynamic_graph F) : N := m_last_node_id d.
Definition edge_count (d : dynamic_graph F) : N := m_last_edge_id d.

End DynamicGraphRest.

(* the path 0 - 1 - 2: the edge 0 between 0 and 1, the edge 1 between 1 and 2 *)
Definition path_operations : list modification :=
  [mod_push_node 0; mod_push_node 1; mod_push_node 2;
   mod_push_edge 0 0 1; mod_push_edge 1 1 2].

Definition path_graph : graph_state Q :=
  left_state (apply_operations path_operations empty_graph).


(** ** mapped_graph.h, foresighted_layout.h: the RGAP and the layout call *)

(** The call [m_static_layout(graph, width, height)] of the template
    parameter on the graph of the RGAP, which it rewrites in place. *)
Class StaticLayoutCall (F : Type) `{!Scalar F} :=
  layout_call : graph_partitioning F -> F -> F -> graph_partitioning F.

Section ForesightedRest.
Context {F : Type} `{!Scalar F} `{!StaticLayout F} `{!StaticLayoutCall F}.

Local Abbreviation graph_state := (graph_state F).

(* mapped_graph::clear_edges, mapped_graph::clear_nodes *)
Definition mg_clear_edges (g : mapped_graph F) : mapped_graph F :=
  mk_mapped_graph (clear_edges (m_graph g)) (m_node_map g) ∅.

Definition mg_clear_nodes (g : mapped_graph F) : mapped_graph F :=
  mk_mapped_graph (clear_nodes (m_graph g)) ∅ (m_edge_map g).

(* the lambda [same_edge] of calculate_rgap *)
Definition same_edge (a b : edge_partition F) : bool :=
  (bool_decide (one_id a = one_id b) && bool_decide (two_id a = two_id b))
  || (bool_decide (one_id a = two_id b) && bool_decide (two_id a = one_id b)).

(* the body of the inner loop of calculate_rgap for gap.graph().edges()[k]:
   [pos] is where [current_partition] lies in the edges of the rgap, and
   the state is the rgap with the set [removed] *)
Definition rgap_merge (edge_i : edge_partition F) (pos : nat)
    (st : mapped_graph F * gset N) (edge_k : edge_partition F)
  : mapped_graph F * gset N :=
  let '(rgap, removed) := st in
  match edges (m_graph rgap) !! pos with
  | Some current_partition =>
      if negb (bool_decide (elem_id edge_k ∈ removed))
         && same_edge edge_i edge_k
         && live_empty (intersection (ep_live_time current_partition) (ep_live_time edge_k))
      then
        (map_edge (elem_id edge_k) (elem_id current_partition)
           (mk_mapped_graph
              (with_edges
                 (alter (edge_add_live_time (ep_live_time edge_k)) pos
                    (edges (m_graph rgap)))
                 (m_graph rgap))
              (m_node_map rgap) (m_edge_map rgap)),
         {[elem_id edge_k]} ∪ removed)
      else st
  | None => st
  end.

(* the outer loop of calculate_rgap over the edges of the gap from index i *)
Fixpoint rgap_edges (es : list (edge_partition F)) (st : mapped_graph F * gset N)
  : result (mapped_graph F) :=
  match es with
  | [] => Ok (fst st)
  | edge_i :: rest =>
      let '(rgap, removed) := st in
      if bool_decide (elem_id edge_i ∈ removed) then rgap_edges rest st
      else
        match push_edge_at
                (new_edge_partition (elem_id edge_i) (one_id edge_i) (two_id edge_i))
                (m_graph rgap) with
        | (Throws ex _, _) => Raise ex
        | (Normal g, pos) =>
            let started :=
              mk_mapped_graph
                (with_edges
                   (alter (edge_add_live_time (ep_live_time edge_i)) pos (edges g)) g)
                (m_node_map rgap) (m_edge_map rgap) in
            rgap_edges rest (foldl (rgap_merge edge_i pos) (started, removed) rest)
        end
  end.

Definition calculate_rgap (gap : mapped_graph F) : result (mapped_graph F) :=
  rgap_edges (edges (m_graph gap)) (mg_clear_edges gap, ∅).

(* the inner loop of "use results" over the nodes of a state; the nodes as
   the loop leaves them, and the exception of node_at if it throws *)
Fixpoint place_nodes (rgap : mapped_graph F) (ns : list (node F))
  : list (node F) * option exception :=
  match ns with
  | [] => ([], None)
  | n :: ns' =>
      match mg_node_at rgap (elem_id n) with
      | None => (n :: ns', Some (out_of_range "unordered_map::at"))
      | Some target_node =>
          let '(placed, ex) := place_nodes rgap ns' in
          (set_pos (pos (np_node target_node)) n :: placed, ex)
      end
  end.

Fixpoint place_states (rgap : mapped_graph F) (sts : list graph_state)
  : outcome (list graph_state) :=
  match sts with
  | [] => Normal []
  | g :: rest =>
      match place_nodes rgap (nodes g) with
      | (ns, Some ex) => Throws ex (with_elements ns (edges g) g :: rest)
      | (ns, None) =>
          match place_states rgap rest with
          | Normal r => Normal (with_elements ns (edges g) g :: r)
          | Throws ex r => Throws ex (with_elements ns (edges g) g :: r)
          end
      end
  end.

(* basic_layout: the states as the call leaves them *)
Definition basic_layout (sts : list graph_state) (width height : F)
  : outcome (list graph_state) :=
  match gap_of sts with
  | Raise ex => Throws ex sts
  | Ok gap =>
      match calculate_rgap gap with
      | Raise ex => Throws ex sts
      | Ok rgap =>
          place_states
            (mk_mapped_graph (layout_call (m_graph rgap) width height)
               (m_node_map rgap) (m_edge_map rgap))
            sts
      end
  end.

(* rescale, move *)
Definition rescale (g : graph_state) (src_width src_height dst_width dst_height : F)
  : graph_state :=
  let w_coeff := fdiv dst_width src_width in
  let h_coeff := fdiv dst_height src_height in
  with_elements
    ((fun n => set_pos (mk_coords (fmul (c_x (pos n)) w_coeff)
                                  (fmul (c_y (pos n)) h_coeff)) n) <$> nodes g)
    (edges g) g.

Definition move (g : graph_state) (src_x src_y dst_x dst_y : F) : graph_state :=
  let x_diff := fsub dst_x src_x in
  let y_diff := fsub dst_y src_y in
  with_elements
    ((fun n => set_pos (mk_coords (fadd (c_x (pos n)) x_diff)
                                  (fadd (c_y (pos n)) y_diff)) n) <$> nodes g)
    (edges g) g.

Record foresighted_layout := mk_foresighted_layout {
  m_tolerance : F;
  m_canvas_width : F;
  m_canvas_height : F;
  m_center : coords F;
  m_settings : layout_settings F     (* m_cooling, m_relative_distance *)
}.

Definition CalculationHeight : F := of_Z 1.

(* the cooling a foresighted_layout starts with *)
Definition default_cooling : cooling F :=
  mk_cooling 250 (of_Q (4 # 10)) (fun t => fmul t (of_Q (977 # 1000))).

(* foresighted_layout(tolerance, canvas_width, canvas_height, center) *)
Definition new_foresighted_layout (tolerance_value canvas_width canvas_height : F)
    (center : coords F) : foresighted_layout :=
  mk_foresighted_layout tolerance_value canvas_width canvas_height center
    (mk_layout_settings default_cooling true).

(* set_canvas, set_tolerance *)
Definition set_canvas (w h : F) (center : coords F) (fl : foresighted_layout)
  : foresighted_layout :=
  mk_foresighted_layout (m_tolerance fl) w h center (m_settings fl).

Definition set_tolerance (tolerance_value : F) (fl : foresighted_layout)
  : foresighted_layout :=
  mk_foresighted_layout tolerance_value (m_canvas_width fl) (m_canvas_height fl)
    (m_center fl) (m_settings fl).

Definition with_states (sts : list graph_state) (d : dynamic_graph F) : dynamic_graph F :=
  mk_dynamic_graph (m_last_node_id d) (m_last_edge_id d) sts (m_modifications d).

(* foresighted_layout::operator() *)
Definition foresighted_call (fl : foresighted_layout) (dgraph : dynamic_graph F)
  : outcome (dynamic_graph F) :=
  match states dgraph with
  | [] => Normal dgraph
  | _ =>
      let calculation_h := CalculationHeight in
      let calculation_w :=
        fdiv (fmul calculation_h (m_canvas_width fl)) (m_canvas_height fl) in
      match basic_layout (states dgraph) calculation_w calculation_h with
      | Throws ex sts => Throws ex (with_states sts dgraph)
      | Normal laid =>
          let improved :=
            if negb (feqb (m_tolerance fl) fzero)
            then fst (tolerance (m_settings fl) laid calculation_w calculation_h
                        (m_tolerance fl))
            else laid in
          Normal
            (with_states
               ((fun state =>
                   move (rescale state calculation_w calculation_h
                           (m_canvas_width fl) (m_canvas_height fl))
                     fzero fzero (c_x (m_center fl)) (c_y (m_center fl)))
                <$> improved)
               dgraph)
      end
  end.

End ForesightedRest.
Arguments foresighted_layout F : clear implicits.

(* a layout call for the examples: the partition node of id [i] is placed
   at x = width / (2 (i + 1)), y = 0 *)
Definition spread_call : StaticLayoutCall Q :=
  fun G width height =>
    with_nodes
      ((fun P =>
          mk_node_partition
            (set_pos (mk_coords (width * (1 # (2 * N.succ_pos (elem_id P))))%Q 0%Q)
               (np_node P))
            (np_live_time P)) <$> nodes G)
      G.

(* a static layout for the examples whose iteration leaves the nodes where they are *)
Definition still_layout : StaticLayout Q :=
  {| iteration g _ _ _ := g; relative_unit _ _ := 1%Q |}.

(* a layout of tolerance zero on the canvas of width 4 and height 2 around (10, 20) *)
Definition wide_canvas : foresighted_layout Q :=
  new_foresighted_layout 0%Q 4%Q 2%Q (mk_coords 10%Q 20%Q).

(** ** fruchterman_reingold.h: lengths and the displacement step *)

Section FruchtermanReingoldRest.
Context {F : Type} `{!Scalar F}.

(* std::min and std::max of <algorithm>, by operator< *)
Definition fmin (a b : F) : F := if fltb b a then b else a.
Definition fmax (a b : F) : F := if fltb a b then b else a.

Definition pow2 (one : F) : F := fmul one one.

(* length(a, b): the hypotenuse *)
Definition hypotenuse (a b : F) : F := fsqrt (fadd (pow2 a) (pow2 b)).

Definition UnitCoeff : F := of_Q (68 # 100).

(* relative_unit(width, height) *)
Definition fr_relative_unit (width height : F) : F :=
  fmul (hypotenuse width height) UnitCoeff.

(* the lambda [clamp] of displacement *)
Definition clamp (size coord : F) : F := fmin size (fmax (fneg size) coord).

(* the body of the loop of displacement for one node and its disp[i] *)
Definition displace_node (width height t : F) (n : node F) (current_disp : coords F)
  : node F :=
  let disp_len := hypotenuse (c_x current_disp) (c_y current_disp) in
  let moved :=
    if negb (feqb disp_len fzero) then
      let result_disp := fdiv (fmin disp_len t) disp_len in
      mk_coords (fadd (c_x (pos n)) (fmul result_disp (c_x current_disp)))
                (fadd (c_y (pos n)) (fmul result_disp (c_y current_disp)))
    else pos n in
  set_pos (mk_coords (clamp (fmul width (of_Q (1 # 2))) (c_x moved))
                     (clamp (fmul height (of_Q (1 # 2))) (c_y moved))) n.

(* displacement(graph, width, height, t, disp); [disp] has the size of the
   nodes, as iteration() creates it *)
Definition displacement {E : Type} (g : graph (node F) E) (width height t : F)
    (disp : list (coords F)) : graph (node F) E :=
  mk_graph
    (mk_container
       (imap (fun i n =>
                match disp !! i with
                | Some current_disp => displace_node width height t n current_disp
                | None => n
                end) (nodes g))
       (c_map (m_nodes g)))
    (m_edges g) (m_index g).

End FruchtermanReingoldRest.

(** ** parallel.h: the chunks of [for_each] *)

Section ParallelChunks.
Context {F : Type} `{!Scalar F}.

(* the value of an unsigned expression *)
Definition uint_of (z : Z) : N := Z.to_N (uint_wrap z).

(* the loop of get_chunk with [remaining] = thread - i iterations to go
   after this one *)
Fixpoint chunk_loop (chunk size : N) (remaining : nat) (start : N) : N * N :=
  let count :=
    if (size <? uint_of (Z.of_N start + Z.of_N chunk))%N
    then uint_of (Z.of_N size - Z.of_N start) else chunk in
  match remaining with
  | 0 => (start, uint_of (Z.of_N start + Z.of_N count))
  | S r => chunk_loop chunk size r (uint_of (Z.of_N start + Z.of_N count))
  end.

(* get_chunk(thread, size) of a pool of [count] threads *)
Definition get_chunk (count : N) (thread : nat) (size : N) : N * N :=
  let chunk := uint_of (fceil (fdiv (of_Z (Z.of_N size)) (of_Z (Z.of_N count)))) in
  chunk_loop chunk size thread 0.

End ParallelChunks.

(** ** The notions of the statements

    What the theorems below speak about: invariants of the containers, the
    readings of the claims, and the inputs of the examples. *)

Section ContainersNotions.
Context {T : Type} `{!Identified T}.

(** The id map agrees with the positions of the sequence. *)
Definition map_agrees (c : container T) : Prop :=
  forall i k, c_map c !! i = Some k <-> exists x, c_vec c !! k = Some x /\ elem_id x = i.

(** Some element of the sequence has the id. *)
Definition has_id (l : list T) (i : N) : Prop := exists x, x ∈ l /\ elem_id x = i.

End ContainersNotions.

Section GraphsNotions.
Context {NodeType EdgeType : Type}.
Context `{!Identified NodeType, !Identified EdgeType, !Connecting EdgeType}.
Local Abbreviation graph := (graph NodeType EdgeType).

(** Both id maps agree with their sequences. *)
Definition wf_graph (g : graph) : Prop :=
  map_agrees (m_nodes g) /\ map_agrees (m_edges g).

End GraphsNotions.

Section BuildsNotions.
Context {F : Type} `{!Scalar F}.
Local Abbreviation graph_state := (graph_state F).

(** What [set_bool_values] makes of [states[i]], the neighbours read in [sts]. *)
Definition flag_state (sts : list graph_state) (i : nat) (g : graph_state) : graph_state :=
  mk_graph
    (mk_container (set_flags node_exists sts i <$> nodes g) (c_map (m_nodes g)))
    (mk_container (set_flags edge_exists sts i <$> edges g) (c_map (m_edges g)))
    (m_index g).

(** Two sequences of states with the same id maps, state by state. *)
Definition same_maps (a b : list graph_state) : Prop :=
  length a = length b /\
  forall j x y, a !! j = Some x -> b !! j = Some y ->
    c_map (m_nodes x) = c_map (m_nodes y) /\ c_map (m_edges x) = c_map (m_edges y).

End BuildsNotions.

(** Two live sets are disjoint when no time step is in both. *)
Definition disjoint_live (a b : live_set) : Prop := forall t, t ∈ a -> t ∉ b.

Section GapsNotions.
Context {F : Type} `{!Scalar F}.
Variable nodes_live : gmap N live_set.

(** The live set of a supergraph node. *)
Definition live_of (i : N) : live_set := default [] (nodes_live !! i).

(** A supergraph node [n] is assigned to the partition node [P] of the GAP
    when it is [P] itself or an alias of [P]. *)
Definition assigned (gap : mapped_graph F) (n : N) (P : node_partition F) : Prop :=
  P ∈ nodes (m_graph gap) /\ (elem_id P = n \/ m_node_map gap !! n = Some (elem_id P)).

Record gap_inv (done : list N) (gap : mapped_graph F) : Prop := {
  gi_agrees : map_agrees (m_nodes (m_graph gap));
  gi_own : forall p, has_id (nodes (m_graph gap)) p ->
             p ∈ done /\ m_node_map gap !! p = None;
  gi_alias : forall n p, m_node_map gap !! n = Some p ->
               n ∈ done /\ has_id (nodes (m_graph gap)) p;
  gi_live : forall p P, node_at (m_graph gap) p = Some P ->
              StronglySorted le (live_time P) /\
              forall n, n ∈ done -> partition_of gap n = Some p ->
                forall t, t ∈ live_of n -> t ∈ live_time P;
  gi_disjoint : forall n1 n2 p, n1 ∈ done -> n2 ∈ done -> n1 <> n2 ->
                  partition_of gap n1 = Some p -> partition_of gap n2 = Some p ->
                  disjoint_live (live_of n1) (live_of n2);
  gi_total : forall n, n ∈ done -> is_Some (partition_of gap n)
}.

End GapsNotions.

Section LiveBoundsNotions.
Context {F : Type} `{!Scalar F}.

(** Live times are recorded in increasing order of the states. *)
Definition live_bounded (t : nat) (m : gmap N live_set) : Prop :=
  forall i l, m !! i = Some l -> StronglySorted le l /\ Forall (fun x => x <= t) l.

End LiveBoundsNotions.

Section SequentialNotions.
Context {F : Type} `{!Scalar F} `{!StaticLayout F}.
Variable cfg : layout_settings F.
Variables width height tol : F.
Local Abbreviation graph_state := (graph_state F).

(** The decision of the inner loop for index [s]: [left] is what the loop
    finds at [s - 1] and [right] what it finds at [s + 1]. *)
Definition accepted (size s : nat) (copy : graph_state)
    (left right : option graph_state) : Prop :=
  (s = 0 \/ exists l, left = Some l /\ fltb (distance cfg copy l) tol = true)
  /\ (s = size - 1 \/ exists r, right = Some r /\ fltb (distance cfg copy r) tol = true).

End SequentialNotions.

Section DistancesNotions.
Context {F : Type} `{!Scalar F} `{!StaticLayout F}.
Variable cfg : layout_settings F.
Local Abbreviation graph_state := (graph_state F).

(** The distance of the claim: the nodes present in both layouts, paired by
    id, and the sum of the Euclidean distances between their positions. *)
Definition euclid (p q : coords F) : F :=
  let diff_x := fsub (c_x p) (c_x q) in
  let diff_y := fsub (c_y p) (c_y q) in
  fsqrt (fadd (fmul diff_x diff_x) (fmul diff_y diff_y)).

Definition shared_pairs (a b : graph_state) : list (node F * node F) :=
  omap (fun n => if node_exists b (elem_id n)
                 then (fun o => (n, o)) <$> node_at b (elem_id n) else None)
       (nodes a).

Definition distance_sum (a b : graph_state) : F :=
  foldl (fun acc p => fadd acc (euclid (pos (fst p)) (pos (snd p)))) fzero (shared_pairs a b).

Definition distance_spec (a b : graph_state) : F :=
  if m_relative_distance cfg
  then fdiv (distance_sum a b) (of_nat (length (shared_pairs a b)))
  else distance_sum a b.

End DistancesNotions.

Section ParallelNotions.
Context {F : Type} `{!Scalar F} `{!StaticLayout F}.
Variable cfg : layout_settings F.
Variables width height tol : F.
Local Abbreviation graph_state := (graph_state F).

(** The three shared vectors have the size of [states]. *)
Definition shape (n : nat) (sh : shared F) : Prop :=
  length (sh_states sh) = n /\ length (sh_copies sh) = n /\ length (sh_apply sh) = n.

Definition stepped (temp : F) (g : graph_state) : graph_state :=
  iteration g width height temp.

End ParallelNotions.

Definition occurs (p : phase) (phases : list phase) : nat :=
  count_occ phase_eq_dec phases p.


(** The border force of the claim: against the border at [size / 2] a node
    at coordinate [c] is pushed with the strength below, and the two borders
    of an axis push in opposite directions. *)
Definition border_strength {F} `{!Scalar F} (fr : fruchterman_reingold F)
    (k size c : F) : F :=
  fdiv (fmul (m_border_force fr) (fmul k k))
       (fadd (fabs (fsub (fdiv size (of_Z 2)) c)) (fabs (fmul size SmallOffset))).

Definition border_force {F} `{!Scalar F} (fr : fruchterman_reingold F)
    (k size c : F) : F :=
  fsub (border_strength fr k (fneg size) c) (border_strength fr k size c).

(** Every alpha is the 1.0 of a new element. *)
Definition alpha_default {F} `{!Scalar F} (g : graph_state F) : Prop :=
  (forall n, n ∈ nodes g -> alpha n = fone) /\ (forall e, e ∈ edges g -> alpha e = fone).

(** Alphas in [0, 1]. *)
Definition unit_interval (a : Q) : Prop := (0 <= a /\ a <= 1)%Q.

Definition alphas_in_unit (g : graph_state Q) : Prop :=
  (forall n, n ∈ nodes g -> unit_interval (alpha n))
  /\ (forall e, e ∈ edges g -> unit_interval (alpha e)).

(** A character of a parameter: neither white space nor the semicolon. *)
Definition plain (c : ascii) : Prop := isspace c = false /\ Ascii.eqb c ";" = false.

(** A parameter as the writer produces it. *)
Definition word (s : list ascii) : Prop := s <> [] /\ Forall plain s.

Definition is_digit (c : ascii) : Prop := is_Some (digit_value c).

Section StatementsNotions.
Context {F : Type} `{!Scalar F, !Textual F}.

(** A number the text carries exactly: written as one parameter, and read
    back as itself. *)
Definition exact_text (x : F) : Prop :=
  word (print_float x) /\ stof (print_float x) = Ok x.

(** What the reader makes of a node and of an edge. *)
Definition as_read_node (n : node F) : node F := set_pos (pos n) (new_node (elem_id n)).

Definition as_read_edge (e : edge F) : edge F :=
  new_edge (elem_id e) (one_id e) (two_id e).

(** The statements of a state, and what the reader does with them. *)
Definition node_lines (ns : list (node F)) : list ascii :=
  concat ((fun n => write_node n ++ newline) <$> ns).

Definition edge_lines (es : list (edge F)) : list ascii :=
  concat ((fun e => write_edge e ++ newline) <$> es).

Definition push_nodes (ns : list (node F)) (g : graph_state F) : graph_state F :=
  foldl (fun g n => push_node n g) g ns.

Fixpoint push_edges (es : list (edge F)) (g : graph_state F) : outcome (graph_state F) :=
  match es with
  | [] => Normal g
  | e :: es =>
      match push_edge e g with
      | Normal g => push_edges es g
      | Throws ex g => Throws ex g
      end
  end.

Definition node_in_text (n : node F) : Prop :=
  (elem_id n < 2 ^ 31)%N /\ exact_text (c_x (pos n)) /\ exact_text (c_y (pos n)).

Definition edge_in_text (e : edge F) : Prop :=
  (elem_id e < 2 ^ 31)%N /\ (one_id e < 2 ^ 31)%N /\ (two_id e < 2 ^ 31)%N.

(** The graph the reader builds from the statements of a state. *)
Definition as_read_state (g : graph_state F) : outcome (graph_state F) :=
  push_edges (as_read_edge <$> edges g) (push_nodes (as_read_node <$> nodes g) empty_graph).

Definition state_in_text (g : graph_state F) : Prop :=
  Forall node_in_text (nodes g) /\ Forall edge_in_text (edges g).

End StatementsNotions.

Section ClosedNotions.
Context {NodeType EdgeType : Type}.
Context `{!Identified NodeType, !Identified EdgeType, !Connecting EdgeType}.
Local Abbreviation graph := (graph NodeType EdgeType).

(** The adjacency index has entries for nodes of the graph only, and both
    ends of every edge are nodes of the graph. *)
Definition closed (g : graph) : Prop :=
  (forall i, is_Some (m_index g !! i) -> has_id (nodes g) i)
  /\ (forall e, e ∈ edges g -> has_id (nodes g) (one_id e) /\ has_id (nodes g) (two_id e)).

End ClosedNotions.

Section RebuildsNotions.
Context {F : Type} `{!Scalar F, !Textual F}.

(** A placement of the nodes: what a layout leaves of built states, the
    node of id [i] of [states[t]] at [place t i]. *)
Definition relocate_state (place : N -> coords F) (g : graph_state F) : graph_state F :=
  with_elements ((fun n => set_pos (place (elem_id n)) n) <$> nodes g) (edges g) g.

Definition relocate (place : nat -> N -> coords F) (d : dynamic_graph F) : dynamic_graph F :=
  mk_dynamic_graph (m_last_node_id d) (m_last_edge_id d)
    (imap (fun t g => relocate_state (place t) g) (states d)) (m_modifications d).

(** The numbers of a state that the text has to carry. *)
Definition carried (g : graph_state F) : Prop :=
  Forall node_in_text (nodes g) /\ Forall (fun e => (elem_id e < 2 ^ 31)%N) (edges g).

End RebuildsNotions.

(** Two placements for the examples: coordinates of two and three digits,
    and a coordinate of seven. *)
Definition quarters (t : nat) (i : N) : coords Q :=
  mk_coords (Qred ((Z.of_N i * 2 + 1) # 4)) (Qred (- Z.of_nat t # 8)).

Definition far (t : nat) (i : N) : coords Q := mk_coords 1234567%Q 0%Q.


(* membership in a sequence with a known head, by cases *)
Ltac cons_cases :=
  repeat match goal with
         | H : _ ∈ _ :: _ |- _ => apply elem_of_cons in H
         | H : ~ (_ ∈ _ :: _) |- _ => rewrite elem_of_cons in H
         end;
  tauto.

(** ** Further notions *)

Section GrowthNotions.
Context {NodeType EdgeType : Type}.
Context `{!Identified NodeType, !Identified EdgeType, !Connecting EdgeType}.
Local Abbreviation graph := (graph NodeType EdgeType).

(** The graphs obtained from the empty graph by [push_node] and by calls
    of [push_edge] that return. *)
Inductive grown : graph -> Prop :=
  | grown_empty : grown empty_graph
  | grown_node n g : grown g -> grown (push_node n g)
  | grown_edge e g g' : grown g -> push_edge e g = Normal g' -> grown g'.

(** What the adjacency index holds for the node [a] about the node [b]. *)
Definition neighbour (g : graph) (a b : N) : option N :=
  (m_index g !! a) ≫= (fun adj => adj !! b).

(** The edge has the two nodes as its ends, in either order. *)
Definition joins (e : EdgeType) (a b : N) : Prop :=
  (one_id e = a /\ two_id e = b) \/ (one_id e = b /\ two_id e = a).

(** Every node has an adjacency entry. *)
Definition indexed (g : graph) : Prop :=
  forall n, n ∈ nodes g -> is_Some (m_index g !! elem_id n).

(** The adjacency index tells the edges: symmetric, every entry names an
    edge between the two nodes, and every edge has an entry. *)
Record adjacent (g : graph) : Prop := {
  adj_sym : forall a b, neighbour g a b = neighbour g b a;
  adj_sound : forall a b k, neighbour g a b = Some k ->
                exists e, e ∈ edges g /\ elem_id e = k /\ joins e a b;
  adj_complete : forall e, e ∈ edges g -> is_Some (neighbour g (one_id e) (two_id e))
}.

End GrowthNotions.

Section PartitionNotions.
Context {NodeType EdgeType : Type}.
Context `{!Identified NodeType, !Identified EdgeType, !Connecting EdgeType}.
Local Abbreviation graph := (graph NodeType EdgeType).

(** A graph whose id maps agree with its sequences, whose nodes all have an
    adjacency entry, and whose edges end in nodes of the graph. *)
Definition sound (g : graph) : Prop :=
  wf_graph g /\ indexed g
  /\ forall e, e ∈ edges g -> has_id (nodes g) (one_id e) /\ has_id (nodes g) (two_id e).

End PartitionNotions.

(** What the loops of [calculate_rgap] never touch: the nodes, their
    aliases and the keys of the adjacency index. *)
Definition same_frame {F} `{!Scalar F} (a b : mapped_graph F) : Prop :=
  m_nodes (m_graph a) = m_nodes (m_graph b)
  /\ m_node_map a = m_node_map b
  /\ forall i, is_Some (m_index (m_graph a) !! i) <-> is_Some (m_index (m_graph b) !! i).

(** A node lies in the rectangle of the given width and height around the
    given centre. *)
Definition in_canvas (width height : Q) (centre : coords Q) (c : coords Q) : Prop :=
  (c_x centre - width / 2 <= c_x c /\ c_x c <= c_x centre + width / 2
   /\ c_y centre - height / 2 <= c_y c /\ c_y c <= c_y centre + height / 2)%Q.

(** Every node of [next] that [cur] lacks is flagged as new, and so is
    every such edge: what [build] leaves between a state and the one after
    it. *)
Definition follows {F} `{!Scalar F} (cur next : graph_state F) : Prop :=
  (forall m, m ∈ nodes next -> node_exists cur (elem_id m) = false -> is_new m = true)
  /\ (forall e, e ∈ edges next -> edge_exists cur (elem_id e) = false -> is_new e = true).

(** The sum of the durations of a list of phases. *)
Definition total_duration (it : interpolator Q) (ps : list phase) : Q :=
  foldr (fun p s => (duration it p + s)%Q) 0%Q ps.

(** White space only. *)
Definition blank (s : list ascii) : Prop := Forall (fun c => isspace c = true) s.

(** A first word and further words, each after its separator. *)
Definition spaced (first : list ascii) (more : list (list ascii * list ascii))
  : list ascii :=
  first ++ concat ((fun p => fst p ++ snd p) <$> more).



(** Every phase of the sequence takes time, and there is one: no duration
    is divided by zero. *)
Definition positive_phases (it : interpolator Q) : Prop :=
  m_phases it <> [] /\ Forall (fun p => (0 < duration it p)%Q) (m_phases it).

(** * Properties *)

(** ** The id map of a container *)

Section ContainerFacts.
Context {T : Type} `{!Identified T}.

Lemma map_agrees_empty : map_agrees (@empty_container T).
Proof.
  intros i k; split.
  - intros H; cbn in H. by rewrite lookup_empty in H.
  - intros (x & H & _); cbn in H. by rewrite lookup_nil in H.
Qed.

Lemma map_agrees_NoDup c : map_agrees c -> NoDup (elem_id <$> c_vec c).
Proof.
  intros Hc. apply NoDup_alt. intros k1 k2 i H1 H2.
  rewrite list_lookup_fmap in H1. rewrite list_lookup_fmap in H2.
  destruct (c_vec c !! k1) as [x1|] eqn:E1; [|done].
  destruct (c_vec c !! k2) as [x2|] eqn:E2; [|done].
  cbn in H1, H2. simplify_eq.
  assert (A1 : c_map c !! elem_id x1 = Some k1) by (apply Hc; eauto).
  assert (A2 : c_map c !! elem_id x1 = Some k2) by (apply Hc; eauto).
  congruence.
Qed.

Lemma map_agrees_exists c i :
  map_agrees c -> is_Some (c_map c !! i) <-> has_id (c_vec c) i.
Proof.
  intros Hc; split.
  - intros [k Hk]. apply Hc in Hk as (x & Hx & Hi).
    exists x; split; [|done]. eapply list_elem_of_lookup_2; eauto.
  - intros (x & Hx & Hi). apply list_elem_of_lookup in Hx as [k Hk].
    exists k. apply Hc; eauto.
Qed.

Lemma map_agrees_at c i x :
  map_agrees c -> container_at c i = Some x -> x ∈ c_vec c /\ elem_id x = i.
Proof.
  intros Hc H. unfold container_at in H.
  destruct (c_map c !! i) as [k|] eqn:E; [|done].
  apply Hc in E as (y & Hy & Hi). rewrite Hy in H. simplify_eq.
  split; [|done]. eapply list_elem_of_lookup_2; eauto.
Qed.

Lemma map_agrees_at_Some c x :
  map_agrees c -> x ∈ c_vec c -> container_at c (elem_id x) = Some x.
Proof.
  intros Hc Hx. apply list_elem_of_lookup in Hx as [k Hk].
  assert (A : c_map c !! elem_id x = Some k) by (apply Hc; eauto).
  unfold container_at. by rewrite A.
Qed.

(** [reestablish] over a sequence without repeated ids. *)
Lemma reestablish_lookup (l : list T) (k0 : nat) (m : gmap N nat) i :
  NoDup (elem_id <$> l) ->
  reestablish l k0 m !! i =
    match list_find (fun x => elem_id x = i) l with
    | Some (k, _) => Some (k0 + k)
    | None => m !! i
    end.
Proof.
  revert k0 m. induction l as [|x l IH]; intros k0 m Hnd; [done|].
  cbn [reestablish]. rewrite fmap_cons in Hnd. apply NoDup_cons in Hnd as [Hx Hnd].
  rewrite IH by done. cbn [list_find]. case_decide as Hd.
  - subst i. destruct (list_find _ l) as [[k y]|] eqn:E.
    + apply list_find_Some in E as (Hk & Hy & _).
      exfalso. apply Hx. rewrite <- Hy. apply list_elem_of_fmap. exists y; split; [done|].
      eapply list_elem_of_lookup_2; eauto.
    + cbn. rewrite lookup_insert_eq. f_equal. lia.
  - destruct (list_find _ l) as [[k y]|] eqn:E; cbn.
    + f_equal. lia.
    + by rewrite lookup_insert_ne.
Qed.

Lemma rebuilt_agrees (l : list T) : NoDup (elem_id <$> l) -> map_agrees (rebuilt l).
Proof.
  intros Hnd i k. unfold rebuilt; cbn. rewrite reestablish_lookup by done.
  split.
  - destruct (list_find _ l) as [[k' y]|] eqn:E; [|by rewrite lookup_empty].
    intros [= <-]. apply list_find_Some in E as (Hk & Hy & _). eauto.
  - intros (x & Hx & Hi).
    destruct (list_find (fun x => elem_id x = i) l) as [[k' y]|] eqn:E.
    + apply list_find_Some in E as (Hk & Hy & _). cbn. f_equal.
      eapply NoDup_alt; [exact Hnd| |].
      * rewrite list_lookup_fmap, Hk. exact (f_equal Some Hy).
      * rewrite list_lookup_fmap, Hx. exact (f_equal Some Hi).
    + apply list_find_None in E. rewrite Forall_forall in E.
      exfalso. eapply E; [|exact Hi]. eapply list_elem_of_lookup_2; eauto.
Qed.

Lemma NoDup_fmap_filter (P : T -> bool) (l : list T) :
  NoDup (elem_id <$> l) -> NoDup (elem_id <$> List.filter P l).
Proof.
  induction l as [|x l IH]; [done|]. rewrite fmap_cons. intros [Hx Hnd]%NoDup_cons.
  cbn. destruct (P x); [|by apply IH].
  rewrite fmap_cons. apply NoDup_cons; split; [|by apply IH].
  intros (y & Hy & Hin)%list_elem_of_fmap. apply Hx. apply list_elem_of_fmap.
  exists y; split; [done|]. apply list_elem_of_In in Hin. apply filter_In in Hin as [Hin _].
  by apply list_elem_of_In.
Qed.

(** Appending an element with a fresh id. *)
Lemma map_agrees_push c x :
  map_agrees c -> c_map c !! elem_id x = None ->
  map_agrees (mk_container (c_vec c ++ [x]) (emplace (elem_id x) (length (c_vec c)) (c_map c))).
Proof.
  intros Hc Hx i k. cbn. unfold emplace. rewrite Hx. split.
  - destruct (decide (elem_id x = i)) as [<-|Hne].
    + rewrite lookup_insert_eq. intros [= <-]. exists x; split; [|done].
      by rewrite lookup_app_r, Nat.sub_diag.
    + rewrite lookup_insert_ne by done. intros (y & Hy & Hi)%Hc.
      exists y; split; [|done]. rewrite lookup_app_l; [done|]. by eapply lookup_lt_Some.
  - intros (y & Hy & Hi). destruct (decide (k < length (c_vec c))) as [Hlt|Hge].
    + rewrite lookup_app_l in Hy by done.
      assert (A : c_map c !! i = Some k) by (apply Hc; eauto).
      rewrite lookup_insert_ne; [done|]. intros He. rewrite <- He in A. congruence.
    + rewrite lookup_app_r in Hy by lia.
      destruct (k - length (c_vec c)) as [|j] eqn:E; [|by destruct j].
      cbn in Hy. simplify_eq. rewrite lookup_insert_eq. f_equal. lia.
Qed.

End ContainerFacts.

(** ** Well-formed graphs *)

Section GraphFacts.
Context {NodeType EdgeType : Type}.
Context `{!Identified NodeType, !Identified EdgeType, !Connecting EdgeType}.

Local Abbreviation graph := (graph NodeType EdgeType).

Lemma wf_empty_graph : wf_graph (empty_graph : graph).
Proof. split; apply map_agrees_empty. Qed.

Lemma sweep_edges_kept f (l : list EdgeType) idx :
  fst (sweep_edges f l idx) = List.filter (fun e => negb (f e)) l.
Proof.
  revert idx. induction l as [|e l IH]; intros idx; [done|]. cbn.
  destruct (f e); cbn; [apply IH|].
  specialize (IH idx). destruct (sweep_edges f l idx). cbn in *. by f_equal.
Qed.

Lemma remove_edges_if_nodes f (g : graph) : m_nodes (remove_edges_if f g) = m_nodes g.
Proof. unfold remove_edges_if. by destruct (sweep_edges _ _ _). Qed.

Lemma remove_edges_if_edges f (g : graph) :
  m_edges (remove_edges_if f g) = rebuilt (List.filter (fun e => negb (f e)) (edges g)).
Proof.
  unfold remove_edges_if. rewrite <- (sweep_edges_kept f (edges g) (m_index g)).
  by destruct (sweep_edges _ _ _).
Qed.

Lemma wf_remove_edges_if f (g : graph) : wf_graph g -> wf_graph (remove_edges_if f g).
Proof.
  intros [Hn He]. split.
  - by rewrite remove_edges_if_nodes.
  - rewrite remove_edges_if_edges. apply rebuilt_agrees, NoDup_fmap_filter.
    by apply map_agrees_NoDup.
Qed.

Lemma sweep_nodes_spec f (l : list NodeType) (g : graph) :
  wf_graph g ->
  fst (sweep_nodes f l g) = List.filter (fun n => negb (f n)) l
  /\ m_nodes (snd (sweep_nodes f l g)) = m_nodes g
  /\ map_agrees (m_edges (snd (sweep_nodes f l g))).
Proof.
  revert g. induction l as [|n l IH]; intros g Hg.
  - cbn. split; [done|]. split; [done|]. apply Hg.
  - cbn. destruct (f n); cbn.
    + set (g1 := remove_edges_if (touches (elem_id n)) g).
      assert (Hg1 : wf_graph g1) by by apply wf_remove_edges_if.
      set (g2 := mk_graph (m_nodes g1) (m_edges g1) (delete (elem_id n) (m_index g1))).
      assert (Hg2 : wf_graph g2) by exact Hg1.
      destruct (IH g2 Hg2) as (A & B & C). split; [done|]. split; [|done].
      rewrite B. cbn. unfold g1. apply remove_edges_if_nodes.
    + destruct (IH g Hg) as (A & B & C).
      destruct (sweep_nodes f l g) as [kept g']. cbn in *. split; [by f_equal|done].
Qed.

Lemma wf_remove_nodes_if f (g : graph) : wf_graph g -> wf_graph (remove_nodes_if f g).
Proof.
  intros Hg. destruct (sweep_nodes_spec f (nodes g) g Hg) as (A & B & C).
  unfold remove_nodes_if. destruct (sweep_nodes f (nodes g) g) as [kept g']. cbn in *.
  split; cbn; [|done]. subst kept. apply rebuilt_agrees, NoDup_fmap_filter.
  apply map_agrees_NoDup, Hg.
Qed.

Lemma wf_push_node n (g : graph) : wf_graph g -> wf_graph (push_node n g).
Proof.
  intros [Hn He]. unfold push_node, push_node_at.
  destruct (c_map (m_nodes g) !! elem_id n) eqn:E; cbn; [done|].
  split; cbn; [|done]. by apply map_agrees_push.
Qed.

Lemma wf_push_edge e (g g' : graph) :
  wf_graph g -> push_edge e g = Normal g' -> wf_graph g'.
Proof.
  intros [Hn He]. unfold push_edge, push_edge_at.
  destruct (c_map (m_edges g) !! elem_id e) eqn:E; cbn; [by intros [= <-]|].
  destruct (m_index g !! one_id e); cbn; [|done].
  destruct (_ !! two_id e); cbn; [|done].
  intros [= <-]. split; cbn; [done|]. by apply map_agrees_push.
Qed.

Lemma push_edge_nodes e (g g' : graph) :
  push_edge e g = Normal g' -> m_nodes g' = m_nodes g.
Proof.
  unfold push_edge, push_edge_at.
  destruct (c_map (m_edges g) !! elem_id e) eqn:E; cbn; [by intros [= <-]|].
  destruct (m_index g !! one_id e); cbn; [|done].
  destruct (_ !! two_id e); cbn; [|done].
  by intros [= <-].
Qed.

Lemma wf_remove_edge i (g g' : graph) :
  wf_graph g -> remove_edge i g = Normal g' -> wf_graph g'.
Proof.
  unfold remove_edge. destruct (edge_exists g i); [|done].
  intros Hg [= <-]. by apply wf_remove_edges_if.
Qed.

Lemma wf_remove_node i (g g' : graph) :
  wf_graph g -> remove_node i g = Normal g' -> wf_graph g'.
Proof.
  unfold remove_node. destruct (node_exists g i); [|done].
  intros Hg [= <-]. by apply wf_remove_nodes_if.
Qed.

(** On a well-formed graph [node_exists] and [edge_exists] tell membership. *)
Lemma node_exists_has_id (g : graph) i :
  wf_graph g -> node_exists g i = true <-> has_id (nodes g) i.
Proof.
  intros [Hn _]. unfold node_exists. rewrite bool_decide_eq_true.
  by apply map_agrees_exists.
Qed.

Lemma edge_exists_has_id (g : graph) i :
  wf_graph g -> edge_exists g i = true <-> has_id (edges g) i.
Proof.
  intros [_ He]. unfold edge_exists. rewrite bool_decide_eq_true.
  by apply map_agrees_exists.
Qed.

End GraphFacts.

(** ** dynamic_graph::build *)

Section BuildFacts.
Context {F : Type} `{!Scalar F}.

Local Abbreviation graph_state := (graph_state F).

Lemma wf_apply_operation op (g g' : graph_state) :
  wf_graph g -> apply_operation op g = Normal g' -> wf_graph g'.
Proof.
  destruct op; cbn; intros Hg H.
  - injection H as <-. by apply wf_push_node.
  - by eapply wf_push_edge.
  - by eapply wf_remove_node.
  - by eapply wf_remove_edge.
Qed.

Lemma wf_apply_operations ops (g g' : graph_state) :
  wf_graph g -> apply_operations ops g = Normal g' -> wf_graph g'.
Proof.
  revert g. induction ops as [|op ops IH]; intros g Hg; cbn.
  - by intros [= <-].
  - destruct (apply_operation op g) as [g1|] eqn:E; [|done].
    apply IH. by eapply wf_apply_operation.
Qed.

Lemma wf_apply_steps mods (acc sts : list graph_state) :
  Forall wf_graph acc -> apply_steps mods acc = Normal sts -> Forall wf_graph sts.
Proof.
  revert acc. induction mods as [|m mods IH]; intros acc Hacc; cbn.
  - by intros [= <-].
  - destruct (apply_operations m _) as [s|] eqn:E; [|done].
    apply IH. apply Forall_app; split; [done|]. apply Forall_singleton.
    eapply wf_apply_operations; [|exact E].
    destruct (last acc) as [s0|] eqn:El; [|apply wf_empty_graph].
    rewrite Forall_forall in Hacc. apply Hacc.
    apply last_Some in El as [l' ->]. apply elem_of_app; right. by apply list_elem_of_singleton.
Qed.

Lemma set_flags_nodes_ext (a b : list graph_state) i (n : node F) :
  same_maps a b -> set_flags node_exists a i n = set_flags node_exists b i n.
Proof.
  intros [Hlen Hm]. unfold set_flags. rewrite Hlen.
  assert (E : forall j, match a !! j with
                        | Some s => negb (node_exists s (elem_id n)) | None => false end
                      = match b !! j with
                        | Some s => negb (node_exists s (elem_id n)) | None => false end).
  { intros j. destruct (a !! j) as [x|] eqn:Ea, (b !! j) as [y|] eqn:Eb.
    - destruct (Hm j x y Ea Eb) as [Hx _]. unfold node_exists. by rewrite Hx.
    - exfalso. apply lookup_lt_Some in Ea. apply lookup_ge_None in Eb. lia.
    - exfalso. apply lookup_lt_Some in Eb. apply lookup_ge_None in Ea. lia.
    - done. }
  by rewrite !E.
Qed.

Lemma set_flags_edges_ext (a b : list graph_state) i (e : edge F) :
  same_maps a b -> set_flags edge_exists a i e = set_flags edge_exists b i e.
Proof.
  intros [Hlen Hm]. unfold set_flags. rewrite Hlen.
  assert (E : forall j, match a !! j with
                        | Some s => negb (edge_exists s (elem_id e)) | None => false end
                      = match b !! j with
                        | Some s => negb (edge_exists s (elem_id e)) | None => false end).
  { intros j. destruct (a !! j) as [x|] eqn:Ea, (b !! j) as [y|] eqn:Eb.
    - destruct (Hm j x y Ea Eb) as [_ Hx]. unfold edge_exists. by rewrite Hx.
    - exfalso. apply lookup_lt_Some in Ea. apply lookup_ge_None in Eb. lia.
    - exfalso. apply lookup_lt_Some in Eb. apply lookup_ge_None in Ea. lia.
    - done. }
  by rewrite !E.
Qed.

Lemma flag_state_ext (a b : list graph_state) i g :
  same_maps a b -> flag_state a i g = flag_state b i g.
Proof.
  intros H. unfold flag_state. f_equal; f_equal.
  - apply list_fmap_ext. intros ? n _. by apply set_flags_nodes_ext.
  - apply list_fmap_ext. intros ? e _. by apply set_flags_edges_ext.
Qed.

(** The loop of [set_bool_values] after the first [k] indices. *)
Lemma set_bool_values_prefix (sts : list graph_state) k :
  k <= length sts ->
  let cur := foldl set_bool_values_at sts (seq 0 k) in
  same_maps cur sts /\
  forall j, cur !! j = if decide (j < k) then flag_state sts j <$> sts !! j else sts !! j.
Proof.
  induction k as [|k IH]; intros Hk cur.
  - split; [|done]. split; [done|]. intros j x y Hx Hy. cbn in Hx. by simplify_eq.
  - subst cur. rewrite seq_S, foldl_app. cbn [foldl].
    destruct IH as [[Hlen Hm] Hcur]; [lia|].
    set (cur := foldl set_bool_values_at sts (seq 0 k)) in *.
    cbn [Nat.add]. unfold set_bool_values_at.
    destruct (lookup_lt_is_Some_2 cur k) as [g Hg]; [lia|]. rewrite Hg.
    assert (Hg0 : sts !! k = Some g).
    { rewrite <- Hg, Hcur. by rewrite decide_False by lia. }
    fold (flag_state cur k g).
    rewrite (flag_state_ext cur sts) by done.
    split.
    + split; [by rewrite length_insert|].
      intros j x y Hx Hy. destruct (decide (j = k)) as [->|Hne].
      * rewrite list_lookup_insert_eq in Hx by lia. by simplify_eq.
      * rewrite list_lookup_insert_ne in Hx by done. by eapply Hm.
    + intros j. destruct (decide (j = k)) as [->|Hne].
      * rewrite list_lookup_insert_eq by lia. rewrite decide_True by lia. by rewrite Hg0.
      * rewrite list_lookup_insert_ne by done. rewrite Hcur.
        destruct (decide (j < k)), (decide (j < S k)); done || lia.
Qed.

Lemma set_bool_values_lookup (sts : list graph_state) t :
  set_bool_values sts !! t = flag_state sts t <$> sts !! t.
Proof.
  unfold set_bool_values.
  destruct (set_bool_values_prefix sts (length sts)) as [_ H]; [done|].
  rewrite H. case_decide as Hlt; [done|].
  rewrite lookup_ge_None_2; [done|lia].
Qed.

Lemma set_bool_values_length (sts : list graph_state) :
  length (set_bool_values sts) = length sts.
Proof.
  unfold set_bool_values.
  by destruct (set_bool_values_prefix sts (length sts)) as [[-> _] _].
Qed.

Lemma map_agrees_fmap {T} `{!Identified T} (f : T -> T) (c : container T) :
  (forall x, elem_id (f x) = elem_id x) ->
  map_agrees c -> map_agrees (mk_container (f <$> c_vec c) (c_map c)).
Proof.
  intros Hf Hc i k. cbn. split.
  - intros H. apply Hc in H as (x & Hx & Hi). exists (f x).
    rewrite list_lookup_fmap, Hx. split; [done|]. by rewrite Hf.
  - intros (y & Hy & Hi). rewrite list_lookup_fmap in Hy.
    destruct (c_vec c !! k) as [x|] eqn:E; [|done].
    cbn in Hy. injection Hy as <-. apply Hc. exists x. split; [done|]. by rewrite <- Hf.
Qed.

Lemma set_flags_node_id ex (sts : list graph_state) i (n : node F) :
  elem_id (set_flags ex sts i n) = elem_id n.
Proof. done. Qed.

Lemma set_flags_edge_id ex (sts : list graph_state) i (e : edge F) :
  elem_id (set_flags ex sts i e) = elem_id e.
Proof. done. Qed.

Lemma wf_flag_state (sts : list graph_state) i g :
  wf_graph g -> wf_graph (flag_state sts i g).
Proof.
  intros [Hn He]. split; cbn.
  - apply (map_agrees_fmap _ (m_nodes g)); [apply set_flags_node_id|done].
  - apply (map_agrees_fmap _ (m_edges g)); [apply set_flags_edge_id|done].
Qed.

Lemma wf_set_bool_values (sts : list graph_state) :
  Forall wf_graph sts -> Forall wf_graph (set_bool_values sts).
Proof.
  intros H. apply Forall_lookup. intros t g Hg.
  rewrite set_bool_values_lookup in Hg.
  destruct (sts !! t) as [g0|] eqn:E; [|done]. cbn in Hg. simplify_eq.
  apply wf_flag_state. eapply Forall_lookup_1; eauto.
Qed.

(** Every state [build] leaves is well formed. *)
Lemma wf_build (d d' : dynamic_graph F) :
  build d = Normal d' -> Forall wf_graph (states d').
Proof.
  unfold build. destruct (apply_steps _ _) as [sts|] eqn:E; [|done].
  intros [= <-]. cbn. apply wf_set_bool_values.
  eapply wf_apply_steps; [|exact E]. constructor.
Qed.

(** The flags [set_bool_values] leaves on the elements of [states[t]]. *)
Lemma set_bool_values_flags {T} `{!Identified T, !Animated F T}
    (elems : graph_state -> list T) (ex : graph_state -> N -> bool)
    (sts : list graph_state) t (el0 : T) :
  (forall b x, is_new (set_is_new b x) = b) ->
  (forall b b' x, is_old (set_is_new b (set_is_old b' x)) = b') ->
  (forall g j, ex (flag_state sts j g) = ex g) ->
  let fs := set_bool_values sts in
  let el := set_flags ex sts t el0 in
  is_new el = (Nat.ltb 0 t &&
    match fs !! (t - 1) with
    | Some p => negb (ex p (elem_id el0)) | None => false end)
  /\ is_old el = (Nat.ltb t (length fs - 1) &&
    match fs !! (t + 1) with
    | Some q => negb (ex q (elem_id el0)) | None => false end).
Proof.
  intros Hnew Hold Hex fs el. subst fs el. unfold set_flags.
  rewrite Hnew, Hold, set_bool_values_length, !set_bool_values_lookup.
  split; f_equal.
  - destruct (sts !! (t - 1)); cbn; [by rewrite Hex|done].
  - destruct (sts !! (t + 1)); cbn; [by rewrite Hex|done].
Qed.

End BuildFacts.

Section BuildFlags.
Context {F : Type} `{!Scalar F}.

Local Abbreviation graph_state := (graph_state F).

Lemma flag_reading {T} `{!Identified T} (b cond : bool) (o : option graph_state)
    (ex : graph_state -> N -> bool) (elems : graph_state -> list T) (i : N) :
  (forall p, o = Some p -> ex p i = true <-> has_id (elems p) i) ->
  b = cond && match o with Some p => negb (ex p i) | None => false end ->
  b = true <-> cond = true /\ exists p, o = Some p /\ ~ has_id (elems p) i.
Proof.
  intros Hex ->. rewrite andb_true_iff. split.
  - intros [Hc Hm]. split; [done|]. destruct o as [p|]; [|done].
    exists p; split; [done|]. rewrite <- (Hex p eq_refl).
    apply negb_true_iff in Hm. congruence.
  - intros [Hc (p & -> & Hp)]. split; [done|]. apply negb_true_iff.
    rewrite <- (Hex p eq_refl) in Hp. by destruct (ex p i).
Qed.

(** C2.  After [build()], in every state [t] the flag [is_new] of a node or
    an edge tells that [t > 0] and the element is absent from state [t - 1],
    and [is_old] that [t] is not the last index and the element is absent
    from state [t + 1]. *)
Theorem build_sets_is_new_is_old (d d' : dynamic_graph F) :
  build d = Normal d' ->
  forall t g, states d' !! t = Some g ->
    (forall n, n ∈ nodes g ->
       (is_new n = true <->
          0 < t /\ exists p, states d' !! (t - 1) = Some p /\ ~ has_id (nodes p) (elem_id n))
       /\ (is_old n = true <->
          t < length (states d') - 1
          /\ exists q, states d' !! (t + 1) = Some q /\ ~ has_id (nodes q) (elem_id n)))
    /\ (forall e, e ∈ edges g ->
       (is_new e = true <->
          0 < t /\ exists p, states d' !! (t - 1) = Some p /\ ~ has_id (edges p) (elem_id e))
       /\ (is_old e = true <->
          t < length (states d') - 1
          /\ exists q, states d' !! (t + 1) = Some q /\ ~ has_id (edges q) (elem_id e))).
Proof.
  intros Hb t g Hg. pose proof (wf_build d d' Hb) as Hwf.
  unfold build in Hb. destruct (apply_steps _ _) as [sts|] eqn:E; [|done].
  injection Hb as <-. cbn [states m_states] in *.
  rewrite set_bool_values_lookup in Hg.
  destruct (sts !! t) as [g0|] eqn:Eg; [|done]. cbn in Hg. injection Hg as <-.
  assert (Hwfp : forall j p, set_bool_values sts !! j = Some p -> wf_graph p).
  { intros j p Hp. eapply Forall_lookup_1; eauto. }
  split.
  - intros n Hn. cbn in Hn. apply list_elem_of_fmap in Hn as (n0 & -> & Hn0).
    destruct (set_bool_values_flags (T := node F) nodes node_exists sts t n0)
      as [Hnew Hold]; [done..|].
    rewrite set_flags_node_id. split.
    + rewrite <- Nat.ltb_lt.
      eapply (flag_reading _ _ _ node_exists nodes); [|exact Hnew].
      intros p Hp. apply node_exists_has_id. by eapply Hwfp.
    + rewrite <- Nat.ltb_lt.
      eapply (flag_reading _ _ _ node_exists nodes); [|exact Hold].
      intros p Hp. apply node_exists_has_id. by eapply Hwfp.
  - intros e He. cbn in He. apply list_elem_of_fmap in He as (e0 & -> & He0).
    destruct (set_bool_values_flags (T := edge F) edges edge_exists sts t e0)
      as [Hnew Hold]; [done..|].
    rewrite set_flags_edge_id. split.
    + rewrite <- Nat.ltb_lt.
      eapply (flag_reading _ _ _ edge_exists edges); [|exact Hnew].
      intros p Hp. apply edge_exists_has_id. by eapply Hwfp.
    + rewrite <- Nat.ltb_lt.
      eapply (flag_reading _ _ _ edge_exists edges); [|exact Hold].
      intros p Hp. apply edge_exists_has_id. by eapply Hwfp.
Qed.

End BuildFlags.

(** ** Live sets: the merge walks on sorted sequences *)

Lemma set_intersection_cons x a y b :
  set_intersection (x :: a) (y :: b) =
    if x <? y then set_intersection a (y :: b)
    else if y <? x then set_intersection (x :: a) b
    else x :: set_intersection a b.
Proof. done. Qed.

Lemma set_intersection_nil_r a : set_intersection a [] = [].
Proof. by destruct a. Qed.

Lemma set_union_cons x a y b :
  set_union (x :: a) (y :: b) =
    if y <? x then y :: set_union (x :: a) b
    else if x <? y then x :: set_union a (y :: b)
    else x :: set_union a b.
Proof. done. Qed.

Lemma set_union_nil_r a : set_union a [] = a.
Proof. by destruct a. Qed.

Lemma set_intersection_sound a b z :
  z ∈ set_intersection a b -> z ∈ a /\ z ∈ b.
Proof.
  revert b. induction a as [|x a IHa]; intros b; [by intros ?%elem_of_nil|].
  induction b as [|y b IHb]; [by intros ?%elem_of_nil|].
  rewrite set_intersection_cons.
  destruct (x <? y) eqn:Exy; [|destruct (y <? x) eqn:Eyx].
  - intros [? ?]%IHa. split; [by right|done].
  - intros [? ?]%IHb. split; [done|by right].
  - apply Nat.ltb_ge in Exy, Eyx. assert (x = y) as -> by lia.
    intros [->|[? ?]%IHa]%elem_of_cons; split; (by left) || (by right).
Qed.

Lemma set_intersection_complete a b z :
  StronglySorted le a -> StronglySorted le b ->
  z ∈ a -> z ∈ b -> z ∈ set_intersection a b.
Proof.
  revert b. induction a as [|x a IHa]; intros b Ha Hb; [by intros ?%elem_of_nil|].
  induction b as [|y b IHb]; [by intros _ ?%elem_of_nil|].
  apply StronglySorted_inv in Ha as [Ha Hxa]. pose proof Hb as Hb0.
  apply StronglySorted_inv in Hb as [Hb Hyb].
  rewrite Forall_forall in Hxa, Hyb.
  intros Hza Hzb. rewrite set_intersection_cons.
  destruct (x <? y) eqn:Exy; [|destruct (y <? x) eqn:Eyx].
  - apply Nat.ltb_lt in Exy. apply IHa; [done..| |done].
    apply elem_of_cons in Hza as [->|Hza]; [|done].
    apply elem_of_cons in Hzb as [->|Hzb]; [lia|].
    apply Hyb in Hzb. lia.
  - apply Nat.ltb_lt in Eyx. apply IHb; [done..|].
    apply elem_of_cons in Hzb as [->|Hzb]; [|done].
    apply elem_of_cons in Hza as [->|Hza]; [lia|].
    apply Hxa in Hza. lia.
  - apply Nat.ltb_ge in Exy, Eyx. assert (x = y) as -> by lia.
    apply elem_of_cons in Hza as [->|Hza]; [by left|].
    apply elem_of_cons in Hzb as [->|Hzb]; [by left|].
    right. by apply IHa.
Qed.

Lemma set_union_elem a b z : z ∈ set_union a b <-> z ∈ a \/ z ∈ b.
Proof.
  revert b. induction a as [|x a IHa]; intros b.
  { cbn. rewrite elem_of_nil. tauto. }
  induction b as [|y b IHb].
  { rewrite set_union_nil_r, elem_of_nil. tauto. }
  rewrite set_union_cons.
  destruct (y <? x) eqn:Eyx; [|destruct (x <? y) eqn:Exy].
  - rewrite !elem_of_cons, IHb, !elem_of_cons. tauto.
  - rewrite !elem_of_cons, IHa, !elem_of_cons. tauto.
  - apply Nat.ltb_ge in Exy, Eyx. assert (x = y) as -> by lia.
    rewrite !elem_of_cons, IHa. tauto.
Qed.

Lemma set_union_sorted a b :
  StronglySorted le a -> StronglySorted le b -> StronglySorted le (set_union a b).
Proof.
  revert b. induction a as [|x a IHa]; intros b Ha Hb; [done|].
  induction b as [|y b IHb]; [by rewrite set_union_nil_r|].
  pose proof Ha as Ha0. pose proof Hb as Hb0.
  apply StronglySorted_inv in Ha as [Ha Hxa].
  apply StronglySorted_inv in Hb as [Hb Hyb].
  rewrite Forall_forall in Hxa, Hyb.
  rewrite set_union_cons.
  destruct (y <? x) eqn:Eyx; [|destruct (x <? y) eqn:Exy].
  - apply Nat.ltb_lt in Eyx. constructor; [by apply IHb|].
    apply Forall_forall. intros z Hz%set_union_elem.
    destruct Hz as [[->|Hz]%elem_of_cons|Hz]; [lia| |].
    + apply Hxa in Hz. lia.
    + apply Hyb in Hz. lia.
  - apply Nat.ltb_lt in Exy. constructor; [by apply IHa|].
    apply Forall_forall. intros z Hz%set_union_elem.
    destruct Hz as [Hz|[->|Hz]%elem_of_cons]; [|lia|].
    + apply Hxa in Hz. lia.
    + apply Hyb in Hz. lia.
  - apply Nat.ltb_ge in Exy, Eyx. assert (x = y) as -> by lia.
    constructor; [by apply IHa|].
    apply Forall_forall. intros z Hz%set_union_elem.
    destruct Hz as [Hz|Hz].
    + apply Hxa in Hz. lia.
    + apply Hyb in Hz. lia.
Qed.

Lemma intersection_empty_disjoint a b :
  StronglySorted le a -> StronglySorted le b ->
  live_empty (intersection a b) = true <-> disjoint_live a b.
Proof.
  intros Ha Hb. unfold intersection. split.
  - intros He t Hta Htb.
    pose proof (set_intersection_complete a b t Ha Hb Hta Htb) as H.
    destruct (set_intersection a b); [by apply elem_of_nil in H|done].
  - intros Hd. destruct (set_intersection a b) as [|z l] eqn:E; [done|].
    exfalso. destruct (set_intersection_sound a b z) as [Hza Hzb].
    { rewrite E. by left. }
    by apply (Hd z).
Qed.

(** ** The GAP: the invariant of the first loop of calculate_gap *)

Section GapFacts.
Context {F : Type} `{!Scalar F}.
Variable nodes_live : gmap N live_set.
Hypothesis nodes_live_sorted :
  forall i l, nodes_live !! i = Some l -> StronglySorted le l.

Lemma gap_inv_empty : gap_inv nodes_live [] (empty_mapped_graph : mapped_graph F).
Proof.
  split.
  - apply map_agrees_empty.
  - intros p (x & Hx & _). by apply elem_of_nil in Hx.
  - intros n p H. cbn in H. by rewrite lookup_empty in H.
  - intros p P H. unfold node_at, container_at in H. cbn in H.
    by rewrite lookup_empty in H.
  - intros n1 n2 p H. by apply elem_of_nil in H.
  - intros n H. by apply elem_of_nil in H.
Qed.

Lemma node_at_has_id (g : graph_partitioning F) p P :
  map_agrees (m_nodes g) -> node_at g p = Some P -> has_id (nodes g) p /\ elem_id P = p.
Proof.
  intros Hg H. apply map_agrees_at in H as [? ?]; [|done]. split; [|done]. by exists P.
Qed.

Lemma has_id_node_at (g : graph_partitioning F) p :
  map_agrees (m_nodes g) -> has_id (nodes g) p -> exists P, node_at g p = Some P.
Proof.
  intros Hg (P & HP & <-). exists P. by apply map_agrees_at_Some.
Qed.

(** [gap.node_at(n).id()] in terms of the alias table. *)
Lemma partition_of_spec (gap : mapped_graph F) n p :
  map_agrees (m_nodes (m_graph gap)) ->
  partition_of gap n = Some p <->
    default n (m_node_map gap !! n) = p /\ has_id (nodes (m_graph gap)) p.
Proof.
  intros Hg. unfold partition_of, mg_node_at.
  destruct (m_node_map gap !! n) as [q|]; cbn.
  - split.
    + destruct (node_at (m_graph gap) q) as [P|] eqn:E; [|done]. cbn. intros [= <-].
      apply node_at_has_id in E as [? ->]; done.
    + intros [-> H]. apply has_id_node_at in H as [P HP]; [|done]. rewrite HP. cbn.
      apply node_at_has_id in HP as [_ ->]; done.
  - split.
    + destruct (node_at (m_graph gap) n) as [P|] eqn:E; [|done]. cbn. intros [= <-].
      apply node_at_has_id in E as [? ->]; done.
    + intros [-> H]. apply has_id_node_at in H as [P HP]; [|done]. rewrite HP. cbn.
      apply node_at_has_id in HP as [_ ->]; done.
Qed.

(** What [extend_first] finds. *)
Lemma extend_first_Some l (ps ps' : list (node_partition F)) target :
  extend_first l ps = Some (ps', target) ->
  exists k P, ps !! k = Some P /\ elem_id P = target
    /\ live_empty (intersection (live_time P) l) = true
    /\ ps' = <[k := add_live_time l P]> ps.
Proof.
  revert ps'. induction ps as [|P ps IH]; intros ps'; [done|]. cbn.
  destruct (live_empty _) eqn:E.
  - intros [= <- <-]. by exists 0, P.
  - destruct (extend_first l ps) as [[ps'' t]|]; [|done]. intros [= <- <-].
    destruct (IH _ eq_refl) as (k & Q & Hk & Hid & He & ->).
    by exists (S k), Q.
Qed.

Lemma map_agrees_insert {T} `{!Identified T} (c : container T) k x y :
  map_agrees c -> c_vec c !! k = Some x -> elem_id y = elem_id x ->
  map_agrees (mk_container (<[k := y]> (c_vec c)) (c_map c)).
Proof.
  intros Hc Hk Hid i j. cbn. rewrite (Hc i j). pose proof (lookup_lt_Some _ _ _ Hk).
  destruct (decide (j = k)) as [->|Hne].
  - rewrite list_lookup_insert_eq by done. rewrite Hk. split.
    + intros (z & [= <-] & Hi). exists y. by rewrite Hid.
    + intros (z & [= <-] & Hi). exists x. by rewrite <- Hid.
  - by rewrite list_lookup_insert_ne.
Qed.

Lemma has_id_insert {T} `{!Identified T} (l : list T) k x y i :
  l !! k = Some x -> elem_id y = elem_id x ->
  has_id (<[k := y]> l) i <-> has_id l i.
Proof.
  intros Hk Hid. pose proof (lookup_lt_Some _ _ _ Hk). split.
  - intros (z & Hz & Hi). apply list_elem_of_lookup in Hz as [j Hj].
    destruct (decide (j = k)) as [->|Hne].
    + rewrite list_lookup_insert_eq in Hj by done. injection Hj as <-.
      exists x. split; [by eapply list_elem_of_lookup_2|congruence].
    + rewrite list_lookup_insert_ne in Hj by done.
      exists z. split; [by eapply list_elem_of_lookup_2|done].
  - intros (z & Hz & Hi). apply list_elem_of_lookup in Hz as [j Hj].
    destruct (decide (j = k)) as [->|Hne].
    + exists y. split.
      * eapply list_elem_of_lookup_2. by apply list_lookup_insert_eq.
      * rewrite Hk in Hj. injection Hj as <-. congruence.
    + exists z. split; [|done]. eapply list_elem_of_lookup_2.
      by rewrite list_lookup_insert_ne.
Qed.


Lemma node_at_insert (g : graph_partitioning F) k (P P' : node_partition F) q :
  map_agrees (m_nodes g) -> nodes g !! k = Some P -> elem_id P' = elem_id P ->
  node_at (with_nodes (<[k := P']> (nodes g)) g) q =
    if decide (q = elem_id P) then Some P' else node_at g q.
Proof.
  intros Hg Hk Hid. pose proof (lookup_lt_Some _ _ _ Hk) as Hlt.
  unfold node_at, container_at, with_nodes. cbn.
  destruct (c_map (m_nodes g) !! q) as [j|] eqn:E.
  - apply Hg in E as (x & Hx & Hi). destruct (decide (j = k)) as [->|Hne].
    + rewrite list_lookup_insert_eq by done.
      unfold nodes in Hk. rewrite Hk in Hx. injection Hx as <-.
      by rewrite decide_True.
    + rewrite list_lookup_insert_ne by done. case_decide as Hq; [|done].
      exfalso. apply Hne.
      assert (A1 : c_map (m_nodes g) !! q = Some j) by (apply Hg; eauto).
      assert (A2 : c_map (m_nodes g) !! q = Some k) by (apply Hg; eauto).
      congruence.
  - case_decide as Hq; [|done]. exfalso.
    assert (A : c_map (m_nodes g) !! q = Some k) by (apply Hg; eauto).
    congruence.
Qed.

(** The alias branch of [gap_node] keeps the invariant. *)
Lemma gap_inv_alias done (gap : mapped_graph F) n l k P :
  gap_inv nodes_live done gap -> n ∉ done -> nodes_live !! n = Some l ->
  nodes (m_graph gap) !! k = Some P ->
  live_empty (intersection (live_time P) l) = true ->
  gap_inv nodes_live (n :: done)
    (map_node n (elem_id P)
       (mk_mapped_graph
          (with_nodes (<[k := add_live_time l P]> (nodes (m_graph gap))) (m_graph gap))
          (m_node_map gap) (m_edge_map gap))).
Proof.
  intros Hinv Hn Hl Hk He. destruct Hinv as [J1 J2 J3 J4 J5 J6].
  set (P' := add_live_time l P).
  set (G' := with_nodes (<[k := P']> (nodes (m_graph gap))) (m_graph gap)).
  set (gap' := map_node n (elem_id P) (mk_mapped_graph G' (m_node_map gap) (m_edge_map gap))).
  assert (HP : has_id (nodes (m_graph gap)) (elem_id P)).
  { exists P. split; [by eapply list_elem_of_lookup_2|done]. }
  assert (Hnone : m_node_map gap !! n = None).
  { destruct (m_node_map gap !! n) eqn:E; [|done]. by apply J3 in E as [? _]. }
  assert (Hmap : m_node_map gap' = <[n := elem_id P]> (m_node_map gap)).
  { cbn. unfold emplace. by rewrite Hnone. }
  assert (J1' : map_agrees (m_nodes (m_graph gap'))).
  { cbn. by eapply (map_agrees_insert (m_nodes (m_graph gap))). }
  assert (Hhas : forall p, has_id (nodes (m_graph gap')) p <-> has_id (nodes (m_graph gap)) p).
  { intros p. cbn. by eapply (has_id_insert (nodes (m_graph gap))). }
  assert (Hpo : forall m, m <> n -> partition_of gap' m = partition_of gap m).
  { intros m Hm. destruct (partition_of gap m) as [p|] eqn:E.
    - apply partition_of_spec; [done|]. apply partition_of_spec in E; [|done].
      rewrite Hmap, lookup_insert_ne by done. by rewrite Hhas.
    - destruct (partition_of gap' m) as [p|] eqn:E'; [|done].
      apply partition_of_spec in E'; [|done].
      rewrite Hmap, lookup_insert_ne, Hhas in E' by done.
      apply partition_of_spec in E'; [|done]. congruence. }
  assert (Hpn : partition_of gap' n = Some (elem_id P)).
  { apply partition_of_spec; [done|]. rewrite Hmap, lookup_insert_eq. cbn.
    split; [done|]. by apply Hhas. }
  assert (Hsl : StronglySorted le l) by by eapply nodes_live_sorted.
  assert (HPat : node_at (m_graph gap) (elem_id P) = Some P).
  { apply map_agrees_at_Some; [done|]. by eapply list_elem_of_lookup_2. }
  destruct (J4 _ _ HPat) as [HsP HinP].
  assert (Hdis : disjoint_live (live_time P) l) by by apply intersection_empty_disjoint.
  split.
  - done.
  - intros p Hp%Hhas. destruct (J2 p Hp) as [Hd Hm]. split; [by right|].
    rewrite Hmap, lookup_insert_ne; [done|]. by intros <-.
  - intros m p. rewrite Hmap. destruct (decide (m = n)) as [->|Hne].
    + rewrite lookup_insert_eq. intros [= <-]. split; [by left|by apply Hhas].
    + rewrite lookup_insert_ne by done. intros [? ?]%J3. split; [by right|by apply Hhas].
  - intros p Q HQ. cbn in HQ. fold P' in HQ.
    rewrite (node_at_insert (m_graph gap) k P P') in HQ by done.
    case_decide as Hp.
    + injection HQ as <-. subst p. split.
      * cbn. by apply set_union_sorted.
      * intros m Hm Hpm t Ht. cbn. apply set_union_elem.
        apply elem_of_cons in Hm as [->|Hm].
        -- right. unfold live_of in Ht. by rewrite Hl in Ht.
        -- left. eapply HinP; [done| |done]. rewrite <- Hpo; [done|]. by intros ->.
    + destruct (J4 _ _ HQ) as [HsQ HinQ]. split; [done|].
      intros m Hm Hpm t Ht. apply elem_of_cons in Hm as [->|Hm].
      * rewrite Hpn in Hpm. congruence.
      * eapply HinQ; [done| |done]. rewrite <- Hpo; [done|]. by intros ->.
  - intros n1 n2 p H1 H2 Hne Hp1 Hp2.
    apply elem_of_cons in H1 as [->|H1]; apply elem_of_cons in H2 as [->|H2].
    + done.
    + rewrite Hpn in Hp1. injection Hp1 as <-.
      rewrite Hpo in Hp2 by (by intros ->).
      intros t Ht1 Ht2. unfold live_of in Ht1. rewrite Hl in Ht1. cbn in Ht1.
      apply (Hdis t); [|done]. by eapply HinP.
    + rewrite Hpn in Hp2. injection Hp2 as <-.
      rewrite Hpo in Hp1 by (by intros ->).
      intros t Ht1 Ht2. unfold live_of in Ht2. rewrite Hl in Ht2. cbn in Ht2.
      apply (Hdis t); [|done]. by eapply HinP.
    + rewrite Hpo in Hp1 by (by intros ->). rewrite Hpo in Hp2 by (by intros ->).
      by eapply J5.
  - intros m [->|Hm]%elem_of_cons; [by rewrite Hpn|].
    rewrite Hpo by (by intros ->). by apply J6.
Qed.


Lemma has_id_app {T} `{!Identified T} (l : list T) x i :
  has_id (l ++ [x]) i <-> has_id l i \/ elem_id x = i.
Proof.
  split.
  - intros (z & [Hz|Hz%list_elem_of_singleton]%elem_of_app & Hi).
    + left. by exists z.
    + right. by subst.
  - intros [(z & Hz & Hi)|Hi].
    + exists z. split; [|done]. apply elem_of_app. by left.
    + exists x. split; [|done]. apply elem_of_app. right. by apply list_elem_of_singleton.
Qed.

(** The push branch of [gap_node] keeps the invariant. *)
Lemma gap_inv_push done (gap : mapped_graph F) n l :
  gap_inv nodes_live done gap -> n ∉ done -> nodes_live !! n = Some l ->
  gap_inv nodes_live (n :: done)
    (let '(g, k) := push_node_at (new_node_partition n) (m_graph gap) in
     mk_mapped_graph (with_nodes (alter (add_live_time l) k (nodes g)) g)
       (m_node_map gap) (m_edge_map gap)).
Proof.
  intros Hinv Hn Hl. destruct Hinv as [J1 J2 J3 J4 J5 J6].
  assert (Hfresh : ~ has_id (nodes (m_graph gap)) n) by (by intros [? _]%J2).
  assert (Hcm : c_map (m_nodes (m_graph gap)) !! n = None).
  { destruct (c_map (m_nodes (m_graph gap)) !! n) as [j|] eqn:E; [|done].
    exfalso. apply Hfresh. apply (map_agrees_exists (m_nodes (m_graph gap))); eauto. }
  unfold push_node_at.
  change (elem_id (new_node_partition n)) with n. rewrite Hcm.
  set (ps := nodes (m_graph gap)). set (Pn := add_live_time l (new_node_partition n)).
  assert (Halter : alter (add_live_time l) (length ps) (ps ++ [new_node_partition n])
                   = ps ++ [Pn]).
  { rewrite <- (Nat.add_0_r (length ps)). by rewrite alter_app_r. }
  cbn [nodes m_nodes c_vec]. fold ps. rewrite Halter.
  unfold with_nodes. cbn [m_nodes c_map m_edges m_index].
  set (G' := mk_graph _ _ _).
  set (gap' := mk_mapped_graph G' (m_node_map gap) (m_edge_map gap)).
  assert (J1' : map_agrees (m_nodes (m_graph gap'))).
  { cbn. change n with (elem_id Pn) at 1.
    by apply (map_agrees_push (m_nodes (m_graph gap)) Pn). }
  assert (Hhas : forall p, has_id (nodes (m_graph gap')) p
                           <-> has_id (nodes (m_graph gap)) p \/ p = n).
  { intros p. cbn. unfold nodes at 1. cbn. rewrite has_id_app.
    change (elem_id Pn) with n. split; intros [?|?]; auto. }
  assert (Hnone : m_node_map gap !! n = None).
  { destruct (m_node_map gap !! n) eqn:E; [|done]. by apply J3 in E as [? _]. }
  assert (Hpo : forall m, m <> n -> partition_of gap' m = partition_of gap m).
  { intros m Hm.
    assert (A : forall p, partition_of gap' m = Some p <-> partition_of gap m = Some p).
    { intros p. rewrite !partition_of_spec by done. cbn [m_node_map gap'].
      rewrite Hhas. split; [|tauto]. intros [Hd [Hp| ->]]; [done|].
      exfalso. destruct (m_node_map gap !! m) as [q|] eqn:E; cbn in Hd.
      - subst q. apply J3 in E as [_ ?]. done.
      - done. }
    apply option_eq. intros p. apply A. }
  assert (Hpn : partition_of gap' n = Some n).
  { apply partition_of_spec; [done|]. cbn [m_node_map gap']. rewrite Hnone. cbn.
    split; [done|]. apply Hhas. by right. }
  assert (Hat : forall p, node_at (m_graph gap') p =
                  if decide (p = n) then Some Pn else node_at (m_graph gap) p).
  { intros p. case_decide as Hp.
    - subst p. change n with (elem_id Pn) at 1.
      apply (map_agrees_at_Some (m_nodes (m_graph gap'))); [done|].
      cbn. apply elem_of_app. right. by apply list_elem_of_singleton.
    - unfold node_at, container_at. cbn. unfold emplace. rewrite Hcm.
      rewrite lookup_insert_ne by done.
      destruct (c_map (m_nodes (m_graph gap)) !! p) as [j|] eqn:E; [|done].
      apply J1 in E as (x & Hx & _). rewrite lookup_app_l; [done|].
      by eapply lookup_lt_Some. }
  split.
  - done.
  - intros p [Hp| ->]%Hhas.
    + destruct (J2 p Hp). split; [by right|done].
    + split; [by left|done].
  - intros m p Hm. cbn in Hm. apply J3 in Hm as [? ?]. split; [by right|].
    apply Hhas. by left.
  - intros p Q HQ. rewrite Hat in HQ. case_decide as Hp.
    + injection HQ as <-. subst p. split.
      * cbn. unfold join, setunion. cbn. by eapply nodes_live_sorted.
      * intros m Hm Hpm t Ht. apply elem_of_cons in Hm as [->|Hm].
        -- cbn. unfold join, setunion. cbn. unfold live_of in Ht. by rewrite Hl in Ht.
        -- exfalso. rewrite Hpo in Hpm by (by intros ->).
           apply partition_of_spec in Hpm as [_ ?]; done.
    + destruct (J4 _ _ HQ) as [HsQ HinQ]. split; [done|].
      intros m Hm Hpm t Ht. apply elem_of_cons in Hm as [->|Hm].
      * rewrite Hpn in Hpm. congruence.
      * eapply HinQ; [done| |done]. rewrite <- Hpo; [done|]. by intros ->.
  - intros n1 n2 p H1 H2 Hne Hp1 Hp2.
    assert (Hold : forall m, m ∈ done -> partition_of gap' m <> Some n).
    { intros m Hm. rewrite Hpo by (by intros ->).
      intros [_ ?]%partition_of_spec; done. }
    apply elem_of_cons in H1 as [->|H1]; apply elem_of_cons in H2 as [->|H2].
    + done.
    + rewrite Hpn in Hp1. injection Hp1 as <-. by apply Hold in Hp2.
    + rewrite Hpn in Hp2. injection Hp2 as <-. by apply Hold in Hp1.
    + rewrite Hpo in Hp1 by (by intros ->). rewrite Hpo in Hp2 by (by intros ->).
      by eapply J5.
  - intros m [->|Hm]%elem_of_cons; [by rewrite Hpn|].
    rewrite Hpo by (by intros ->). by apply J6.
Qed.

(** One node of the supergraph. *)
Lemma gap_inv_node done (gap gap' : mapped_graph F) (n : node F) :
  gap_inv nodes_live done gap -> elem_id n ∉ done ->
  gap_node nodes_live gap n = Ok gap' ->
  gap_inv nodes_live (elem_id n :: done) gap'.
Proof.
  intros Hinv Hn. unfold gap_node, map_at.
  destruct (nodes_live !! elem_id n) as [l|] eqn:El; [|done].
  destruct (extend_first l _) as [[ps target]|] eqn:E.
  - intros [= <-]. apply extend_first_Some in E as (k & P & Hk & <- & He & ->).
    by apply gap_inv_alias.
  - pose proof (gap_inv_push done gap (elem_id n) l Hinv Hn El) as H.
    destruct (push_node_at _ _) as [g k]. by intros [= <-].
Qed.

Lemma gap_inv_nodes (ns : list (node F)) done (gap gap' : mapped_graph F) :
  gap_inv nodes_live done gap -> NoDup (elem_id <$> ns) ->
  (forall n, n ∈ ns -> elem_id n ∉ done) ->
  gap_nodes nodes_live ns gap = Ok gap' ->
  gap_inv nodes_live (reverse (elem_id <$> ns) ++ done) gap'.
Proof.
  revert done gap. induction ns as [|n ns IH]; intros done gap Hinv Hnd Hfresh;
    cbn [gap_nodes].
  - by intros [= <-].
  - destruct (gap_node nodes_live gap n) as [gap1|] eqn:E; [|done].
    rewrite fmap_cons in Hnd. apply NoDup_cons in Hnd as [Hn Hnd].
    intros H. rewrite fmap_cons, reverse_cons, <- app_assoc. cbn [app].
    eapply IH; [| done | | exact H].
    + eapply gap_inv_node; [done| |done]. apply Hfresh. by left.
    + intros m Hm [He|Hd]%elem_of_cons.
      * apply Hn. rewrite <- He. apply list_elem_of_fmap. by exists m.
      * eapply Hfresh; [|done]. by right.
Qed.

End GapFacts.

Section GapTheorem.
Context {F : Type} `{!Scalar F}.

(** The second loop of calculate_gap leaves the nodes and their aliases. *)
Lemma gap_edge_nodes el (gap gap' : mapped_graph F) (e : edge F) :
  gap_edge el gap e = Ok gap' ->
  m_nodes (m_graph gap') = m_nodes (m_graph gap) /\ m_node_map gap' = m_node_map gap.
Proof.
  unfold gap_edge.
  destruct (mg_node_at gap (one_id e)) as [p1|]; [|done].
  destruct (mg_node_at gap (two_id e)) as [p2|]; [|done].
  destruct (push_edge_at _ _) as [[g|] k] eqn:E; [|done].
  destruct (map_at el _); [|done]. intros [= <-]. cbn. split; [|done].
  eapply (push_edge_nodes _ (m_graph gap)). unfold push_edge. by rewrite E.
Qed.

Lemma gap_edges_nodes el es (gap gap' : mapped_graph F) :
  gap_edges el es gap = Ok gap' ->
  m_nodes (m_graph gap') = m_nodes (m_graph gap) /\ m_node_map gap' = m_node_map gap.
Proof.
  revert gap. induction es as [|e es IH]; intros gap; cbn.
  - by intros [= <-].
  - destruct (gap_edge el gap e) as [gap1|] eqn:E; [|done].
    intros [-> ->]%IH. by eapply gap_edge_nodes.
Qed.

Lemma live_bounded_note t m i : live_bounded t m -> live_bounded t (note_live t m i).
Proof.
  intros Hm j l. unfold note_live. destruct (decide (i = j)) as [->|Hne].
  - rewrite lookup_insert_eq. intros [= <-]. unfold live_add.
    assert (A : StronglySorted le (default [] (m !! j))
                /\ Forall (fun x => x <= t) (default [] (m !! j))).
    { destruct (m !! j) as [l|] eqn:E; cbn; [by apply (Hm j)|]. split; constructor. }
    destruct A as [As Ab]. split.
    + clear -As Ab. induction (default [] (m !! j)) as [|x l IH]; cbn.
      * repeat constructor.
      * apply StronglySorted_inv in As as [As Hx]. apply Forall_cons in Ab as [Hxt Ab].
        constructor; [by apply IH|]. apply Forall_app. split; [done|]. by constructor.
    + apply Forall_app. split; [done|]. by constructor.
  - rewrite lookup_insert_ne by done. apply Hm.
Qed.

Lemma live_bounded_foldl t (ids : list N) m :
  live_bounded t m -> live_bounded t (foldl (note_live t) m ids).
Proof.
  revert m. induction ids as [|i ids IH]; intros m Hm; [done|].
  cbn. by apply IH, live_bounded_note.
Qed.

Lemma live_times_from_sorted {T} `{!Identified T} (elems : graph_state F -> list T)
    t sts m i l :
  live_bounded t m -> live_times_from elems t sts m !! i = Some l -> StronglySorted le l.
Proof.
  revert t m. induction sts as [|g sts IH]; intros t m Hm; cbn.
  - intros H. by apply Hm in H as [? _].
  - apply IH. intros j l' Hj.
    apply (live_bounded_foldl t) in Hj as [Hs Hb]; [|done].
    split; [done|]. eapply Forall_impl; [exact Hb|]. cbn. lia.
Qed.

Lemma node_live_times_sorted (sts : list (graph_state F)) i l :
  node_live_times sts !! i = Some l -> StronglySorted le l.
Proof.
  apply live_times_from_sorted. intros j l' H. by rewrite lookup_empty in H.
Qed.

(** The supergraph is well formed: no id occurs twice among its nodes. *)
Lemma wf_emplace_edges (es : list (edge F)) (sg sg' : graph_state F) :
  wf_graph sg -> emplace_edges es sg = Ok sg' -> wf_graph sg'.
Proof.
  revert sg. induction es as [|e es IH]; intros sg Hsg; cbn.
  - by intros [= <-].
  - destruct (push_edge _ sg) as [sg1|] eqn:E; [|done].
    apply IH. by eapply wf_push_edge.
Qed.

Lemma wf_supergraph_from (sts : list (graph_state F)) (sg sg' : graph_state F) :
  wf_graph sg -> supergraph_from sts sg = Ok sg' -> wf_graph sg'.
Proof.
  revert sg. induction sts as [|g sts IH]; intros sg Hsg; cbn.
  - by intros [= <-].
  - destruct (supergraph_add g sg) as [sg1|] eqn:E; [|done].
    apply IH. unfold supergraph_add in E. eapply wf_emplace_edges; [|exact E].
    clear E. revert sg Hsg. induction (nodes g) as [|n ns IHn]; intros sg Hsg; [done|].
    cbn. apply IHn. by apply wf_push_node.
Qed.

Lemma wf_calculate_supergraph (sts : list (graph_state F)) sg :
  calculate_supergraph sts = Ok sg -> wf_graph sg.
Proof. apply wf_supergraph_from, wf_empty_graph. Qed.

(** In the GAP of a keyframe sequence every supergraph node is assigned to
    exactly one partition node, itself or the one it is an alias of, and
    two distinct supergraph nodes assigned to the same partition node have
    disjoint computed live sets. *)
Lemma gap_assignment_disjoint
    (sts : list (graph_state F)) (sg : graph_state F) (gap : mapped_graph F) :
  calculate_supergraph sts = Ok sg ->
  calculate_gap sg (node_live_times sts) (edge_live_times sts) = Ok gap ->
  (forall n, n ∈ nodes sg ->
     exists P, assigned gap (elem_id n) P
               /\ forall Q, assigned gap (elem_id n) Q -> Q = P)
  /\ (forall n1 n2 P, n1 ∈ nodes sg -> n2 ∈ nodes sg -> elem_id n1 <> elem_id n2 ->
        assigned gap (elem_id n1) P -> assigned gap (elem_id n2) P ->
        disjoint_live (live_of (node_live_times sts) (elem_id n1))
                      (live_of (node_live_times sts) (elem_id n2))).
Proof.
  intros Hsg Hgap. unfold calculate_gap in Hgap.
  destruct (gap_nodes _ _ _) as [gap0|] eqn:E0; [|done].
  apply gap_edges_nodes in Hgap as [Hn Hm].
  pose proof (wf_calculate_supergraph sts sg Hsg) as [Hwf _].
  apply (gap_inv_nodes (node_live_times sts) (node_live_times_sorted sts)
           (nodes sg) [] empty_mapped_graph gap0) in E0;
    [|apply gap_inv_empty|by apply map_agrees_NoDup|by intros ? _ ?%elem_of_nil].
  rewrite app_nil_r in E0. destruct E0 as [J1 J2 J3 J4 J5 J6].
  assert (Hdone : forall n, n ∈ nodes sg -> elem_id n ∈ reverse (elem_id <$> nodes sg)).
  { intros n Hin. apply elem_of_reverse, list_elem_of_fmap. by exists n. }
  assert (Hpo : forall i, partition_of gap i = partition_of gap0 i).
  { intros i. unfold partition_of, mg_node_at, node_at. by rewrite Hn, Hm. }
  assert (Has : forall i P, assigned gap i P <-> mg_node_at gap0 i = Some P).
  { intros i P. unfold assigned, nodes. rewrite Hn, Hm. unfold mg_node_at. split.
    - intros [HP [Hi|Hi]].
      + subst i. assert (A : has_id (nodes (m_graph gap0)) (elem_id P)) by by exists P.
        apply J2 in A as [_ ->]. by apply map_agrees_at_Some.
      + rewrite Hi. by apply map_agrees_at_Some.
    - destruct (m_node_map gap0 !! i) as [q|] eqn:Eq; intros H;
        apply map_agrees_at in H as [? ?]; try done; split; try done.
      + right. by f_equal.
      + by left. }
  split.
  - intros n Hin. destruct (J6 _ (Hdone n Hin)) as [p Hp].
    unfold partition_of in Hp.
    destruct (mg_node_at gap0 (elem_id n)) as [P|] eqn:EP; [|done].
    exists P. split; [by apply Has|]. intros Q HQ%Has. congruence.
  - intros n1 n2 P H1 H2 Hne HP1%Has HP2%Has.
    eapply (J5 _ _ (elem_id P)); [by apply Hdone|by apply Hdone|done| |].
    + unfold partition_of. by rewrite HP1.
    + unfold partition_of. by rewrite HP2.
Qed.

End GapTheorem.

(** ** The sequential tolerance pass *)

Section SequentialPass.
Context {F : Type} `{!Scalar F} `{!StaticLayout F}.
Variable cfg : layout_settings F.
Variables width height tol : F.

Local Abbreviation graph_state := (graph_state F).

Lemma seq_step_length temp (sts : list graph_state) s :
  length (fst (seq_step cfg width height tol temp sts s)) = length sts.
Proof.
  unfold seq_step. destruct (sts !! s); [|done].
  destruct (within _ _ _ _ _ _ _); cbn; [by rewrite length_insert|done].
Qed.

Lemma seq_sweep_app temp (a b : list nat) (sts : list graph_state) :
  seq_sweep cfg width height tol temp (a ++ b) sts =
    let '(s1, b1) := seq_sweep cfg width height tol temp a sts in
    let '(s2, b2) := seq_sweep cfg width height tol temp b s1 in
    (s2, b1 ++ b2).
Proof.
  revert sts. induction a as [|x a IH]; intros sts; cbn.
  - by destruct (seq_sweep _ _ _ _ _ b sts).
  - destruct (seq_step _ _ _ _ _ sts x) as [sts1 bx]. rewrite IH.
    destruct (seq_sweep _ _ _ _ _ a sts1) as [s1 b1].
    by destruct (seq_sweep _ _ _ _ _ b s1) as [s2 b2].
Qed.

Lemma within_accepted size s copy left right :
  s < size ->
  within cfg tol size s copy left right = true <-> accepted cfg tol size s copy left right.
Proof.
  intros Hs. unfold within, accepted.
  rewrite andb_true_iff, !orb_true_iff, Nat.eqb_eq, Nat.leb_le.
  assert (E1 : forall o : option graph_state,
             match o with Some l => fltb (distance cfg copy l) tol | None => false end = true
             <-> exists l, o = Some l /\ fltb (distance cfg copy l) tol = true).
  { intros [l|]; split; [eauto|by intros (? & [= <-] & ?)|done|by intros (? & ? & _)]. }
  rewrite !E1. split; intros [H1 H2]; (split; [done|]);
    (destruct H2 as [H2|H2]; [left; lia|by right]).
Qed.

(** The inner loop after its first [k] indices: the states below [k] hold
    their decision, those from [k] on are untouched. *)
Lemma seq_sweep_prefix temp (sts : list graph_state) k :
  k <= length sts ->
  let '(cur, bs) := seq_sweep cfg width height tol temp (seq 0 k) sts in
  length cur = length sts /\ length bs = k
  /\ (forall j, k <= j -> cur !! j = sts !! j)
  /\ (forall s g, s < k -> sts !! s = Some g ->
        let copy := iteration g width height temp in
        let b := within cfg tol (length sts) s copy (cur !! (s - 1)) (sts !! (s + 1)) in
        bs !! s = Some b /\ cur !! s = Some (if b then copy else g)).
Proof.
  induction k as [|k IH]; intros Hk.
  - cbn. split; [done|]. split; [done|]. split; [done|]. intros; lia.
  - rewrite seq_S, seq_sweep_app. cbn [Nat.add].
    destruct (seq_sweep _ _ _ _ _ (seq 0 k) sts) as [cur bs].
    destruct IH as (Hlen & Hbs & Hrest & Hdone); [lia|].
    cbn [seq_sweep]. unfold seq_step.
    destruct (lookup_lt_is_Some_2 sts k) as [g Hg]; [lia|].
    rewrite (Hrest k) by lia. rewrite Hg. rewrite (Hrest (k + 1)) by lia.
    rewrite Hlen.
    set (copy := iteration g width height temp).
    set (b := within cfg tol (length sts) k copy (cur !! (k - 1)) (sts !! (k + 1))).
    assert (Hcur' : forall j, j <> k ->
              (if b then <[k := copy]> cur else cur) !! j = cur !! j).
    { intros j Hj. destruct b; [by rewrite list_lookup_insert_ne|done]. }
    assert (Hres : (let '(sts1, b0) := if b then (<[k := copy]> cur, true) else (cur, false) in
                    let '(sts2, bs0) := (sts1, []) in (sts2, b0 :: bs0))
                   = (if b then <[k := copy]> cur else cur, [b])) by by destruct b.
    rewrite Hres. clear Hres.
    split; [|split; [|split]].
    + destruct b; [by rewrite length_insert|done].
    + rewrite length_app. cbn. lia.
    + intros j Hj. rewrite Hcur' by lia. apply Hrest. lia.
    + intros s g0 Hs Hg0. destruct (decide (s = k)) as [->|Hne].
      * rewrite Hg in Hg0. injection Hg0 as <-. cbn zeta. fold copy.
        assert (Hl : (if b then <[k := copy]> cur else cur) !! (k - 1) = cur !! (k - 1)
                     \/ k = 0).
        { destruct (decide (k = 0)); [by right|left]. apply Hcur'. lia. }
        assert (Hb : within cfg tol (length sts) k copy
                       ((if b then <[k := copy]> cur else cur) !! (k - 1))
                       (sts !! (k + 1)) = b).
        { destruct Hl as [Hl|Hl]; [by rewrite Hl|].
          subst b. unfold within. rewrite !Hl. reflexivity. }
        rewrite Hb. split.
        -- rewrite lookup_app_r by lia. by rewrite Hbs, Nat.sub_diag.
        -- destruct b; [|by rewrite Hrest].
           apply list_lookup_insert_eq. lia.
      * destruct (Hdone s g0) as [A B]; [lia|done|]. cbn zeta in *.
        rewrite (Hcur' s) by done. rewrite (Hcur' (s - 1)) by lia.
        split; [|done]. rewrite lookup_app_l by lia. done.
Qed.

End SequentialPass.

Section ToleranceTheorem.
Context {F : Type} `{!Scalar F} `{!StaticLayout F}.
Variable cfg : layout_settings F.

Local Abbreviation graph_state := (graph_state F).

Lemma distance_is_spec (a b : graph_state) : distance cfg a b = distance_spec cfg a b.
Proof.
  unfold distance, distance_spec, distance_sum, shared_pairs.
  assert (G : forall ns r c,
    foldl (distance_step b) (r, c) ns =
      (foldl (fun acc p => fadd acc (euclid (pos (fst p)) (pos (snd p)))) r
         (omap (fun n => if node_exists b (elem_id n)
                         then (fun o => (n, o)) <$> node_at b (elem_id n) else None) ns),
       c + length (omap (fun n => if node_exists b (elem_id n)
                         then (fun o => (n, o)) <$> node_at b (elem_id n) else None) ns))).
  { induction ns as [|n ns IH]; intros r c; cbn [foldl omap list_omap].
    - by rewrite Nat.add_0_r.
    - unfold distance_step at 2.
      destruct (node_exists b (elem_id n)); [|by rewrite IH].
      destruct (node_at b (elem_id n)) as [o|]; cbn; [|by rewrite IH].
      rewrite IH. f_equal. lia. }
  rewrite G. cbn. done.
Qed.

Lemma shared_pairs_spec (a b : graph_state) n o :
  wf_graph b ->
  (n, o) ∈ shared_pairs a b <-> n ∈ nodes a /\ o ∈ nodes b /\ elem_id n = elem_id o.
Proof.
  intros Hwf. pose proof Hwf as [Hb _]. unfold shared_pairs. rewrite list_elem_of_omap. split.
  - intros (n' & Hn & H). destruct (node_exists b (elem_id n')); [|done].
    destruct (node_at b (elem_id n')) as [o'|] eqn:E; [|done]. cbn in H.
    injection H as <- <-. apply map_agrees_at in E as [? ?]; done.
  - intros (Hn & Ho & Hid). exists n. split; [done|].
    assert (A : node_at b (elem_id n) = Some o).
    { rewrite Hid. by apply map_agrees_at_Some. }
    assert (B : node_exists b (elem_id n) = true).
    { apply node_exists_has_id; [done|]. exists o. by rewrite Hid. }
    by rewrite B, A.
Qed.


Lemma foldl_max_spec (l : list nat) (a : nat) :
  a <= foldl Nat.max a l
  /\ (forall x, x ∈ l -> x <= foldl Nat.max a l)
  /\ (foldl Nat.max a l = a \/ foldl Nat.max a l ∈ l).
Proof.
  revert a. induction l as [|x l IH]; intros a; cbn.
  - split; [done|]. split; [by intros ? ?%elem_of_nil|by left].
  - destruct (IH (Nat.max a x)) as (A & B & C). split; [lia|]. split.
    + intros z [->|Hz]%elem_of_cons; [lia|by apply B].
    + destruct C as [C|C]; [|by right; right].
      rewrite C. destruct (Nat.max_spec a x) as [[_ ->]|[_ ->]]; [right; by left|by left].
Qed.

Lemma max_nodes_spec (sts : list graph_state) :
  (forall g, g ∈ sts -> length (nodes g) <= max_nodes sts)
  /\ (sts <> [] -> exists g, g ∈ sts /\ length (nodes g) = max_nodes sts).
Proof.
  unfold max_nodes.
  destruct (foldl_max_spec ((fun g : graph_state => length (nodes g)) <$> sts) 0)
    as (_ & B & C).
  split.
  - intros g Hg. apply B. apply list_elem_of_fmap. by exists g.
  - intros Hne. destruct C as [C|C].
    + destruct sts as [|g sts]; [done|]. exists g. split; [by left|].
      rewrite C. assert (length (nodes g) <= 0); [|lia].
      rewrite <- C. apply B. rewrite fmap_cons. by left.
    + apply list_elem_of_fmap in C as (g & Hg & Hin). by exists g.
Qed.

Lemma seq_round_spec width height tol temp (sts : list graph_state) :
  let '(res, bs) := seq_round cfg width height tol temp sts in
  length res = length sts /\ length bs = length sts
  /\ forall s g, sts !! s = Some g ->
       let copy := iteration g width height temp in
       let b := within cfg tol (length sts) s copy (res !! (s - 1)) (sts !! (s + 1)) in
       bs !! s = Some b /\ res !! s = Some (if b then copy else g).
Proof.
  unfold seq_round.
  pose proof (seq_sweep_prefix cfg width height tol temp sts (length sts) (le_n _)) as H.
  destruct (seq_sweep _ _ _ _ _ _ _) as [res bs].
  destruct H as (A & B & _ & D). split; [done|]. split; [done|].
  intros s g Hg. apply D; [|done]. by eapply lookup_lt_Some.
Qed.

Lemma seq_rounds_split width height tol i j temp (sts : list graph_state) :
  seq_rounds cfg width height tol (i + j) temp sts =
    let '(si, li) := seq_rounds cfg width height tol i temp sts in
    let '(sj, lj) :=
      seq_rounds cfg width height tol j (Nat.iter i (anneal (m_cooling cfg)) temp) si in
    (sj, li ++ lj).
Proof.
  revert temp sts. induction i as [|i IH]; intros temp sts.
  - cbn. by destruct (seq_rounds _ _ _ _ j temp sts).
  - cbn [Nat.add seq_rounds].
    destruct (seq_round _ _ _ _ temp sts) as [s1 bs]. rewrite IH.
    destruct (seq_rounds _ _ _ _ i _ s1) as [si li].
    rewrite Nat.iter_succ_r.
    by destruct (seq_rounds _ _ _ _ j _ si) as [sj lj].
Qed.

Lemma seq_rounds_length width height tol i temp (sts : list graph_state) :
  length (fst (seq_rounds cfg width height tol i temp sts)) = length sts.
Proof.
  revert temp sts. induction i as [|i IH]; intros temp sts; [done|].
  cbn [seq_rounds].
  pose proof (seq_round_spec width height tol temp sts) as H.
  destruct (seq_round _ _ _ _ temp sts) as [s1 bs]. destruct H as [Hl _].
  specialize (IH (anneal (m_cooling cfg) temp) s1).
  destruct (seq_rounds _ _ _ _ i _ s1) as [s2 log]. cbn in *. congruence.
Qed.

(** C4.  In iteration [i] of the sequential tolerance pass the iterated copy
    of state [s] replaces [states[s]] exactly when it is within the
    tolerance of its left neighbour, as this iteration leaves it, and of its
    right neighbour, as the iteration found it; the distance is the sum of
    the Euclidean distances over the nodes present in both layouts, divided
    by their number in relative mode, and the tolerance is scaled by
    [relative_unit] times the largest node count in absolute mode only. *)
Theorem tolerance_accepts_iff (sts : list graph_state) (width height tau : F) (i s : nat) :
  i < iterations (m_cooling cfg) ->
  s < length sts ->
  let tol := tolerance_abs cfg sts width height tau in
  let start := start_temperature (m_cooling cfg) in
  let temp := Nat.iter i (anneal (m_cooling cfg)) start in
  let before := fst (seq_rounds cfg width height tol i start sts) in
  let after := fst (seq_rounds cfg width height tol (S i) start sts) in
  (* [before] is what the pass holds when iteration [i] starts *)
  fst (tolerance cfg sts width height tau)
    = fst (seq_rounds cfg width height tol (iterations (m_cooling cfg) - i) temp before)
  /\ (exists g, before !! s = Some g /\
        let copy := iteration g width height temp in
        let ok := accepted cfg tol (length sts) s copy (after !! (s - 1)) (before !! (s + 1)) in
        (ok -> after !! s = Some copy) /\ (~ ok -> after !! s = Some g))
  /\ (forall a b, distance cfg a b = distance_spec cfg a b)
  /\ tol = (if m_relative_distance cfg then tau
            else fmul tau (fmul (relative_unit width height) (of_nat (max_nodes sts))))
  /\ (forall g, g ∈ sts -> length (nodes g) <= max_nodes sts)
  /\ (exists g, g ∈ sts /\ length (nodes g) = max_nodes sts).
Proof.
  intros Hi Hs tol start temp before after.
  split; [|split; [|split; [|split; [|split]]]].
  - unfold tolerance. fold tol start.
    replace (iterations (m_cooling cfg)) with (i + (iterations (m_cooling cfg) - i)) at 1 by lia.
    rewrite seq_rounds_split. subst before temp.
    destruct (seq_rounds _ _ _ _ i start sts) as [si li]. cbn [fst].
    by destruct (seq_rounds _ _ _ _ _ _ si).
  - assert (Hlen : length before = length sts) by apply seq_rounds_length.
    destruct (lookup_lt_is_Some_2 before s) as [g Hg]; [lia|].
    exists g. split; [done|]. cbn zeta.
    assert (Hafter : after = fst (seq_round cfg width height tol temp before)).
    { subst after before temp. replace (S i) with (i + 1) by lia.
      rewrite seq_rounds_split.
      destruct (seq_rounds _ _ _ _ i start sts) as [si li]. cbn [seq_rounds fst].
      by destruct (seq_round _ _ _ _ _ si). }
    pose proof (seq_round_spec width height tol temp before) as H.
    destruct (seq_round _ _ _ _ temp before) as [res bs]. cbn in Hafter. subst res.
    destruct H as (_ & _ & H). destruct (H s g Hg) as [_ Hres]. cbn zeta in Hres.
    rewrite Hlen in Hres.
    split.
    + intros Hok. apply within_accepted in Hok; [|done]. by rewrite Hok in Hres.
    + intros Hno. rewrite Hres.
      destruct (within _ _ _ _ _ _ _) eqn:E; [|done].
      exfalso. apply Hno. by apply within_accepted.
  - apply distance_is_spec.
  - done.
  - apply max_nodes_spec.
  - apply max_nodes_spec. intros ->. cbn in Hs. lia.
Qed.

End ToleranceTheorem.

(** ** The parallel tolerance pass *)

Section ParallelPass.
Context {F : Type} `{!Scalar F} `{!StaticLayout F}.
Variable cfg : layout_settings F.
Variables width height tol : F.

Local Abbreviation graph_state := (graph_state F).

Lemma strided_from_elem fuel i step size x :
  0 < step -> size <= i + fuel * step ->
  x ∈ strided_from fuel i step size <-> x < size /\ exists k, x = i + k * step.
Proof.
  intros Hstep. revert i. induction fuel as [|fuel IH]; intros i Hfuel; cbn [strided_from].
  - rewrite elem_of_nil. split; [done|]. intros [? [k ->]]. lia.
  - destruct (i <? size) eqn:E.
    + apply Nat.ltb_lt in E. rewrite elem_of_cons, IH by lia. split.
      * intros [->|[? [k ->]]]; [split; [done|exists 0; lia]|].
        split; [done|]. exists (S k). lia.
      * intros [? [[|k] ->]]; [left; lia|]. right. split; [done|]. exists k. lia.
    + apply Nat.ltb_ge in E. rewrite elem_of_nil. split; [done|]. intros [? [k ->]]. lia.
Qed.

Lemma strided_from_NoDup fuel i step size :
  0 < step -> NoDup (strided_from fuel i step size).
Proof.
  intros Hstep. revert i. induction fuel as [|fuel IH]; intros i; cbn [strided_from];
    [constructor|].
  destruct (i <? size); [|constructor]. constructor; [|apply IH].
  assert (G : forall f j x, x ∈ strided_from f j step size -> j <= x).
  { clear. induction f as [|f IHf]; intros j x; cbn [strided_from];
      [by intros ?%elem_of_nil|].
    destruct (j <? size); [|by intros ?%elem_of_nil].
    intros [->|Hx%IHf]%elem_of_cons; lia. }
  intros Hx%G. lia.
Qed.

Lemma strided_elem b threads n x :
  b < threads -> x ∈ strided b threads n <-> x < n /\ x mod threads = b.
Proof.
  intros Hb. unfold strided. rewrite strided_from_elem by nia. split.
  - intros [? [k ->]]. split; [done|].
    rewrite Nat.Div0.mod_add. by apply Nat.mod_small.
  - intros [? <-]. split; [done|]. exists (x / threads).
    rewrite (Nat.div_mod_eq x threads) at 1. lia.
Qed.

Lemma get_lookup (sh sh' : shared F) j :
  sh_states sh' !! j = sh_states sh !! j ->
  sh_copies sh' !! j = sh_copies sh !! j ->
  sh_apply sh' !! j = sh_apply sh !! j ->
  get sh' j = get sh j.
Proof. unfold get. by intros -> -> ->. Qed.

Lemma reconcile_spec n (sh : shared F) i :
  shape n sh -> i < n ->
  shape n (reconcile sh i)
  /\ sh_apply (reconcile sh i) = sh_apply sh
  /\ sh_temp (reconcile sh i) = sh_temp sh
  /\ (forall j, sh_states (reconcile sh i) !! j =
                if decide (j = i) then get sh i else sh_states sh !! j)
  /\ (forall j, sh_copies (reconcile sh i) !! j =
                if decide (j = i) then get sh i else sh_copies sh !! j).
Proof.
  intros (Hs & Hc & Ha) Hi. unfold reconcile, get.
  destruct (lookup_lt_is_Some_2 (sh_states sh) i) as [g Hg]; [lia|].
  destruct (lookup_lt_is_Some_2 (sh_copies sh) i) as [c Hcp]; [lia|].
  destruct (lookup_lt_is_Some_2 (sh_apply sh) i) as [a Hap]; [lia|].
  rewrite Hg, Hcp, Hap. destruct a; cbn.
  - split; [by unfold shape; cbn; rewrite ?length_insert|]. split; [done|]. split; [done|].
    split; intros j; case_decide as Hj.
    + subst j. apply list_lookup_insert_eq. lia.
    + by apply list_lookup_insert_ne.
    + by subst j.
    + done.
  - split; [by unfold shape; cbn; rewrite ?length_insert|]. split; [done|]. split; [done|].
    split; intros j; case_decide as Hj.
    + by subst j.
    + done.
    + subst j. apply list_lookup_insert_eq. lia.
    + by apply list_lookup_insert_ne.
Qed.

Lemma reconcile_get n (sh : shared F) i j :
  shape n sh -> i < n -> get (reconcile sh i) j = get sh j.
Proof.
  intros Hsh Hi. destruct (reconcile_spec n sh i Hsh Hi) as (_ & Ha & _ & Hs & Hc).
  unfold get at 1. rewrite Ha, Hs, Hc. case_decide as Hj; [|done].
  subst j. unfold get. by destruct (sh_apply sh !! i) as [[|]|].
Qed.

Lemma reconcile_all n (own : list nat) (sh : shared F) :
  shape n sh -> Forall (fun i => i < n) own ->
  let sh' := foldl reconcile sh own in
  shape n sh'
  /\ sh_apply sh' = sh_apply sh
  /\ sh_temp sh' = sh_temp sh
  /\ (forall j, sh_states sh' !! j = if decide (j ∈ own) then get sh j else sh_states sh !! j)
  /\ (forall j, sh_copies sh' !! j = if decide (j ∈ own) then get sh j else sh_copies sh !! j).
Proof.
  revert sh. induction own as [|x own IH]; intros sh Hsh Hown; cbn zeta.
  - cbn. split; [done|]. split; [done|]. split; [done|]. split; intros j; by case_decide as Hj;
      [apply elem_of_nil in Hj|].
  - apply Forall_cons in Hown as [Hx Hown]. cbn [foldl].
    destruct (reconcile_spec n sh x Hsh Hx) as (Hsh1 & Ha1 & Ht1 & Hs1 & Hc1).
    destruct (IH (reconcile sh x) Hsh1 Hown) as (Hsh' & Ha' & Ht' & Hs' & Hc').
    split; [done|]. split; [congruence|]. split; [congruence|].
    split; intros j.
    + rewrite Hs', (reconcile_get n) by done. rewrite Hs1.
      destruct (decide (j ∈ own)), (decide (j = x)), (decide (j ∈ x :: own)); subst;
        try done; exfalso; cons_cases.
    + rewrite Hc', (reconcile_get n) by done. rewrite Hc1.
      destruct (decide (j ∈ own)), (decide (j = x)), (decide (j ∈ x :: own)); subst;
        try done; exfalso; cons_cases.
Qed.

Lemma iterate_all n (own : list nat) (sh : shared F) :
  shape n sh -> NoDup own -> Forall (fun i => i < n) own ->
  let sh' := foldl (iterate_copy width height) sh own in
  shape n sh'
  /\ sh_apply sh' = sh_apply sh
  /\ sh_temp sh' = sh_temp sh
  /\ sh_states sh' = sh_states sh
  /\ (forall j, sh_copies sh' !! j =
                if decide (j ∈ own) then stepped width height (sh_temp sh) <$> sh_copies sh !! j
                else sh_copies sh !! j).
Proof.
  revert sh. induction own as [|x own IH]; intros sh Hsh Hnd Hown; cbn zeta.
  - cbn. repeat (split; [done|]). intros j. by case_decide as Hj; [apply elem_of_nil in Hj|].
  - apply Forall_cons in Hown as [Hx Hown]. apply NoDup_cons in Hnd as [Hxo Hnd].
    cbn [foldl]. destruct Hsh as (Hs & Hc & Ha).
    destruct (lookup_lt_is_Some_2 (sh_copies sh) x) as [c Hcp]; [lia|].
    set (sh1 := iterate_copy width height sh x).
    assert (E1 : sh1 = mk_shared (sh_states sh)
                   (<[x := stepped width height (sh_temp sh) c]> (sh_copies sh)) (sh_apply sh) (sh_temp sh)).
    { unfold sh1, iterate_copy. by rewrite Hcp. }
    assert (Hsh1 : shape n sh1).
    { rewrite E1. by unfold shape; cbn; rewrite ?length_insert. }
    destruct (IH sh1 Hsh1 Hnd Hown) as (Hsh' & Ha' & Ht' & Hs' & Hc').
    split; [done|]. split; [by rewrite Ha', E1|]. split; [by rewrite Ht', E1|].
    split; [by rewrite Hs', E1|].
    intros j. rewrite Hc', E1. cbn.
    destruct (decide (j = x)) as [->|Hne].
    + rewrite decide_False by done. rewrite decide_True by by left.
      rewrite list_lookup_insert_eq by lia. by rewrite Hcp.
    + rewrite list_lookup_insert_ne by done.
      destruct (decide (j ∈ own)), (decide (j ∈ x :: own)); try done; exfalso; cons_cases.
Qed.


(** What a worker leaves: its own indices hold the reconciled state and its
    iterated copy, the others are untouched. *)
Lemma worker_spec n threads b (sh : shared F) :
  shape n sh -> b < threads ->
  let sh' := worker width height b threads sh in
  shape n sh'
  /\ sh_apply sh' = sh_apply sh
  /\ sh_temp sh' = sh_temp sh
  /\ (forall j, sh_states sh' !! j =
                if decide (j < n /\ j mod threads = b) then get sh j else sh_states sh !! j)
  /\ (forall j, sh_copies sh' !! j =
                if decide (j < n /\ j mod threads = b)
                then stepped width height (sh_temp sh) <$> get sh j else sh_copies sh !! j).
Proof.
  intros Hsh Hb. unfold worker. cbn zeta.
  destruct Hsh as (Hs & Hc & Ha). rewrite Hs.
  set (own := strided b threads n).
  assert (Hown : Forall (fun i => i < n) own).
  { apply Forall_forall. intros x Hx. by apply strided_elem in Hx as [? _]. }
  assert (Hnd : NoDup own) by (apply strided_from_NoDup; lia).
  destruct (reconcile_all n own sh) as (Hsh1 & Ha1 & Ht1 & Hs1 & Hc1); [done..|].
  destruct (iterate_all n own (foldl reconcile sh own)) as (Hsh2 & Ha2 & Ht2 & Hs2 & Hc2);
    [done..|].
  split; [done|]. split; [congruence|]. split; [congruence|].
  split; intros j.
  - rewrite Hs2, Hs1.
    destruct (decide (j ∈ own)) as [Hj|Hj], (decide (j < n /\ j mod threads = b)) as [Hd|Hd];
      try done; exfalso; unfold own in Hj; rewrite strided_elem in Hj by done; tauto.
  - rewrite Hc2, Hc1, Ht1.
    destruct (decide (j ∈ own)) as [Hj|Hj], (decide (j < n /\ j mod threads = b)) as [Hd|Hd];
      try done; exfalso; unfold own in Hj; rewrite strided_elem in Hj by done; tauto.
Qed.

(** The workers of a round, in any order: every index is reconciled and
    iterated by the one worker that owns it. *)
Lemma workers_prefix n threads (sched : list nat) (sh : shared F) :
  shape n sh -> NoDup sched -> Forall (fun b => b < threads) sched ->
  let sh' := foldl (fun acc b => worker width height b threads acc) sh sched in
  shape n sh'
  /\ sh_apply sh' = sh_apply sh
  /\ sh_temp sh' = sh_temp sh
  /\ (forall j, j < n ->
        sh_states sh' !! j =
          (if decide (j mod threads ∈ sched) then get sh j else sh_states sh !! j)
        /\ sh_copies sh' !! j =
          (if decide (j mod threads ∈ sched)
           then stepped width height (sh_temp sh) <$> get sh j else sh_copies sh !! j)).
Proof.
  revert sh. induction sched as [|b sched IH]; intros sh Hsh Hnd Hall; cbn zeta.
  - cbn. split; [done|]. split; [done|]. split; [done|]. intros j _.
    by split; case_decide as Hj; try (by apply elem_of_nil in Hj).
  - apply Forall_cons in Hall as [Hb Hall]. apply NoDup_cons in Hnd as [Hbs Hnd].
    cbn [foldl].
    destruct (worker_spec n threads b sh Hsh Hb) as (Hsh1 & Ha1 & Ht1 & Hs1 & Hc1).
    destruct (IH _ Hsh1 Hnd Hall) as (Hsh' & Ha' & Ht' & Hcell).
    split; [done|]. split; [congruence|]. split; [congruence|].
    intros j Hj. destruct (Hcell j Hj) as [Hs' Hc']. rewrite Hs', Hc', Ht1, Hs1, Hc1.
    assert (Hg : ~ (j < n /\ j mod threads = b) ->
                 get (worker width height b threads sh) j = get sh j).
    { intros Hno. apply get_lookup; [rewrite Hs1|rewrite Hc1|by rewrite Ha1];
        by rewrite decide_False. }
    destruct (decide (j mod threads ∈ sched)) as [H1|H1],
             (decide (j < n /\ j mod threads = b)) as [H2|H2],
             (decide (j mod threads ∈ b :: sched)) as [H3|H3];
      try rewrite (Hg H2); try done; exfalso;
      rewrite ?elem_of_cons in *;
      (destruct (decide (j mod threads = b)) as [E|E]; [rewrite E in *|]; tauto).
Qed.

Lemma workers_all n threads (schedule : list nat) (sh : shared F) :
  shape n sh -> 0 < threads -> Permutation schedule (seq 0 threads) ->
  let sh' := foldl (fun acc b => worker width height b threads acc) sh schedule in
  shape n sh'
  /\ sh_apply sh' = sh_apply sh
  /\ sh_temp sh' = sh_temp sh
  /\ (forall j, j < n ->
        sh_states sh' !! j = get sh j
        /\ sh_copies sh' !! j = stepped width height (sh_temp sh) <$> get sh j).
Proof.
  intros Hsh Hthreads Hperm. cbn zeta.
  destruct (workers_prefix n threads schedule sh) as (A & B & C & D); [done| | |].
  - rewrite Hperm. apply NoDup_seq.
  - rewrite Hperm. apply Forall_forall. intros b Hb%elem_of_seq. lia.
  - split; [done|]. split; [done|]. split; [done|].
    intros j Hj. destruct (D j Hj) as [Ds Dc].
    assert (Hin : j mod threads ∈ schedule).
    { rewrite Hperm. apply elem_of_seq. split; [lia|]. cbn.
      apply Nat.mod_upper_bound. lia. }
    by rewrite !decide_True in Ds, Dc by done.
Qed.


Lemma within_first n c (l1 l2 r : option graph_state) :
  within cfg tol n 0 c l1 r = within cfg tol n 0 c l2 r.
Proof. done. Qed.

Lemma decide_at_spec n (sh : shared F) i c :
  shape n sh -> i < n -> sh_copies sh !! i = Some c ->
  decide_at cfg tol sh i =
    mk_shared (sh_states sh) (sh_copies sh)
      (<[i := within cfg tol n i c (get sh (i - 1)) (sh_states sh !! (i + 1))]> (sh_apply sh))
      (sh_temp sh).
Proof.
  intros (Hs & Hc & Ha) Hi Hcp. unfold decide_at. rewrite Hcp, Hs.
  set (cleared := mk_shared _ _ (<[i := false]> (sh_apply sh)) _).
  assert (E : within cfg tol n i c (get cleared (i - 1)) (sh_states sh !! (i + 1))
            = within cfg tol n i c (get sh (i - 1)) (sh_states sh !! (i + 1))).
  { destruct i as [|i]; [apply within_first|].
    f_equal. apply get_lookup; cbn; [done..|].
    apply list_lookup_insert_ne. lia. }
  rewrite E. subst cleared.
  by destruct (within cfg tol n i c (get sh (i - 1)) (sh_states sh !! (i + 1))).
Qed.

(** The scan of thread 0 after its first [k] indices. *)
Lemma scan_prefix n (sh : shared F) k :
  shape n sh -> k <= n ->
  let shk := foldl (decide_at cfg tol) sh (seq 0 k) in
  shape n shk
  /\ sh_states shk = sh_states sh
  /\ sh_copies shk = sh_copies sh
  /\ sh_temp shk = sh_temp sh
  /\ (forall j, k <= j -> sh_apply shk !! j = sh_apply sh !! j)
  /\ (forall s c, s < k -> sh_copies sh !! s = Some c ->
        sh_apply shk !! s =
          Some (within cfg tol n s c (get shk (s - 1)) (sh_states sh !! (s + 1)))).
Proof.
  intros Hsh. induction k as [|k IH]; intros Hk; cbn zeta.
  - cbn. split; [done|]. split; [done|]. split; [done|]. split; [done|].
    split; [done|]. intros; lia.
  - rewrite seq_S, foldl_app. cbn [foldl Nat.add].
    destruct IH as (Hshk & Hs & Hc & Ht & Hrest & Hdone); [lia|].
    set (shk := foldl (decide_at cfg tol) sh (seq 0 k)) in *.
    destruct (lookup_lt_is_Some_2 (sh_copies sh) k) as [c Hcp]; [destruct Hsh; lia|].
    rewrite (decide_at_spec n shk k c) by (done || lia || by rewrite Hc).
    set (b := within cfg tol n k c (get shk (k - 1)) (sh_states shk !! (k + 1))).
    pose proof Hshk as (Hl1 & Hl2 & Hl3).
    set (shk' := mk_shared _ _ _ _).
    assert (Hget : forall j, j <> k -> get shk' j = get shk j).
    { intros j Hj. apply get_lookup; cbn; [done..|]. by apply list_lookup_insert_ne. }
    split; [by unfold shape; cbn; rewrite length_insert|].
    split; [done|]. split; [done|]. split; [done|]. split.
    + intros j Hj. cbn. rewrite list_lookup_insert_ne by lia. apply Hrest. lia.
    + intros s c0 Hs0 Hc0. destruct (decide (s = k)) as [->|Hne].
      * rewrite Hcp in Hc0. injection Hc0 as <-. cbn [sh_apply shk'].
        rewrite list_lookup_insert_eq by lia. f_equal. unfold b. rewrite Hs.
        destruct k as [|k']; [apply within_first|].
        f_equal. symmetry. apply Hget. lia.
      * cbn [sh_apply shk']. rewrite list_lookup_insert_ne by done.
        rewrite (Hdone s c0) by (lia || done). f_equal.
        destruct s as [|s']; [apply within_first|].
        f_equal. symmetry. apply Hget. lia.
Qed.

(** A round of the parallel pass against a round of the sequential pass:
    when the states the parallel pass has in effect, [get], are the
    sequential states, the round stores these, takes the same decisions
    and has the next sequential states in effect. *)
Lemma par_round_spec n threads (schedule : list nat) (sh : shared F)
    (S : list graph_state) :
  0 < threads -> Permutation schedule (seq 0 threads) ->
  shape n sh -> length S = n -> (forall j, j < n -> get sh j = S !! j) ->
  let sh' := par_round cfg width height tol threads schedule sh in
  let '(res, bs) := seq_round cfg width height tol (sh_temp sh) S in
  shape n sh'
  /\ sh_states sh' = S
  /\ sh_apply sh' = bs
  /\ sh_temp sh' = anneal (m_cooling cfg) (sh_temp sh)
  /\ length res = n
  /\ (forall j, j < n -> get sh' j = res !! j).
Proof.
  intros Hthreads Hperm Hsh HS Hget. cbn zeta. unfold par_round.
  destruct (workers_all n threads schedule sh Hsh Hthreads Hperm)
    as (Hsh1 & Ha1 & Ht1 & Hcell).
  set (sh1 := foldl _ sh schedule) in *.
  assert (Hst1 : sh_states sh1 = S).
  { apply list_eq. intros j. destruct (decide (j < n)) as [Hj|Hj].
    - destruct (Hcell j Hj) as [-> _]. by apply Hget.
    - rewrite !lookup_ge_None_2; [done|lia|destruct Hsh1; lia]. }
  assert (Hcp1 : forall j, sh_copies sh1 !! j = stepped width height (sh_temp sh) <$> S !! j).
  { intros j. destruct (decide (j < n)) as [Hj|Hj].
    - destruct (Hcell j Hj) as [_ ->]. by rewrite Hget.
    - rewrite !lookup_ge_None_2; [done|lia|destruct Hsh1 as (_ & ? & _); lia]. }
  unfold scan. rewrite Hst1, HS.
  destruct (scan_prefix n sh1 n Hsh1 (le_n _)) as (Hsh2 & Hs2 & Hc2 & Ht2 & _ & Hdec).
  set (sh2 := foldl (decide_at cfg tol) sh1 (seq 0 n)) in *.
  pose proof (seq_round_spec cfg width height tol (sh_temp sh) S) as Hseq.
  destruct (seq_round _ _ _ _ _ S) as [res bs].
  destruct Hseq as (Hlr & Hlb & Hseq). rewrite HS in *.
  assert (Hagree : forall s, s < n -> bs !! s = sh_apply sh2 !! s /\ res !! s = get sh2 s).
  { intros s. induction s as [s IHs] using lt_wf_ind. intros Hs.
    destruct (lookup_lt_is_Some_2 S s) as [g Hg]; [lia|].
    destruct (Hseq s g Hg) as [Hb Hr]. cbn zeta in Hb, Hr.
    assert (Hc : sh_copies sh1 !! s = Some (stepped width height (sh_temp sh) g)).
    { by rewrite Hcp1, Hg. }
    pose proof (Hdec s _ Hs Hc) as Ha. rewrite Hst1 in Ha.
    assert (E : within cfg tol n s (stepped width height (sh_temp sh) g) (get sh2 (s - 1)) (S !! (s + 1))
              = within cfg tol n s (iteration g width height (sh_temp sh))
                  (res !! (s - 1)) (S !! (s + 1))).
    { destruct s as [|s']; [apply within_first|].
      unfold stepped. f_equal. symmetry.
      replace (Datatypes.S s' - 1) with s' by lia. apply IHs; lia. }
    rewrite E in Ha. split; [congruence|].
    rewrite Hr. unfold get. rewrite Ha, Hs2, Hc2, Hst1, Hc, Hg.
    by destruct (within _ _ _ _ _ _ _). }
  split; [done|]. split; [by rewrite Hs2|]. split.
  - cbn. apply list_eq. intros j. destruct (decide (j < n)) as [Hj|Hj].
    + symmetry. by apply Hagree.
    + rewrite !lookup_ge_None_2; [done|lia|destruct Hsh2 as (_ & _ & ?); lia].
  - split; [cbn; congruence|]. split; [done|].
    intros j Hj. destruct (Hagree j Hj) as [_ ->]. by apply get_lookup.
Qed.


Lemma par_rounds_spec n threads (schedules : nat -> list nat) rounds :
  0 < threads -> (forall r, Permutation (schedules r) (seq 0 threads)) ->
  forall r (sh : shared F) (S : list graph_state),
  shape n sh -> length S = n -> (forall j, j < n -> get sh j = S !! j) ->
  let '(shR, log) := par_rounds cfg width height tol threads schedules rounds r sh in
  let '(SR, log') := seq_rounds cfg width height tol rounds (sh_temp sh) S in
  log = log'
  /\ shape n shR
  /\ (forall j, j < n -> get shR j = SR !! j)
  /\ (rounds = 0 -> shR = sh)
  /\ (0 < rounds ->
      sh_states shR = fst (seq_rounds cfg width height tol (rounds - 1) (sh_temp sh) S)).
Proof.
  intros Hthreads Hperm. induction rounds as [|k IH]; intros r sh S Hsh HS Hget.
  - cbn. split; [done|]. split; [done|]. split; [done|]. split; [done|]. lia.
  - cbn [par_rounds seq_rounds].
    pose proof (par_round_spec n threads (schedules r) sh S Hthreads (Hperm r) Hsh HS Hget)
      as Hround. cbn zeta in Hround.
    set (sh1 := par_round cfg width height tol threads (schedules r) sh) in *.
    destruct (seq_round cfg width height tol (sh_temp sh) S) as [S1 bs] eqn:ES.
    destruct Hround as (Hsh1 & Hst1 & Hap1 & Htp1 & HS1 & Hget1).
    specialize (IH (Datatypes.S r) sh1 S1 Hsh1 HS1 Hget1).
    destruct (par_rounds _ _ _ _ _ _ k _ sh1) as [sh2 log].
    rewrite Htp1 in IH.
    destruct (seq_rounds _ _ _ _ k _ S1) as [S2 log'] eqn:ER.
    destruct IH as (Hlog & Hsh2 & Hget2 & Hzero & Hpos).
    split; [congruence|]. split; [done|]. split; [done|]. split; [done|].
    intros _. replace (Datatypes.S k - 1) with k by lia.
    destruct k as [|k'].
    + rewrite (Hzero eq_refl). by rewrite Hst1.
    + rewrite Hpos by lia. cbn [seq_rounds]. rewrite ES.
      replace (Datatypes.S k' - 1) with k' by lia.
      by destruct (seq_rounds _ _ _ _ k' _ S1).
Qed.

End ParallelPass.

Section ParallelTheorem.
Context {F : Type} `{!Scalar F} `{!StaticLayout F}.

(** C1.  With any number of threads and the workers of each round in any
    order, the parallel tolerance pass takes in every round the decisions
    the sequential pass takes; what it leaves in [states], however, is what
    the sequential pass holds one iteration before its end: the decisions
    of the last round are never copied back. *)
Theorem parallel_tolerance_lags_one_round
    (cfg : layout_settings F) (threads : nat) (schedules : nat -> list nat)
    (sts : list (graph_state F)) (width height tau : F) :
  0 < threads ->
  (forall r, Permutation (schedules r) (seq 0 threads)) ->
  let tol := tolerance_abs cfg sts width height tau in
  let start := start_temperature (m_cooling cfg) in
  snd (parallel_tolerance cfg threads schedules sts width height tau)
    = snd (tolerance cfg sts width height tau)
  /\ fst (parallel_tolerance cfg threads schedules sts width height tau)
    = fst (seq_rounds cfg width height tol (iterations (m_cooling cfg) - 1) start sts).
Proof.
  intros Hthreads Hperm tol start. unfold parallel_tolerance, tolerance.
  fold tol start.
  set (sh0 := mk_shared sts sts (replicate (length sts) false) start).
  assert (Hsh0 : shape (length sts) sh0).
  { unfold shape. cbn. by rewrite length_replicate. }
  assert (Hget0 : forall j, j < length sts -> get sh0 j = sts !! j).
  { intros j Hj. unfold get. cbn. by rewrite lookup_replicate_2. }
  pose proof (par_rounds_spec cfg width height tol (length sts) threads schedules
                (iterations (m_cooling cfg)) Hthreads Hperm 0 sh0 sts Hsh0 eq_refl Hget0)
    as H.
  destruct (par_rounds _ _ _ _ _ _ _ _ sh0) as [shR log].
  change (sh_temp sh0) with start in H.
  destruct (seq_rounds _ _ _ _ (iterations (m_cooling cfg)) start sts) as [SR log'].
  destruct H as (Hlog & _ & _ & Hzero & Hpos). split; [done|]. cbn [fst].
  destruct (iterations (m_cooling cfg)) as [|k].
  - by rewrite (Hzero eq_refl).
  - apply Hpos. lia.
Qed.

End ParallelTheorem.

(** ** interpolator::set_phases *)

Section SetPhases.
Context {F : Type} `{!Scalar F}.

Lemma filter_occurs (phases : list phase) p :
  length (filter (fun q => q = p) phases) = occurs p phases.
Proof.
  unfold occurs. induction phases as [|q phases IH]; [done|].
  rewrite filter_cons. cbn [count_occ].
  destruct (decide (q = p)) as [->|Hne].
  - destruct (phase_eq_dec p p); [|done]. cbn. by rewrite IH.
  - destruct (phase_eq_dec q p); [done|]. by rewrite IH.
Qed.






Lemma filter_replicate (n : nat) (p q : phase) (rest : list phase) :
  length (filter (fun r => r = q) (replicate n p ++ rest))
  = (if decide (p = q) then n else 0) + length (filter (fun r => r = q) rest).
Proof.
  induction n as [|n IH]; cbn [replicate app].
  - by destruct (decide (p = q)).
  - rewrite filter_cons. destruct (decide (p = q)) as [E|E]; cbn [length]; lia.
Qed.

(** Beyond that length the counts wrap: a list of [2^32 + 1] times appear,
    one disappear and one morph is stored, although appear occurs more
    than once. *)
Lemma set_phases_counts_wrap (it : interpolator F) (n : nat) :
  Z.of_nat n = (2 ^ 32 + 1)%Z ->
  occurs appear (replicate n appear ++ [disappear; morph]) = n
  /\ set_phases (replicate n appear ++ [disappear; morph]) it
     = Normal (set_m_phases (replicate n appear ++ [disappear; morph]) it).
Proof.
  intros Hn.
  assert (Fa : length (filter (fun r => r = appear) [disappear; morph]) = 0)
    by (vm_compute; reflexivity).
  assert (Fd : length (filter (fun r => r = disappear) [disappear; morph]) = 1)
    by (vm_compute; reflexivity).
  assert (Fm : length (filter (fun r => r = morph) [disappear; morph]) = 1)
    by (vm_compute; reflexivity).
  assert (Fs : length (filter (fun r => r = simultaneous) [disappear; morph]) = 0)
    by (vm_compute; reflexivity).
  split.
  - rewrite <- filter_occurs, filter_replicate, Fa.
    destruct (decide (appear = appear)); [lia|done].
  - unfold set_phases, count. rewrite !filter_replicate, Fa, Fd, Fm, Fs.
    destruct (decide (appear = appear)); [|done].
    destruct (decide (appear = disappear)); [done|].
    destruct (decide (appear = morph)); [done|].
    destruct (decide (appear = simultaneous)); [done|].
    rewrite !Nat.add_0_r, Hn. reflexivity.
Qed.

End SetPhases.

(** ** graph::remove_edges_if and the adjacency index *)

(** C3.  Removing one edge of a node with two edges leaves the adjacency
    index asymmetric: the graph is reached from the empty graph by
    [push_node], [push_edge] and [remove_edge], node 0 still has node 2 as a
    neighbour, and node 2 no longer has node 0. *)
Theorem remove_edge_breaks_symmetry :
  exists g : graph_state Q,
    apply_operations star_operations empty_graph = Normal g
    /\ node_exists g 0 = true /\ node_exists g 2 = true
    /\ edge_exists_between g 0 2 = Some true
    /\ edge_exists_between g 2 0 = Some false
    /\ (m_index g !! 0%N) ≫= (fun adj => adj !! 2%N) = Some 1%N
    /\ (m_index g !! 2%N) ≫= (fun adj => adj !! 0%N) = None.
Proof.
  eexists. split; [vm_compute; reflexivity|].
  repeat split; vm_compute; reflexivity.
Qed.

(** ** The border force of Fruchterman and Reingold *)

(** C6.  On a canvas of width 2 and height 2 and a single node at
    [(1/2, 0)], [k] is [6/5] and the displacement along x that the iteration
    starts from is [-192000/1750889], about [-0.11], where the border
    force of the claim is [-216000/188501], about [-1.15]:
    [reset_and_border] passes the canvas size where [border_displacement]
    expects the coordinate, and the coordinate where it expects the size. *)
Theorem border_displacement_arguments_swapped :
  let fr := default_fruchterman_reingold in
  let g := single_node (1 # 2) 0 in
  let k := iteration_k fr g 2%Q 2%Q in
  (k == 6 # 5)%Q
  /\ (exists d, initial_displacements fr g 2%Q 2%Q = [d]
        /\ (c_x d == - (192000 # 1750889))%Q
        /\ (c_x d == border_displacement fr k 2 (1 # 2))%Q
        /\ ~ (c_x d == border_force fr k 2 (1 # 2))%Q)
  /\ (border_force fr k 2%Q (1 # 2) == - (216000 # 188501))%Q
  /\ (border_force fr k 2%Q (1 # 2) == border_displacement fr k (1 # 2) 2)%Q.
Proof.
  cbn zeta. split; [by vm_compute|]. split.
  - eexists. split; [reflexivity|]. cbn [c_x].
    split; [by vm_compute|]. split; [by vm_compute|]. by vm_compute.
  - split; by vm_compute.
Qed.

(** ** interpolator::operator() on an empty sequence of states *)

Section EmptyStates.
Context {F : Type} `{!Scalar F}.

(** Without states the length is [(2^64 - 1) * transition_duration], the
    difference [0 - 1] taken in [size_t], and the call compares the time
    with 0 and with that length before it looks at the states. *)
Lemma interpolate_no_states (it : interpolator F)
    (last_node last_edge : N) (log : list (list modification)) (time : F) :
  interpolate it (mk_dynamic_graph last_node last_edge [] log) time =
    if fltb time fzero then Raise (out_of_range "time < 0")
    else if fgtb time (fmul (of_Z (2 ^ 64 - 1)) (transition_duration it))
         then Raise (out_of_range "time > length()")
         else Ok empty_graph.
Proof. reflexivity. Qed.

End EmptyStates.

(** ** The alphas [build] leaves *)

Section BuildAlpha.
Context {F : Type} `{!Scalar F}.

Lemma elem_of_filter_list {A} (P : A -> bool) (l : list A) x :
  x ∈ List.filter P l -> x ∈ l.
Proof. intros H%list_elem_of_In%filter_In. apply list_elem_of_In, H. Qed.

Lemma remove_edges_if_sub f (g : graph_state F) :
  nodes (remove_edges_if f g) = nodes g
  /\ forall e, e ∈ edges (remove_edges_if f g) -> e ∈ edges g.
Proof.
  split; [unfold nodes; by rewrite remove_edges_if_nodes|].
  unfold edges at 1. rewrite remove_edges_if_edges. cbn. apply elem_of_filter_list.
Qed.

Lemma sweep_nodes_sub f (l : list (node F)) (g : graph_state F) :
  forall e, e ∈ edges (snd (sweep_nodes f l g)) -> e ∈ edges g.
Proof.
  revert g. induction l as [|n l IH]; intros g e; cbn; [done|].
  destruct (f n); cbn.
  - intros He%IH. cbn in He. fold (edges (remove_edges_if (touches (elem_id n)) g)) in He.
    by apply remove_edges_if_sub in He.
  - specialize (IH g e). by destruct (sweep_nodes f l g).
Qed.

Lemma sweep_nodes_kept f (l : list (node F)) (g : graph_state F) :
  forall n, n ∈ fst (sweep_nodes f l g) -> n ∈ l.
Proof.
  revert g. induction l as [|x l IH]; intros g n; cbn; [done|].
  destruct (f x).
  - intros Hn. apply IH in Hn. by right.
  - specialize (IH g n). destruct (sweep_nodes f l g) as [k g1]. cbn in *.
    intros Hn. apply elem_of_cons in Hn as [Hn|Hn]; [subst; left|right; by apply IH].
Qed.

Lemma remove_nodes_if_sub f (g : graph_state F) :
  (forall n, n ∈ nodes (remove_nodes_if f g) -> n ∈ nodes g)
  /\ (forall e, e ∈ edges (remove_nodes_if f g) -> e ∈ edges g).
Proof.
  unfold remove_nodes_if.
  pose proof (sweep_nodes_sub f (nodes g) g) as He.
  pose proof (sweep_nodes_kept f (nodes g) g) as Hn.
  destruct (sweep_nodes f (nodes g) g) as [kept g']. cbn in *. split.
  - intros n Hin. by apply Hn.
  - exact He.
Qed.

Lemma push_node_elements (n : node F) (g : graph_state F) :
  (forall m, m ∈ nodes (push_node n g) -> m ∈ nodes g \/ m = n)
  /\ edges (push_node n g) = edges g.
Proof.
  unfold push_node, push_node_at. destruct (c_map (m_nodes g) !! elem_id n); cbn.
  - split; [by intros m Hm; left|done].
  - split; [|done]. intros m [?|?%list_elem_of_singleton]%elem_of_app; [by left|by right].
Qed.

Lemma push_edge_elements (e : edge F) (g g' : graph_state F) :
  push_edge e g = Normal g' ->
  nodes g' = nodes g /\ (forall f, f ∈ edges g' -> f ∈ edges g \/ f = e).
Proof.
  intros H. split; [unfold nodes; by rewrite (push_edge_nodes e g g' H)|].
  revert H. unfold push_edge, push_edge_at.
  destruct (c_map (m_edges g) !! elem_id e); cbn [fst].
  - intros [= <-] f Hf. by left.
  - destruct (m_index g !! one_id e); cbn [fst]; [|done].
    destruct (_ !! two_id e); cbn [fst]; [|done]. intros [= <-]. cbn [edges m_edges c_vec].
    intros f [?|?%list_elem_of_singleton]%elem_of_app; [by left|by right].
Qed.

Lemma alpha_default_apply_operation op (g g' : graph_state F) :
  alpha_default g -> apply_operation op g = Normal g' -> alpha_default g'.
Proof.
  intros [Hn He]. destruct op as [i|i one two|i|i]; cbn [apply_operation].
  - intros [= <-]. destruct (push_node_elements (new_node i) g) as [A B]. split.
    + intros m Hm. apply A in Hm as [Hm|Hm]; [by apply Hn|by subst].
    + rewrite B. apply He.
  - intros H. destruct (push_edge_elements _ _ _ H) as [A B]. split.
    + rewrite A. apply Hn.
    + intros f Hf. apply B in Hf as [Hf|Hf]; [by apply He|by subst].
  - unfold remove_node. destruct (node_exists g i); [|done]. intros [= <-].
    destruct (remove_nodes_if_sub (fun n => bool_decide (elem_id n = i)) g) as [A B].
    split; [intros n Hin; by apply Hn, A|intros e Hin; by apply He, B].
  - unfold remove_edge. destruct (edge_exists g i); [|done]. intros [= <-].
    destruct (remove_edges_if_sub (fun e => bool_decide (elem_id e = i)) g) as [A B].
    split; [rewrite A; apply Hn|intros e Hin; by apply He, B].
Qed.

Lemma alpha_default_apply_operations ops (g g' : graph_state F) :
  alpha_default g -> apply_operations ops g = Normal g' -> alpha_default g'.
Proof.
  revert g. induction ops as [|op ops IH]; intros g Hg; cbn.
  - by intros [= <-].
  - destruct (apply_operation op g) as [g1|] eqn:E; [|done].
    apply IH. by eapply alpha_default_apply_operation.
Qed.

Lemma alpha_default_empty : alpha_default (@empty_graph (node F) (edge F)).
Proof. split; intros x Hx; by apply elem_of_nil in Hx. Qed.

Lemma alpha_default_apply_steps mods (acc sts : list (graph_state F)) :
  Forall alpha_default acc -> apply_steps mods acc = Normal sts -> Forall alpha_default sts.
Proof.
  revert acc. induction mods as [|m mods IH]; intros acc Hacc; cbn.
  - by intros [= <-].
  - destruct (apply_operations m _) as [s|] eqn:E; [|done].
    apply IH. apply Forall_app; split; [done|]. apply Forall_singleton.
    eapply alpha_default_apply_operations; [|exact E].
    destruct (last acc) as [s0|] eqn:L; [|apply alpha_default_empty].
    apply last_Some in L as [l' ->]. apply Forall_app in Hacc as [_ H].
    by inversion H.
Qed.

Lemma alpha_default_flag_state (sts : list (graph_state F)) i g :
  alpha_default g -> alpha_default (flag_state sts i g).
Proof.
  intros [Hn He]. split; cbn.
  - intros n Hin. unfold nodes in Hin. cbn in Hin.
    apply list_elem_of_fmap in Hin as (n0 & -> & Hin). by apply Hn in Hin.
  - intros e Hin. unfold edges in Hin. cbn in Hin.
    apply list_elem_of_fmap in Hin as (e0 & -> & Hin). by apply He in Hin.
Qed.

(** Every element of every state [build] produces has alpha [fone]. *)
Lemma build_alpha_default (d d' : dynamic_graph F) :
  build d = Normal d' -> Forall alpha_default (states d').
Proof.
  unfold build. destruct (apply_steps _ _) as [sts|] eqn:E; [|done].
  intros [= <-]. cbn. apply Forall_lookup. intros t g Hg.
  rewrite set_bool_values_lookup in Hg.
  destruct (sts !! t) as [g0|] eqn:E0; [|done]. cbn in Hg. simplify_eq.
  apply alpha_default_flag_state.
  eapply Forall_lookup_1; [|exact E0]. eapply alpha_default_apply_steps; [|exact E].
  constructor.
Qed.

End BuildAlpha.

(** ** Alpha values of the frames, with exact rational scalars *)

Section AlphaBounds.
Local Open Scope Q_scope.

Lemma Qltb_lt (a b : Q) : Qltb a b = true <-> a < b.
Proof.
  unfold Qltb. rewrite negb_true_iff. split.
  - intros H. apply Qnot_le_lt. intros Hle. apply Qle_bool_iff in Hle. congruence.
  - intros H. destruct (Qle_bool b a) eqn:E; [|done].
    apply Qle_bool_iff in E. exfalso. by apply (Qlt_not_le a b).
Qed.

Lemma Qltb_ge (a b : Q) : Qltb a b = false <-> b <= a.
Proof.
  unfold Qltb. rewrite negb_false_iff. apply Qle_bool_iff.
Qed.

Lemma Qdiv_self_unit (d : Q) : unit_interval (d / d).
Proof.
  destruct (Qeq_dec d 0) as [E|E].
  - assert (H : d / d == 0) by (rewrite E; reflexivity).
    unfold unit_interval. rewrite H. split; [apply Qle_refl|discriminate].
  - assert (H : d / d == 1) by (by apply Qmult_inv_r).
    unfold unit_interval. rewrite H. split; [discriminate|apply Qle_refl].
Qed.

Lemma Qdiv_below_unit (time d : Q) : 0 <= time -> time < d -> unit_interval (time / d).
Proof.
  intros H0 Hd. assert (Hpos : 0 < d) by (eapply Qle_lt_trans; eauto).
  split.
  - apply Qle_shift_div_l; [done|]. by rewrite Qmult_0_l.
  - apply Qle_shift_div_r; [done|]. rewrite Qmult_1_l. by apply Qlt_le_weak.
Qed.

(** The local time is not negative. *)
Lemma local_time_nonneg (time td : Q) :
  0 <= time -> 0 <= time - inject_Z (Z.of_nat (Z.to_nat (Qfloor (time / td)))) * td.
Proof.
  intros Ht. destruct (Z_le_gt_dec (Qfloor (time / td)) 0) as [Hz|Hz].
  - rewrite Z2Nat.nonpos by done. change (inject_Z (Z.of_nat 0)) with 0. lra.
  - rewrite Z2Nat.id by lia.
    pose proof (Qfloor_le (time / td)) as Hfl.
    set (z := Qfloor (time / td)) in *.
    assert (Hz1 : 1 <= inject_Z z).
    { change 1 with (inject_Z 1). rewrite <- Zle_Qle. lia. }
    assert (Hq : 0 < time / td) by lra.
    assert (Htd : 0 < td).
    { destruct (Qlt_le_dec 0 td) as [|Hle]; [done|]. exfalso.
      assert (A : time / td <= 0); [|lra].
      destruct (Qeq_dec td 0) as [E|E].
      - rewrite E. unfold Qdiv. change (/ 0) with 0. lra.
      - assert (Hneg : td < 0).
        { apply Qle_lteq in Hle as [|]; [done|contradiction]. }
        assert (B : 0 <= - td) by lra.
        assert (C : 0 < - td) by lra.
        assert (D : time / td == - (time / - td)) by (field; lra).
        rewrite D.
        assert (E' : 0 <= time / - td); [|lra].
        apply Qle_shift_div_l; [done|]. lra. }
    assert (Hmul : time / td * td == time) by (field; lra).
    assert (inject_Z z * td <= time / td * td); [|lra].
    apply Qmult_le_compat_r; lra.
Qed.


Lemma perform_done_alpha (it : interpolator Q) p (an : frame_state Q) :
  unit_interval (fs_alpha an) ->
  unit_interval (fs_alpha (perform_phase it p (duration it p) an)).
Proof.
  intros Han. destruct p; cbn; try done; apply Qdiv_self_unit.
Qed.

Lemma perform_current_alpha (it : interpolator Q) p time (an : frame_state Q) :
  0 <= time -> Qltb time (duration it p) = true ->
  unit_interval (fs_alpha an) ->
  unit_interval (fs_alpha (perform_phase it p time an)).
Proof.
  intros Ht Hd%Qltb_lt Han. destruct p; cbn; try done; by apply Qdiv_below_unit.
Qed.

Lemma before_alpha (it : interpolator Q) (ps : list phase) (an : frame_state Q) :
  unit_interval (fs_alpha an) ->
  unit_interval
    (fs_alpha (foldl (fun an p => perform_phase it p (duration it p) an) an ps)).
Proof.
  revert an. induction ps as [|p ps IH]; intros an Han; [done|].
  cbn [foldl]. by apply IH, perform_done_alpha.
Qed.

Lemma current_phase_from_spec (it : interpolator Q) ps i time time' j :
  current_phase_from it ps i time = Ok (time', j) -> 0 <= time ->
  0 <= time' /\ (i <= j)%nat
  /\ exists p, ps !! (j - i)%nat = Some p /\ Qltb time' (duration it p) = true.
Proof.
  revert i time. induction ps as [|p ps IH]; intros i time; cbn [current_phase_from]; [done|].
  change (fltb time (duration it p)) with (Qltb time (duration it p)).
  destruct (Qltb time (duration it p)) eqn:E.
  - intros [= <- <-] Ht. split; [done|]. split; [done|].
    exists p. by rewrite Nat.sub_diag.
  - intros H Ht. apply Qltb_ge in E.
    apply IH in H as (H0 & Hij & q & Hq & Hlt).
    + split; [done|]. split; [lia|]. exists q. split; [|done].
      replace (j - i)%nat with (S (j - S i)) by lia. done.
    + change (fsub time (duration it p)) with (time - duration it p). lra.
Qed.

Lemma animation_alpha (it : interpolator Q) value current :
  0 <= value -> get_current_phase it value = Ok current ->
  unit_interval (fs_alpha (animation_at it current)).
Proof.
  intros Hv H. destruct current as [time j]. unfold get_current_phase in H.
  apply current_phase_from_spec in H as (Ht & _ & p & Hp & Hlt); [|done].
  rewrite Nat.sub_0_r in Hp. unfold animation_at. cbn [fst snd]. rewrite Hp.
  apply perform_current_alpha; [done..|]. apply before_alpha.
  cbn. split; [apply Qle_refl|discriminate].
Qed.

(** [calc_alpha] keeps the alpha of an element in [0, 1]. *)
Lemma calc_alpha_unit {T} `{!Animated Q T} (an : frame_state Q) (el : T) :
  (forall a e, alpha (set_alpha a e) = a) ->
  unit_interval (fs_alpha an) -> unit_interval (alpha el) ->
  unit_interval (alpha (calc_alpha an el)).
Proof.
  intros Hset [Ha0 Ha1] Hel. unfold calc_alpha.
  assert (H0 : unit_interval 0) by (split; [apply Qle_refl|discriminate]).
  destruct (is_new el), (is_old el), (added an), (adding an), (deleted an), (deleting an);
    cbn; rewrite ?Hset; try done; unfold unit_interval, of_bool; cbn;
    change (inject_Z 1) with 1; change (inject_Z 0) with 0; split; nra.
Qed.

End AlphaBounds.

Section FrameAlpha.
Local Open Scope Q_scope.

Lemma import_nodes_alpha (next cur : graph_state Q) :
  alphas_in_unit next -> alphas_in_unit cur -> alphas_in_unit (import_nodes next cur).
Proof.
  intros [Hnext _]. unfold import_nodes.
  assert (G : forall ns cur, (forall n, n ∈ ns -> unit_interval (alpha n)) ->
            alphas_in_unit cur ->
            alphas_in_unit
              (foldl (fun g n => if is_new n then push_node (set_is_old false n) g else g)
                 cur ns)).
  { clear. induction ns as [|n ns IH]; intros cur Hns Hcur; [done|]. cbn [foldl].
    apply IH; [intros m Hm; apply Hns; by right|].
    destruct (is_new n); [|done]. destruct Hcur as [Hn He].
    destruct (push_node_elements (set_is_old false n) cur) as [A B]. split.
    - intros m [Hm| ->]%A; [by apply Hn|]. apply (Hns n). by left.
    - rewrite B. apply He. }
  by apply G.
Qed.

Lemma import_edges_alpha (es : list (edge Q)) (cur merged : graph_state Q) :
  (forall e, e ∈ es -> unit_interval (alpha e)) -> alphas_in_unit cur ->
  import_edges es cur = Ok merged -> alphas_in_unit merged.
Proof.
  revert cur. induction es as [|e es IH]; intros cur Hes Hcur; cbn [import_edges].
  - by intros [= <-].
  - assert (Hes' : forall f, f ∈ es -> unit_interval (alpha f)).
    { intros f Hf. apply Hes. by right. }
    destruct (is_new e); [|by apply IH].
    destruct (push_edge (set_is_old false e) cur) as [g|] eqn:E; [|done].
    apply IH; [done|]. destruct Hcur as [Hn He].
    destruct (push_edge_elements _ _ _ E) as [A B]. split.
    + rewrite A. apply Hn.
    + intros f [Hf| ->]%B; [by apply He|]. apply (Hes e). by left.
Qed.

(** Without rounding the alphas stay in [0, 1]: in exact arithmetic, with
    phases of positive duration, when the alphas of the keyframes are in
    [0, 1], as the default 1.0 that [build] and the layouts leave, every
    node and every edge of a frame that [operator()] returns has its alpha
    in [0, 1]. *)
Theorem exact_alpha_in_unit_interval
    (it : interpolator Q) (dgraph : dynamic_graph Q) (time : Q) (frame : graph_state Q) :
  positive_phases it ->
  (forall g, g ∈ states dgraph -> alphas_in_unit g) ->
  interpolate it dgraph time = Ok frame ->
  (forall n, n ∈ nodes frame -> 0 <= alpha n /\ alpha n <= 1)
  /\ (forall e, e ∈ edges frame -> 0 <= alpha e /\ alpha e <= 1).
Proof.
  intros _ Hst. unfold interpolate.
  change (fltb time fzero) with (Qltb time 0).
  destruct (Qltb time 0) eqn:Et; [done|]. apply Qltb_ge in Et.
  destruct (fgtb time _); [done|].
  destruct (states dgraph) as [|first rest] eqn:Es.
  { intros [= <-]. split; intros ? H; by apply elem_of_nil in H. }
  cbn zeta.
  destruct (get_current_phase it _) as [current|] eqn:Ec; [|done].
  assert (Han : unit_interval (fs_alpha (animation_at it current))).
  { eapply animation_alpha; [|exact Ec]. by apply local_time_nonneg. }
  set (an := animation_at it current) in *.
  set (cur := default first (_ !! Nat.min (Z.to_nat (ffloor _)) _)).
  set (next := default first (_ !! Nat.min (Z.to_nat (fceil _)) _)).
  assert (Hin : forall i, alphas_in_unit (default first ((first :: rest) !! i))).
  { intros i. destruct ((first :: rest) !! i) as [g|] eqn:E; cbn.
    - apply Hst. by eapply list_elem_of_lookup_2.
    - apply Hst. by left. }
  assert (Hcur : alphas_in_unit cur) by apply Hin.
  assert (Hnext : alphas_in_unit next) by apply Hin.
  set (cleared := with_elements _ _ cur).
  assert (Hcl : alphas_in_unit cleared).
  { destruct Hcur as [Hn He]. split.
    - intros n (n0 & -> & Hn0)%list_elem_of_fmap.
      change (unit_interval (alpha n0)). by apply Hn.
    - intros e (e0 & -> & He0)%list_elem_of_fmap.
      change (unit_interval (alpha e0)). by apply He. }
  destruct (import_edges _ _) as [merged|] eqn:Em; [|done].
  assert (Hm : alphas_in_unit merged).
  { eapply import_edges_alpha; [apply Hnext| |exact Em]. by apply import_nodes_alpha. }
  intros [= <-]. destruct Hm as [Hn He]. split.
  - intros n (n0 & -> & Hn0)%list_elem_of_fmap. unfold morph_node.
    apply calc_alpha_unit; [done..|].
    destruct (node_exists next (elem_id n0)); [|by apply Hn].
    destruct (node_at next (elem_id n0)); change (unit_interval (alpha n0)); by apply Hn.
  - intros e (e0 & -> & He0)%list_elem_of_fmap.
    apply calc_alpha_unit; [done..|]. by apply He.
Qed.

End FrameAlpha.

(** ** interpolator::operator() in binary32 *)

Section Binary32Frames.

Lemma size_max_rounds_up : b32_of_Z (2 ^ 64 - 1) = b32_of_Z (2 ^ 64).
Proof. vm_compute; reflexivity. Qed.

(** C10, as the code has it.  Without states [length()] is the product of
    the [float] of [2^64 - 1], which is [2^64], and the transition
    duration; the call raises [std::out_of_range] when the time compares
    below 0 or above that length, and returns an empty graph for every
    other time. *)
Theorem interpolate_without_states
    (it : interpolator binary32) (dgraph : dynamic_graph binary32) (time : binary32) :
  states dgraph = [] ->
  let bound := fmul (b32_of_Z (2 ^ 64)) (transition_duration it) in
  length_of it dgraph = bound
  /\ (fltb time fzero = true ->
      interpolate it dgraph time = Raise (out_of_range "time < 0"))
  /\ (fltb time fzero = false -> fgtb time bound = true ->
      interpolate it dgraph time = Raise (out_of_range "time > length()"))
  /\ (fltb time fzero = false -> fgtb time bound = false ->
      interpolate it dgraph time = Ok empty_graph).
Proof.
  intros Hs bound. destruct dgraph as [last_node last_edge sts log].
  cbn in Hs. subst sts. rewrite interpolate_no_states.
  assert (Hlen : length_of it (mk_dynamic_graph last_node last_edge [] log) = bound).
  { unfold length_of, bound. cbn [states m_states length].
    change (of_Z (size_wrap (Z.of_nat 0 - 1))) with (b32_of_Z (2 ^ 64 - 1)).
    by rewrite size_max_rounds_up. }
  change (fmul (of_Z (2 ^ 64 - 1)) (transition_duration it))
    with (fmul (b32_of_Z (2 ^ 64 - 1)) (transition_duration it)).
  rewrite size_max_rounds_up. fold bound.
  split; [exact Hlen|]. split; [|split].
  - by intros ->.
  - by intros -> ->.
  - by intros -> ->.
Qed.

(** C10 as stated fails above the length.  With the default phases a
    transition lasts 2 seconds and the length without states is [2^65]:
    the time [2^70] is not negative, and the call raises
    [std::out_of_range]. *)
Lemma interpolate_without_states_out_of_range :
  let dgraph : dynamic_graph binary32 := empty_dynamic_graph in
  let time : binary32 := b32_of_Z (2 ^ 70) in
  states dgraph = []
  /\ fltb time fzero = false /\ fleb fzero time = true
  /\ transition_duration (F := binary32) interpolator_phased = b32_of_Z 2
  /\ length_of interpolator_phased dgraph = b32_of_Z (2 ^ 65)
  /\ interpolate interpolator_phased dgraph time = Raise (out_of_range "time > length()").
Proof. cbn zeta. repeat split; vm_compute; reflexivity. Qed.

(** C8.  The alpha of a frame can exceed 1.  The node of [long_fade_log]
    is in the states 0 to 11 and flagged as old in state 11; with the
    phases disappear, morph, appear of 0.3, 0.3 and 0.1 seconds, the time
    [late] = 7.7000003 is within the length of the animation, its quotient
    by the transition duration is 11, and [11 * transition_duration]
    rounds to a float above it: the local time is negative, and the node
    of the frame has the alpha [1 + 13 / 2^23]. *)
Theorem interpolated_alpha_exceeds_one :
  exists (dgraph : dynamic_graph binary32) (frame : graph_state binary32),
    build long_fade_log = Normal dgraph
    /\ length (states dgraph) = 13
    /\ Forall alpha_default (states dgraph)
    /\ fltb late fzero = false
    /\ fgtb late (length_of thirds dgraph) = false
    /\ ffloor (fdiv late (transition_duration thirds)) = 11%Z
    /\ fltb (fsub late (fmul (of_nat 11) (transition_duration thirds))) fzero = true
    /\ interpolate thirds dgraph late = Ok frame
    /\ alpha <$> nodes frame = [above_one]
    /\ fltb fone above_one = true.
Proof.
  destruct (build long_fade_log) as [dgraph|] eqn:Eb; [|by vm_compute in Eb].
  pose proof (build_alpha_default _ _ Eb) as Hd.
  assert (Ed : dgraph = left_state (build long_fade_log)) by (by rewrite Eb).
  destruct (interpolate thirds dgraph late) as [frame|] eqn:Ef;
    [|by rewrite Ed in Ef; vm_compute in Ef].
  exists dgraph, frame. split; [done|]. split; [by rewrite Ed; vm_compute|].
  split; [exact Hd|]. split; [by vm_compute|].
  split; [by rewrite Ed; vm_compute|]. split; [by vm_compute|]. split; [by vm_compute|].
  split; [done|]. split; [|by vm_compute].
  rewrite Ed in Ef. vm_compute in Ef. injection Ef as <-. vm_compute. reflexivity.
Qed.

End Binary32Frames.

(** ** Instances on concrete inputs *)

Lemma build_sets_is_new_is_old_witness :
  build fading_log = Normal (built fading_log)
  /\ forall t g, states (built fading_log) !! t = Some g ->
       (forall n, n ∈ nodes g ->
          (is_new n = true <->
             0 < t /\ exists p, states (built fading_log) !! (t - 1) = Some p
                                /\ ~ has_id (nodes p) (elem_id n))
          /\ (is_old n = true <->
             t < length (states (built fading_log)) - 1
             /\ exists q, states (built fading_log) !! (t + 1) = Some q
                          /\ ~ has_id (nodes q) (elem_id n)))
       /\ (forall e, e ∈ edges g ->
          (is_new e = true <->
             0 < t /\ exists p, states (built fading_log) !! (t - 1) = Some p
                                /\ ~ has_id (edges p) (elem_id e))
          /\ (is_old e = true <->
             t < length (states (built fading_log)) - 1
             /\ exists q, states (built fading_log) !! (t + 1) = Some q
                          /\ ~ has_id (edges q) (elem_id e))).
Proof.
  split; [vm_compute; reflexivity|].
  apply (build_sets_is_new_is_old fading_log (built fading_log)).
  vm_compute; reflexivity.
Defined.

(** Three keyframes of one node, at [x = 0], [x = 1/2] and [x = 0], one
    iteration that moves every node by 1/2 to the right, tolerance 1/4 in
    relative mode.  The copy of state 0 lands on its right neighbour and
    is accepted; the copy of state 1 is then at distance 1/2 from its left
    neighbour and is rejected by the comparison. *)
Lemma tolerance_accepts_iff_witness :
  let cfg := one_round in
  let tol := @tolerance_abs Q _ drift_layout cfg three_keyframes 1%Q 1%Q (1 # 4)%Q in
  let temp := start_temperature (m_cooling cfg) in
  let after := fst (@seq_rounds Q _ drift_layout cfg 1%Q 1%Q tol 1 temp three_keyframes) in
  let copy := drift (single_node (1 # 2) 0) (1 # 2) in
  0 < iterations (m_cooling cfg) /\ 1 < length three_keyframes
  /\ after !! 0 = Some (drift (single_node 0 0) (1 # 2))
  /\ (distance cfg copy (drift (single_node 0 0) (1 # 2)) == 1 # 2)%Q
  /\ (tol == 1 # 4)%Q
  /\ ~ accepted cfg tol 3 1 copy (after !! 0) (three_keyframes !! 2)
  /\ after !! 1 = Some (single_node (1 # 2) 0).
Proof.
  intros cfg tol temp after copy.
  assert (H0 : 0 < iterations (m_cooling cfg)) by (cbn; lia).
  assert (H1 : 1 < length three_keyframes) by (cbn; lia).
  assert (Hafter0 : after !! 0 = Some (drift (single_node 0 0) (1 # 2)))
    by (vm_compute; reflexivity).
  assert (Hno : ~ accepted cfg tol 3 1 copy (after !! 0) (three_keyframes !! 2)).
  { intros [[Hs|(l & Hl & Hlt)] _]; [done|].
    rewrite Hafter0 in Hl. injection Hl as <-. by vm_compute in Hlt. }
  split; [exact H0|]. split; [exact H1|]. split; [exact Hafter0|].
  split; [by vm_compute|]. split; [by vm_compute|]. split; [exact Hno|].
  destruct (@tolerance_accepts_iff Q _ drift_layout cfg three_keyframes
              1%Q 1%Q (1 # 4)%Q 0 1 H0 H1) as (_ & (g & Hg & _ & Hrej) & _).
  cbn [seq_rounds fst] in Hg. injection Hg as <-.
  exact (Hrej Hno).
Defined.


(** A single keyframe of one node, one iteration, two threads: both passes
    accept the iterated copy; the sequential pass leaves the node at
    [x = 1/2], the parallel pass leaves it at [x = 0]. *)
Lemma parallel_tolerance_lags_one_round_witness :
  let sts := [single_node 0 0] in
  let par := @parallel_tolerance Q _ drift_layout one_round 2 second_first sts 1%Q 1%Q 1%Q in
  let sequ := @tolerance Q _ drift_layout one_round sts 1%Q 1%Q 1%Q in
  0 < 2
  /\ (forall r, Permutation (second_first r) (seq 0 2))
  /\ snd par = snd sequ
  /\ snd sequ = [[true]]
  /\ fst par = [single_node 0 0]
  /\ fst sequ = [drift (single_node 0 0) (1 # 2)]
  /\ (c_x <$> (pos <$> nodes (single_node 0 0))) = [0%Q]
  /\ (c_x <$> (pos <$> nodes (drift (single_node 0 0) (1 # 2)))) = [(0 + (1 # 2))%Q].
Proof.
  cbn zeta.
  assert (H2 : 0 < 2) by lia.
  assert (Hp : forall r, Permutation (second_first r) (seq 0 2)).
  { intros r. apply perm_swap. }
  destruct (@parallel_tolerance_lags_one_round Q _ drift_layout one_round 2 second_first
              [single_node 0 0] 1%Q 1%Q 1%Q H2 Hp) as [Hlog Hst].
  split; [done|]. split; [done|]. split; [done|].
  split; [vm_compute; reflexivity|]. split; [exact Hst|].
  split; [vm_compute; reflexivity|]. split; reflexivity.
Defined.


Lemma exact_alpha_in_unit_interval_witness :
  let dgraph := built fading_log in
  let frame :=
    match interpolate interpolator_phased dgraph (5 # 8) with
    | Ok f => f
    | Raise _ => empty_graph
    end in
  positive_phases interpolator_phased
  /\ build fading_log = Normal dgraph
  /\ (forall g, g ∈ states dgraph -> alphas_in_unit g)
  /\ interpolate interpolator_phased dgraph (5 # 8) = Ok frame
  /\ Forall2 Qeq (alpha <$> nodes frame) [1 # 2; 1]%Q
  /\ Forall2 Qeq (alpha <$> edges frame) [1 # 2]%Q
  /\ ((forall n, n ∈ nodes frame -> (0 <= alpha n /\ alpha n <= 1)%Q)
      /\ (forall e, e ∈ edges frame -> (0 <= alpha e /\ alpha e <= 1)%Q)).
Proof.
  intros dgraph frame.
  assert (Hp : positive_phases interpolator_phased).
  { split; [done|]. repeat constructor. }
  assert (Hb : build fading_log = Normal dgraph) by (vm_compute; reflexivity).
  assert (Hst : forall g, g ∈ states dgraph -> alphas_in_unit g).
  { intros g Hg. pose proof (build_alpha_default _ _ Hb) as Hd.
    rewrite Forall_forall in Hd. destruct (Hd g Hg) as [Hn He].
    split; intros x Hx; [rewrite (Hn x Hx)|rewrite (He x Hx)]; by split. }
  assert (Hf : interpolate interpolator_phased dgraph (5 # 8) = Ok frame)
    by (vm_compute; reflexivity).
  split; [exact Hp|]. split; [exact Hb|]. split; [exact Hst|]. split; [exact Hf|].
  split; [vm_compute; repeat constructor|]. split; [vm_compute; repeat constructor|].
  exact (exact_alpha_in_unit_interval interpolator_phased dgraph (5 # 8) frame Hp Hst Hf).
Defined.

(** Without states and with the default phases the length is [2^65]: at
    that very time the call returns the empty graph, and so it does for a
    NaN, which compares neither below 0 nor above the length. *)
Lemma interpolate_without_states_witness :
  let time : binary32 := b32_of_Z (2 ^ 65) in
  states (empty_dynamic_graph (F := binary32)) = []
  /\ length_of interpolator_phased (empty_dynamic_graph (F := binary32)) = time
  /\ fltb time fzero = false
  /\ interpolate interpolator_phased empty_dynamic_graph time = Ok empty_graph
  /\ interpolate interpolator_phased empty_dynamic_graph S754_nan = Ok empty_graph.
Proof.
  intros time.
  destruct (interpolate_without_states interpolator_phased empty_dynamic_graph time eq_refl)
    as (Hlen & _ & _ & Hok).
  destruct (interpolate_without_states interpolator_phased empty_dynamic_graph S754_nan
              eq_refl) as (_ & _ & _ & Hnan).
  split; [reflexivity|]. split; [by vm_compute|]. split; [by vm_compute|].
  split; [apply Hok; by vm_compute|apply Hnan; by vm_compute].
Defined.

(** ** The text format: conversions *)

Section TextFacts.

Lemma digit_char_value (d : N) :
  (d < 10)%N -> digit_value (digit_char d) = Some (Z.of_N d).
Proof.
  intros H. destruct d as [|p]; [reflexivity|].
  do 4 (destruct p as [p|p|]; try lia; try reflexivity).
Qed.

Lemma is_digit_facts (c : ascii) :
  is_digit c ->
  plain c /\ Ascii.eqb c "-" = false /\ Ascii.eqb c "+" = false /\ Ascii.eqb c " " = false.
Proof.
  intros [z Hz]. revert Hz.
  destruct c as [[] [] [] [] [] [] [] []]; vm_compute; intros; try discriminate; done.
Qed.

Lemma print_digits_Forall (P : ascii -> Prop) fuel n acc :
  (forall d, (d < 10)%N -> P (digit_char d)) ->
  Forall P acc -> Forall P (print_digits fuel n acc).
Proof.
  intros HP. revert n acc. induction fuel as [|fuel IH]; intros n acc Hacc; [done|].
  cbn [print_digits].
  assert (Forall P (digit_char (n mod 10) :: acc)).
  { constructor; [|done]. apply HP. by apply N.mod_lt. }
  destruct (n / 10 =? 0)%N; [done|]. by apply IH.
Qed.

Lemma print_digits_cons fuel n acc :
  acc <> [] -> print_digits fuel n acc <> [].
Proof.
  revert n acc. induction fuel as [|fuel IH]; intros n acc Hacc; [done|].
  cbn [print_digits]. destruct (n / 10 =? 0)%N; [done|]. by apply IH.
Qed.

Lemma print_digits_S fuel n acc :
  print_digits (S fuel) n acc
  = if (n / 10 =? 0)%N then digit_char (n mod 10) :: acc
    else print_digits fuel (n / 10) (digit_char (n mod 10) :: acc).
Proof. reflexivity. Qed.

Lemma print_unsigned_digits n : print_unsigned n <> [] /\ Forall is_digit (print_unsigned n).
Proof.
  split.
  - unfold print_unsigned. rewrite print_digits_S.
    destruct (n / 10 =? 0)%N; [done|]. by apply print_digits_cons.
  - apply print_digits_Forall; [|done].
    intros d Hd. unfold is_digit. by rewrite digit_char_value.
Qed.

Lemma print_unsigned_word n : word (print_unsigned n).
Proof.
  destruct (print_unsigned_digits n) as [Hne Hd]. split; [done|].
  eapply Forall_impl; [exact Hd|]. intros c Hc. by apply is_digit_facts.
Qed.

Lemma digits_value_print fuel n suffix :
  (n < 10 ^ N.of_nat fuel)%N ->
  exists k, forall acc,
    digits_value (print_digits fuel n suffix) acc
    = digits_value suffix (acc * 10 ^ Z.of_nat k + Z.of_N n).
Proof.
  revert n suffix. induction fuel as [|fuel IH]; intros n suffix Hn.
  - exists 0. intros acc. cbn. assert (n = 0%N) as -> by (cbn in Hn; lia).
    f_equal. lia.
  - cbn [print_digits].
    assert (Hd : digit_value (digit_char (n mod 10)) = Some (Z.of_N (n mod 10))).
    { apply digit_char_value. by apply N.mod_lt. }
    pose proof (N.div_mod n 10 ltac:(done)) as Hdm.
    destruct (n / 10 =? 0)%N eqn:E.
    + apply N.eqb_eq in E. exists 1. intros acc. cbn [digits_value]. rewrite Hd.
      f_equal. lia.
    + destruct (IH (n / 10)%N (digit_char (n mod 10) :: suffix)) as [k Hk].
      { apply N.Div0.div_lt_upper_bound.
        replace (N.of_nat (S fuel)) with (N.succ (N.of_nat fuel)) in Hn by lia.
        by rewrite N.pow_succ_r' in Hn. }
      exists (S k). intros acc. rewrite Hk. cbn [digits_value]. rewrite Hd.
      f_equal. rewrite Nat2Z.inj_succ, Z.pow_succ_r by lia. lia.
Qed.

Lemma stoi_print_unsigned (n : N) :
  (n < 2 ^ 31)%N -> stoi (print_unsigned n) = Ok (Z.of_N n).
Proof.
  intros Hn. destruct (print_unsigned_digits n) as [Hne Hd].
  destruct (digits_value_print 10 n []) as [k Hk]; [cbn; lia|].
  fold (print_unsigned n) in Hk.
  destruct (print_unsigned n) as [|c rest] eqn:E; [done|].
  apply Forall_cons in Hd as [Hc _].
  destruct (is_digit_facts c Hc) as ([Hs _] & Hm & Hp & _).
  unfold stoi. cbn [skip_space]. rewrite Hs. cbn [signed]. rewrite Hm, Hp.
  cbn [starts_with_digit]. rewrite bool_decide_eq_true_2 by done. cbn [negb].
  rewrite (Hk 0%Z). cbn [digits_value fst].
  replace (0 * 10 ^ Z.of_nat k + Z.of_N n)%Z with (Z.of_N n) by lia.
  destruct (_ || _)%bool eqn:B; [|done].
  apply orb_true_iff in B as [B|B]; apply Z.ltb_lt in B; lia.
Qed.

Lemma id_of_int_of_N (n : N) : (n < 2 ^ 32)%N -> id_of_int (Z.of_N n) = n.
Proof.
  intros Hn. unfold id_of_int, uint_wrap. rewrite Z.mod_small; lia.
Qed.

Lemma plain_not_space c : plain c -> Ascii.eqb c " " = false.
Proof.
  intros [Hs _]. destruct (Ascii.eqb_spec c " ") as [->|]; [done|done].
Qed.

Lemma reduce_loop_word (tok s : list ascii) ignore res :
  tok <> [] -> Forall plain tok ->
  reduce_loop (tok ++ s) ignore res = reduce_loop s false (res ++ tok).
Proof.
  revert ignore res. induction tok as [|c tok IH]; intros ignore res Hne Htok; [done|].
  apply Forall_cons in Htok as [[Hc _] Htok].
  cbn [app reduce_loop]. rewrite Hc. cbn [negb]. rewrite orb_true_r.
  destruct tok as [|c' tok'].
  - done.
  - rewrite IH by done. by rewrite <- app_assoc.
Qed.

Lemma reduce_loop_space (s : list ascii) ignore res :
  reduce_loop (" "%char :: s) ignore res
  = reduce_loop s true (if ignore then res else res ++ [" "%char]).
Proof. by destruct ignore. Qed.

Lemma split_loop_word (tok rest chunk : list ascii) res :
  Forall plain tok ->
  split_loop (tok ++ " "%char :: rest) " " chunk res
  = split_loop rest " " [] (res ++ [chunk ++ tok]).
Proof.
  revert chunk. induction tok as [|c tok IH]; intros chunk Htok.
  - cbn. by rewrite app_nil_r.
  - apply Forall_cons in Htok as [Hc%plain_not_space Htok].
    cbn [app split_loop]. rewrite Hc. cbn [orb].
    rewrite bool_decide_eq_false_2 by (by destruct tok).
    rewrite IH by done. by rewrite <- app_assoc.
Qed.

Lemma split_loop_last (tok chunk : list ascii) res :
  tok <> [] -> Forall plain tok ->
  split_loop tok " " chunk res = res ++ [chunk ++ tok].
Proof.
  revert chunk. induction tok as [|c tok IH]; intros chunk Hne Htok; [done|].
  apply Forall_cons in Htok as [Hc%plain_not_space Htok].
  cbn [split_loop]. rewrite Hc. cbn [orb].
  destruct tok as [|c' tok'].
  - done.
  - rewrite bool_decide_eq_false_2 by done.
    rewrite IH by done. by rewrite <- app_assoc.
Qed.

Lemma word_last (c : list ascii) :
  c <> [] -> Forall plain c -> exists c' x, c = c' ++ [x] /\ plain x.
Proof.
  induction c as [|x c _] using rev_ind; [done|]. intros _ H.
  apply Forall_app in H as [_ Hx]. apply Forall_cons in Hx as [Hx _].
  exists c, x. by split.
Qed.

Lemma reduce_loop_nil ignore res : reduce_loop [] ignore res = res.
Proof. reflexivity. Qed.

Lemma reduce_loop_written (a b c : list ascii) :
  word a -> word b -> word c ->
  reduce_loop (" "%char :: a ++ " "%char :: b ++ " "%char :: c) false []
  = " "%char :: a ++ " "%char :: b ++ " "%char :: c.
Proof.
  intros [Ha Hpa] [Hb Hpb] [Hc Hpc].
  rewrite reduce_loop_space, reduce_loop_word, reduce_loop_space by done.
  rewrite reduce_loop_word, reduce_loop_space by done.
  replace c with (c ++ []) at 1 by apply app_nil_r.
  rewrite reduce_loop_word, reduce_loop_nil by done.
  rewrite <- !app_assoc. done.
Qed.

(** The three parameters of a statement the writer produced. *)
Lemma parameters_written (a b c : list ascii) :
  word a -> word b -> word c ->
  parameters (" "%char :: a ++ " "%char :: b ++ " "%char :: c) = [a; b; c].
Proof.
  intros Ha Hb Hc. unfold parameters, reduce_whitespace.
  rewrite reduce_loop_written by done. cbv zeta.
  destruct Ha as [Ha Hpa], Hb as [Hb Hpb], Hc as [Hc Hpc].
  change (Ascii.eqb " " " ") with true. cbv iota.
  destruct (word_last c Hc Hpc) as (c' & x & Ec & Hx%plain_not_space).
  replace (last (a ++ " "%char :: b ++ " "%char :: c)) with (Some x).
  2:{ rewrite Ec. rewrite !app_comm_cons, !app_assoc. by rewrite last_snoc. }
  rewrite Hx. unfold split.
  rewrite split_loop_word, split_loop_word, split_loop_last by done.
  done.
Qed.

Lemma skip_until_found (ch : ascii) (rest : list ascii) :
  skip_until (istream_of (ch :: rest)) ch = (true, istream_of rest).
Proof. unfold skip_until. cbn. by rewrite Ascii.eqb_refl. Qed.

Lemma read_loop_found (str rest : list ascii) ch acc :
  Forall (fun c => Ascii.eqb c ch = false) str ->
  read_loop (str ++ ch :: rest) ch acc = Ok (acc ++ str, istream_of rest).
Proof.
  revert acc. induction str as [|c str IH]; intros acc Hstr.
  - cbn. by rewrite Ascii.eqb_refl, app_nil_r.
  - apply Forall_cons in Hstr as [Hc Hstr]. cbn [app read_loop]. rewrite Hc.
    rewrite IH by done. by rewrite <- app_assoc.
Qed.

Lemma read_until_found (str rest : list ascii) ch :
  Forall (fun c => Ascii.eqb c ch = false) str ->
  read_until (istream_of (str ++ ch :: rest)) ch = Ok (str, istream_of rest).
Proof. intros H. unfold read_until. cbn. by rewrite read_loop_found. Qed.

End TextFacts.

(** ** The text format: statements *)

Section StatementFacts.
Context {F : Type} `{!Scalar F, !Textual F}.

Lemma written_statement (a b c : list ascii) :
  word a -> word b -> word c ->
  Forall (fun ch => Ascii.eqb ch ";" = false)
    (" "%char :: a ++ " "%char :: b ++ " "%char :: c).
Proof.
  intros [_ Ha] [_ Hb] [_ Hc].
  assert (G : forall l, Forall plain l -> Forall (fun ch => Ascii.eqb ch ";" = false) l).
  { intros l Hl. eapply Forall_impl; [exact Hl|]. by intros ch [_ ?]. }
  constructor; [done|]. apply Forall_app; split; [by apply G|].
  constructor; [done|]. apply Forall_app; split; [by apply G|].
  constructor; [done|]. by apply G.
Qed.

Lemma write_node_shape (n : node F) (rest : list ascii) :
  write_node n ++ rest
  = "n"%char
    :: (" "%char :: print_unsigned (elem_id n)
        ++ " "%char :: print_float (c_x (pos n))
        ++ " "%char :: print_float (c_y (pos n)))
    ++ ";"%char :: rest.
Proof.
  unfold write_node. cbn [text String.list_ascii_of_string app].
  repeat (first [rewrite <- app_assoc | rewrite <- app_comm_cons | progress cbn [app]]).
  done.
Qed.

Lemma write_edge_shape (e : edge F) (rest : list ascii) :
  write_edge e ++ rest
  = "e"%char
    :: (" "%char :: print_unsigned (elem_id e)
        ++ " "%char :: print_unsigned (one_id e)
        ++ " "%char :: print_unsigned (two_id e))
    ++ ";"%char :: rest.
Proof.
  unfold write_edge. cbn [text String.list_ascii_of_string app].
  repeat (first [rewrite <- app_assoc | rewrite <- app_comm_cons | progress cbn [app]]).
  done.
Qed.

Lemma read_node_written (n n0 : node F) (rest : list ascii) :
  (elem_id n < 2 ^ 31)%N ->
  exact_text (c_x (pos n)) -> exact_text (c_y (pos n)) ->
  read_node (istream_of (write_node n ++ rest)) n0 = Ok (istream_of rest, as_read_node n).
Proof.
  intros Hid [Hwx Hx] [Hwy Hy]. unfold read_node.
  rewrite write_node_shape, skip_until_found. cbn [negb].
  rewrite read_until_found
    by (apply written_statement; [apply print_unsigned_word|done..]).
  rewrite parameters_written by (done || apply print_unsigned_word).
  rewrite stoi_print_unsigned, Hx, Hy by done.
  rewrite id_of_int_of_N by lia. unfold as_read_node. by destruct (pos n).
Qed.

Lemma read_edge_written (e e0 : edge F) (rest : list ascii) :
  (elem_id e < 2 ^ 31)%N -> (one_id e < 2 ^ 31)%N -> (two_id e < 2 ^ 31)%N ->
  read_edge (istream_of (write_edge e ++ rest)) e0 = Ok (istream_of rest, as_read_edge e).
Proof.
  intros Hid Hone Htwo. unfold read_edge.
  rewrite write_edge_shape, skip_until_found. cbn [negb].
  rewrite read_until_found by (apply written_statement; apply print_unsigned_word).
  rewrite parameters_written by apply print_unsigned_word.
  rewrite !stoi_print_unsigned by done.
  by rewrite !id_of_int_of_N by lia.
Qed.

(** One turn of the loop of a state, by the character ahead. *)
Lemma read_graph_loop_node turns (l : list ascii) (g : graph_state F) :
  read_graph_loop (S turns) (istream_of ("n"%char :: l)) g
  = match read_node (istream_of ("n"%char :: l)) (new_node 1337) with
    | Raise ex => Some (Raise ex)
    | Ok (s, n) => read_graph_loop turns s (push_node n g)
    end.
Proof. reflexivity. Qed.

Lemma read_graph_loop_edge turns (l : list ascii) (g : graph_state F) :
  read_graph_loop (S turns) (istream_of ("e"%char :: l)) g
  = match read_edge (istream_of ("e"%char :: l)) (new_edge 1337 666 420) with
    | Raise ex => Some (Raise ex)
    | Ok (s, e) =>
        match push_edge e g with
        | Normal g => read_graph_loop turns s g
        | Throws ex _ => Some (Raise ex)
        end
    end.
Proof. reflexivity. Qed.

Lemma read_graph_loop_newline turns (l : list ascii) (g : graph_state F) :
  read_graph_loop (S turns) (istream_of (newline ++ l)) g
  = read_graph_loop turns (istream_of l) g.
Proof. reflexivity. Qed.

Lemma read_graph_loop_close turns (l : list ascii) (g : graph_state F) :
  read_graph_loop (S turns) (istream_of ("]"%char :: l)) g = Some (Ok (istream_of l, g)).
Proof. reflexivity. Qed.

Lemma read_graph_loop_nodes (ns : list (node F)) turns (tail : list ascii)
    (g : graph_state F) :
  Forall node_in_text ns ->
  length (node_lines ns ++ tail) < turns ->
  read_graph_loop turns (istream_of (node_lines ns ++ tail)) g
  = read_graph_loop (turns - 2 * length ns) (istream_of tail)
      (push_nodes (as_read_node <$> ns) g).
Proof.
  revert turns g. induction ns as [|n ns IH]; intros turns g Hns Hlen.
  - cbn. by rewrite Nat.sub_0_r.
  - apply Forall_cons in Hns as [(Hid & Hx & Hy) Hns].
    unfold node_lines in *. rewrite fmap_cons, concat_cons in *.
    rewrite <- !app_assoc in *.
    pose proof (write_node_shape n (newline ++ concat ((fun n => write_node n ++ newline) <$> ns) ++ tail)) as Hshape.
    rewrite !length_app in Hlen.
    assert (1 <= length (write_node n)).
    { pose proof (f_equal length (write_node_shape n [])) as Hl.
      rewrite app_nil_r in Hl. rewrite Hl. cbn. lia. }
    destruct turns as [|[|turns]]; [change (length newline) with 1 in Hlen; lia..|].
    rewrite Hshape at 1. rewrite read_graph_loop_node. rewrite <- Hshape.
    rewrite read_node_written by done.
    rewrite read_graph_loop_newline. rewrite IH.
    + cbn [length fmap list_fmap push_nodes foldl]. f_equal. lia.
    + done.
    + rewrite length_app. change (length newline) with 1 in Hlen. lia.
Qed.

Lemma read_graph_loop_edges (es : list (edge F)) turns (tail : list ascii)
    (g g' : graph_state F) :
  Forall edge_in_text es ->
  push_edges (as_read_edge <$> es) g = Normal g' ->
  length (edge_lines es ++ tail) < turns ->
  read_graph_loop turns (istream_of (edge_lines es ++ tail)) g
  = read_graph_loop (turns - 2 * length es) (istream_of tail) g'.
Proof.
  revert turns g. induction es as [|e es IH]; intros turns g Hes Hpush Hlen.
  - cbn in Hpush. injection Hpush as <-. cbn. by rewrite Nat.sub_0_r.
  - apply Forall_cons in Hes as [(Hid & Hone & Htwo) Hes].
    unfold edge_lines in *. rewrite fmap_cons, concat_cons in *.
    rewrite <- !app_assoc in *.
    pose proof (write_edge_shape e (newline ++ concat ((fun e => write_edge e ++ newline) <$> es) ++ tail)) as Hshape.
    rewrite !length_app in Hlen.
    assert (1 <= length (write_edge e)).
    { pose proof (f_equal length (write_edge_shape e [])) as Hl.
      rewrite app_nil_r in Hl. rewrite Hl. cbn. lia. }
    destruct turns as [|[|turns]]; [change (length newline) with 1 in Hlen; lia..|].
    rewrite Hshape at 1. rewrite read_graph_loop_edge. rewrite <- Hshape.
    rewrite read_edge_written by done.
    rewrite fmap_cons in Hpush. cbn [push_edges] in Hpush.
    destruct (push_edge (as_read_edge e) g) as [g1|] eqn:E; [|done].
    rewrite read_graph_loop_newline. rewrite (IH _ g1); [|done..|].
    + cbn [length]. f_equal. lia.
    + rewrite length_app. change (length newline) with 1 in Hlen. lia.
Qed.

Lemma write_node_length (n : node F) : 1 <= length (write_node n).
Proof.
  pose proof (f_equal length (write_node_shape n [])) as Hl.
  rewrite app_nil_r in Hl. rewrite Hl. cbn [length]. lia.
Qed.

Lemma write_edge_length (e : edge F) : 1 <= length (write_edge e).
Proof.
  pose proof (f_equal length (write_edge_shape e [])) as Hl.
  rewrite app_nil_r in Hl. rewrite Hl. cbn [length]. lia.
Qed.

Lemma node_lines_length (ns : list (node F)) : 2 * length ns <= length (node_lines ns).
Proof.
  induction ns as [|n ns IH]; [done|]. unfold node_lines in *.
  rewrite fmap_cons, concat_cons, !length_app. change (length newline) with 1.
  pose proof (write_node_length n). cbn [length]. lia.
Qed.

Lemma edge_lines_length (es : list (edge F)) : 2 * length es <= length (edge_lines es).
Proof.
  induction es as [|e es IH]; [done|]. unfold edge_lines in *.
  rewrite fmap_cons, concat_cons, !length_app. change (length newline) with 1.
  pose proof (write_edge_length e). cbn [length]. lia.
Qed.

Lemma write_graph_shape (g : graph_state F) (rest : list ascii) :
  write_graph g ++ rest
  = "["%char :: newline ++ node_lines (nodes g) ++ edge_lines (edges g)
    ++ "]"%char :: newline ++ rest.
Proof.
  unfold write_graph, node_lines, edge_lines. cbn [text String.list_ascii_of_string].
  repeat (first [rewrite <- app_assoc | rewrite <- app_comm_cons | progress cbn [app]]).
  done.
Qed.

Lemma read_graph_written (g g' : graph_state F) (rest : list ascii) :
  state_in_text g -> as_read_state g = Normal g' ->
  read_graph (istream_of (write_graph g ++ rest)) empty_graph
  = Some (Ok (istream_of (newline ++ rest), g')).
Proof.
  intros [Hns Hes] Hread. unfold read_graph.
  rewrite write_graph_shape, skip_until_found. cbn [negb].
  unfold turns_for. cbn [in_buf istream_of].
  set (tail := "]"%char :: newline ++ rest).
  pose proof (node_lines_length (nodes g)). pose proof (edge_lines_length (edges g)).
  rewrite length_app. change (length newline) with 1. cbn [Nat.add].
  rewrite read_graph_loop_newline.
  rewrite read_graph_loop_nodes by (done || lia).
  rewrite (read_graph_loop_edges _ _ _ _ g') by (done || rewrite !length_app in *; lia).
  rewrite !length_app. subst tail. cbn [length].
  match goal with |- read_graph_loop ?t _ _ = _ =>
    replace t with (S (t - 1)) by lia end.
  apply read_graph_loop_close.
Qed.

(** One turn of the loop of the states, by the character ahead. *)
Lemma read_states_loop_state turns (l : list ascii) (sts : list (graph_state F))
    (dgraph : dynamic_graph F) :
  read_states_loop (S turns) (istream_of ("["%char :: l)) sts dgraph
  = match read_graph (istream_of ("["%char :: l)) empty_graph with
    | None => None
    | Some (Raise ex) => Some (Raise ex)
    | Some (Ok (s, state)) => read_states_loop turns s (sts ++ [state]) dgraph
    end.
Proof. reflexivity. Qed.

Lemma read_states_loop_newline turns (l : list ascii) (sts : list (graph_state F))
    (dgraph : dynamic_graph F) :
  read_states_loop (S turns) (istream_of (newline ++ l)) sts dgraph
  = read_states_loop turns (istream_of l) sts dgraph.
Proof. reflexivity. Qed.

Lemma read_states_loop_close turns (l : list ascii) (sts : list (graph_state F))
    (dgraph : dynamic_graph F) :
  read_states_loop (S turns) (istream_of ("}"%char :: l)) sts dgraph
  = Some (Ok (istream_of l, build_from sts dgraph)).
Proof. reflexivity. Qed.

Lemma write_graph_length (g : graph_state F) : 2 <= length (write_graph g).
Proof.
  pose proof (f_equal length (write_graph_shape g [])) as Hl.
  rewrite app_nil_r in Hl. rewrite Hl. cbn [length]. rewrite length_app.
  change (length newline) with 1. lia.
Qed.

Lemma read_states_loop_states (gs parsed : list (graph_state F)) turns
    (tail : list ascii) (sts : list (graph_state F)) (dgraph : dynamic_graph F) :
  Forall2 (fun g g' => state_in_text g /\ as_read_state g = Normal g') gs parsed ->
  length (concat (write_graph <$> gs) ++ tail) < turns ->
  read_states_loop turns (istream_of (concat (write_graph <$> gs) ++ tail)) sts dgraph
  = read_states_loop (turns - 2 * length gs) (istream_of tail) (sts ++ parsed) dgraph.
Proof.
  intros Hgs. revert turns sts.
  induction Hgs as [|g g' gs parsed [Hg Hg'] Hgs IH]; intros turns sts Hlen.
  - cbn. by rewrite Nat.sub_0_r, app_nil_r.
  - rewrite fmap_cons, concat_cons in *. rewrite <- !app_assoc in *.
    pose proof (write_graph_length g). rewrite !length_app in Hlen.
    destruct turns as [|[|turns]]; [lia..|].
    pose proof (write_graph_shape g (concat (write_graph <$> gs) ++ tail)) as Hshape.
    rewrite Hshape at 1. rewrite read_states_loop_state. rewrite <- Hshape.
    rewrite (read_graph_written g g') by done.
    rewrite read_states_loop_newline. rewrite IH by (rewrite length_app; lia).
    cbn [length]. rewrite <- app_assoc. cbn [app]. f_equal. lia.
Qed.

Lemma write_dynamic_graph_shape (dgraph : dynamic_graph F) (rest : list ascii) :
  write_dynamic_graph dgraph ++ rest
  = "{"%char :: newline ++ concat (write_graph <$> states dgraph)
    ++ "}"%char :: newline ++ rest.
Proof.
  unfold write_dynamic_graph. cbn [text String.list_ascii_of_string].
  repeat (first [rewrite <- app_assoc | rewrite <- app_comm_cons | progress cbn [app]]).
  done.
Qed.

(** The reader on the text of a dynamic graph: the states are read one by
    one, and [build] is called with them. *)
Lemma read_dynamic_graph_written (dgraph target : dynamic_graph F)
    (parsed : list (graph_state F)) (rest : list ascii) :
  Forall2 (fun g g' => state_in_text g /\ as_read_state g = Normal g')
    (states dgraph) parsed ->
  read_dynamic_graph (istream_of (write_dynamic_graph dgraph ++ rest)) target
  = Some (Ok (istream_of (newline ++ rest), build_from parsed target)).
Proof.
  intros Hst. unfold read_dynamic_graph.
  rewrite write_dynamic_graph_shape, skip_until_found. cbn [negb].
  unfold turns_for. cbn [in_buf istream_of].
  rewrite length_app. change (length newline) with 1. cbn [Nat.add].
  rewrite read_states_loop_newline.
  rewrite (read_states_loop_states _ parsed) by (done || lia).
  rewrite !length_app. cbn [length app].
  assert (2 * length (states dgraph) <= length (concat (write_graph <$> states dgraph))).
  { clear. induction (states dgraph) as [|g gs IH]; [done|].
    rewrite fmap_cons, concat_cons, length_app. pose proof (write_graph_length g).
    cbn [length]. lia. }
  match goal with |- read_states_loop ?t _ _ _ = _ =>
    replace t with (S (t - 1)) by lia end.
  apply read_states_loop_close.
Qed.

End StatementFacts.

(** ** Edges between present nodes *)

Section ClosedFacts.
Context {NodeType EdgeType : Type}.
Context `{!Identified NodeType, !Identified EdgeType, !Connecting EdgeType}.

Local Abbreviation graph := (graph NodeType EdgeType).

Lemma closed_empty : closed (empty_graph : graph).
Proof.
  split.
  - intros i [x Hx]. cbn in Hx. by rewrite lookup_empty in Hx.
  - intros e He. by apply elem_of_nil in He.
Qed.

Lemma emplace_is_Some {V} (k : N) (v : V) (m : gmap N V) i :
  is_Some (emplace k v m !! i) <-> i = k \/ is_Some (m !! i).
Proof.
  unfold emplace. destruct (m !! k) as [w|] eqn:E.
  - split; [by right|]. intros [->|H]; [by rewrite E|done].
  - destruct (decide (i = k)) as [->|Hne].
    + rewrite lookup_insert_eq. split; [by left|done].
    + rewrite lookup_insert_ne by done. split; [by right|]. by intros [?|?].
Qed.

Lemma closed_push_node n (g : graph) : closed g -> closed (push_node n g).
Proof.
  intros [Hk He]. unfold push_node, push_node_at.
  destruct (c_map (m_nodes g) !! elem_id n); cbn [fst]; [done|].
  split.
  - intros i Hi. cbn in Hi. unfold nodes. cbn [m_nodes c_vec]. apply has_id_app.
    apply emplace_is_Some in Hi as [->|Hi]; [by right|left; by apply Hk].
  - intros e Hin. destruct (He e Hin) as [H1 H2]. unfold nodes. cbn [m_nodes c_vec].
    split; apply has_id_app; by left.
Qed.

Lemma push_edge_keys e (g g' : graph) i :
  push_edge e g = Normal g' -> is_Some (m_index g' !! i) <-> is_Some (m_index g !! i).
Proof.
  unfold push_edge, push_edge_at.
  destruct (c_map (m_edges g) !! elem_id e); cbn [fst]; [by intros [= <-]|].
  destruct (m_index g !! one_id e) as [adj1|] eqn:E1; cbn [fst]; [|done].
  destruct (_ !! two_id e) as [adj2|] eqn:E2; cbn [fst]; [|done].
  intros [= <-]. cbn [m_index].
  assert (Hone : forall (v : gmap N N) (m : gmap N (gmap N N)) k,
            is_Some (m !! k) -> is_Some (<[k := v]> m !! i) <-> is_Some (m !! i)).
  { intros v m k Hk. destruct (decide (i = k)) as [->|Hne].
    - by rewrite lookup_insert_eq.
    - by rewrite lookup_insert_ne. }
  rewrite Hone by (by rewrite E2). apply Hone. by rewrite E1.
Qed.

Lemma push_edge_fresh e (g : graph) :
  c_map (m_edges g) !! elem_id e = None ->
  is_Some (m_index g !! one_id e) -> is_Some (m_index g !! two_id e) ->
  exists g1, push_edge e g = Normal g1 /\ edges g1 = edges g ++ [e].
Proof.
  intros Hfresh [adj1 H1] H2. unfold push_edge, push_edge_at. rewrite Hfresh, H1.
  cbn zeta.
  destruct (<[one_id e := emplace (two_id e) (elem_id e) adj1]> (m_index g) !! two_id e)
    as [adj2|] eqn:E2.
  - cbn. eauto.
  - exfalso. destruct (decide (two_id e = one_id e)) as [Heq|Hne].
    + rewrite Heq, lookup_insert_eq in E2. done.
    + rewrite lookup_insert_ne in E2 by done. rewrite E2 in H2. by destruct H2.
Qed.

Lemma closed_push_edge e (g g' : graph) :
  closed g -> push_edge e g = Normal g' -> closed g'.
Proof.
  intros [Hk He] H. pose proof (push_edge_keys e g g') as Hkeys.
  pose proof (push_edge_nodes e g g' H) as Hn.
  revert H Hkeys. unfold push_edge, push_edge_at.
  destruct (c_map (m_edges g) !! elem_id e); cbn [fst].
  { intros [= <-] _. by split. }
  destruct (m_index g !! one_id e) as [adj1|] eqn:E1; cbn [fst]; [|done].
  destruct (_ !! two_id e) as [adj2|] eqn:E2; cbn [fst]; [|done].
  intros Heq Hkeys. specialize (fun i => Hkeys i Heq). injection Heq as <-.
  split.
  - intros i Hi. apply Hkeys in Hi. by apply Hk.
  - intros f Hf. unfold edges in Hf. cbn in Hf. unfold nodes. cbn.
    apply elem_of_app in Hf as [Hf|Hf%list_elem_of_singleton]; [by apply He|].
    subst f. split; apply Hk.
    + by rewrite E1.
    + destruct (decide (two_id e = one_id e)) as [Heq|Hne].
      * rewrite Heq. by rewrite E1.
      * rewrite lookup_insert_ne in E2 by done. by rewrite E2.
Qed.

Lemma sweep_edges_keys f (l : list EdgeType) (idx : gmap N (gmap N N)) i :
  is_Some (snd (sweep_edges f l idx) !! i) <-> is_Some (idx !! i).
Proof.
  revert idx. induction l as [|e l IH]; intros idx; [done|]. cbn.
  destruct (f e).
  - rewrite IH. unfold erase_ends. rewrite lookup_fmap. by rewrite fmap_is_Some.
  - specialize (IH idx). by destruct (sweep_edges f l idx).
Qed.

Lemma remove_edges_if_keys f (g : graph) i :
  is_Some (m_index (remove_edges_if f g) !! i) <-> is_Some (m_index g !! i).
Proof.
  unfold remove_edges_if. pose proof (sweep_edges_keys f (edges g) (m_index g) i) as H.
  by destruct (sweep_edges f (edges g) (m_index g)).
Qed.

Lemma remove_edges_if_kept f (g : graph) e :
  e ∈ edges (remove_edges_if f g) <-> e ∈ edges g /\ f e = false.
Proof.
  unfold edges at 1. rewrite remove_edges_if_edges. cbn.
  rewrite !list_elem_of_In, filter_In, negb_true_iff. done.
Qed.

Lemma closed_remove_edges_if f (g : graph) : closed g -> closed (remove_edges_if f g).
Proof.
  intros [Hk He]. split.
  - intros i Hi%remove_edges_if_keys. unfold nodes. rewrite remove_edges_if_nodes.
    by apply Hk.
  - intros e [Hin _]%remove_edges_if_kept. unfold nodes. rewrite remove_edges_if_nodes.
    by apply He.
Qed.

Lemma sweep_nodes_removed f (l : list NodeType) (g : graph) :
  (forall e, e ∈ edges (snd (sweep_nodes f l g)) ->
     e ∈ edges g /\ forall n, n ∈ l -> f n = true -> touches (elem_id n) e = false)
  /\ (forall i, is_Some (m_index (snd (sweep_nodes f l g)) !! i) ->
     is_Some (m_index g !! i) /\ forall n, n ∈ l -> f n = true -> elem_id n <> i).
Proof.
  revert g. induction l as [|n l IH]; intros g.
  - cbn. split; intros x Hx; (split; [done|]); intros n Hn; by apply elem_of_nil in Hn.
  - cbn. destruct (f n) eqn:Ef.
    + set (g1 := remove_edges_if (touches (elem_id n)) g).
      set (g2 := mk_graph (m_nodes g1) (m_edges g1) (delete (elem_id n) (m_index g1))).
      destruct (IH g2) as [A B]. split.
      * intros e He. destruct (A e He) as [He2 Hl].
        change (edges g2) with (edges g1) in He2.
        apply remove_edges_if_kept in He2 as [He2 Ht]. split; [done|].
        intros m Hm Hf. apply elem_of_cons in Hm as [->|Hm]; [done|by apply Hl].
      * intros i Hi. destruct (B i Hi) as [Hi2 Hl]. cbn [g2 m_index] in Hi2.
        destruct (decide (elem_id n = i)) as [<-|Hne].
        { rewrite lookup_delete_eq in Hi2. by destruct Hi2. }
        rewrite lookup_delete_ne in Hi2 by done.
        apply remove_edges_if_keys in Hi2. split; [done|].
        intros m Hm Hf. apply elem_of_cons in Hm as [->|Hm]; [done|by apply Hl].
    + destruct (IH g) as [A B]. destruct (sweep_nodes f l g) as [kept g']. cbn in *.
      split.
      * intros e He. destruct (A e He) as [He2 Hl]. split; [done|].
        intros m Hm Hf. apply elem_of_cons in Hm as [->|Hm]; [congruence|by apply Hl].
      * intros i Hi. destruct (B i Hi) as [Hi2 Hl]. split; [done|].
        intros m Hm Hf. apply elem_of_cons in Hm as [->|Hm]; [congruence|by apply Hl].
Qed.

Lemma closed_remove_nodes_if f (g : graph) :
  wf_graph g -> closed g -> closed (remove_nodes_if f g).
Proof.
  intros Hg [Hk He].
  destruct (sweep_nodes_spec f (nodes g) g Hg) as (Hkept & _ & _).
  destruct (sweep_nodes_removed f (nodes g) g) as [A B].
  unfold remove_nodes_if. destruct (sweep_nodes f (nodes g) g) as [kept g']. cbn in *.
  subst kept.
  assert (Hkeep : forall i, has_id (nodes g) i ->
            (forall n, n ∈ nodes g -> f n = true -> elem_id n <> i) ->
            has_id (List.filter (fun n => negb (f n)) (nodes g)) i).
  { intros i (n & Hn & Hi) Hrem. exists n. split; [|done].
    apply list_elem_of_In, filter_In. split; [by apply list_elem_of_In|].
    destruct (f n) eqn:Ef; [|done]. by destruct (Hrem n Hn Ef). }
  split.
  - intros i Hi. cbn in Hi. destruct (B i Hi) as [Hi2 Hrem].
    unfold nodes. cbn. apply Hkeep; [by apply Hk|done].
  - intros e Hin. unfold edges in Hin. cbn in Hin. destruct (A e Hin) as [Hin2 Hrem].
    destruct (He e Hin2) as [H1 H2]. unfold nodes. cbn.
    split; (apply Hkeep; [done|]); intros n Hn Hf Heq; specialize (Hrem n Hn Hf);
      unfold touches in Hrem; apply orb_false_iff in Hrem as [R1 R2];
      apply bool_decide_eq_false in R1; apply bool_decide_eq_false in R2; congruence.
Qed.

End ClosedFacts.

(** ** What the reader builds *)

Section RebuildFacts.
Context {F : Type} `{!Scalar F, !Textual F}.

Lemma closed_apply_operation op (g g' : graph_state F) :
  wf_graph g -> closed g -> apply_operation op g = Normal g' -> closed g'.
Proof.
  intros Hwf Hg. destruct op as [i|i one two|i|i]; cbn [apply_operation].
  - intros [= <-]. by apply closed_push_node.
  - by apply closed_push_edge.
  - unfold remove_node. destruct (node_exists g i); [|done]. intros [= <-].
    by apply closed_remove_nodes_if.
  - unfold remove_edge. destruct (edge_exists g i); [|done]. intros [= <-].
    by apply closed_remove_edges_if.
Qed.

Lemma closed_apply_operations ops (g g' : graph_state F) :
  wf_graph g -> closed g -> apply_operations ops g = Normal g' -> closed g'.
Proof.
  revert g. induction ops as [|op ops IH]; intros g Hwf Hg; cbn.
  - by intros [= <-].
  - destruct (apply_operation op g) as [g1|] eqn:E; [|done].
    apply IH; [by eapply wf_apply_operation|by eapply closed_apply_operation].
Qed.

Lemma closed_apply_steps mods (acc sts : list (graph_state F)) :
  Forall wf_graph acc -> Forall closed acc ->
  apply_steps mods acc = Normal sts -> Forall closed sts.
Proof.
  revert acc. induction mods as [|m mods IH]; intros acc Hwf Hacc; cbn.
  - by intros [= <-].
  - destruct (apply_operations m _) as [s|] eqn:E; [|done].
    assert (Hlast : wf_graph (match last acc with Some s0 => s0 | None => empty_graph end)
                    /\ closed (match last acc with Some s0 => s0 | None => empty_graph end)).
    { destruct (last acc) as [s0|] eqn:L; [|split; [apply wf_empty_graph|apply closed_empty]].
      apply last_Some in L as [l' ->].
      apply Forall_app in Hwf as [_ H1]. apply Forall_app in Hacc as [_ H2].
      split; [by inversion H1|by inversion H2]. }
    destruct Hlast as [Hw Hc].
    apply IH; (apply Forall_app; split; [done|]); apply Forall_singleton.
    + by eapply wf_apply_operations.
    + by eapply closed_apply_operations.
Qed.

(** Two id maps that agree with sequences of the same ids are one map. *)
Lemma map_agrees_ext {T1 T2} `{!Identified T1, !Identified T2}
    (c1 : container T1) (c2 : container T2) :
  map_agrees c1 -> map_agrees c2 ->
  elem_id <$> c_vec c1 = elem_id <$> c_vec c2 ->
  c_map c1 = c_map c2.
Proof.
  intros H1 H2 Heq. apply map_eq. intros i. apply option_eq. intros k.
  rewrite (H1 i k), (H2 i k).
  assert (G : forall {T} `{!Identified T} (l : list T),
            (exists x, l !! k = Some x /\ elem_id x = i) <-> (elem_id <$> l) !! k = Some i).
  { intros T ? l. rewrite list_lookup_fmap. destruct (l !! k) as [x|]; cbn.
    - split; [by intros (y & [= <-] & <-)|]. intros [= <-]. eauto.
    - split; [by intros (y & ? & _)|done]. }
  by rewrite !G, Heq.
Qed.

(** Pushing nodes of distinct ids into the empty graph. *)
Lemma push_nodes_fresh (ns : list (node F)) (g : graph_state F) :
  wf_graph g -> NoDup (elem_id <$> (nodes g ++ ns)) ->
  (forall n, n ∈ nodes g -> is_Some (m_index g !! elem_id n)) ->
  nodes (push_nodes ns g) = nodes g ++ ns
  /\ m_edges (push_nodes ns g) = m_edges g
  /\ wf_graph (push_nodes ns g)
  /\ (forall n, n ∈ nodes g ++ ns -> is_Some (m_index (push_nodes ns g) !! elem_id n)).
Proof.
  revert g. induction ns as [|n ns IH]; intros g Hwf Hnd Hk.
  - cbn. rewrite app_nil_r. done.
  - cbn [push_nodes foldl]. fold (push_nodes ns (push_node n g)).
    assert (Hfresh : c_map (m_nodes g) !! elem_id n = None).
    { apply eq_None_not_Some. intros (x & Hx & Hi)%(map_agrees_exists _ _ (proj1 Hwf)).
      rewrite fmap_app, fmap_cons in Hnd. apply NoDup_app in Hnd as (_ & Hd & _).
      apply (Hd (elem_id n)).
      - apply list_elem_of_fmap. exists x. by split.
      - by left. }
    assert (Hnodes : nodes (push_node n g) = nodes g ++ [n]).
    { unfold push_node, push_node_at. by rewrite Hfresh. }
    assert (Hedges : m_edges (push_node n g) = m_edges g).
    { unfold push_node, push_node_at. by rewrite Hfresh. }
    assert (Hkeys : forall m, m ∈ nodes g ++ [n] ->
              is_Some (m_index (push_node n g) !! elem_id m)).
    { intros m Hm. unfold push_node, push_node_at. rewrite Hfresh. cbn.
      apply emplace_is_Some. apply elem_of_app in Hm as [Hm|Hm%list_elem_of_singleton].
      - right. by apply Hk.
      - left. by subst. }
    destruct (IH (push_node n g)) as (A & B & C & D).
    + by apply wf_push_node.
    + rewrite Hnodes, <- app_assoc. done.
    + intros m Hm. apply Hkeys. by rewrite <- Hnodes.
    + rewrite Hnodes, <- app_assoc in A. cbn [app] in A.
      split; [done|]. split; [by rewrite B|]. split; [done|].
      intros m Hm. apply D. by rewrite Hnodes, <- app_assoc.
Qed.

(** Pushing edges of distinct ids between present nodes. *)
Lemma push_edges_fresh (es : list (edge F)) (g : graph_state F) :
  wf_graph g -> NoDup (elem_id <$> (edges g ++ es)) ->
  (forall e, e ∈ es ->
     is_Some (m_index g !! one_id e) /\ is_Some (m_index g !! two_id e)) ->
  exists g', push_edges es g = Normal g'
    /\ m_nodes g' = m_nodes g /\ edges g' = edges g ++ es /\ wf_graph g'.
Proof.
  revert g. induction es as [|e es IH]; intros g Hwf Hnd Hk.
  - exists g. cbn. by rewrite app_nil_r.
  - cbn [push_edges].
    assert (Hfresh : c_map (m_edges g) !! elem_id e = None).
    { apply eq_None_not_Some. intros (x & Hx & Hi)%(map_agrees_exists _ _ (proj2 Hwf)).
      rewrite fmap_app, fmap_cons in Hnd. apply NoDup_app in Hnd as (_ & Hd & _).
      apply (Hd (elem_id e)).
      - apply list_elem_of_fmap. exists x. by split.
      - by left. }
    destruct (Hk e) as [[adj1 H1] H2]; [by left|].
    destruct (push_edge_fresh e g Hfresh (ex_intro _ adj1 H1) H2) as (g1 & Hg1 & Hedges).
    rewrite Hg1.
    destruct (IH g1) as (g' & A & B & C & D).
    + by eapply wf_push_edge.
    + rewrite Hedges, <- app_assoc. done.
    + intros f Hf. destruct (Hk f) as [K1 K2]; [by right|].
      split; by apply (push_edge_keys e g g1).
    + exists g'. split; [done|]. split; [by rewrite B, (push_edge_nodes e g g1)|].
      split; [|done]. rewrite C, Hedges, <- app_assoc. done.
Qed.

Lemma states_recalculate_ids (d : dynamic_graph F) : states (recalculate_ids d) = states d.
Proof. unfold recalculate_ids. by destruct (foldl _ _ _). Qed.

Lemma states_build_from (sts : list (graph_state F)) (d : dynamic_graph F) :
  states (build_from sts d) = set_bool_values sts.
Proof. unfold build_from. by rewrite states_recalculate_ids. Qed.

(** One state: the reader rebuilds a graph with the same id maps, whose
    elements are those written, flags cleared. *)
Lemma as_read_state_built (sts0 : list (graph_state F)) t place (g0 : graph_state F) :
  wf_graph g0 -> closed g0 ->
  carried (relocate_state place (flag_state sts0 t g0)) ->
  exists G, as_read_state (relocate_state place (flag_state sts0 t g0)) = Normal G
    /\ state_in_text (relocate_state place (flag_state sts0 t g0))
    /\ nodes G = as_read_node <$> nodes (relocate_state place (flag_state sts0 t g0))
    /\ edges G = as_read_edge <$> edges (relocate_state place (flag_state sts0 t g0))
    /\ c_map (m_nodes G) = c_map (m_nodes g0)
    /\ c_map (m_edges G) = c_map (m_edges g0).
Proof.
  intros Hwf [Hkeys Hends] [Hns Hes].
  set (gd := relocate_state place (flag_state sts0 t g0)) in *.
  assert (Hnid : elem_id <$> nodes gd = elem_id <$> nodes g0).
  { unfold gd, relocate_state, with_elements, nodes at 1. cbn [m_nodes c_vec].
    unfold flag_state, nodes at 1. cbn [m_nodes c_vec].
    rewrite <- !list_fmap_compose. by apply list_fmap_ext. }
  assert (Heid : (fun e : edge F => (elem_id e, one_id e, two_id e)) <$> edges gd
               = (fun e : edge F => (elem_id e, one_id e, two_id e)) <$> edges g0).
  { unfold gd, relocate_state, with_elements, edges at 1. cbn [m_edges c_vec].
    unfold flag_state, edges at 1. cbn [m_edges c_vec].
    rewrite <- !list_fmap_compose. by apply list_fmap_ext. }
  assert (Heid1 : elem_id <$> edges gd = elem_id <$> edges g0).
  { apply (f_equal (fmap (fun x : N * N * N => x.1.1))) in Heid.
    by rewrite <- !list_fmap_compose in Heid. }
  assert (Hrn : elem_id <$> (as_read_node <$> nodes gd) = elem_id <$> nodes g0).
  { rewrite <- Hnid, <- list_fmap_compose. by apply list_fmap_ext. }
  assert (Hre : elem_id <$> (as_read_edge <$> edges gd) = elem_id <$> edges g0).
  { rewrite <- Heid1, <- list_fmap_compose. by apply list_fmap_ext. }
  assert (Hends' : forall e, e ∈ edges gd ->
            has_id (nodes gd) (one_id e) /\ has_id (nodes gd) (two_id e)).
  { intros e He.
    assert (Hin : (elem_id e, one_id e, two_id e)
                  ∈ (fun e : edge F => (elem_id e, one_id e, two_id e)) <$> edges g0).
    { rewrite <- Heid. apply list_elem_of_fmap. by exists e. }
    apply list_elem_of_fmap in Hin as (e0 & Heq & He0).
    pose proof (f_equal (fun x : N * N * N => x.1.2) Heq) as H1.
    pose proof (f_equal (fun x : N * N * N => x.2) Heq) as H2.
    cbn [fst snd] in H1, H2.
    destruct (Hends e0 He0) as [A B]. rewrite H1, H2.
    assert (G : forall i, has_id (nodes g0) i -> has_id (nodes gd) i).
    { intros i (n & Hn & Hi).
      assert (Hi' : i ∈ elem_id <$> nodes gd).
      { rewrite Hnid. apply list_elem_of_fmap. by exists n. }
      apply list_elem_of_fmap in Hi' as (m & -> & Hm). by exists m. }
    split; by apply G. }
  destruct (push_nodes_fresh (as_read_node <$> nodes gd) empty_graph) as (A & B & C & D).
  { apply wf_empty_graph. }
  { cbn [nodes empty_graph m_nodes empty_container c_vec app]. rewrite Hrn.
    apply map_agrees_NoDup, Hwf. }
  { intros n Hn. by apply elem_of_nil in Hn. }
  set (G1 := push_nodes (as_read_node <$> nodes gd) empty_graph) in *.
  cbn [nodes empty_graph m_nodes empty_container c_vec app] in A, D.
  fold (nodes G1) in A.
  assert (HG1 : forall i, has_id (nodes gd) i -> is_Some (m_index G1 !! i)).
  { intros i (n & Hn & <-). apply (D (as_read_node n)).
    apply list_elem_of_fmap. by exists n. }
  destruct (push_edges_fresh (as_read_edge <$> edges gd) G1) as (G & P & Q1 & Q2 & Q3).
  { done. }
  { unfold edges at 1. rewrite B. cbn [empty_graph m_edges empty_container c_vec app].
    rewrite Hre. apply map_agrees_NoDup, Hwf. }
  { intros e (e0 & -> & He0)%list_elem_of_fmap. destruct (Hends' e0 He0) as [H1 H2].
    split; by apply HG1. }
  exists G. split; [exact P|].
  assert (HE1 : edges G1 = []) by (unfold edges; by rewrite B).
  rewrite HE1 in Q2. cbn [app] in Q2.
  split; [|split; [|split; [done|split]]].
  - split; [done|]. apply Forall_forall. intros e He.
    rewrite Forall_forall in Hes. rewrite Forall_forall in Hns.
    destruct (Hends' e He) as [(n1 & Hn1 & Hi1) (n2 & Hn2 & Hi2)].
    unfold edge_in_text. rewrite <- Hi1, <- Hi2.
    split; [by apply Hes|]. split; [by apply (Hns n1)|by apply (Hns n2)].
  - unfold nodes at 1. by rewrite Q1.
  - rewrite Q1. apply (map_agrees_ext (m_nodes G1) (m_nodes g0)); [apply C|apply Hwf|].
    fold (nodes G1). by rewrite A.
  - apply (map_agrees_ext (m_edges G) (m_edges g0)); [apply Q3|apply Hwf|].
    fold (edges G). by rewrite Q2.
Qed.

Lemma nodes_flag_state (sts : list (graph_state F)) t (g : graph_state F) :
  nodes (flag_state sts t g) = set_flags node_exists sts t <$> nodes g.
Proof. reflexivity. Qed.

Lemma edges_flag_state (sts : list (graph_state F)) t (g : graph_state F) :
  edges (flag_state sts t g) = set_flags edge_exists sts t <$> edges g.
Proof. reflexivity. Qed.

Lemma nodes_relocate_state place (g : graph_state F) :
  nodes (relocate_state place g) = (fun n => set_pos (place (elem_id n)) n) <$> nodes g.
Proof. reflexivity. Qed.

Lemma edges_relocate_state place (g : graph_state F) :
  edges (relocate_state place g) = edges g.
Proof. reflexivity. Qed.

(** Setting the flags again on what was read gives back what was written. *)
Lemma flagged_again (sts0 : list (graph_state F)) t place (g0 G : graph_state F) :
  alpha_default g0 ->
  nodes G = as_read_node <$> nodes (relocate_state place (flag_state sts0 t g0)) ->
  edges G = as_read_edge <$> edges (relocate_state place (flag_state sts0 t g0)) ->
  nodes (flag_state sts0 t G) = nodes (relocate_state place (flag_state sts0 t g0))
  /\ edges (flag_state sts0 t G) = edges (relocate_state place (flag_state sts0 t g0)).
Proof.
  intros [Han Hae] Hn He. split.
  - rewrite nodes_flag_state, Hn, nodes_relocate_state, nodes_flag_state.
    rewrite <- !list_fmap_compose. apply list_fmap_ext. intros k n Hk.
    assert (Ha : alpha n = fone) by (apply Han; by eapply list_elem_of_lookup_2).
    destruct n as [c i a nw od]. cbn in Ha. subst a. reflexivity.
  - rewrite edges_flag_state, He, edges_relocate_state, edges_flag_state.
    rewrite <- !list_fmap_compose. apply list_fmap_ext. intros k e Hk.
    assert (Ha : alpha e = fone) by (apply Hae; by eapply list_elem_of_lookup_2).
    destruct e as [o tw i a nw od]. cbn in Ha. subst a. reflexivity.
Qed.

Lemma relocate_lookup place (d : dynamic_graph F) t :
  states (relocate place d) !! t = relocate_state (place t) <$> states d !! t.
Proof.
  unfold relocate, states at 1. cbn [m_states].
  apply (list_lookup_imap (fun t g => relocate_state (place t) g)).
Qed.

(** C9, amended.  Take the states [build] produces, with the nodes placed
    anywhere.  When every id is below 2^31 and every coordinate is written
    as a parameter that [std::stof] reads back as the same number, reading
    the text written for the dynamic graph returns, with the line end after
    the closing brace left in the stream, and the dynamic graph read has the
    nodes and the edges of the one written, state by state: ids, positions,
    alphas and flags. *)
Theorem written_states_read_back
    (d0 d1 target : dynamic_graph F) (place : nat -> N -> coords F) (rest : list ascii) :
  build d0 = Normal d1 ->
  Forall carried (states (relocate place d1)) ->
  exists d',
    read_dynamic_graph (istream_of (write_dynamic_graph (relocate place d1) ++ rest)) target
      = Some (Ok (istream_of (newline ++ rest), d'))
    /\ nodes <$> states d' = nodes <$> states (relocate place d1)
    /\ edges <$> states d' = edges <$> states (relocate place d1).
Proof.
  intros Hbuild Hcar. unfold build in Hbuild.
  destruct (apply_steps (m_modifications d0) []) as [sts0|] eqn:E; [|done].
  injection Hbuild as <-.
  assert (Hwf : Forall wf_graph sts0) by (eapply wf_apply_steps; [|exact E]; constructor).
  assert (Hcl : Forall closed sts0)
    by (eapply closed_apply_steps; [| |exact E]; constructor).
  assert (Hal : Forall alpha_default sts0)
    by (eapply alpha_default_apply_steps; [|exact E]; constructor).
  set (d1 := mk_dynamic_graph _ _ (set_bool_values sts0) []) in *.
  set (sd := states (relocate place d1)) in *.
  assert (Hsd : forall t, sd !! t
                = (fun g0 => relocate_state (place t) (flag_state sts0 t g0)) <$> sts0 !! t).
  { intros t. unfold sd. rewrite relocate_lookup. unfold d1, states. cbn [m_states].
    rewrite set_bool_values_lookup. by destruct (sts0 !! t). }
  assert (Hlen : length sd = length sts0).
  { unfold sd, relocate, states. cbn [m_states]. rewrite length_imap.
    unfold d1. cbn [m_states]. apply set_bool_values_length. }
  set (parsed := (fun g => left_state (as_read_state g)) <$> sd).
  assert (Hone : forall t g0, sts0 !! t = Some g0 ->
            exists G, parsed !! t = Some G
              /\ state_in_text (relocate_state (place t) (flag_state sts0 t g0))
              /\ as_read_state (relocate_state (place t) (flag_state sts0 t g0)) = Normal G
              /\ nodes G
                 = as_read_node <$> nodes (relocate_state (place t) (flag_state sts0 t g0))
              /\ edges G
                 = as_read_edge <$> edges (relocate_state (place t) (flag_state sts0 t g0))
              /\ c_map (m_nodes G) = c_map (m_nodes g0)
              /\ c_map (m_edges G) = c_map (m_edges g0)).
  { intros t g0 Hg0.
    assert (Hg : sd !! t = Some (relocate_state (place t) (flag_state sts0 t g0)))
      by (by rewrite Hsd, Hg0).
    destruct (as_read_state_built sts0 t (place t) g0) as (G & A & B & C & D & M1 & M2).
    - by eapply Forall_lookup_1.
    - by eapply Forall_lookup_1.
    - by eapply Forall_lookup_1.
    - exists G. split; [|done]. unfold parsed. rewrite list_lookup_fmap, Hg.
      cbn [fmap option_fmap option_map]. by rewrite A. }
  exists (build_from parsed target). split.
  { apply read_dynamic_graph_written. fold sd. unfold parsed.
    apply Forall2_fmap_r, Forall_Forall2_diag, Forall_lookup. intros t g Hg.
    rewrite Hsd in Hg. destruct (sts0 !! t) as [g0|] eqn:Eg0; [|done].
    cbn in Hg. injection Hg as <-.
    destruct (Hone t g0 Eg0) as (G & _ & A & B & _). split; [done|]. by rewrite B. }
  rewrite states_build_from.
  assert (Hsame : same_maps parsed sts0).
  { split; [unfold parsed; by rewrite length_fmap|].
    intros j x y Hx Hy. destruct (Hone j y Hy) as (G & HG & _ & _ & _ & _ & M1 & M2).
    rewrite HG in Hx. injection Hx as <-. done. }
  assert (Hboth : forall t,
            nodes <$> set_bool_values parsed !! t = nodes <$> sd !! t
            /\ edges <$> set_bool_values parsed !! t = edges <$> sd !! t).
  { intros t. rewrite set_bool_values_lookup, Hsd.
    destruct (sts0 !! t) as [g0|] eqn:Eg0.
    - destruct (Hone t g0 Eg0) as (G & HG & _ & _ & Hn & He & _).
      rewrite HG. cbn [fmap option_fmap option_map].
      rewrite (flag_state_ext parsed sts0) by done.
      destruct (flagged_again sts0 t (place t) g0 G) as [A B];
        [by eapply Forall_lookup_1|done..|].
      by rewrite A, B.
    - assert (parsed !! t = None) as ->; [|done].
      apply lookup_ge_None. unfold parsed. rewrite length_fmap, Hlen.
      by apply lookup_ge_None. }
  split; apply list_eq; intros t; rewrite !list_lookup_fmap; apply Hboth.
Qed.

End RebuildFacts.

Lemma written_states_read_back_witness :
  build fading_log = Normal (built fading_log)
  /\ Forall carried (states (relocate quarters (built fading_log)))
  /\ exists d',
       read_dynamic_graph
         (istream_of (write_dynamic_graph (relocate quarters (built fading_log)) ++ []))
         empty_dynamic_graph
       = Some (Ok (istream_of (newline ++ []), d'))
       /\ nodes <$> states d' = nodes <$> states (relocate quarters (built fading_log))
       /\ edges <$> states d' = edges <$> states (relocate quarters (built fading_log)).
Proof.
  assert (Hb : build fading_log = Normal (built fading_log)) by (vm_compute; reflexivity).
  assert (Hc : Forall carried (states (relocate quarters (built fading_log)))).
  { let l := eval vm_compute in (states (relocate quarters (built fading_log))) in
    change (Forall carried l).
    repeat first
      [ apply Forall_nil_2
      | apply Forall_cons_2
      | match goal with |- _ /\ _ => split end
      | match goal with |- (_ < _)%N => reflexivity end
      | match goal with |- _ <> [] => discriminate end
      | match goal with |- _ = false => vm_compute; reflexivity end
      | match goal with |- stof _ = Ok _ => vm_compute; reflexivity end
      | progress unfold carried, node_in_text, exact_text, word, plain ]. }
  split; [exact Hb|]. split; [exact Hc|].
  exact (written_states_read_back fading_log (built fading_log) empty_dynamic_graph
           quarters [] Hb Hc).
Defined.

(** C9 as stated fails on positions: a coordinate of seven significant
    digits is written with six, and read back as another number.  The two
    states of [relay_log], their node placed at (1234567, 0), are written
    with the coordinate [1.23457e+06] and read back with the node at
    (1234570, 0). *)
Lemma written_position_not_read_back :
  build relay_log = Normal (built relay_log)
  /\ fmap pos <$> (nodes <$> states (relocate far (built relay_log)))
     = [[mk_coords 1234567%Q 0%Q]; [mk_coords 1234567%Q 0%Q]]
  /\ write_node (set_pos (mk_coords 1234567%Q 0%Q) (new_node 0)) = text "n 0 1.23457e+06 0;"
  /\ match
       read_dynamic_graph
         (istream_of (write_dynamic_graph (relocate far (built relay_log))))
         empty_dynamic_graph
     with
     | Some (Ok (_, d')) =>
         fmap pos <$> (nodes <$> states d')
         = [[mk_coords 1234570%Q 0%Q]; [mk_coords 1234570%Q 0%Q]]
     | _ => False
     end
  /\ ~ (1234570 == 1234567)%Q.
Proof.
  split; [vm_compute; reflexivity|]. split; [vm_compute; reflexivity|].
  split; [vm_compute; reflexivity|]. split; [vm_compute; reflexivity|].
  intros H. vm_compute in H. discriminate.
Qed.

(** An id from 2^31 on is written in full, and [std::stoi] refuses it. *)
Lemma large_id_not_read_back :
  write_node (new_node (F := Q) 2147483648) = text "n 2147483648 0 0;"
  /\ read_node (istream_of (write_node (new_node (F := Q) 2147483648))) (new_node 1337)
     = Raise (runtime_error "invalid node parameters").
Proof. split; vm_compute; reflexivity. Qed.

(** ** The reader returns *)

Section ReaderTotal.
Context {F : Type} `{!Scalar F, !Textual F}.












End ReaderTotal.

(** * Further properties of the code *)

(** ** graph.h: pushing and looking up *)

Section GraphPushes.
Context {NodeType EdgeType : Type}.
Context `{!Identified NodeType, !Identified EdgeType, !Connecting EdgeType}.

Local Abbreviation graph := (graph NodeType EdgeType).

Lemma container_at_push {T} `{!Identified T} (c : container T) (x : T) i :
  map_agrees c -> c_map c !! elem_id x = None -> i <> elem_id x ->
  container_at (mk_container (c_vec c ++ [x])
                  (emplace (elem_id x) (length (c_vec c)) (c_map c))) i
  = container_at c i.
Proof.
  intros Hc Hx Hi. unfold container_at, emplace. cbn. rewrite Hx.
  rewrite lookup_insert_ne by done.
  destruct (c_map c !! i) as [k|] eqn:E; [|done].
  apply Hc in E as (y & Hy & _). rewrite lookup_app_l; [done|]. by eapply lookup_lt_Some.
Qed.

Lemma container_at_pushed {T} `{!Identified T} (c : container T) (x : T) :
  c_map c !! elem_id x = None ->
  container_at (mk_container (c_vec c ++ [x])
                  (emplace (elem_id x) (length (c_vec c)) (c_map c))) (elem_id x)
  = Some x.
Proof.
  intros Hx. unfold container_at, emplace. cbn. rewrite Hx, lookup_insert_eq.
  by rewrite lookup_app_r, Nat.sub_diag.
Qed.

(** [push_node] on a graph whose id maps agree with its sequences: a node
    whose id is present changes nothing; a node of a new id is appended and
    is found under its id at the last position; its adjacency entry is the
    one the index already held under that id, if any, and a new empty one
    otherwise; the other nodes and the edges are found as before. *)
Theorem push_node_then_lookup (n : NodeType) (g : graph) :
  wf_graph g ->
  wf_graph (push_node n g)
  /\ node_exists (push_node n g) (elem_id n) = true
  /\ (node_exists g (elem_id n) = true -> push_node n g = g)
  /\ (node_exists g (elem_id n) = false ->
      nodes (push_node n g) = nodes g ++ [n]
      /\ node_at (push_node n g) (elem_id n) = Some n
      /\ node_index (push_node n g) (elem_id n) = Some (length (nodes g))
      /\ edges_at_node (push_node n g) (elem_id n)
         = Some (default ∅ (m_index g !! elem_id n)))
  /\ (forall i, i <> elem_id n -> node_at (push_node n g) i = node_at g i)
  /\ edges (push_node n g) = edges g.
Proof.
  intros Hwf. split; [by apply wf_push_node|].
  unfold node_exists, push_node, push_node_at.
  destruct (c_map (m_nodes g) !! elem_id n) as [k|] eqn:E; cbn [fst].
  - rewrite E. split; [by apply bool_decide_eq_true_2|]. split; [done|].
    split; [|done]. intros H. apply bool_decide_eq_false in H. by destruct H.
  - split.
    { apply bool_decide_eq_true_2. cbn. unfold emplace. rewrite E.
      by rewrite lookup_insert_eq. }
    split. { intros H. apply bool_decide_eq_true in H. by destruct H. }
    split.
    { intros _. split; [done|]. unfold node_at, node_index, edges_at_node, node_at, nodes.
      cbn [m_nodes m_index]. rewrite container_at_pushed by done.
      split; [done|]. split.
      - cbn. unfold emplace. rewrite E. by rewrite lookup_insert_eq.
      - unfold emplace. destruct (m_index g !! elem_id n) eqn:Ei; [by rewrite Ei|].
        by rewrite lookup_insert_eq. }
    split; [|done]. intros i Hi. unfold node_at, nodes. cbn [m_nodes].
    apply container_at_push; [apply Hwf|done..].
Qed.

(** [push_edge] of an edge with a new id, on a graph whose id maps agree:
    it returns exactly when both ends have an adjacency entry, and then the
    edge is appended, found under its id, and each end lists the other as a
    neighbour; otherwise it throws "node not available".  An edge whose id
    is present changes nothing. *)
Theorem push_edge_outcome (e : EdgeType) (g : graph) :
  wf_graph g ->
  (edge_exists g (elem_id e) = true -> push_edge e g = Normal g)
  /\ (edge_exists g (elem_id e) = false ->
      (is_Some (m_index g !! one_id e) /\ is_Some (m_index g !! two_id e) ->
       exists g', push_edge e g = Normal g'
         /\ wf_graph g'
         /\ nodes g' = nodes g
         /\ edges g' = edges g ++ [e]
         /\ edge_at g' (elem_id e) = Some e
         /\ (forall i, i <> elem_id e -> edge_at g' i = edge_at g i)
         /\ is_Some ((m_index g' !! one_id e) ≫= (fun adj => adj !! two_id e))
         /\ is_Some ((m_index g' !! two_id e) ≫= (fun adj => adj !! one_id e)))
      /\ (~ (is_Some (m_index g !! one_id e) /\ is_Some (m_index g !! two_id e)) ->
          exists g', push_edge e g = Throws (invalid_graph "node not available") g'
            /\ nodes g' = nodes g /\ edges g' = edges g)).
Proof.
  intros Hwf. unfold edge_exists. split.
  - intros H. apply bool_decide_eq_true in H as [k Hk].
    unfold push_edge, push_edge_at. by rewrite Hk.
  - intros H. apply bool_decide_eq_false in H.
    assert (E : c_map (m_edges g) !! elem_id e = None) by (by apply eq_None_not_Some).
    split.
    + intros [[adj1 H1] H2].
      assert (H2' : is_Some (<[one_id e := emplace (two_id e) (elem_id e) adj1]> (m_index g)
                               !! two_id e)).
      { destruct (decide (two_id e = one_id e)) as [Heq|Hne].
        - by rewrite Heq, lookup_insert_eq.
        - by rewrite lookup_insert_ne. }
      destruct H2' as [adj2 H2'].
      assert (Hp : push_edge e g
                = Normal (mk_graph (m_nodes g)
                    (mk_container (edges g ++ [e])
                       (emplace (elem_id e) (length (edges g)) (c_map (m_edges g))))
                    (<[two_id e := emplace (one_id e) (elem_id e) adj2]>
                       (<[one_id e := emplace (two_id e) (elem_id e) adj1]> (m_index g))))).
      { unfold push_edge, push_edge_at. rewrite E, H1. cbn zeta. by rewrite H2'. }
      eexists. split; [exact Hp|].
      split; [by eapply wf_push_edge|]. split; [done|]. split; [done|].
      split; [unfold edge_at, edges; cbn [m_edges]; by apply container_at_pushed|].
      split.
      { intros i Hi. unfold edge_at, edges. cbn [m_edges].
        apply (container_at_push (m_edges g)); [apply Hwf|done..]. }
      cbn [m_index].
      assert (Hem : forall (a b : N) (adj : gmap N N), is_Some (emplace a b adj !! a)).
      { intros a b adj. unfold emplace. destruct (adj !! a) eqn:Ea; [by rewrite Ea|].
        by rewrite lookup_insert_eq. }
      split.
      * destruct (decide (two_id e = one_id e)) as [Heq|Hne].
        -- rewrite <- Heq. rewrite lookup_insert_eq. cbn.
           unfold emplace at 1. rewrite Heq in H2'. rewrite lookup_insert_eq in H2'.
           injection H2' as <-. rewrite Heq.
           destruct (emplace (one_id e) (elem_id e) adj1 !! one_id e) eqn:Ee.
           ++ by rewrite Ee.
           ++ by rewrite lookup_insert_eq.
        -- rewrite lookup_insert_ne by done. rewrite lookup_insert_eq. cbn. apply Hem.
      * rewrite lookup_insert_eq. cbn. apply Hem.
    + intros Hno. unfold push_edge, push_edge_at. rewrite E.
      destruct (m_index g !! one_id e) as [adj1|] eqn:H1; cbn zeta.
      * destruct (<[one_id e := emplace (two_id e) (elem_id e) adj1]> (m_index g)
                    !! two_id e) as [adj2|] eqn:H2'; cbn [fst].
        -- exfalso. apply Hno. split; [done|].
           destruct (decide (two_id e = one_id e)) as [Heq|Hne].
           ++ by rewrite Heq, H1.
           ++ rewrite lookup_insert_ne in H2' by done. by rewrite H2'.
        -- eexists. by split.
      * cbn [fst]. eexists. by split.
Qed.

(** A throwing [push_edge] is not without effect: when the first end is
    present and the second is not, the first end has been given the second
    as a neighbour before the lookup of the second throws. *)
Theorem push_edge_throw_leaves_entry (e : EdgeType) (g : graph) (adj : gmap N N) :
  edge_exists g (elem_id e) = false ->
  m_index g !! one_id e = Some adj ->
  adj !! two_id e = None ->
  m_index g !! two_id e = None ->
  exists g', push_edge e g = Throws (invalid_graph "node not available") g'
    /\ m_nodes g' = m_nodes g /\ m_edges g' = m_edges g
    /\ (m_index g' !! one_id e) ≫= (fun adj => adj !! two_id e) = Some (elem_id e)
    /\ (m_index g !! one_id e) ≫= (fun adj => adj !! two_id e) = None.
Proof.
  intros He H1 Ha H2. unfold edge_exists in He. apply bool_decide_eq_false in He.
  assert (E : c_map (m_edges g) !! elem_id e = None) by (by apply eq_None_not_Some).
  assert (Hne : two_id e <> one_id e) by (intros Heq; rewrite Heq in H2; congruence).
  unfold push_edge, push_edge_at. rewrite E, H1. cbn zeta.
  rewrite lookup_insert_ne by done. rewrite H2. cbn [fst].
  eexists. split; [done|]. split; [done|]. split; [done|]. cbn [m_index].
  rewrite lookup_insert_eq. cbn. split; [|done]. unfold emplace. rewrite Ha.
  by rewrite lookup_insert_eq.
Qed.

End GraphPushes.

(** ** graph.h: removing *)

Section GraphRemovals.
Context {NodeType EdgeType : Type}.
Context `{!Identified NodeType, !Identified EdgeType, !Connecting EdgeType}.

Local Abbreviation graph := (graph NodeType EdgeType).

Lemma filter_twice {A} (P : A -> bool) (l : list A) :
  List.filter P (List.filter P l) = List.filter P l.
Proof.
  induction l as [|x l IH]; [done|]. cbn. destruct (P x) eqn:E; [|done].
  cbn. by rewrite E, IH.
Qed.

(* the edges [remove_node] leaves: those of the incident edges once swept *)
Lemma sweep_nodes_edges i (l : list NodeType) (g : graph) :
  edges (snd (sweep_nodes (fun n => bool_decide (elem_id n = i)) l g))
  = if existsb (fun n => bool_decide (elem_id n = i)) l
    then List.filter (fun e => negb (touches i e)) (edges g) else edges g.
Proof.
  revert g. induction l as [|n l IH]; intros g; [done|]. cbn [sweep_nodes existsb].
  destruct (bool_decide (elem_id n = i)) eqn:E.
  - apply bool_decide_eq_true in E. cbn [orb]. rewrite IH. rewrite E.
    change (edges (mk_graph ?a ?b ?c)) with (c_vec b).
    rewrite remove_edges_if_edges. cbn [rebuilt c_vec].
    destruct (existsb _ l); [apply filter_twice|done].
  - cbn [orb]. specialize (IH g).
    by destruct (sweep_nodes (fun n => bool_decide (elem_id n = i)) l g).
Qed.

Lemma rebuilt_at_filter {T} `{!Identified T} (P : T -> bool) (c : container T) j :
  map_agrees c ->
  (forall x, x ∈ c_vec c -> elem_id x = j -> P x = true) ->
  container_at (rebuilt (List.filter P (c_vec c))) j = container_at c j.
Proof.
  intros Hc HP.
  assert (Hr : map_agrees (rebuilt (List.filter P (c_vec c)))).
  { apply rebuilt_agrees, NoDup_fmap_filter. by apply map_agrees_NoDup. }
  destruct (container_at c j) as [x|] eqn:E.
  - apply map_agrees_at in E as [Hx Hj]; [|done]. rewrite <- Hj.
    apply map_agrees_at_Some; [done|]. cbn. apply list_elem_of_In, filter_In.
    split; [by apply list_elem_of_In|by apply HP].
  - destruct (container_at (rebuilt _) j) as [y|] eqn:E2; [|done].
    apply map_agrees_at in E2 as [Hy Hj]; [|done]. cbn in Hy.
    apply elem_of_filter_list in Hy. rewrite <- Hj in E.
    by rewrite map_agrees_at_Some in E.
Qed.

(** [remove_node] on a graph whose id maps agree with its sequences: an
    absent id throws, with the message of [remove_edge], and leaves the
    graph as it was; a present id removes the node together with every edge
    that has it as an end and with its adjacency entry, keeps the order of
    what remains, and the other nodes are found under their ids as before. *)
Theorem remove_node_cascade (i : N) (g : graph) :
  wf_graph g ->
  (node_exists g i = false ->
   remove_node i g = Throws (invalid_graph "edge not available") g)
  /\ (node_exists g i = true ->
      exists g', remove_node i g = Normal g'
        /\ wf_graph g'
        /\ nodes g' = List.filter (fun n => negb (bool_decide (elem_id n = i))) (nodes g)
        /\ edges g' = List.filter (fun e => negb (touches i e)) (edges g)
        /\ node_exists g' i = false
        /\ m_index g' !! i = None
        /\ (forall j, j <> i -> node_at g' j = node_at g j)
        /\ (forall e, e ∈ edges g' -> edge_at g' (elem_id e) = Some e)).
Proof.
  intros Hwf. unfold remove_node. split; intros Hex; rewrite Hex; [done|].
  eexists. split; [done|].
  assert (Hwf' : wf_graph (remove_nodes_if (fun n => bool_decide (elem_id n = i)) g))
    by by apply wf_remove_nodes_if.
  split; [done|].
  apply node_exists_has_id in Hex as Hid; [|done]. destruct Hid as (n0 & Hn0 & Hi0).
  destruct (sweep_nodes_spec (fun n => bool_decide (elem_id n = i)) (nodes g) g Hwf)
    as (Hkept & _ & _).
  pose proof (sweep_nodes_edges i (nodes g) g) as Hedges.
  destruct (sweep_nodes_removed (fun n => bool_decide (elem_id n = i)) (nodes g) g)
    as [_ Hidx].
  assert (Hsome : existsb (fun n => bool_decide (elem_id n = i)) (nodes g) = true).
  { apply existsb_exists. exists n0. split; [by apply list_elem_of_In|].
    by apply bool_decide_eq_true_2. }
  rewrite Hsome in Hedges.
  assert (Hnodes : nodes (remove_nodes_if (fun n => bool_decide (elem_id n = i)) g)
            = List.filter (fun n => negb (bool_decide (elem_id n = i))) (nodes g)).
  { unfold remove_nodes_if.
    destruct (sweep_nodes (fun n => bool_decide (elem_id n = i)) (nodes g) g). cbn in *.
    by subst. }
  split; [done|].
  split.
  { unfold remove_nodes_if.
    destruct (sweep_nodes (fun n => bool_decide (elem_id n = i)) (nodes g) g). done. }
  split.
  { apply not_true_is_false. intros E.
    apply node_exists_has_id in E as (n & Hn & Hi); [|done]. rewrite Hnodes in Hn.
    apply list_elem_of_In, filter_In in Hn as [_ Hn]. apply negb_true_iff in Hn.
    by apply bool_decide_eq_false in Hn. }
  split.
  { apply eq_None_not_Some. intros Hs.
    assert (Hs' : is_Some (m_index
              (snd (sweep_nodes (fun n => bool_decide (elem_id n = i)) (nodes g) g)) !! i)).
    { revert Hs. unfold remove_nodes_if.
      by destruct (sweep_nodes (fun n => bool_decide (elem_id n = i)) (nodes g) g). }
    destruct (Hidx i Hs') as [_ Hno]. apply (Hno n0 Hn0); [|done].
    by apply bool_decide_eq_true_2. }
  split.
  { intros j Hj. unfold node_at.
    replace (m_nodes (remove_nodes_if (fun n => bool_decide (elem_id n = i)) g))
      with (rebuilt (List.filter (fun n => negb (bool_decide (elem_id n = i)))
                       (c_vec (m_nodes g)))).
    - apply rebuilt_at_filter; [apply Hwf|]. intros x _ Hx. apply negb_true_iff.
      apply bool_decide_eq_false. congruence.
    - unfold remove_nodes_if.
      destruct (sweep_nodes (fun n => bool_decide (elem_id n = i)) (nodes g) g). cbn in *.
      by subst. }
  intros e He. unfold edge_at. apply map_agrees_at_Some; [apply Hwf'|done].
Qed.

(** [remove_edge] on a graph whose id maps agree: an absent id throws and
    leaves the graph as it was; a present id removes that edge and nothing
    else from the two sequences, no adjacency entry of a node is dropped,
    and the other edges are found under their ids as before. *)
Theorem remove_edge_outcome (i : N) (g : graph) :
  wf_graph g ->
  (edge_exists g i = false ->
   remove_edge i g = Throws (invalid_graph "edge not available") g)
  /\ (edge_exists g i = true ->
      exists g', remove_edge i g = Normal g'
        /\ wf_graph g'
        /\ m_nodes g' = m_nodes g
        /\ edges g' = List.filter (fun e => negb (bool_decide (elem_id e = i))) (edges g)
        /\ length (edges g') + 1 = length (edges g)
        /\ edge_exists g' i = false
        /\ (forall j, j <> i -> edge_at g' j = edge_at g j)
        /\ (forall a, is_Some (m_index g' !! a) <-> is_Some (m_index g !! a))).
Proof.
  intros Hwf. unfold remove_edge. split; intros Hex; rewrite Hex; [done|].
  eexists. split; [done|].
  assert (Hwf' : wf_graph (remove_edges_if (fun e => bool_decide (elem_id e = i)) g))
    by by apply wf_remove_edges_if.
  split; [done|]. split; [apply remove_edges_if_nodes|].
  assert (Hedges : edges (remove_edges_if (fun e => bool_decide (elem_id e = i)) g)
            = List.filter (fun e => negb (bool_decide (elem_id e = i))) (edges g)).
  { unfold edges at 1. by rewrite remove_edges_if_edges. }
  split; [done|]. split.
  { rewrite Hedges. apply edge_exists_has_id in Hex; [|done].
    destruct Hwf as [_ He]. apply map_agrees_NoDup in He. revert Hex He.
    unfold edges. generalize (c_vec (m_edges g)). clear. intros l.
    induction l as [|x l IH]; intros (e & He & Hi) Hnd.
    - by apply elem_of_nil in He.
    - rewrite fmap_cons in Hnd. apply NoDup_cons in Hnd as [Hx Hnd]. cbn.
      destruct (bool_decide (elem_id x = i)) eqn:E; cbn.
      + apply bool_decide_eq_true in E.
        replace (List.filter _ l) with l; [lia|]. symmetry.
        apply forallb_filter_id. apply forallb_forall. intros y Hy.
        apply negb_true_iff, bool_decide_eq_false. intros Hyi. apply Hx.
        apply list_elem_of_fmap. exists y. split; [congruence|by apply list_elem_of_In].
      + apply bool_decide_eq_false in E. apply elem_of_cons in He as [->|He]; [done|].
        cbn. f_equal. apply IH; [by exists e|done]. }
  split.
  { apply not_true_is_false. intros E.
    apply edge_exists_has_id in E as (e & He & Hi); [|done]. rewrite Hedges in He.
    apply list_elem_of_In, filter_In in He as [_ He]. apply negb_true_iff in He.
    by apply bool_decide_eq_false in He. }
  split; [|intros a; apply remove_edges_if_keys].
  intros j Hj. unfold edge_at. rewrite remove_edges_if_edges.
  apply rebuilt_at_filter; [apply Hwf|]. intros x _ Hx. apply negb_true_iff.
  apply bool_decide_eq_false. congruence.
Qed.

End GraphRemovals.

(** ** graph.h: the adjacency index of a graph that only grows *)

Section GraphGrowth.
Context {NodeType EdgeType : Type}.
Context `{!Identified NodeType, !Identified EdgeType, !Connecting EdgeType}.

Local Abbreviation graph := (graph NodeType EdgeType).

Lemma emplace_lookup {V} (k : N) (v : V) (m : gmap N V) i :
  emplace k v m !! i = if decide (i = k) then Some (default v (m !! k)) else m !! i.
Proof.
  unfold emplace. destruct (m !! k) as [w|] eqn:E; case_decide; subst; cbn.
  - done.
  - done.
  - by rewrite lookup_insert_eq.
  - by rewrite lookup_insert_ne.
Qed.

Lemma indexed_empty : indexed (empty_graph : graph).
Proof. intros n Hn. by apply elem_of_nil in Hn. Qed.

Lemma indexed_push_node n (g : graph) : indexed g -> indexed (push_node n g).
Proof.
  intros Hi. unfold push_node, push_node_at.
  destruct (c_map (m_nodes g) !! elem_id n) eqn:E; cbn [fst]; [done|].
  intros m Hm. cbn [m_index]. apply emplace_is_Some.
  change (m ∈ nodes g ++ [n]) in Hm.
  apply elem_of_app in Hm as [Hm|Hm%list_elem_of_singleton]; [right; by apply Hi|left].
  by subst.
Qed.

Lemma indexed_push_edge e (g g' : graph) :
  indexed g -> push_edge e g = Normal g' -> indexed g'.
Proof.
  intros Hi Hp m Hm. apply (push_edge_keys e g g' _ Hp). apply Hi.
  unfold nodes in *. by rewrite <- (push_edge_nodes e g g' Hp).
Qed.

Lemma adjacent_empty : adjacent (empty_graph : graph).
Proof.
  split.
  - done.
  - intros a b k H. unfold neighbour in H. cbn in H. by rewrite lookup_empty in H.
  - intros e He. by apply elem_of_nil in He.
Qed.

Lemma adjacent_push_node n (g : graph) :
  wf_graph g -> closed g -> adjacent g -> adjacent (push_node n g).
Proof.
  intros Hwf [Hk He] [Hs Hso Hc]. unfold push_node, push_node_at.
  destruct (c_map (m_nodes g) !! elem_id n) eqn:E; cbn [fst]; [done|].
  assert (Hfresh : ~ has_id (nodes g) (elem_id n)).
  { intros H. apply (map_agrees_exists (m_nodes g)) in H; [|apply Hwf].
    rewrite E in H. by destruct H. }
  assert (Hidx : m_index g !! elem_id n = None).
  { apply eq_None_not_Some. intros H. by apply Hfresh, Hk. }
  assert (Hnone : forall a b, a = elem_id n \/ b = elem_id n -> neighbour g a b = None).
  { intros a b Hab. destruct (neighbour g a b) as [k|] eqn:En; [|done]. exfalso.
    destruct (Hso a b k En) as (e & Hin & _ & Hj). destruct (He e Hin) as [H1 H2].
    apply Hfresh. destruct Hj as [[<- <-]|[<- <-]]; destruct Hab as [<-|<-]; done. }
  assert (Hnb : forall a b,
            neighbour (mk_graph
              (mk_container (nodes g ++ [n])
                 (emplace (elem_id n) (length (nodes g)) (c_map (m_nodes g))))
              (m_edges g) (emplace (elem_id n) ∅ (m_index g))) a b = neighbour g a b).
  { intros a b. unfold neighbour. cbn [m_index]. rewrite emplace_lookup.
    case_decide as Ha; [|done]. subst a. rewrite Hidx. cbn. by rewrite lookup_empty. }
  split.
  - intros a b. by rewrite !Hnb.
  - intros a b k. rewrite Hnb. apply Hso.
  - intros e Hin. rewrite Hnb. by apply Hc.
Qed.

(* the adjacency after a returning [push_edge] of a new edge *)
Lemma push_edge_neighbour e (g g' : graph) a b :
  c_map (m_edges g) !! elem_id e = None ->
  push_edge e g = Normal g' ->
  neighbour g' a b
  = if decide ((a = one_id e /\ b = two_id e) \/ (a = two_id e /\ b = one_id e))
    then Some (default (elem_id e) (neighbour g a b))
    else neighbour g a b.
Proof.
  intros E. unfold push_edge, push_edge_at. rewrite E.
  destruct (m_index g !! one_id e) as [adj1|] eqn:H1; cbn zeta; [|done].
  destruct (<[one_id e := emplace (two_id e) (elem_id e) adj1]> (m_index g) !! two_id e)
    as [adj2|] eqn:H2; cbn [fst]; [|done].
  intros [= <-]. unfold neighbour. cbn [m_index].
  destruct (decide (a = two_id e)) as [->|Ha2].
  - rewrite lookup_insert_eq. cbn. rewrite emplace_lookup.
    destruct (decide (two_id e = one_id e)) as [Heq|Hne].
    + rewrite Heq in H2. rewrite lookup_insert_eq in H2. injection H2 as <-.
      rewrite Heq, H1. cbn. rewrite !emplace_lookup.
      destruct (decide (b = one_id e)) as [->|Hb].
      * rewrite decide_True by done. rewrite decide_True by (by left). cbn. done.
      * rewrite decide_False by tauto. done.
    + rewrite lookup_insert_ne in H2 by done. rewrite H2. cbn.
      destruct (decide (b = one_id e)) as [->|Hb].
      * rewrite decide_True by (by right). done.
      * rewrite decide_False by tauto. done.
  - rewrite lookup_insert_ne by done.
    destruct (decide (a = one_id e)) as [->|Ha1].
    + rewrite lookup_insert_eq, H1. cbn. rewrite emplace_lookup.
      destruct (decide (b = two_id e)) as [->|Hb].
      * rewrite decide_True by (by left). done.
      * rewrite decide_False by tauto. done.
    + rewrite lookup_insert_ne by done. rewrite decide_False by tauto. done.
Qed.

Lemma adjacent_push_edge e (g g' : graph) :
  adjacent g -> push_edge e g = Normal g' -> adjacent g'.
Proof.
  intros [Hs Hso Hc] Hp.
  destruct (c_map (m_edges g) !! elem_id e) as [k|] eqn:E.
  { unfold push_edge, push_edge_at in Hp. rewrite E in Hp. injection Hp as <-.
    by split. }
  assert (Hedges : edges g' = edges g ++ [e]).
  { revert Hp. unfold push_edge, push_edge_at. rewrite E.
    destruct (m_index g !! one_id e); cbn zeta; [|done].
    destruct (_ !! two_id e); cbn [fst]; [|done]. by intros [= <-]. }
  split.
  - intros a b. rewrite !(push_edge_neighbour e g g') by done. rewrite (Hs a b).
    destruct (decide ((a = one_id e /\ b = two_id e) \/ (a = two_id e /\ b = one_id e)));
      [rewrite decide_True by tauto|rewrite decide_False by tauto]; done.
  - intros a b k. rewrite (push_edge_neighbour e g g') by done. rewrite Hedges.
    case_decide as Hd.
    + destruct (neighbour g a b) as [k'|] eqn:En; cbn; intros [= <-].
      * destruct (Hso a b k' En) as (e' & Hin & Hid & Hj). exists e'.
        split; [apply elem_of_app; by left|done].
      * exists e. split; [apply elem_of_app; right; by apply list_elem_of_singleton|].
        split; [done|]. unfold joins. destruct Hd as [[-> ->]|[-> ->]]; tauto.
    + intros En. destruct (Hso a b k En) as (e' & Hin & Hid & Hj). exists e'.
      split; [apply elem_of_app; by left|done].
  - intros e'. rewrite Hedges, (push_edge_neighbour e g g') by done.
    intros [Hin|Hin%list_elem_of_singleton]%elem_of_app.
    + case_decide; [done|by apply Hc].
    + subst e'. by rewrite decide_True by (by left).
Qed.

Lemma grown_invariants (g : graph) :
  grown g -> wf_graph g /\ closed g /\ indexed g /\ adjacent g.
Proof.
  induction 1 as [|n g Hg (Hwf & Hcl & Hix & Hadj)|e g g' Hg (Hwf & Hcl & Hix & Hadj) Hp].
  - split; [apply wf_empty_graph|]. split; [apply closed_empty|].
    split; [apply indexed_empty|apply adjacent_empty].
  - split; [by apply wf_push_node|]. split; [by apply closed_push_node|].
    split; [by apply indexed_push_node|by apply adjacent_push_node].
  - split; [by eapply wf_push_edge|]. split; [by eapply closed_push_edge|].
    split; [by eapply indexed_push_edge|by eapply adjacent_push_edge].
Qed.

(* edge_exists(one, two) on a graph with the invariants *)
Lemma edge_exists_between_spec (g : graph) a b :
  wf_graph g -> indexed g ->
  edge_exists_between g a b
  = if node_exists g a && node_exists g b
    then Some (bool_decide (is_Some (neighbour g a b))) else None.
Proof.
  intros Hwf Hix. unfold edge_exists_between, edges_at_node, neighbour.
  destruct (node_exists g a) eqn:Ea.
  - apply node_exists_has_id in Ea as (x & Hx & Hxa); [|done]. subst a.
    unfold node_at. rewrite (map_agrees_at_Some (m_nodes g)) by (done || apply Hwf).
    destruct (Hix x Hx) as [adj Hadj]. rewrite Hadj. cbn.
    destruct (node_exists g b) eqn:Eb.
    + apply node_exists_has_id in Eb as (y & Hy & Hyb); [|done]. subst b.
      by rewrite (map_agrees_at_Some (m_nodes g)) by (done || apply Hwf).
    + destruct (container_at (m_nodes g) b) as [y|] eqn:Ey; [|done].
      apply map_agrees_at in Ey as [Hy Hyb]; [|apply Hwf].
      assert (node_exists g b = true) by (apply node_exists_has_id; [done|by exists y]).
      congruence.
  - cbn. destruct (node_at g a) as [x|] eqn:Ex; [|done].
    apply map_agrees_at in Ex as [Hx Hxa]; [|apply Hwf].
    assert (node_exists g a = true) by (apply node_exists_has_id; [done|by exists x]).
    congruence.
Qed.

(** On a graph built from the empty graph by [push_node] and returning
    calls of [push_edge] alone, [edge_exists(one, two)] is symmetric, it is
    defined exactly when both nodes exist, and it tells whether some edge of
    the graph has the two nodes as its ends. *)
Theorem grown_edge_exists_between (g : graph) (a b : N) :
  grown g ->
  edge_exists_between g a b = edge_exists_between g b a
  /\ (is_Some (edge_exists_between g a b)
      <-> node_exists g a = true /\ node_exists g b = true)
  /\ (edge_exists_between g a b = Some true <-> exists e, e ∈ edges g /\ joins e a b).
Proof.
  intros (Hwf & [Hk He] & Hix & [Hs Hso Hc])%grown_invariants.
  rewrite !edge_exists_between_spec by done. rewrite (Hs b a).
  split; [by rewrite andb_comm|]. split.
  - destruct (node_exists g a), (node_exists g b); cbn; split;
      try (intros [? ?]; done); try (intros [? ?]; congruence); eauto.
  - split.
    + destruct (node_exists g a && node_exists g b); [|done].
      intros [= H]. apply bool_decide_eq_true in H as [k Hk'].
      destruct (Hso a b k Hk') as (e & Hin & _ & Hj). eauto.
    + intros (e & Hin & Hj). destruct (He e Hin) as [H1 H2].
      apply node_exists_has_id in H1; [|done]. apply node_exists_has_id in H2; [|done].
      pose proof (Hc e Hin) as Hn.
      destruct Hj as [[<- <-]|[<- <-]]; rewrite H1, H2; cbn; f_equal;
        apply bool_decide_eq_true_2; [done|by rewrite Hs].
Qed.

End GraphGrowth.

(** ** dynamic_graph.h: what [build] leaves *)

Section BuildStates.
Context {F : Type} `{!Scalar F}.

Local Abbreviation graph_state := (graph_state F).

Lemma indexed_remove_edges_if {NodeType EdgeType : Type}
    `{!Identified NodeType, !Identified EdgeType, !Connecting EdgeType}
    f (g : graph NodeType EdgeType) :
  indexed g -> indexed (remove_edges_if f g).
Proof.
  intros Hi n Hn. apply remove_edges_if_keys. apply Hi.
  unfold nodes in *. by rewrite remove_edges_if_nodes in Hn.
Qed.

Lemma sweep_nodes_keys_kept {NodeType EdgeType : Type}
    `{!Identified NodeType, !Identified EdgeType, !Connecting EdgeType}
    f (l : list NodeType) (g : graph NodeType EdgeType) j :
  is_Some (m_index g !! j) ->
  (forall n, n ∈ l -> f n = true -> elem_id n <> j) ->
  is_Some (m_index (snd (sweep_nodes f l g)) !! j).
Proof.
  revert g. induction l as [|n l IH]; intros g Hj Hl; [done|]. cbn.
  destruct (f n) eqn:Ef.
  - apply IH.
    + cbn [m_index]. rewrite lookup_delete_ne by (apply Hl; [by left|done]).
      by apply remove_edges_if_keys.
    + intros m Hm. apply Hl. by right.
  - assert (H' : is_Some (m_index (snd (sweep_nodes f l g)) !! j)).
    { apply IH; [done|]. intros m Hm. apply Hl. by right. }
    by destruct (sweep_nodes f l g).
Qed.

Lemma indexed_remove_nodes_if {NodeType EdgeType : Type}
    `{!Identified NodeType, !Identified EdgeType, !Connecting EdgeType}
    f (g : graph NodeType EdgeType) :
  wf_graph g -> (forall a b, elem_id a = elem_id b -> f a = f b) ->
  indexed g -> indexed (remove_nodes_if f g).
Proof.
  intros Hwf Hf Hi n Hn.
  destruct (sweep_nodes_spec f (nodes g) g Hwf) as (Hkept & _ & _).
  pose proof (sweep_nodes_keys_kept f (nodes g) g (elem_id n)) as Hk.
  revert Hn. unfold remove_nodes_if.
  destruct (sweep_nodes f (nodes g) g) as [kept g']. cbn in *. subst kept.
  intros Hn. apply list_elem_of_In, filter_In in Hn as [Hn Hfn].
  apply list_elem_of_In in Hn. apply Hk; [by apply Hi|].
  intros m Hm Hfm Heq. apply Hf in Heq. rewrite <- Heq, Hfm in Hfn. done.
Qed.

Lemma indexed_apply_operation op (g g' : graph_state) :
  wf_graph g -> indexed g -> apply_operation op g = Normal g' -> indexed g'.
Proof.
  destruct op; cbn [apply_operation]; intros Hwf Hi H.
  - injection H as <-. by apply indexed_push_node.
  - by eapply indexed_push_edge.
  - unfold remove_node in H. destruct (node_exists g i); [|done]. injection H as <-.
    apply indexed_remove_nodes_if; [done| |done]. intros a b Hab. by rewrite Hab.
  - unfold remove_edge in H. destruct (edge_exists g i); [|done]. injection H as <-.
    by apply indexed_remove_edges_if.
Qed.

Lemma indexed_apply_operations ops (g g' : graph_state) :
  wf_graph g -> indexed g -> apply_operations ops g = Normal g' -> indexed g'.
Proof.
  revert g. induction ops as [|op ops IH]; intros g Hwf Hi; cbn.
  - by intros [= <-].
  - destruct (apply_operation op g) as [g1|] eqn:E; [|done].
    apply IH; [by eapply wf_apply_operation|by eapply indexed_apply_operation].
Qed.

Lemma indexed_apply_steps mods (acc sts : list graph_state) :
  Forall wf_graph acc -> Forall indexed acc ->
  apply_steps mods acc = Normal sts -> Forall indexed sts.
Proof.
  revert acc. induction mods as [|m mods IH]; intros acc Hwf Hacc; cbn.
  - by intros [= <-].
  - destruct (apply_operations m _) as [s|] eqn:E; [|done].
    assert (Hlast : wf_graph (match last acc with Some s0 => s0 | None => empty_graph end)
                    /\ indexed (match last acc with Some s0 => s0 | None => empty_graph end)).
    { destruct (last acc) as [s0|] eqn:El; [|split; [apply wf_empty_graph|apply indexed_empty]].
      apply last_Some in El as [l' ->].
      apply Forall_app in Hwf as [_ Hwf]. apply Forall_app in Hacc as [_ Hacc].
      split; [by eapply Forall_singleton|by eapply Forall_singleton]. }
    destruct Hlast as [Hw Hx].
    apply IH; (apply Forall_app; split; [done|]); apply Forall_singleton.
    + by eapply wf_apply_operations.
    + by eapply indexed_apply_operations.
Qed.

Lemma apply_steps_length mods (acc sts : list graph_state) :
  apply_steps mods acc = Normal sts -> length sts = length acc + length mods.
Proof.
  revert acc. induction mods as [|m mods IH]; intros acc; cbn.
  - intros [= <-]. lia.
  - destruct (apply_operations m _) as [s|] eqn:E; [|done].
    intros H%IH. rewrite length_app in H. cbn in H. lia.
Qed.

Lemma closed_flag_state (sts : list graph_state) i (g : graph_state) :
  closed g -> closed (flag_state sts i g).
Proof.
  intros [Hk He]. split.
  - intros j Hj. destruct (Hk j Hj) as (n & Hn & Hid).
    exists (set_flags node_exists sts i n). split; [|done].
    rewrite nodes_flag_state. apply list_elem_of_fmap. by exists n.
  - intros e. rewrite edges_flag_state. intros (e0 & -> & He0)%list_elem_of_fmap.
    destruct (He e0 He0) as [(n1 & Hn1 & H1) (n2 & Hn2 & H2)].
    split; [exists (set_flags node_exists sts i n1)|exists (set_flags node_exists sts i n2)];
      (split; [rewrite nodes_flag_state; apply list_elem_of_fmap; eauto|done]).
Qed.

Lemma indexed_flag_state (sts : list graph_state) i (g : graph_state) :
  indexed g -> indexed (flag_state sts i g).
Proof.
  intros Hi n. rewrite nodes_flag_state. intros (n0 & -> & Hn0)%list_elem_of_fmap.
  rewrite set_flags_node_id. exact (Hi n0 Hn0).
Qed.

(** The three invariants of the states [build] leaves. *)
Lemma build_invariants (d d' : dynamic_graph F) :
  build d = Normal d' ->
  Forall (fun g => wf_graph g /\ closed g /\ indexed g) (states d').
Proof.
  intros Hb. pose proof (wf_build d d' Hb) as Hwf.
  unfold build in Hb. destruct (apply_steps _ _) as [sts|] eqn:E; [|done].
  injection Hb as <-. cbn [states m_states] in *.
  assert (Hw0 : Forall wf_graph sts) by (eapply wf_apply_steps; [|exact E]; constructor).
  assert (Hc0 : Forall closed sts)
    by (eapply closed_apply_steps; [| |exact E]; constructor).
  assert (Hi0 : Forall indexed sts)
    by (eapply indexed_apply_steps; [| |exact E]; constructor).
  apply Forall_lookup. intros t g Hg. split; [exact (Forall_lookup_1 _ _ _ _ Hwf Hg)|].
  rewrite set_bool_values_lookup in Hg.
  destruct (sts !! t) as [g0|] eqn:Eg; [|done]. cbn in Hg. injection Hg as <-.
  split; [apply closed_flag_state; exact (Forall_lookup_1 _ _ _ _ Hc0 Eg)
         |apply indexed_flag_state; exact (Forall_lookup_1 _ _ _ _ Hi0 Eg)].
Qed.

(** A [build] that returns has emptied the queue, left one state for every
    queued time step and the id counters as they were.  In every state the
    ids of the nodes are distinct and so are those of the edges, every
    element is found under its id, every node has its adjacency entry, and
    both ends of every edge are nodes of that state. *)
Theorem build_states_consistent (d d' : dynamic_graph F) :
  build d = Normal d' ->
  m_modifications d' = []
  /\ length (states d') = length (m_modifications d)
  /\ node_count d' = node_count d /\ edge_count d' = edge_count d
  /\ forall t g, states d' !! t = Some g ->
       NoDup (elem_id <$> nodes g) /\ NoDup (elem_id <$> edges g)
       /\ (forall n, n ∈ nodes g ->
             node_at g (elem_id n) = Some n /\ is_Some (edges_at_node g (elem_id n)))
       /\ (forall e, e ∈ edges g ->
             edge_at g (elem_id e) = Some e
             /\ node_exists g (one_id e) = true /\ node_exists g (two_id e) = true).
Proof.
  intros Hb. pose proof (build_invariants d d' Hb) as Hinv.
  unfold build in Hb. destruct (apply_steps _ _) as [sts|] eqn:E; [|done].
  injection Hb as <-. cbn [states m_states m_modifications] in *.
  split; [done|]. split.
  { rewrite set_bool_values_length. by apply apply_steps_length in E. }
  split; [done|]. split; [done|].
  intros t g Hg. destruct (Forall_lookup_1 _ _ _ _ Hinv Hg) as (Hwf & [_ Hends] & Hix).
  split; [apply (map_agrees_NoDup (m_nodes g)), Hwf|].
  split; [apply (map_agrees_NoDup (m_edges g)), Hwf|]. split.
  - intros n Hn.
    assert (Hat : node_at g (elem_id n) = Some n)
      by (apply (map_agrees_at_Some (m_nodes g)); [apply Hwf|done]).
    split; [done|]. unfold edges_at_node. rewrite Hat. by apply Hix.
  - intros e He. split; [apply (map_agrees_at_Some (m_edges g)); [apply Hwf|done]|].
    destruct (Hends e He) as [H1 H2]. split; by apply node_exists_has_id.
Qed.




End BuildStates.

(** ** dynamic_graph.h: the queue and the id counters *)

Section Queue.
Context {F : Type} `{!Scalar F}.

Local Abbreviation graph_state := (graph_state F).

Lemma add_at_spec t op (mods : list (list modification)) :
  length (add_at t op mods) = Nat.max (length mods) (S t)
  /\ add_at t op mods !! t = Some (default [] (mods !! t) ++ [op])
  /\ forall k, k <> t ->
       add_at t op mods !! k
       = if decide (k < length mods) then mods !! k
         else if decide (k < t) then Some [] else None.
Proof.
  revert mods. induction t as [|t IH]; intros [|m mods]; cbn [add_at length].
  - split; [done|]. split; [done|]. intros [|k] Hk; [done|]. done.
  - split; [lia|]. split; [done|]. intros [|k] Hk; [done|]. cbn.
    destruct (decide (S k < S (length mods))), (decide (k < length mods)); try lia; [done|].
    rewrite decide_False by lia. apply lookup_ge_None. lia.
  - destruct (IH []) as (A & B & C). cbn [length] in *. split; [lia|]. split; [done|].
    intros [|k] Hk; cbn.
    + rewrite decide_False by lia. by rewrite decide_True by lia.
    + rewrite C by lia. rewrite !decide_False by lia.
      destruct (decide (k < t)), (decide (S k < S t)); done || lia.
  - destruct (IH mods) as (A & B & C). split; [lia|]. split; [done|].
    intros [|k] Hk; cbn.
    + by rewrite decide_True by lia.
    + rewrite C by lia.
      destruct (decide (k < length mods)), (decide (S k < S (length mods))); try lia; [done|].
      destruct (decide (k < t)), (decide (S k < S t)); done || lia.
Qed.

(** Queueing an operation at a time [t] below the largest [unsigned]: the
    queue is extended to [t + 1] steps when it is shorter, the new steps in
    between being empty; the operation comes last in step [t]; the other
    steps, the states and the id counters are as before. *)
Theorem add_modification_resizes (t : nat) (op : modification) (d : dynamic_graph F) :
  valid_time t ->
  length (m_modifications (add_modification t op d))
    = Nat.max (length (m_modifications d)) (S t)
  /\ m_modifications (add_modification t op d) !! t
     = Some (default [] (m_modifications d !! t) ++ [op])
  /\ (forall k, k <> t ->
        m_modifications (add_modification t op d) !! k
        = if decide (k < length (m_modifications d)) then m_modifications d !! k
          else if decide (k < t) then Some [] else None)
  /\ states (add_modification t op d) = states d
  /\ node_count (add_modification t op d) = node_count d
  /\ edge_count (add_modification t op d) = edge_count d.
Proof.
  intros _. destruct (add_at_spec t op (m_modifications d)) as (A & B & C).
  by repeat split.
Qed.

Lemma add_at_nil t op : add_at t op [] = replicate t [] ++ [[op]].
Proof. induction t as [|t IH]; [done|]. cbn. by rewrite IH. Qed.

Lemma apply_steps_idle t i (acc : list graph_state) :
  match last acc with Some s => s | None => empty_graph end = empty_graph ->
  apply_steps (replicate t [] ++ [[mod_push_node i]]) acc
  = Normal (acc ++ replicate t empty_graph ++ [push_node (new_node i) empty_graph]).
Proof.
  revert acc. induction t as [|t IH]; intros acc Hl; cbn [replicate app apply_steps].
  - rewrite Hl. done.
  - rewrite Hl. cbn [apply_operations]. rewrite IH by (by rewrite last_snoc).
    by rewrite <- app_assoc.
Qed.

(** [build] consumes the queue, and the states it leaves are not a base for
    the next build: when a node is added at a time [t] below the largest
    [unsigned] to a dynamic graph fresh from a build and [build] is called
    again, the result has [t + 1] states, the first [t] of them empty and
    the last with the new node alone, whatever the first build had left. *)
Theorem build_consumes_queue (d d' : dynamic_graph F) (t : nat) :
  valid_time t ->
  build d = Normal d' ->
  snd (add_node t d') = node_count d
  /\ exists d'',
       build (fst (add_node t d')) = Normal d''
       /\ length (states d'') = S t
       /\ (forall k g, k < t -> states d'' !! k = Some g -> nodes g = [] /\ edges g = [])
       /\ exists g, states d'' !! t = Some g
            /\ elem_id <$> nodes g = [node_count d] /\ edges g = [].
Proof.
  intros _ Hb. unfold build in Hb. destruct (apply_steps _ _) as [sts|] eqn:E; [|done].
  injection Hb as <-. cbn [add_node snd fst m_last_node_id m_modifications].
  split; [done|]. unfold build, add_modification. cbn [m_modifications].
  rewrite add_at_nil, apply_steps_idle by done. cbn [app].
  eexists. split; [done|]. cbn [states m_states].
  set (l := replicate t empty_graph ++ [push_node (new_node (m_last_node_id d)) empty_graph]).
  assert (Hlen : length l = S t).
  { unfold l. rewrite length_app, length_replicate. cbn. lia. }
  split; [by rewrite set_bool_values_length|]. split.
  - intros k g Hk. rewrite set_bool_values_lookup. unfold l at 2.
    rewrite lookup_app_l by (rewrite length_replicate; lia).
    rewrite lookup_replicate_2 by done. cbn. by intros [= <-].
  - rewrite set_bool_values_lookup. unfold l at 2.
    rewrite lookup_app_r by (rewrite length_replicate; lia).
    rewrite length_replicate, Nat.sub_diag. cbn. eexists. split; [done|]. done.
Qed.

Lemma foldl_max_le (l : list N) (a : N) :
  (a <= foldl N.max a l)%N /\ forall x, x ∈ l -> (x <= foldl N.max a l)%N.
Proof.
  revert a. induction l as [|y l IH]; intros a; cbn.
  - split; [lia|]. intros x Hx. by apply elem_of_nil in Hx.
  - destruct (IH (N.max a y)) as [A B]. split; [lia|].
    intros x [->|Hx]%elem_of_cons; [lia|by apply B].
Qed.

Lemma max_id_le {T} `{!Identified T} (l : list T) x :
  x ∈ l -> (elem_id x <= max_id l)%N.
Proof.
  intros Hx. unfold max_id. apply foldl_max_le. apply list_elem_of_fmap. by exists x.
Qed.

Lemma next_id_succ (i : N) : (i < 2 ^ 32 - 1)%N -> next_id i = (i + 1)%N.
Proof.
  intros Hi. unfold next_id, uint_wrap. rewrite Z.mod_small by lia. lia.
Qed.

Lemma max_id_bound {T} `{!Identified T} (l : list T) (b : N) :
  (0 < b)%N -> (forall x, x ∈ l -> (elem_id x < b)%N) -> (max_id l < b)%N.
Proof.
  intros Hb Hl. unfold max_id.
  assert (G : forall (k : list N) a, (a < b)%N -> (forall x, x ∈ k -> (x < b)%N) ->
                (foldl N.max a k < b)%N).
  { intros k. induction k as [|y k IH]; intros a Ha Hk; [done|]. cbn.
    apply IH; [|intros x Hx; apply Hk; by right].
    assert (y < b)%N by (apply Hk; by left). lia. }
  apply G; [done|]. intros x (y & -> & Hy)%list_elem_of_fmap. by apply Hl.
Qed.

(* recalculate_ids on states whose ids are below the largest unsigned value *)
Lemma recalculate_ids_spec (d : dynamic_graph F) :
  (forall g n, g ∈ states d -> n ∈ nodes g -> (elem_id n < 2 ^ 32 - 1)%N) ->
  (forall g e, g ∈ states d -> e ∈ edges g -> (elem_id e < 2 ^ 32 - 1)%N) ->
  states (recalculate_ids d) = states d
  /\ m_modifications (recalculate_ids d) = m_modifications d
  /\ (node_count d <= node_count (recalculate_ids d))%N
  /\ (edge_count d <= edge_count (recalculate_ids d))%N
  /\ (forall g n, g ∈ states d -> n ∈ nodes g ->
        (elem_id n < node_count (recalculate_ids d))%N)
  /\ (forall g e, g ∈ states d -> e ∈ edges g ->
        (elem_id e < edge_count (recalculate_ids d))%N).
Proof.
  unfold recalculate_ids, node_count, edge_count, states.
  generalize (m_last_node_id d) (m_last_edge_id d). generalize (m_states d) as sts.
  match goal with |- context [foldl ?f _ _] => set (step := f) end.
  intros sts. induction sts as [|g sts IH]; intros ln le Hn He.
  - cbn. repeat split; try lia; intros g x Hg; by apply elem_of_nil in Hg.
  - cbn [foldl].
    assert (Hn1 : forall n, n ∈ nodes g -> (elem_id n < 2 ^ 32 - 1)%N)
      by (intros n; apply Hn; by left).
    assert (He1 : forall e, e ∈ edges g -> (elem_id e < 2 ^ 32 - 1)%N)
      by (intros e; apply He; by left).
    assert (Hstep : exists ln1 le1, step (ln, le) g = (ln1, le1)
              /\ (ln <= ln1)%N /\ (le <= le1)%N
              /\ (forall n, n ∈ nodes g -> (elem_id n < ln1)%N)
              /\ (forall e, e ∈ edges g -> (elem_id e < le1)%N)).
    { unfold step. eexists _, _. split; [done|].
      assert (A : forall {T} `{!Identified T} (l : list T) (c : N),
                (forall x, x ∈ l -> (elem_id x < 2 ^ 32 - 1)%N) ->
                (c <= match l with [] => c | _ => N.max c (next_id (max_id l)) end)%N
                /\ forall x, x ∈ l ->
                     (elem_id x < match l with [] => c | _ => N.max c (next_id (max_id l)) end)%N).
      { intros T HT l c Hl. destruct l as [|y l]; [split; [lia|]; intros x Hx;
          by apply elem_of_nil in Hx|].
        rewrite next_id_succ by (apply max_id_bound; [lia|done]).
        split; [lia|]. intros x Hx. apply max_id_le in Hx. lia. }
      destruct (A _ _ (nodes g) ln Hn1) as [A1 A2].
      destruct (A _ _ (edges g) le He1) as [B1 B2]. done. }
    destruct Hstep as (ln1 & le1 & -> & L1 & L2 & L3 & L4).
    specialize (IH ln1 le1).
    destruct IH as (I1 & I2 & I3 & I4 & I5 & I6).
    { intros g' n Hg'. apply Hn. by right. }
    { intros g' e Hg'. apply He. by right. }
    destruct (foldl step (ln1, le1) sts) as [ln2 le2]. cbn in *.
    split; [done|]. split; [done|]. split; [lia|]. split; [lia|]. split.
    + intros g' n [->|Hg']%elem_of_cons Hx; [|by eapply I5].
      specialize (L3 n Hx). lia.
    + intros g' e [->|Hg']%elem_of_cons Hx; [|by eapply I6].
      specialize (L4 e Hx). lia.
Qed.

(** [build(states)] with ids below the largest unsigned value: the queue is
    emptied, the states are the given ones up to the flags, and the id
    counters do not decrease and end above every id of every state, so that
    the ids [add_node] and [add_edge] return next occur in no state. *)
Theorem build_from_fresh_ids (sts : list graph_state) (d : dynamic_graph F) :
  (forall g n, g ∈ sts -> n ∈ nodes g -> (elem_id n < 2 ^ 32 - 1)%N) ->
  (forall g e, g ∈ sts -> e ∈ edges g -> (elem_id e < 2 ^ 32 - 1)%N) ->
  m_modifications (build_from sts d) = []
  /\ (fun g => elem_id <$> nodes g) <$> states (build_from sts d)
     = (fun g => elem_id <$> nodes g) <$> sts
  /\ (fun g => elem_id <$> edges g) <$> states (build_from sts d)
     = (fun g => elem_id <$> edges g) <$> sts
  /\ (node_count d <= node_count (build_from sts d))%N
  /\ (edge_count d <= edge_count (build_from sts d))%N
  /\ (forall g n, g ∈ states (build_from sts d) -> n ∈ nodes g ->
        (elem_id n < snd (add_node 0 (build_from sts d)))%N)
  /\ (forall g e a b, g ∈ states (build_from sts d) -> e ∈ edges g ->
        (elem_id e < snd (add_edge 0 a b (build_from sts d)))%N).
Proof.
  intros Hn He. unfold build_from.
  set (d0 := mk_dynamic_graph (m_last_node_id d) (m_last_edge_id d) (set_bool_values sts) []).
  assert (Hids : forall g', g' ∈ set_bool_values sts ->
            exists g, g ∈ sts /\ elem_id <$> nodes g' = elem_id <$> nodes g
                      /\ elem_id <$> edges g' = elem_id <$> edges g).
  { intros g' (t & Ht)%list_elem_of_lookup. rewrite set_bool_values_lookup in Ht.
    destruct (sts !! t) as [g|] eqn:Eg; [|done]. cbn in Ht. injection Ht as <-.
    exists g. split; [by eapply list_elem_of_lookup_2|].
    rewrite nodes_flag_state, edges_flag_state, <- !list_fmap_compose. done. }
  destruct (recalculate_ids_spec d0) as (A & B & C & D & E1 & E2).
  { intros g' n Hg' Hx. destruct (Hids g' Hg') as (g & Hg & Hi & _).
    assert (Hin : elem_id n ∈ elem_id <$> nodes g)
      by (rewrite <- Hi; apply list_elem_of_fmap; eauto).
    apply list_elem_of_fmap in Hin as (m & -> & Hm). by eapply Hn. }
  { intros g' e Hg' Hx. destruct (Hids g' Hg') as (g & Hg & _ & Hi).
    assert (Hin : elem_id e ∈ elem_id <$> edges g)
      by (rewrite <- Hi; apply list_elem_of_fmap; eauto).
    apply list_elem_of_fmap in Hin as (m & -> & Hm). by eapply He. }
  split; [by rewrite B|]. rewrite A. cbn [states d0 m_states].
  split.
  { apply list_eq. intros t. rewrite !list_lookup_fmap, set_bool_values_lookup.
    destruct (sts !! t) as [g|]; [|done]. cbn [fmap option_fmap option_map].
    by rewrite nodes_flag_state, <- !list_fmap_compose. }
  split.
  { apply list_eq. intros t. rewrite !list_lookup_fmap, set_bool_values_lookup.
    destruct (sts !! t) as [g|]; [|done]. cbn [fmap option_fmap option_map].
    by rewrite edges_flag_state, <- !list_fmap_compose. }
  split; [exact C|]. split; [exact D|]. split.
  - intros g n. apply E1.
  - intros g e a b. apply E2.
Qed.

End Queue.

(** ** live_set.h *)

(** The operations of [live_set] on sets kept in increasing order, as
    [node_live_times] produces them: [intersection] and [setunion] hold the
    common and the joint time steps, the union is again in increasing
    order, adding a later time step keeps the order, and [empty] of the
    intersection tells that the two sets share no time step. *)
Theorem live_set_operations (a b : live_set) :
  StronglySorted le a -> StronglySorted le b ->
  (forall t, t ∈ intersection a b <-> t ∈ a /\ t ∈ b)
  /\ (forall t, t ∈ setunion a b <-> t ∈ a \/ t ∈ b)
  /\ (forall t, t ∈ join b a <-> t ∈ a \/ t ∈ b)
  /\ StronglySorted le (setunion a b)
  /\ (forall t, Forall (fun x => x <= t) a -> StronglySorted le (live_add t a))
  /\ (live_empty (intersection a b) = true <-> forall t, t ∈ a -> t ∉ b).
Proof.
  intros Ha Hb. split.
  { intros t. split; [apply set_intersection_sound|].
    intros [? ?]. by apply set_intersection_complete. }
  split; [intros t; apply set_union_elem|]. split; [intros t; apply set_union_elem|].
  split; [by apply set_union_sorted|]. split; [|by apply intersection_empty_disjoint].
  intros t Ht. unfold live_add. clear Hb. induction a as [|x a IH]; cbn.
  - repeat constructor.
  - apply StronglySorted_inv in Ha as [Ha Hx]. apply Forall_cons in Ht as [Hxt Ht].
    constructor; [by apply IH|]. apply Forall_app. split; [done|]. by constructor.
Qed.

(** ** foresighted_layout.h: live times and the supergraph *)

Section LiveTimes.
Context {F : Type} `{!Scalar F}.

Lemma note_live_foldl t (ids : list N) (m : gmap N live_set) i :
  (forall t', t' ∈ default [] (foldl (note_live t) m ids !! i)
     <-> t' ∈ default [] (m !! i) \/ (t' = t /\ i ∈ ids))
  /\ (is_Some (foldl (note_live t) m ids !! i) <-> is_Some (m !! i) \/ i ∈ ids).
Proof.
  revert m. induction ids as [|j ids IH]; intros m; cbn [foldl].
  - split; [intros t'|]; rewrite elem_of_nil; tauto.
  - destruct (IH (note_live t m j)) as [A B]. unfold note_live in *.
    destruct (decide (j = i)) as [->|Hne].
    + rewrite lookup_insert_eq in A, B. cbn in A. unfold live_add in A. split.
      * intros t'. rewrite A, elem_of_app, list_elem_of_singleton, elem_of_cons. tauto.
      * rewrite B, elem_of_cons. split; [tauto|]. intros _. left. by eexists.
    + rewrite lookup_insert_ne in A, B by done. split.
      * intros t'. rewrite A, elem_of_cons. split; [tauto|].
        intros [?|[? [?|?]]]; try tauto. congruence.
      * rewrite B, elem_of_cons. split; [tauto|]. intros [?|[?|?]]; try tauto. congruence.
Qed.

Lemma live_times_from_spec {T} `{!Identified T} (elems : graph_state F -> list T)
    t0 (sts : list (graph_state F)) (m : gmap N live_set) i :
  (forall t, t ∈ default [] (live_times_from elems t0 sts m !! i)
     <-> t ∈ default [] (m !! i)
         \/ exists k g, sts !! k = Some g /\ t = t0 + k /\ has_id (elems g) i)
  /\ (is_Some (live_times_from elems t0 sts m !! i)
      <-> is_Some (m !! i) \/ exists k g, sts !! k = Some g /\ has_id (elems g) i).
Proof.
  assert (Hid : forall g, i ∈ elem_id <$> elems g <-> has_id (elems g) i).
  { intros g. rewrite list_elem_of_fmap. unfold has_id. split.
    - intros (x & -> & Hx). eauto.
    - intros (x & Hx & <-). eauto. }
  revert t0 m. induction sts as [|g sts IH]; intros t0 m; cbn [live_times_from].
  - split; [intros t|]; (split; [tauto|]); intros [?|(k & g & Hk & _)]; done.
  - destruct (IH (S t0) (foldl (note_live t0) m (elem_id <$> elems g))) as [A B].
    destruct (note_live_foldl t0 (elem_id <$> elems g) m i) as [C D]. split.
    + intros t. rewrite A, C, Hid. split.
      * intros [[?|[-> Hg]]|(k & g' & Hk & -> & Hg)]; [by left| |].
        -- right. exists 0, g. split; [done|]. split; [lia|done].
        -- right. exists (S k), g'. split; [done|]. split; [lia|done].
      * intros [?|(k & g' & Hk & -> & Hg)]; [by left; left|]. destruct k as [|k].
        -- cbn in Hk. injection Hk as <-. left; right. split; [lia|done].
        -- right. exists k, g'. split; [done|]. split; [lia|done].
    + rewrite B, D, Hid. split.
      * intros [[?|Hg]|(k & g' & Hk & Hg)]; [by left| |].
        -- right. by exists 0, g.
        -- right. by exists (S k), g'.
      * intros [?|(k & g' & Hk & Hg)]; [by left; left|]. destruct k as [|k].
        -- cbn in Hk. injection Hk as <-. by left; right.
        -- right. by exists k, g'.
Qed.

Lemma node_live_times_spec (sts : list (graph_state F)) (i : N) (t : nat) :
  t ∈ live_of (node_live_times sts) i
  <-> exists g, sts !! t = Some g /\ has_id (nodes g) i.
Proof.
  unfold node_live_times, live_of.
  destruct (live_times_from_spec nodes 0 sts ∅ i) as [A _].
  rewrite A, lookup_empty. cbn. rewrite elem_of_nil. split.
  - intros [[]|(k & g & Hk & -> & Hg)]. by exists g.
  - intros (g & Hg & Hi). right. by exists t, g.
Qed.

(** The live sets [node_live_times] and [edge_live_times] compute: an id
    has an entry exactly when some state holds an element of that id, and
    its live set, kept in increasing order, holds exactly the time steps of
    the states that do. *)
Theorem live_times_tell_presence (sts : list (graph_state F)) (i : N) :
  (is_Some (node_live_times sts !! i) <-> exists t g, sts !! t = Some g /\ has_id (nodes g) i)
  /\ (forall t, t ∈ live_of (node_live_times sts) i
        <-> exists g, sts !! t = Some g /\ has_id (nodes g) i)
  /\ StronglySorted le (live_of (node_live_times sts) i)
  /\ (is_Some (edge_live_times sts !! i) <-> exists t g, sts !! t = Some g /\ has_id (edges g) i)
  /\ (forall t, t ∈ default [] (edge_live_times sts !! i)
        <-> exists g, sts !! t = Some g /\ has_id (edges g) i)
  /\ StronglySorted le (default [] (edge_live_times sts !! i)).
Proof.
  unfold node_live_times, edge_live_times, live_of.
  destruct (live_times_from_spec nodes 0 sts ∅ i) as [A B].
  destruct (live_times_from_spec edges 0 sts ∅ i) as [C D].
  assert (Hs : forall {T} `{!Identified T} (elems : graph_state F -> list T),
            StronglySorted le (default [] (live_times_from elems 0 sts ∅ !! i))).
  { intros T HT elems. destruct (live_times_from elems 0 sts ∅ !! i) as [l|] eqn:E; cbn.
    - eapply (live_times_from_sorted elems); [|exact E].
      intros j l' H. by rewrite lookup_empty in H.
    - constructor. }
  rewrite lookup_empty in B, D. split; [|split; [|split; [apply Hs|split; [|split; [|apply Hs]]]]].
  - rewrite B. split; [|by right]. intros [[? ?]|?]; done.
  - intros t. rewrite A, lookup_empty. cbn. rewrite elem_of_nil. split.
    + intros [[]|(k & g & Hk & -> & Hg)]. by exists g.
    + intros (g & Hg & Hi). right. by exists t, g.
  - rewrite D. split; [|by right]. intros [[? ?]|?]; done.
  - intros t. rewrite C, lookup_empty. cbn. rewrite elem_of_nil. split.
    + intros [[]|(k & g & Hk & -> & Hg)]. by exists g.
    + intros (g & Hg & Hi). right. by exists t, g.
Qed.

End LiveTimes.

(** ** calculate_gap: the partition nodes *)

Section GapPartitions.
Context {F : Type} `{!Scalar F}.

(** C5.  In the GAP of a keyframe sequence every supergraph node is assigned
    to exactly one partition node, itself or the one it is an alias of.
    The live set of a node, as [node_live_times] computes it, holds
    exactly the keyframes the node is present in, and two distinct
    supergraph nodes assigned to the same partition node have disjoint
    live sets: no keyframe holds both. *)
Theorem gap_partitions_disjoint_live_sets
    (sts : list (graph_state F)) (sg : graph_state F) (gap : mapped_graph F) :
  calculate_supergraph sts = Ok sg ->
  calculate_gap sg (node_live_times sts) (edge_live_times sts) = Ok gap ->
  (forall n, n ∈ nodes sg ->
     exists P, assigned gap (elem_id n) P
               /\ forall Q, assigned gap (elem_id n) Q -> Q = P)
  /\ (forall i t, t ∈ live_of (node_live_times sts) i
         <-> exists g, sts !! t = Some g /\ has_id (nodes g) i)
  /\ (forall n1 n2 P, n1 ∈ nodes sg -> n2 ∈ nodes sg -> elem_id n1 <> elem_id n2 ->
        assigned gap (elem_id n1) P -> assigned gap (elem_id n2) P ->
        disjoint_live (live_of (node_live_times sts) (elem_id n1))
                      (live_of (node_live_times sts) (elem_id n2))
        /\ forall t g, sts !! t = Some g ->
             ~ (has_id (nodes g) (elem_id n1) /\ has_id (nodes g) (elem_id n2))).
Proof.
  intros Hsg Hgap. destruct (gap_assignment_disjoint sts sg gap Hsg Hgap) as [A B].
  split; [exact A|]. split; [intros i t; apply node_live_times_spec|].
  intros n1 n2 P H1 H2 Hne HP1 HP2.
  pose proof (B n1 n2 P H1 H2 Hne HP1 HP2) as Hdis.
  split; [exact Hdis|]. intros t g Hg [Hg1 Hg2].
  apply (Hdis t); apply node_live_times_spec; by exists g.
Qed.

End GapPartitions.

Section Supergraph.
Context {F : Type} `{!Scalar F}.

Lemma push_edge_returns {NodeType EdgeType : Type}
    `{!Identified NodeType, !Identified EdgeType, !Connecting EdgeType}
    (e : EdgeType) (g : graph NodeType EdgeType) :
  is_Some (m_index g !! one_id e) -> is_Some (m_index g !! two_id e) ->
  exists g', push_edge e g = Normal g'
    /\ m_nodes g' = m_nodes g
    /\ edges g' = (if edge_exists g (elem_id e) then edges g else edges g ++ [e]).
Proof.
  intros H1 H2. unfold edge_exists.
  destruct (c_map (m_edges g) !! elem_id e) as [k|] eqn:E.
  - exists g. unfold push_edge, push_edge_at. rewrite E.
    rewrite bool_decide_eq_true_2 by done. done.
  - destruct (push_edge_fresh e g E H1 H2) as (g1 & Hp & He). exists g1.
    split; [done|]. split; [by eapply push_edge_nodes|].
    rewrite bool_decide_eq_false_2; [done|]. by intros [? ?].
Qed.

Lemma has_id_pushed_edge {NodeType EdgeType : Type}
    `{!Identified NodeType, !Identified EdgeType, !Connecting EdgeType}
    (e : EdgeType) (g : graph NodeType EdgeType) j :
  wf_graph g ->
  has_id (if edge_exists g (elem_id e) then edges g else edges g ++ [e]) j
  <-> has_id (edges g) j \/ j = elem_id e.
Proof.
  intros Hwf. destruct (edge_exists g (elem_id e)) eqn:E.
  - apply edge_exists_has_id in E; [|done]. split; [tauto|]. intros [Hj| ->]; done.
  - rewrite has_id_app. split; intros [?|?]; auto.
Qed.

Lemma has_id_push_node {NodeType EdgeType : Type}
    `{!Identified NodeType, !Identified EdgeType, !Connecting EdgeType}
    (n : NodeType) (g : graph NodeType EdgeType) i :
  wf_graph g ->
  has_id (nodes (push_node n g)) i <-> has_id (nodes g) i \/ elem_id n = i.
Proof.
  intros Hwf. unfold push_node, push_node_at.
  destruct (c_map (m_nodes g) !! elem_id n) as [k|] eqn:E; cbn [fst].
  - split; [tauto|]. intros [?|<-]; [done|].
    apply (map_agrees_exists (m_nodes g)); [apply Hwf|by eexists].
  - change (nodes (mk_graph ?a ?b ?c)) with (c_vec a). cbn [c_vec].
    by rewrite has_id_app.
Qed.

(* the first inner loop of calculate_supergraph *)
Lemma supergraph_nodes (ns : list (node F)) (sg : graph_state F) :
  grown sg ->
  (forall n, n ∈ nodes sg -> n = new_node (elem_id n)) ->
  let sg' := foldl (fun acc n => push_node (new_node (elem_id n)) acc) sg ns in
  grown sg'
  /\ (forall i, has_id (nodes sg') i <-> has_id (nodes sg) i \/ has_id ns i)
  /\ edges sg' = edges sg
  /\ (forall n, n ∈ nodes sg' -> n = new_node (elem_id n)).
Proof.
  revert sg. induction ns as [|n ns IH]; intros sg Hg Hfresh; cbn [foldl].
  - split; [done|]. split; [|done]. intros i. split; [tauto|].
    intros [?|(x & Hx & _)]; [done|by apply elem_of_nil in Hx].
  - destruct (IH (push_node (new_node (elem_id n)) sg)) as (A & B & C & D).
    { by constructor. }
    { intros m Hm. apply push_node_elements in Hm as [Hm| ->]; [by apply Hfresh|done]. }
    split; [done|]. split; [|split; [|done]].
    + intros i. rewrite B.
      rewrite (has_id_push_node (new_node (elem_id n)) sg i)
        by (by apply grown_invariants).
      change (elem_id (new_node (elem_id n))) with (elem_id n). split.
      * intros [[?|<-]|(x & Hx & Hi)]; [by left| |].
        -- right. exists n. split; [by left|done].
        -- right. exists x. split; [by right|done].
      * intros [?|(x & [->|Hx]%elem_of_cons & Hi)]; [by left; left|by left; right|].
        right. by exists x.
    + rewrite C. apply push_node_elements.
Qed.

(* the second inner loop of calculate_supergraph *)
Lemma supergraph_edges (es : list (edge F)) (sg : graph_state F) :
  grown sg ->
  (forall e, e ∈ es -> has_id (nodes sg) (one_id e) /\ has_id (nodes sg) (two_id e)) ->
  exists sg', emplace_edges es sg = Ok sg'
    /\ grown sg'
    /\ m_nodes sg' = m_nodes sg
    /\ (forall j, has_id (edges sg') j <-> has_id (edges sg) j \/ has_id es j)
    /\ (forall e', e' ∈ edges sg' ->
          e' ∈ edges sg
          \/ exists e, e ∈ es /\ e' = new_edge (elem_id e) (one_id e) (two_id e)).
Proof.
  revert sg. induction es as [|e es IH]; intros sg Hg Hends; cbn [emplace_edges].
  - exists sg. split; [done|]. split; [done|]. split; [done|]. split; [|by left].
    intros j. split; [tauto|]. intros [?|(x & Hx & _)]; [done|by apply elem_of_nil in Hx].
  - destruct (grown_invariants sg Hg) as (Hwf & _ & Hix & _).
    assert (Hkey : forall i, has_id (nodes sg) i -> is_Some (m_index sg !! i)).
    { intros i (n & Hn & <-). by apply Hix. }
    destruct (Hends e) as [H1 H2]; [by left|].
    destruct (push_edge_returns (new_edge (elem_id e) (one_id e) (two_id e)) sg)
      as (sg1 & Hp & Hn1 & He1); [by apply Hkey|by apply Hkey|].
    rewrite Hp.
    destruct (IH sg1) as (sg' & Hs & A & B & C & D).
    { by econstructor. }
    { intros e' He'. unfold nodes. rewrite Hn1. apply Hends. by right. }
    exists sg'. split; [done|]. split; [done|]. split; [congruence|]. split.
    + intros j. rewrite C, He1.
      rewrite (has_id_pushed_edge (new_edge (elem_id e) (one_id e) (two_id e)) sg j)
        by done.
      change (elem_id (new_edge (elem_id e) (one_id e) (two_id e))) with (elem_id e).
      split.
      * intros [[?| ->]|(x & Hx & Hi)]; [by left| |].
        -- right. exists e. split; [by left|done].
        -- right. exists x. split; [by right|done].
      * intros [?|(x & [->|Hx]%elem_of_cons & Hi)]; [by left; left|by left; right|].
        right. by exists x.
    + intros e' He'. destruct (D e' He') as [Hin|(x & Hx & ->)].
      * rewrite He1 in Hin. destruct (edge_exists sg _); [by left|].
        apply elem_of_app in Hin as [?| ->%list_elem_of_singleton]; [by left|].
        right. exists e. split; [by left|done].
      * right. exists x. split; [by right|done].
Qed.

Lemma supergraph_from_spec (sts : list (graph_state F)) (sg : graph_state F) :
  grown sg ->
  (forall n, n ∈ nodes sg -> n = new_node (elem_id n)) ->
  Forall closed sts ->
  exists sg', supergraph_from sts sg = Ok sg'
    /\ grown sg'
    /\ (forall i, has_id (nodes sg') i
          <-> has_id (nodes sg) i \/ exists g, g ∈ sts /\ has_id (nodes g) i)
    /\ (forall j, has_id (edges sg') j
          <-> has_id (edges sg) j \/ exists g, g ∈ sts /\ has_id (edges g) j)
    /\ (forall n, n ∈ nodes sg' -> n = new_node (elem_id n))
    /\ (forall e', e' ∈ edges sg' ->
          e' ∈ edges sg
          \/ exists g e, g ∈ sts /\ e ∈ edges g
               /\ e' = new_edge (elem_id e) (one_id e) (two_id e)).
Proof.
  revert sg. induction sts as [|g sts IH]; intros sg Hg Hfresh Hcl; cbn [supergraph_from].
  - exists sg. split; [done|]. split; [done|].
    split; [|split; [|split; [done|by left]]]; intros i; (split; [tauto|]);
      intros [?|(x & Hx & _)]; done || by apply elem_of_nil in Hx.
  - apply Forall_cons in Hcl as [[_ Hends] Hcl]. unfold supergraph_add.
    destruct (supergraph_nodes (nodes g) sg Hg Hfresh) as (A1 & A2 & A3 & A4).
    set (sg0 := foldl (fun acc n => push_node (new_node (elem_id n)) acc) sg (nodes g)) in *.
    destruct (supergraph_edges (edges g) sg0 A1) as (sg1 & Hs & B1 & B2 & B3 & B4).
    { intros e He. destruct (Hends e He) as [H1 H2]. split; apply A2; by right. }
    rewrite Hs.
    destruct (IH sg1 B1) as (sg' & Hs' & C1 & C2 & C3 & C4 & C5); [|done|].
    { intros n. unfold nodes. rewrite B2. apply A4. }
    exists sg'. split; [done|]. split; [done|]. split; [|split; [|split; [done|]]].
    + intros i. rewrite C2. unfold nodes at 1. rewrite B2. fold (nodes sg0). rewrite A2.
      split.
      * intros [[?|?]|(g' & Hg' & Hi)]; [by left| |].
        -- right. exists g. split; [by left|done].
        -- right. exists g'. split; [by right|done].
      * intros [?|(g' & [->|Hg']%elem_of_cons & Hi)]; [by left; left|by left; right|].
        right. by exists g'.
    + intros j. rewrite C3, B3, A3. split.
      * intros [[?|?]|(g' & Hg' & Hi)]; [by left| |].
        -- right. exists g. split; [by left|done].
        -- right. exists g'. split; [by right|done].
      * intros [?|(g' & [->|Hg']%elem_of_cons & Hi)]; [by left; left|by left; right|].
        right. by exists g'.
    + intros e' He'. destruct (C5 e' He') as [Hin|(g' & e & Hg' & He & ->)].
      * destruct (B4 e' Hin) as [Hin0|(e & He & ->)].
        -- left. by rewrite <- A3.
        -- right. exists g, e. split; [by left|done].
      * right. exists g', e. split; [by right|done].
Qed.

(** [calculate_supergraph] on states in which both ends of every edge are
    nodes of the state: it returns; a node id, and an edge id, occurs in the
    supergraph exactly when it occurs in some state; the nodes are new
    nodes of their ids and every edge is a new edge with the id and the
    ends of an edge of some state; the graph is built by pushes alone. *)
Theorem supergraph_unites (sts : list (graph_state F)) :
  Forall closed sts ->
  exists sg, calculate_supergraph sts = Ok sg
    /\ grown sg
    /\ (forall i, node_exists sg i = true <-> exists g, g ∈ sts /\ has_id (nodes g) i)
    /\ (forall j, edge_exists sg j = true <-> exists g, g ∈ sts /\ has_id (edges g) j)
    /\ (forall n, n ∈ nodes sg -> n = new_node (elem_id n))
    /\ (forall e', e' ∈ edges sg ->
          exists g e, g ∈ sts /\ e ∈ edges g
            /\ e' = new_edge (elem_id e) (one_id e) (two_id e)).
Proof.
  intros Hcl. unfold calculate_supergraph.
  destruct (supergraph_from_spec sts empty_graph) as (sg & Hs & A & B & C & D & E);
    [constructor|by intros n ?%elem_of_nil|done|].
  exists sg. split; [done|]. split; [done|].
  destruct (grown_invariants sg A) as (Hwf & _).
  split; [|split; [|split; [done|]]].
  - intros i. rewrite node_exists_has_id by done. rewrite B. split; [|by right].
    intros [(x & Hx & _)|?]; [by apply elem_of_nil in Hx|done].
  - intros j. rewrite edge_exists_has_id by done. rewrite C. split; [|by right].
    intros [(x & Hx & _)|?]; [by apply elem_of_nil in Hx|done].
  - intros e' He'. destruct (E e' He') as [Hin|?]; [by apply elem_of_nil in Hin|done].
Qed.

End Supergraph.

(** ** foresighted_layout.h: the GAP is computed without an exception *)

Section GapReturns.
Context {F : Type} `{!Scalar F}.

Lemma alter_is_insert {A} (f : A -> A) k (l : list A) x :
  l !! k = Some x -> alter f k l = <[k := f x]> l.
Proof.
  intros Hk. pose proof (lookup_lt_Some _ _ _ Hk). apply list_eq. intros j.
  rewrite list_lookup_alter. case_decide as Hj.
  - subst j. by rewrite Hk, list_lookup_insert_eq.
  - by rewrite list_lookup_insert_ne.
Qed.

Lemma alter_beyond {A} (f : A -> A) k (l : list A) :
  l !! k = None -> alter f k l = l.
Proof.
  intros Hk. apply list_eq. intros j. rewrite list_lookup_alter.
  case_decide as Hj; [|done]. subst j. by rewrite Hk.
Qed.

Lemma elem_of_alter {A} (f : A -> A) k (l : list A) y :
  y ∈ alter f k l -> y ∈ l \/ exists x, x ∈ l /\ y = f x.
Proof.
  intros [j Hj]%list_elem_of_lookup. rewrite list_lookup_alter in Hj.
  case_decide as Hd.
  - subst j. destruct (l !! k) as [x|] eqn:E; [|done]. injection Hj as <-.
    right. exists x. split; [by eapply list_elem_of_lookup_2|done].
  - left. by eapply list_elem_of_lookup_2.
Qed.

Lemma has_id_alter {T} `{!Identified T} (f : T -> T) k (l : list T) i :
  (forall x, elem_id (f x) = elem_id x) ->
  has_id (alter f k l) i <-> has_id l i.
Proof.
  intros Hf. destruct (l !! k) as [x|] eqn:E.
  - rewrite (alter_is_insert f k l x E). by apply (has_id_insert l k x).
  - by rewrite alter_beyond.
Qed.

Lemma map_agrees_alter {T} `{!Identified T} (f : T -> T) k (c : container T) :
  (forall x, elem_id (f x) = elem_id x) -> map_agrees c ->
  map_agrees (mk_container (alter f k (c_vec c)) (c_map c)).
Proof.
  intros Hf Hc. destruct (c_vec c !! k) as [x|] eqn:E.
  - rewrite (alter_is_insert f k _ x E). by apply (map_agrees_insert c k x).
  - rewrite alter_beyond by done. by destruct c.
Qed.

Lemma indexed_with_nodes (ps : list (node_partition F)) (G : graph_partitioning F) :
  indexed G -> (forall i, has_id ps i -> has_id (nodes G) i) -> indexed (with_nodes ps G).
Proof.
  intros Hi Hps n Hn. destruct (Hps (elem_id n)) as (m & Hm & Hid); [by exists n|].
  cbn. rewrite <- Hid. by apply Hi.
Qed.

Lemma gap_node_returns nodes_live (gap : mapped_graph F) (n : node F) :
  is_Some (nodes_live !! elem_id n) -> indexed (m_graph gap) ->
  exists gap', gap_node nodes_live gap n = Ok gap'
    /\ indexed (m_graph gap') /\ m_edges (m_graph gap') = m_edges (m_graph gap).
Proof.
  intros [l Hl] Hix. unfold gap_node, map_at. rewrite Hl.
  destruct (extend_first l _) as [[ps target]|] eqn:E.
  - eexists. split; [done|]. cbn. split; [|done].
    apply extend_first_Some in E as (k & P & Hk & <- & He & ->).
    apply indexed_with_nodes; [done|]. intros i. by rewrite (has_id_insert _ k P).
  - pose proof (indexed_push_node (new_node_partition (elem_id n)) (m_graph gap) Hix) as Hp.
    unfold push_node in Hp.
    assert (He : m_edges (fst (push_node_at (new_node_partition (elem_id n)) (m_graph gap)))
                 = m_edges (m_graph gap)).
    { unfold push_node_at. by destruct (c_map _ !! _). }
    destruct (push_node_at _ _) as [g k]. cbn [fst] in *. eexists. split; [done|].
    cbn. split; [|done]. apply indexed_with_nodes; [done|].
    intros i. by rewrite has_id_alter.
Qed.

Lemma gap_nodes_returns nodes_live (ns : list (node F)) (gap : mapped_graph F) :
  (forall n, n ∈ ns -> is_Some (nodes_live !! elem_id n)) -> indexed (m_graph gap) ->
  exists gap', gap_nodes nodes_live ns gap = Ok gap'
    /\ indexed (m_graph gap') /\ m_edges (m_graph gap') = m_edges (m_graph gap).
Proof.
  revert gap. induction ns as [|n ns IH]; intros gap Hl Hix; cbn [gap_nodes].
  - by exists gap.
  - destruct (gap_node_returns nodes_live gap n) as (gap1 & -> & Hix1 & He1);
      [apply Hl; by left|done|].
    destruct (IH gap1) as (gap' & Hs & Hix' & He'); [intros m Hm; apply Hl; by right|done|].
    exists gap'. split; [done|]. split; [done|]. congruence.
Qed.

Lemma gap_edge_returns edges_live (gap : mapped_graph F) (e : edge F) :
  sound (m_graph gap) ->
  is_Some (mg_node_at gap (one_id e)) -> is_Some (mg_node_at gap (two_id e)) ->
  is_Some (edges_live !! elem_id e) ->
  exists gap', gap_edge edges_live gap e = Ok gap'
    /\ sound (m_graph gap')
    /\ (forall j, has_id (edges (m_graph gap')) j
          <-> has_id (edges (m_graph gap)) j \/ j = elem_id e).
Proof.
  intros (Hwf & Hix & Hends) [P1 H1] [P2 H2] [l Hl]. unfold gap_edge. rewrite H1, H2.
  assert (Hin : forall i P, mg_node_at gap i = Some P -> P ∈ nodes (m_graph gap)).
  { intros i P. unfold mg_node_at.
    destruct (m_node_map gap !! i); intros H; by apply map_agrees_at in H as [? _];
      [|apply Hwf]. }
  pose proof (Hin _ _ H1) as Hp1. pose proof (Hin _ _ H2) as Hp2.
  set (E := new_edge_partition (elem_id e) (elem_id P1) (elem_id P2)).
  destruct (push_edge_returns E (m_graph gap)) as (g & Hp & Hn & He);
    [by apply Hix|by apply Hix|].
  assert (Hwfg : wf_graph g) by (by eapply wf_push_edge).
  assert (Hixg : indexed g) by (by eapply indexed_push_edge).
  assert (Hendsg : forall e', e' ∈ edges g ->
            has_id (nodes g) (one_id e') /\ has_id (nodes g) (two_id e')).
  { intros e'. rewrite He. unfold nodes. rewrite Hn. fold (nodes (m_graph gap)).
    assert (HE : has_id (nodes (m_graph gap)) (one_id E)
                 /\ has_id (nodes (m_graph gap)) (two_id E)).
    { split; [by exists P1|by exists P2]. }
    destruct (edge_exists (m_graph gap) (elem_id E)); [apply Hends|].
    intros [?| ->%list_elem_of_singleton]%elem_of_app; [by apply Hends|done]. }
  unfold push_edge in Hp. destruct (push_edge_at E (m_graph gap)) as [o k]. cbn [fst] in Hp.
  subst o. unfold map_at. rewrite Hl. eexists. split; [done|]. cbn [m_graph].
  assert (Hid : forall x : edge_partition F, elem_id (edge_add_live_time l x) = elem_id x)
    by done.
  split; [split; [|split]|].
  - split; [apply Hwfg|]. cbn. apply map_agrees_alter; [done|apply Hwfg].
  - exact Hixg.
  - intros e' He'. change (e' ∈ alter (edge_add_live_time l) k (edges g)) in He'.
    change (nodes (with_edges ?a ?b)) with (nodes b).
    apply elem_of_alter in He' as [He'|(x & Hx & ->)]; [by apply Hendsg|].
    exact (Hendsg x Hx).
  - intros j. change (edges (with_edges ?a ?b)) with a.
    rewrite has_id_alter by done. rewrite He.
    by rewrite (has_id_pushed_edge E (m_graph gap) j).
Qed.

Lemma gap_edges_returns edges_live (es : list (edge F)) (gap : mapped_graph F) :
  sound (m_graph gap) ->
  (forall e, e ∈ es ->
     is_Some (mg_node_at gap (one_id e)) /\ is_Some (mg_node_at gap (two_id e))
     /\ is_Some (edges_live !! elem_id e)) ->
  exists gap', gap_edges edges_live es gap = Ok gap'
    /\ sound (m_graph gap')
    /\ (forall j, has_id (edges (m_graph gap')) j
          <-> has_id (edges (m_graph gap)) j \/ has_id es j).
Proof.
  revert gap. induction es as [|e es IH]; intros gap Hs Hes; cbn [gap_edges].
  - exists gap. split; [done|]. split; [done|]. intros j. split; [tauto|].
    intros [?|(x & Hx & _)]; [done|by apply elem_of_nil in Hx].
  - destruct (Hes e) as (H1 & H2 & H3); [by left|].
    destruct (gap_edge_returns edges_live gap e Hs H1 H2 H3) as (gap1 & Hg & Hs1 & Hid1).
    rewrite Hg. destruct (gap_edge_nodes _ _ _ _ Hg) as [Hn Hm].
    destruct (IH gap1 Hs1) as (gap' & Hg' & Hs' & Hid').
    { intros e' He'. destruct (Hes e') as (A & B & C); [by right|].
      unfold mg_node_at, node_at in *. rewrite Hn, Hm. done. }
    exists gap'. split; [done|]. split; [done|]. intros j. rewrite Hid', Hid1. split.
    + intros [[?| ->]|(x & Hx & Hi)]; [by left| |].
      * right. exists e. split; [by left|done].
      * right. exists x. split; [by right|done].
    + intros [?|(x & [->|Hx]%elem_of_cons & Hi)]; [by left; left|by left; right|].
      right. by exists x.
Qed.

(* what the GAP of states with closed edges is *)
Lemma gap_of_spec (sts : list (graph_state F)) :
  Forall closed sts ->
  exists sg gap, calculate_supergraph sts = Ok sg /\ gap_of sts = Ok gap
    /\ sound (m_graph gap)
    /\ (forall i, (exists g, g ∈ sts /\ has_id (nodes g) i) -> is_Some (mg_node_at gap i))
    /\ (forall j, has_id (edges (m_graph gap)) j
          <-> exists g, g ∈ sts /\ has_id (edges g) j).
Proof.
  intros Hcl. unfold calculate_supergraph.
  destruct (supergraph_from_spec sts empty_graph) as (sg & Hsg & Hgr & Hn0 & He0' & _ & _);
    [constructor|by intros n ?%elem_of_nil|done|].
  destruct (grown_invariants sg Hgr) as (Hwf & [_ Hends] & _ & _).
  assert (Hn : forall i, has_id (nodes sg) i <-> exists g, g ∈ sts /\ has_id (nodes g) i).
  { intros i. rewrite Hn0. split; [|by right].
    intros [(x & Hx & _)|?]; [by apply elem_of_nil in Hx|done]. }
  assert (He : forall j, has_id (edges sg) j <-> exists g, g ∈ sts /\ has_id (edges g) j).
  { intros j. rewrite He0'. split; [|by right].
    intros [(x & Hx & _)|?]; [by apply elem_of_nil in Hx|done]. }
  assert (Hnl : forall n, n ∈ nodes sg -> is_Some (node_live_times sts !! elem_id n)).
  { intros n Hin. apply (live_times_from_spec nodes 0 sts ∅). right.
    destruct (proj1 (Hn (elem_id n))) as (g & Hg & Hi); [by exists n|].
    apply list_elem_of_lookup in Hg as [t Ht]. eauto. }
  assert (Hel : forall e, e ∈ edges sg -> is_Some (edge_live_times sts !! elem_id e)).
  { intros e Hin. apply (live_times_from_spec edges 0 sts ∅). right.
    destruct (proj1 (He (elem_id e))) as (g & Hg & Hi); [by exists e|].
    apply list_elem_of_lookup in Hg as [t Ht]. eauto. }
  destruct (gap_nodes_returns (node_live_times sts) (nodes sg) empty_mapped_graph Hnl)
    as (gap0 & Hg0 & Hix0 & He0); [apply indexed_empty|].
  pose proof (gap_inv_nodes (node_live_times sts) (node_live_times_sorted sts)
                (nodes sg) [] empty_mapped_graph gap0 (gap_inv_empty _)) as Hinv.
  destruct Hinv as [J1 J2 J3 J4 J5 J6];
    [apply (map_agrees_NoDup (m_nodes sg)), Hwf|by intros ? _ ?%elem_of_nil|done|].
  rewrite app_nil_r in J6.
  assert (Htot : forall i, has_id (nodes sg) i -> is_Some (mg_node_at gap0 i)).
  { intros i (n & Hin & <-).
    destruct (J6 (elem_id n)) as [p Hp].
    - apply elem_of_reverse, list_elem_of_fmap. by exists n.
    - unfold partition_of in Hp. by destruct (mg_node_at gap0 (elem_id n)). }
  assert (Hs0 : sound (m_graph gap0)).
  { split; [split; [done|]|split; [done|]].
    - rewrite He0. apply map_agrees_empty.
    - intros e. unfold edges. rewrite He0. by intros ?%elem_of_nil. }
  destruct (gap_edges_returns (edge_live_times sts) (edges sg) gap0 Hs0)
    as (gap & Hg & Hs & Hid).
  { intros e Hin. destruct (Hends e Hin) as [H1 H2].
    split; [by apply Htot|]. split; [by apply Htot|by apply Hel]. }
  exists sg, gap. split; [done|]. unfold gap_of, calculate_gap, calculate_supergraph.
  rewrite Hsg, Hg0.
  split; [done|]. split; [done|]. destruct (gap_edges_nodes _ _ _ _ Hg) as [Hn' Hm'].
  split.
  - intros i Hi. unfold mg_node_at, node_at. rewrite Hn', Hm'. apply Htot. by apply Hn.
  - intros j. rewrite Hid. unfold edges at 1. rewrite He0. cbn [c_vec empty_container].
    rewrite <- He. split; [|by right].
    intros [(x & Hx & _)|?]; [by apply elem_of_nil in Hx|done].
Qed.

(** On states in which both ends of every edge are nodes of the state, as
    [build] leaves them, the supergraph and the GAP are computed without an
    exception.  Every node id of every state is then assigned a partition
    node, the edge ids of the GAP are those of the states, and every edge of
    the GAP joins two partition nodes. *)
Theorem gap_of_returns (sts : list (graph_state F)) :
  Forall closed sts ->
  exists gap, gap_of sts = Ok gap
    /\ (forall g n, g ∈ sts -> n ∈ nodes g ->
          exists P, mg_node_at gap (elem_id n) = Some P /\ P ∈ nodes (m_graph gap))
    /\ (forall j, edge_exists (m_graph gap) j = true
          <-> exists g, g ∈ sts /\ has_id (edges g) j)
    /\ (forall E, E ∈ edges (m_graph gap) ->
          node_exists (m_graph gap) (one_id E) = true
          /\ node_exists (m_graph gap) (two_id E) = true).
Proof.
  intros Hcl. destruct (gap_of_spec sts Hcl) as (sg & gap & _ & Hg & (Hwf & Hix & Hends) & Ht & He).
  exists gap. split; [done|]. split; [|split].
  - intros g n Hg' Hn. destruct (Ht (elem_id n)) as [P HP]; [exists g; split; [done|by exists n]|].
    exists P. split; [done|]. revert HP. unfold mg_node_at.
    destruct (m_node_map gap !! _); intros H; by apply map_agrees_at in H as [? _];
      [|apply Hwf].
  - intros j. rewrite edge_exists_has_id by done. apply He.
  - intros E HE. destruct (Hends E HE). split; by apply node_exists_has_id.
Qed.

End GapReturns.
(** ** foresighted_layout.h: the RGAP and the layout of the states *)

Section LayoutCall.
Context {F : Type} `{!Scalar F} `{!StaticLayout F} `{!StaticLayoutCall F}.

Lemma same_frame_refl (a : mapped_graph F) : same_frame a a.
Proof. by split; [|split]. Qed.

Lemma same_frame_trans (a b c : mapped_graph F) :
  same_frame a b -> same_frame b c -> same_frame a c.
Proof.
  intros (A1 & A2 & A3) (B1 & B2 & B3). split; [congruence|]. split; [congruence|].
  intros i. by rewrite A3.
Qed.

Lemma rgap_merge_frame edge_i pos (st : mapped_graph F * gset N) edge_k :
  same_frame (fst (rgap_merge edge_i pos st edge_k)) (fst st).
Proof.
  destruct st as [rgap removed]. unfold rgap_merge.
  destruct (edges (m_graph rgap) !! pos) as [cur|]; [|apply same_frame_refl].
  destruct (_ && _); [|apply same_frame_refl]. by split; [|split].
Qed.

Lemma rgap_merges_frame edge_i pos (es : list (edge_partition F))
    (st : mapped_graph F * gset N) :
  same_frame (fst (foldl (rgap_merge edge_i pos) st es)) (fst st).
Proof.
  revert st. induction es as [|e es IH]; intros st; cbn [foldl]; [apply same_frame_refl|].
  eapply same_frame_trans; [apply IH|apply rgap_merge_frame].
Qed.

Lemma rgap_edges_returns (es : list (edge_partition F)) (st : mapped_graph F * gset N) :
  (forall e, e ∈ es ->
     is_Some (m_index (m_graph (fst st)) !! one_id e)
     /\ is_Some (m_index (m_graph (fst st)) !! two_id e)) ->
  exists rgap, rgap_edges es st = Ok rgap /\ same_frame rgap (fst st).
Proof.
  revert st. induction es as [|e es IH]; intros [rgap removed] Hes; cbn [rgap_edges].
  - exists rgap. split; [done|apply same_frame_refl].
  - cbn [fst] in Hes. destruct (bool_decide (elem_id e ∈ removed)).
    + apply IH. intros e' He'. apply Hes. by right.
    + destruct (Hes e) as [H1 H2]; [by left|].
      set (E := new_edge_partition (elem_id e) (one_id e) (two_id e)).
      destruct (push_edge_returns E (m_graph rgap)) as (g & Hp & Hn & _); [done..|].
      assert (Hk : forall i, is_Some (m_index g !! i) <-> is_Some (m_index (m_graph rgap) !! i))
        by (intros i; by eapply push_edge_keys).
      unfold push_edge in Hp. destruct (push_edge_at E (m_graph rgap)) as [o k].
      cbn [fst] in Hp. subst o.
      set (started := mk_mapped_graph _ _ _).
      assert (Hfr : same_frame started rgap) by (by split; [|split]).
      pose proof (rgap_merges_frame e k es (started, removed)) as Hfr2. cbn [fst] in Hfr2.
      destruct (IH (foldl (rgap_merge e k) (started, removed) es)) as (r & Hr & Hfr3).
      { intros e' He'. destruct (Hes e') as [A B]; [by right|].
        destruct Hfr2 as (_ & _ & K2). destruct Hfr as (_ & _ & K1).
        split; apply K2, K1; done. }
      exists r. split; [done|].
      eapply same_frame_trans; [exact Hfr3|]. by eapply same_frame_trans.
Qed.

Lemma calculate_rgap_returns (gap : mapped_graph F) :
  sound (m_graph gap) ->
  exists rgap, calculate_rgap gap = Ok rgap
    /\ m_nodes (m_graph rgap) = m_nodes (m_graph gap) /\ m_node_map rgap = m_node_map gap.
Proof.
  intros (Hwf & Hix & Hends). unfold calculate_rgap.
  destruct (rgap_edges_returns (edges (m_graph gap)) (mg_clear_edges gap, ∅))
    as (rgap & Hr & Hn & Hm & _).
  - intros e He. cbn [fst mg_clear_edges m_graph clear_edges m_index].
    rewrite !lookup_fmap, !fmap_is_Some.
    destruct (Hends e He) as [(n1 & Hn1 & <-) (n2 & Hn2 & <-)]. split; by apply Hix.
  - exists rgap. by split.
Qed.

Lemma place_nodes_spec (rgap : mapped_graph F) (ns : list (node F)) :
  (forall n, n ∈ ns -> is_Some (mg_node_at rgap (elem_id n))) ->
  place_nodes rgap ns
  = ((fun n => set_pos (from_option (fun P => pos (np_node P)) (pos n)
                          (mg_node_at rgap (elem_id n))) n) <$> ns, None).
Proof.
  induction ns as [|n ns IH]; intros Hns; [done|]. cbn [place_nodes].
  destruct (Hns n) as [P HP]; [by left|]. rewrite HP, IH by (intros m Hm; apply Hns; by right).
  by rewrite fmap_cons, HP.
Qed.

Lemma place_states_spec (rgap : mapped_graph F) (sts : list (graph_state F)) :
  (forall g n, g ∈ sts -> n ∈ nodes g -> is_Some (mg_node_at rgap (elem_id n))) ->
  place_states rgap sts
  = Normal (relocate_state
              (fun i => from_option (fun P => pos (np_node P)) (mk_coords fzero fzero)
                          (mg_node_at rgap i)) <$> sts).
Proof.
  induction sts as [|g sts IH]; intros Hs; [done|]. cbn [place_states].
  rewrite place_nodes_spec by (intros n Hn; eapply Hs; [by left|done]).
  rewrite IH by (intros g' n Hg'; apply Hs; by right). rewrite fmap_cons. do 2 f_equal.
  unfold relocate_state. f_equal. apply list_fmap_ext. intros k n Hk.
  destruct (Hs g n) as [P HP]; [by left|by eapply list_elem_of_lookup_2|]. by rewrite HP.
Qed.

End LayoutCall.

Section ForesightedCall.
Context {F : Type} `{!Scalar F} `{!StaticLayout F} `{!StaticLayoutCall F}.

Lemma seq_sweep_keeps (P : graph_state F -> Prop) cfg width height tol temp
    (ss : list nat) (sts : list (graph_state F)) :
  (forall g t, P g -> P (iteration g width height t)) ->
  Forall P sts -> Forall P (fst (seq_sweep cfg width height tol temp ss sts)).
Proof.
  intros Hit. revert sts. induction ss as [|s ss IH]; intros sts Hsts; cbn [seq_sweep];
    [done|].
  assert (H1 : Forall P (fst (seq_step cfg width height tol temp sts s))).
  { unfold seq_step. destruct (sts !! s) as [g|] eqn:E; [|done].
    destruct (within _ _ _ _ _ _ _); cbn [fst]; [|done].
    apply Forall_insert; [done|]. apply Hit. by eapply Forall_lookup_1. }
  destruct (seq_step cfg width height tol temp sts s) as [sts1 b]. cbn [fst] in H1.
  specialize (IH sts1 H1). by destruct (seq_sweep cfg width height tol temp ss sts1).
Qed.

Lemma seq_rounds_keeps (P : graph_state F -> Prop) cfg width height tol rounds temp
    (sts : list (graph_state F)) :
  (forall g t, P g -> P (iteration g width height t)) ->
  Forall P sts -> Forall P (fst (seq_rounds cfg width height tol rounds temp sts)).
Proof.
  intros Hit. revert temp sts. induction rounds as [|r IH]; intros temp sts Hsts;
    cbn [seq_rounds]; [done|].
  pose proof (seq_sweep_keeps P cfg width height tol temp (seq 0 (length sts)) sts Hit Hsts)
    as H1.
  unfold seq_round. destruct (seq_sweep _ _ _ _ _ _ sts) as [sts1 bs]. cbn [fst] in H1.
  specialize (IH (anneal (m_cooling cfg) temp) sts1 H1).
  by destruct (seq_rounds cfg width height tol r _ sts1).
Qed.

Lemma layout_call_node_at (G : graph_partitioning F) width height i :
  c_map (m_nodes (layout_call G width height)) = c_map (m_nodes G) ->
  elem_id <$> nodes (layout_call G width height) = elem_id <$> nodes G ->
  is_Some (node_at G i) -> is_Some (node_at (layout_call G width height) i).
Proof.
  intros Hm Hids. unfold node_at, container_at. rewrite Hm.
  destruct (c_map (m_nodes G) !! i) as [k|]; [|done].
  intros [x Hx]. apply lookup_lt_is_Some.
  apply (f_equal length) in Hids. rewrite !length_fmap in Hids. unfold nodes in Hids.
  rewrite Hids. by eapply lookup_lt_Some.
Qed.

(* basic_layout on states with closed edges, under a layout call that keeps
   the ids of the nodes and their positions in the sequence *)
Lemma basic_layout_spec (sts : list (graph_state F)) width height :
  (forall G w h, c_map (m_nodes (layout_call G w h)) = c_map (m_nodes G)
                 /\ elem_id <$> nodes (layout_call G w h) = elem_id <$> nodes G) ->
  Forall closed sts ->
  exists rgap,
    basic_layout sts width height
    = Normal (relocate_state
                (fun i => from_option (fun P => pos (np_node P)) (mk_coords fzero fzero)
                            (mg_node_at rgap i)) <$> sts)
    /\ (forall g n, g ∈ sts -> n ∈ nodes g ->
          exists P, mg_node_at rgap (elem_id n) = Some P
                    /\ exists G, P ∈ nodes (layout_call G width height)).
Proof.
  intros Hlay Hcl.
  destruct (gap_of_spec sts Hcl) as (sg & gap & _ & Hg & Hs & Ht & _).
  destruct (calculate_rgap_returns gap Hs) as (rgap & Hr & Hn & Hm).
  set (laid := mk_mapped_graph (layout_call (m_graph rgap) width height)
                 (m_node_map rgap) (m_edge_map rgap)).
  assert (Hsome : forall g n, g ∈ sts -> n ∈ nodes g ->
            is_Some (mg_node_at laid (elem_id n))).
  { intros g n Hg' Hn'. destruct (Ht (elem_id n)) as [P HP].
    { exists g. split; [done|by exists n]. }
    destruct (Hlay (m_graph rgap) width height) as [L1 L2].
    unfold mg_node_at in *. cbn [laid m_node_map m_graph]. rewrite Hm.
    destruct (m_node_map gap !! elem_id n) as [q|];
      apply layout_call_node_at; try done; unfold node_at; rewrite Hn; by eexists. }
  exists laid. split.
  - unfold basic_layout. rewrite Hg, Hr. by apply place_states_spec.
  - intros g n Hg' Hn'. destruct (Hsome g n Hg' Hn') as [P HP]. exists P. split; [done|].
    exists (m_graph rgap). revert HP. unfold mg_node_at. cbn [laid m_node_map m_graph].
    destruct (Hlay (m_graph rgap) width height) as [L1 L2].
    assert (Hin : forall j, node_at (layout_call (m_graph rgap) width height) j = Some P ->
              P ∈ nodes (layout_call (m_graph rgap) width height)).
    { intros j. unfold node_at, container_at.
      destruct (c_map _ !! j) as [k|]; [|done]. apply list_elem_of_lookup_2. }
    destruct (m_node_map rgap !! elem_id n); apply Hin.
Qed.

Lemma relocate_twice (p : N -> coords F) (f : coords F -> coords F) (g : graph_state F) :
  with_elements ((fun n => set_pos (f (pos n)) n) <$> nodes (relocate_state p g))
    (edges (relocate_state p g)) (relocate_state p g)
  = relocate_state (fun i => f (p i)) g.
Proof.
  unfold relocate_state, with_elements. cbn. f_equal. f_equal.
  rewrite <- list_fmap_compose. apply list_fmap_ext. by intros k [] _.
Qed.

(** The layout call on a dynamic graph fresh from [build], with a static
    layout whose call on the RGAP leaves the ids of the nodes and their
    order as they are: the call returns, whatever the tolerance, with as
    many states as before; with tolerance zero the states differ from the
    built ones in the positions only, and a node id has one and the same
    position in every state it occurs in. *)
Theorem foresighted_layout_returns (fl : foresighted_layout F) (d d' : dynamic_graph F) :
  (forall G w h, c_map (m_nodes (layout_call G w h)) = c_map (m_nodes G)
                 /\ elem_id <$> nodes (layout_call G w h) = elem_id <$> nodes G) ->
  build d = Normal d' ->
  exists d'', foresighted_call fl d' = Normal d''
    /\ length (states d'') = length (states d')
    /\ m_modifications d'' = m_modifications d'
    /\ node_count d'' = node_count d' /\ edge_count d'' = edge_count d'
    /\ (feqb (m_tolerance fl) fzero = true ->
        exists place : N -> coords F, states d'' = relocate_state place <$> states d').
Proof.
  intros Hlay Hb.
  assert (Hcl : Forall closed (states d')).
  { eapply Forall_impl; [by eapply build_invariants|]. by intros g (_ & ? & _). }
  unfold foresighted_call. destruct (states d') as [|g0 rest] eqn:Es.
  { exists d'. rewrite Es. split; [done|]. split; [done|]. split; [done|].
    split; [done|]. split; [done|]. intros _. by exists (fun _ => mk_coords fzero fzero). }
  rewrite <- Es in *. clear Es g0 rest.
  set (cw := fdiv (fmul CalculationHeight (m_canvas_width fl)) (m_canvas_height fl)).
  destruct (basic_layout_spec (states d') cw CalculationHeight Hlay Hcl) as (rgap & -> & _).
  eexists. split; [done|]. cbn [states with_states m_states m_modifications].
  split.
  { rewrite length_fmap. destruct (negb _).
    - unfold tolerance. by rewrite seq_rounds_length, length_fmap.
    - by rewrite length_fmap. }
  split; [done|]. split; [done|]. split; [done|].
  intros ->. cbn [negb]. eexists. rewrite <- list_fmap_compose.
  apply list_fmap_ext. intros k g _. cbn [compose]. unfold rescale.
  rewrite (relocate_twice _
             (fun c => mk_coords (fmul (c_x c) (fdiv (m_canvas_width fl) cw))
                                 (fmul (c_y c) (fdiv (m_canvas_height fl) CalculationHeight)))).
  unfold move.
  rewrite (relocate_twice _
             (fun c => mk_coords (fadd (c_x c) (fsub (c_x (m_center fl)) fzero))
                                 (fadd (c_y c) (fsub (c_y (m_center fl)) fzero)))).
  reflexivity.
Qed.

End ForesightedCall.

Lemma rescale_move_nodes {F} `{!Scalar F} (g : graph_state F)
    (sw sh dw dh sx sy dx dy : F) (n : node F) :
  n ∈ nodes (move (rescale g sw sh dw dh) sx sy dx dy) ->
  exists m, m ∈ nodes g /\ elem_id n = elem_id m
    /\ pos n = mk_coords (fadd (fmul (c_x (pos m)) (fdiv dw sw)) (fsub dx sx))
                         (fadd (fmul (c_y (pos m)) (fdiv dh sh)) (fsub dy sy)).
Proof.
  unfold move, rescale, with_elements, nodes. cbn [m_nodes c_vec].
  rewrite <- list_fmap_compose. intros (m & -> & Hm)%list_elem_of_fmap.
  exists m. by split.
Qed.

Section Canvas.
Context `{!StaticLayout Q} `{!StaticLayoutCall Q}.
Local Open Scope Q_scope.

Lemma rescale_bound (W H x : Q) :
  0 < W -> 0 < H ->
  0 - (1 * W / H) / 2 <= x -> x <= 0 + (1 * W / H) / 2 ->
  - (W / 2) <= x * (W / (1 * W / H)) /\ x * (W / (1 * W / H)) <= W / 2.
Proof.
  intros HW HH Hl Hu.
  assert (Hk : W / (1 * W / H) == H) by (field; split; lra).
  rewrite Hk.
  assert (L : (0 - (1 * W / H) / 2) * H <= x * H) by (apply Qmult_le_compat_r; lra).
  assert (U : x * H <= (0 + (1 * W / H) / 2) * H) by (apply Qmult_le_compat_r; lra).
  assert (EL : (0 - (1 * W / H) / 2) * H == - (W / 2)) by (field; lra).
  assert (EU : (0 + (1 * W / H) / 2) * H == W / 2) by (field; lra).
  rewrite EL in L. rewrite EU in U. by split.
Qed.

Lemma rescale_bound_height (H y : Q) :
  0 < H -> 0 - 1 / 2 <= y -> y <= 0 + 1 / 2 ->
  - (H / 2) <= y * (H / 1) /\ y * (H / 1) <= H / 2.
Proof.
  intros HH Hl Hu. assert (E : H / 1 == H) by field. rewrite E.
  assert (L : (0 - 1 / 2) * H <= y * H) by (apply Qmult_le_compat_r; lra).
  assert (U : y * H <= (0 + 1 / 2) * H) by (apply Qmult_le_compat_r; lra).
  assert (EL : (0 - 1 / 2) * H == - (H / 2)) by field.
  assert (EU : (0 + 1 / 2) * H == H / 2) by field.
  rewrite EL in L. rewrite EU in U. by split.
Qed.

(** The canvas of [set_canvas]: with a positive width and height, and a
    static layout that places the nodes within the rectangle it is given
    around the origin, both in its call and in its single iterations, the
    layout call on a built dynamic graph returns with every node of every
    state within the canvas around its centre, whatever the tolerance. *)
Theorem foresighted_layout_within_canvas (fl : foresighted_layout Q) (d d' : dynamic_graph Q) :
  0 < m_canvas_width fl -> 0 < m_canvas_height fl ->
  (forall G w h, c_map (m_nodes (layout_call G w h)) = c_map (m_nodes G)
                 /\ elem_id <$> nodes (layout_call G w h) = elem_id <$> nodes G) ->
  (forall G w h P, 0 < w -> 0 < h -> P ∈ nodes (layout_call G w h) ->
     in_canvas w h (mk_coords 0 0) (pos (np_node P))) ->
  (forall g w h t, 0 < w -> 0 < h ->
     (forall m, m ∈ nodes g -> in_canvas w h (mk_coords 0 0) (pos m)) ->
     forall n, n ∈ nodes (iteration g w h t) -> in_canvas w h (mk_coords 0 0) (pos n)) ->
  build d = Normal d' ->
  exists d'', foresighted_call fl d' = Normal d''
    /\ forall g n, g ∈ states d'' -> n ∈ nodes g ->
         in_canvas (m_canvas_width fl) (m_canvas_height fl) (m_center fl) (pos n).
Proof.
  intros HW HH Hlay Hcall Hiter Hb.
  assert (Hcl : Forall closed (states d')).
  { eapply Forall_impl; [by eapply build_invariants|]. by intros g (_ & ? & _). }
  unfold foresighted_call. destruct (states d') as [|g0 rest] eqn:Es.
  { exists d'. split; [done|]. rewrite Es. by intros g n ?%elem_of_nil. }
  rewrite <- Es in *. clear Es g0 rest.
  set (cw := fdiv (fmul CalculationHeight (m_canvas_width fl)) (m_canvas_height fl)).
  assert (Hcw : 0 < cw).
  { change (0 < 1 * m_canvas_width fl / m_canvas_height fl).
    apply Qlt_shift_div_l; lra. }
  assert (Hch : 0 < CalculationHeight) by done.
  destruct (basic_layout_spec (states d') cw CalculationHeight Hlay Hcl)
    as (rgap & -> & Hat).
  set (laid := relocate_state _ <$> states d').
  assert (Hlaid : Forall (fun g => forall m, m ∈ nodes g ->
                    in_canvas cw CalculationHeight (mk_coords 0 0) (pos m)) laid).
  { apply Forall_fmap, Forall_forall. intros g Hg m.
    rewrite nodes_relocate_state. intros (n & -> & Hn)%list_elem_of_fmap.
    destruct (Hat g n Hg Hn) as (P & HP & G & HG). cbn [pos set_pos node_coords].
    change (elem_id n) with (node_id n) in HP. unfold elem_id, node_identified.
    rewrite HP. cbn [from_option]. by eapply Hcall. }
  set (improved := if negb _ then _ else laid).
  assert (Himp : Forall (fun g => forall m, m ∈ nodes g ->
                    in_canvas cw CalculationHeight (mk_coords 0 0) (pos m)) improved).
  { unfold improved. destruct (negb _); [|done]. unfold tolerance.
    apply seq_rounds_keeps; [|done]. intros g t Hg. by apply Hiter. }
  eexists. split; [done|]. cbn [states with_states m_states].
  intros g n (g1 & -> & Hg1)%list_elem_of_fmap Hn.
  apply rescale_move_nodes in Hn as (m & Hm & _ & ->).
  rewrite Forall_forall in Himp. destruct (Himp g1 Hg1 m Hm) as (X1 & X2 & Y1 & Y2).
  unfold in_canvas. cbn [c_x c_y] in *.
  change fadd with Qplus. change fmul with Qmult. change fsub with Qminus.
  change fdiv with Qdiv. change fzero with 0.
  unfold cw, CalculationHeight in *. cbn [fdiv fmul of_Z Q_scalar] in *.
  change (inject_Z 1) with 1 in *.
  destruct (rescale_bound (m_canvas_width fl) (m_canvas_height fl) (c_x (pos m)) HW HH X1 X2)
    as [A1 A2].
  destruct (rescale_bound_height (m_canvas_height fl) (c_y (pos m)) HH Y1 Y2) as [B1 B2].
  repeat split; lra.
Qed.

End Canvas.

(** ** fruchterman_reingold.h: the displacement step *)

Section Displacement.
Local Open Scope Q_scope.

Lemma clamp_bounds (size coord : Q) :
  0 <= size -> - size <= clamp size coord /\ clamp size coord <= size.
Proof.
  intros Hs. unfold clamp, fmin, fmax. cbn [fltb fneg Q_scalar].
  destruct (Qltb (- size) coord) eqn:E1.
  - apply Qltb_lt in E1. destruct (Qltb coord size) eqn:E2.
    + apply Qltb_lt in E2. split; lra.
    + split; lra.
  - destruct (Qltb (- size) size) eqn:E2; split; lra.
Qed.

Lemma clamp_inside (size coord : Q) :
  - size <= coord -> coord <= size -> clamp size coord == coord.
Proof.
  intros Hl Hu. unfold clamp, fmin, fmax. cbn [fltb fneg Q_scalar].
  destruct (Qltb (- size) coord) eqn:E1.
  - destruct (Qltb coord size) eqn:E2; [done|]. apply Qltb_ge in E2. lra.
  - apply Qltb_ge in E1. destruct (Qltb (- size) size) eqn:E2.
    + lra.
    + apply Qltb_ge in E2. lra.
Qed.

Lemma clamp_half (s c : Q) :
  0 <= s ->
  0 - s / 2 <= clamp (fmul s (of_Q (1 # 2))) c /\ clamp (fmul s (of_Q (1 # 2))) c <= 0 + s / 2.
Proof.
  intros Hs. change (fmul s (of_Q (1 # 2))) with (s * (1 # 2)).
  assert (H0 : 0 <= s * (1 # 2)) by lra.
  destruct (clamp_bounds (s * (1 # 2)) c H0) as [A1 A2].
  assert (E1 : 0 - s / 2 == - (s * (1 # 2))) by field.
  assert (E2 : 0 + s / 2 == s * (1 # 2)) by field.
  rewrite E1, E2. by split.
Qed.

Lemma clamp_half_inside (s c : Q) :
  0 - s / 2 <= c -> c <= 0 + s / 2 -> clamp (fmul s (of_Q (1 # 2))) c == c.
Proof.
  intros Hl Hu. change (fmul s (of_Q (1 # 2))) with (s * (1 # 2)).
  assert (E1 : 0 - s / 2 == - (s * (1 # 2))) by field.
  assert (E2 : 0 + s / 2 == s * (1 # 2)) by field.
  rewrite E1 in Hl. rewrite E2 in Hu. by apply clamp_inside.
Qed.

(** The last step of an iteration of the static layout, whatever the forces
    were: with a canvas of non-negative width and height every node ends
    within [[-width/2, width/2]] and [[-height/2, height/2]]; the ids, the
    order of the nodes, the edges and the index are as before; and a node
    whose force is zero and which lies within the canvas stays where it
    is. *)
Theorem displacement_within_canvas {E : Type} (g : graph (node Q) E)
    (width height t : Q) (disp : list (coords Q)) :
  0 <= width -> 0 <= height -> length disp = length (nodes g) ->
  (forall n, n ∈ nodes (displacement g width height t disp) ->
     in_canvas width height (mk_coords 0 0) (pos n))
  /\ elem_id <$> nodes (displacement g width height t disp) = elem_id <$> nodes g
  /\ c_map (m_nodes (displacement g width height t disp)) = c_map (m_nodes g)
  /\ m_edges (displacement g width height t disp) = m_edges g
  /\ m_index (displacement g width height t disp) = m_index g
  /\ (forall i n, nodes g !! i = Some n -> disp !! i = Some (mk_coords 0 0) ->
        in_canvas width height (mk_coords 0 0) (pos n) ->
        exists n', nodes (displacement g width height t disp) !! i = Some n'
          /\ c_x (pos n') == c_x (pos n) /\ c_y (pos n') == c_y (pos n)).
Proof.
  intros Hw Hh Hlen.
  assert (Hnodes : nodes (displacement g width height t disp)
            = imap (fun i n => match disp !! i with
                               | Some current_disp => displace_node width height t n current_disp
                               | None => n
                               end) (nodes g)) by done.
  rewrite !Hnodes.
  split; [|split; [|split; [done|split; [done|split; [done|]]]]].
  - intros n (i & m & -> & Hm)%elem_of_lookup_imap.
    destruct (disp !! i) as [c|] eqn:Ec.
    + unfold displace_node, in_canvas. cbn [pos set_pos node_coords c_x c_y].
      set (mv := if negb _ then _ else _).
      destruct (clamp_half width (c_x mv) Hw) as [A1 A2].
      destruct (clamp_half height (c_y mv) Hh) as [B1 B2]. done.
    + exfalso. apply lookup_ge_None in Ec. apply lookup_lt_Some in Hm.
      unfold nodes in *. lia.
  - apply list_eq. intros i. rewrite !list_lookup_fmap, list_lookup_imap.
    destruct (nodes g !! i) as [n|]; [|done]. cbn. by destruct (disp !! i).
  - intros i n Hn Hd (X1 & X2 & Y1 & Y2). rewrite list_lookup_imap, Hn. cbn.
    rewrite Hd. eexists. split; [done|]. unfold displace_node.
    cbn [pos set_pos node_coords c_x c_y] in *.
    assert (Hz : feqb (hypotenuse (0 : Q) 0) fzero = true) by done.
    rewrite Hz. cbn [negb].
    split; by apply clamp_half_inside.
Qed.

End Displacement.

(** ** interpolator.h: a frame is always produced *)

Section Frames.
Context {F : Type} `{!Scalar F}.

Lemma import_nodes_spec (ns : list (node F)) (cur : graph_state F) :
  wf_graph cur -> indexed cur ->
  let R := foldl (fun g n => if is_new n then push_node (set_is_old false n) g else g)
             cur ns in
  wf_graph R /\ indexed R
  /\ (forall i, has_id (nodes R) i
        <-> has_id (nodes cur) i \/ exists n, n ∈ ns /\ is_new n = true /\ elem_id n = i)
  /\ m_edges R = m_edges cur.
Proof.
  revert cur. induction ns as [|n ns IH]; intros cur Hwf Hix; cbn [foldl].
  - split; [done|]. split; [done|]. split; [|done]. intros i. split; [tauto|].
    intros [?|(n & Hn & _)]; [done|by apply elem_of_nil in Hn].
  - destruct (is_new n) eqn:En.
    + destruct (IH (push_node (set_is_old false n) cur)) as (A & B & C & D);
        [by apply wf_push_node|by apply indexed_push_node|].
      split; [done|]. split; [done|]. split.
      * intros i. rewrite C, (has_id_push_node (set_is_old false n) cur i) by done.
        change (elem_id (set_is_old false n)) with (elem_id n). split.
        -- intros [[?|Hi]|(m & Hm & Hnew & Hi)]; [by left| |].
           ++ right. exists n. split; [by left|done].
           ++ right. exists m. split; [by right|done].
        -- intros [?|(m & [->|Hm]%elem_of_cons & Hnew & Hi)];
             [by left; left|by left; right|].
           right. by exists m.
      * rewrite D. unfold push_node, push_node_at. by destruct (c_map _ !! _).
    + destruct (IH cur Hwf Hix) as (A & B & C & D).
      split; [done|]. split; [done|]. split; [|done].
      intros i. rewrite C. split.
      * intros [?|(m & Hm & Hnew & Hi)]; [by left|]. right. exists m. split; [by right|done].
      * intros [?|(m & [->|Hm]%elem_of_cons & Hnew & Hi)]; [by left|congruence|].
        right. by exists m.
Qed.

Lemma import_edges_returns (es : list (edge F)) (R : graph_state F) :
  wf_graph R ->
  (forall e, e ∈ es -> is_new e = true ->
     is_Some (m_index R !! one_id e) /\ is_Some (m_index R !! two_id e)) ->
  exists merged, import_edges es R = Ok merged
    /\ wf_graph merged
    /\ m_nodes merged = m_nodes R
    /\ (forall j, has_id (edges merged) j
          <-> has_id (edges R) j \/ exists e, e ∈ es /\ is_new e = true /\ elem_id e = j).
Proof.
  revert R. induction es as [|e es IH]; intros R Hwf Hes; cbn [import_edges].
  - exists R. split; [done|]. split; [done|]. split; [done|]. intros j. split; [tauto|].
    intros [?|(e & He & _)]; [done|by apply elem_of_nil in He].
  - destruct (is_new e) eqn:En.
    + destruct (Hes e) as [H1 H2]; [by left|done|].
      destruct (push_edge_returns (set_is_old false e) R) as (g & Hp & Hn & He); [done..|].
      rewrite Hp.
      destruct (IH g) as (merged & Hm & A & B & C); [by eapply wf_push_edge| |].
      { intros e' He' Hnew. destruct (Hes e') as [K1 K2]; [by right|done|].
        split; by apply (push_edge_keys _ _ _ _ Hp). }
      exists merged. split; [done|]. split; [done|]. split; [congruence|].
      intros j. rewrite C, He, (has_id_pushed_edge (set_is_old false e) R j) by done.
      change (elem_id (set_is_old false e)) with (elem_id e). split.
      * intros [[?| ->]|(m & Hm' & Hnew & Hi)]; [by left| |].
        -- right. exists e. split; [by left|done].
        -- right. exists m. split; [by right|done].
      * intros [?|(m & [->|Hm']%elem_of_cons & Hnew & Hi)];
          [by left; left|by left; right|].
        right. by exists m.
    + destruct (IH R Hwf) as (merged & Hm & A & B & C).
      { intros e' He'. apply Hes. by right. }
      exists merged. split; [done|]. split; [done|]. split; [done|].
      intros j. rewrite C. split.
      * intros [?|(m & Hm' & Hnew & Hi)]; [by left|]. right. exists m. split; [by right|done].
      * intros [?|(m & [->|Hm']%elem_of_cons & Hnew & Hi)]; [by left|congruence|].
        right. by exists m.
Qed.

(* the merge of a state with the new elements of the next one *)
Lemma merge_returns (cur next : graph_state F) :
  wf_graph cur -> indexed cur -> closed next -> follows cur next ->
  exists merged,
    import_edges (edges next)
      (import_nodes next
         (with_elements (clear_new <$> nodes cur) (clear_new <$> edges cur) cur))
    = Ok merged
    /\ wf_graph merged
    /\ (forall i, has_id (nodes merged) i
          <-> has_id (nodes cur) i
              \/ exists n, n ∈ nodes next /\ is_new n = true /\ elem_id n = i)
    /\ (forall j, has_id (edges merged) j
          <-> has_id (edges cur) j
              \/ exists e, e ∈ edges next /\ is_new e = true /\ elem_id e = j).
Proof.
  intros Hwf Hix [_ Hends] [Hfol _].
  set (cleared := with_elements _ _ cur).
  assert (Hidn : forall i, has_id (nodes cleared) i <-> has_id (nodes cur) i).
  { intros i. unfold cleared, with_elements, nodes. cbn [m_nodes c_vec]. split.
    - intros (x & (y & -> & Hy)%list_elem_of_fmap & Hi). by exists y.
    - intros (y & Hy & Hi). exists (clear_new y). split; [|done].
      apply list_elem_of_fmap. by exists y. }
  assert (Hide : forall j, has_id (edges cleared) j <-> has_id (edges cur) j).
  { intros j. unfold cleared, with_elements, edges. cbn [m_edges c_vec]. split.
    - intros (x & (y & -> & Hy)%list_elem_of_fmap & Hi). by exists y.
    - intros (y & Hy & Hi). exists (clear_new y). split; [|done].
      apply list_elem_of_fmap. by exists y. }
  assert (Hwfc : wf_graph cleared).
  { destruct Hwf as [Hn He]. split; cbn.
    - by apply (map_agrees_fmap clear_new (m_nodes cur)).
    - by apply (map_agrees_fmap clear_new (m_edges cur)). }
  assert (Hixc : indexed cleared).
  { intros n (m & -> & Hm)%list_elem_of_fmap. exact (Hix m Hm). }
  destruct (import_nodes_spec (nodes next) cleared Hwfc Hixc) as (A & B & C & D).
  fold (import_nodes next cleared) in A, B, C, D.
  destruct (import_edges_returns (edges next) (import_nodes next cleared) A)
    as (merged & Hm & M1 & M2 & M3).
  { intros e He Hnew.
    assert (Hend : forall i, has_id (nodes next) i ->
              is_Some (m_index (import_nodes next cleared) !! i)).
    { intros i (m & Hm & Hi).
      assert (Hr : has_id (nodes (import_nodes next cleared)) i).
      { apply C. destruct (node_exists cur i) eqn:Ex.
        - left. apply Hidn. by apply node_exists_has_id.
        - right. exists m. split; [done|]. split; [|done]. apply Hfol; [done|].
          by rewrite Hi. }
      destruct Hr as (r & Hr & <-). by apply B. }
    destruct (Hends e He) as [H1 H2]. split; by apply Hend. }
  exists merged. split; [done|]. split; [done|]. split.
  - intros i. unfold nodes at 1. rewrite M2. fold (nodes (import_nodes next cleared)).
    by rewrite C, Hidn.
  - intros j. rewrite M3. unfold edges at 1. rewrite D. fold (edges cleared).
    by rewrite Hide.
Qed.

End Frames.

Section BuiltFrames.
Context {F : Type} `{!Scalar F}.

Lemma follows_self (g : graph_state F) : wf_graph g -> follows g g.
Proof.
  intros Hwf. split.
  - intros m Hm Hex. exfalso.
    assert (node_exists g (elem_id m) = true)
      by (apply node_exists_has_id; [done|by exists m]).
    congruence.
  - intros e He Hex. exfalso.
    assert (edge_exists g (elem_id e) = true)
      by (apply edge_exists_has_id; [done|by exists e]).
    congruence.
Qed.

Lemma calc_alpha_id {T} `{!Identified T, !Animated F T} (an : frame_state F) (el : T) :
  (forall a x, elem_id (set_alpha a x) = elem_id x) ->
  elem_id (calc_alpha an el) = elem_id el.
Proof.
  intros Hset. unfold calc_alpha.
  destruct (negb (is_old el) && negb (is_new el)); [done|].
  destruct (_ || _); rewrite ?Hset;
    destruct (is_old el && deleted an); rewrite ?Hset;
    destruct (is_new el && negb (added an)); by rewrite ?Hset.
Qed.

Lemma morph_node_id (an : frame_state F) (next : graph_state F) (n : node F) :
  elem_id (morph_node an next n) = elem_id n.
Proof.
  unfold morph_node. rewrite calc_alpha_id by done.
  destruct (node_exists next (elem_id n)); [|done]. by destruct (node_at next (elem_id n)).
Qed.

Lemma relocated_invariants place (g : graph_state F) :
  wf_graph g -> closed g -> indexed g ->
  wf_graph (relocate_state place g) /\ closed (relocate_state place g)
  /\ indexed (relocate_state place g).
Proof.
  intros [Hn He] [Hk Hends] Hix.
  assert (Hid : forall i, has_id (nodes (relocate_state place g)) i <-> has_id (nodes g) i).
  { intros i. rewrite nodes_relocate_state. split.
    - intros (x & (y & -> & Hy)%list_elem_of_fmap & Hi). by exists y.
    - intros (y & Hy & Hi). exists (set_pos (place (elem_id y)) y). split; [|done].
      apply list_elem_of_fmap. by exists y. }
  split; [|split].
  - split; cbn.
    + by apply (map_agrees_fmap (fun n => set_pos (place (elem_id n)) n) (m_nodes g)).
    + exact He.
  - split.
    + intros i Hi. apply Hid. by apply Hk.
    + intros e He'. rewrite edges_relocate_state in He'. rewrite !Hid. by apply Hends.
  - intros n. rewrite nodes_relocate_state. intros (m & -> & Hm)%list_elem_of_fmap.
    exact (Hix m Hm).
Qed.

(* the states of a built dynamic graph, placed anywhere *)
Lemma built_states (d d0 : dynamic_graph F) (place : nat -> N -> coords F) t g :
  build d = Normal d0 ->
  states (relocate place d0) !! t = Some g ->
  wf_graph g /\ closed g /\ indexed g
  /\ forall next, states (relocate place d0) !! S t = Some next -> follows g next.
Proof.
  intros Hb Hg. pose proof (build_invariants d d0 Hb) as Hinv.
  rewrite relocate_lookup in Hg.
  destruct (states d0 !! t) as [g0|] eqn:Eg; [|done]. cbn in Hg. injection Hg as <-.
  destruct (Forall_lookup_1 _ _ _ _ Hinv Eg) as (Hwf & Hcl & Hix).
  destruct (relocated_invariants (place t) g0 Hwf Hcl Hix) as (A & B & C).
  split; [done|]. split; [done|]. split; [done|].
  intros next Hnext. rewrite relocate_lookup in Hnext.
  destruct (states d0 !! S t) as [g1|] eqn:Eg1; [|done]. cbn in Hnext. injection Hnext as <-.
  unfold build in Hb. destruct (apply_steps _ _) as [sts|] eqn:E; [|done].
  injection Hb as <-. cbn [states m_states] in *.
  rewrite set_bool_values_lookup in Eg1.
  destruct (sts !! S t) as [s1|] eqn:Es1; [|done]. cbn in Eg1. injection Eg1 as <-.
  split.
  - intros m. rewrite nodes_relocate_state, nodes_flag_state, <- list_fmap_compose.
    intros (n0 & -> & Hn0)%list_elem_of_fmap Hex. cbn [compose].
    destruct (set_bool_values_flags (T := node F) nodes node_exists sts (S t) n0)
      as [Hnew _]; [done..|].
    cbn zeta in Hnew. replace (S t - 1) with t in Hnew by lia. rewrite Eg in Hnew.
    change (is_new (set_pos ?c ?n)) with (is_new n). rewrite Hnew.
    cbn [Nat.ltb Nat.leb andb]. apply negb_true_iff. exact Hex.
  - intros e. rewrite edges_relocate_state, edges_flag_state.
    intros (e0 & -> & He0)%list_elem_of_fmap Hex.
    destruct (set_bool_values_flags (T := edge F) edges edge_exists sts (S t) e0)
      as [Hnew _]; [done..|].
    cbn zeta in Hnew. replace (S t - 1) with t in Hnew by lia. rewrite Eg in Hnew.
    rewrite Hnew. cbn [Nat.ltb Nat.leb andb]. apply negb_true_iff. exact Hex.
Qed.

End BuiltFrames.

Section FrameReturned.
Local Open Scope Q_scope.

Lemma transition_duration_total (it : interpolator Q) :
  transition_duration it == total_duration it (m_phases it).
Proof.
  unfold transition_duration.
  assert (G : forall ps a,
            foldl (fun total p => fadd total (duration it p)) a ps
            == a + total_duration it ps).
  { induction ps as [|p ps IH]; intros a; cbn [foldl].
    - change (total_duration it []) with 0. ring.
    - rewrite IH. change (fadd a (duration it p)) with (a + duration it p).
      change (total_duration it (p :: ps)) with (duration it p + total_duration it ps).
      ring. }
  rewrite G. change fzero with 0. ring.
Qed.

Lemma current_phase_from_returns (it : interpolator Q) ps i time :
  0 <= time -> time < total_duration it ps ->
  exists r, current_phase_from it ps i time = Ok r.
Proof.
  revert i time. induction ps as [|p ps IH]; intros i time H0 Hlt;
    cbn [current_phase_from].
  - change (total_duration it []) with 0 in Hlt. lra.
  - change (total_duration it (p :: ps)) with (duration it p + total_duration it ps) in Hlt.
    change (fltb time (duration it p)) with (Qltb time (duration it p)).
    destruct (Qltb time (duration it p)) eqn:E; [by eexists|].
    apply Qltb_ge in E. apply IH.
    + change (0 <= time - duration it p). lra.
    + change (time - duration it p < total_duration it ps). lra.
Qed.

Lemma floor_index (x : Q) : 0 <= x -> inject_Z (Z.of_nat (Z.to_nat (Qfloor x))) = inject_Z (Qfloor x).
Proof.
  intros Hx. f_equal. apply Z2Nat.id. change 0%Z with (Qfloor 0).
  by apply Qfloor_resp_le.
Qed.

Lemma local_time_below (time td : Q) :
  0 <= time -> 0 < td ->
  time - inject_Z (Z.of_nat (Z.to_nat (Qfloor (time / td)))) * td < td.
Proof.
  intros Ht Htd.
  assert (Hq : 0 <= time / td) by (apply Qle_shift_div_l; lra).
  rewrite (floor_index _ Hq). pose proof (Qlt_floor (time / td)) as Hfl.
  rewrite inject_Z_plus in Hfl. change (inject_Z 1) with 1 in Hfl.
  set (z := inject_Z (Qfloor (time / td))) in *.
  assert (Hmul : time / td * td == time) by (field; lra).
  assert (H : time / td * td < (z + 1) * td) by (apply Qmult_lt_compat_r; lra).
  rewrite Hmul in H. lra.
Qed.

Lemma ceiling_index (x : Q) :
  0 <= x ->
  Z.to_nat (Qceiling x) = Z.to_nat (Qfloor x) \/ Z.to_nat (Qceiling x) = S (Z.to_nat (Qfloor x)).
Proof.
  intros Hx.
  assert (H0 : (0 <= Qfloor x)%Z) by (change 0%Z with (Qfloor 0); by apply Qfloor_resp_le).
  pose proof (Qle_floor_ceiling x) as H1. rewrite <- Zle_Qle in H1.
  pose proof (Qceiling_lt x) as H2. pose proof (Qlt_floor x) as H3.
  assert (H4 : inject_Z (Qceiling x - 1) < inject_Z (Qfloor x + 1)) by lra.
  rewrite <- Zlt_Qlt in H4. lia.
Qed.

(** A frame is always produced: in exact arithmetic, on a dynamic graph
    fresh from [build], with states and with the nodes placed anywhere, and
    with a positive transition duration, [operator()] returns a graph for
    every time from 0 to [length()]; the exception "time overflow phases"
    and the exceptions of [push_edge] do not occur.  The frame has the
    nodes and the edges of two states: the one whose index is the floor of
    [time / transition_duration()] and the one whose index is the ceiling
    of that quotient, each capped at the last index as the code caps
    it. *)
Theorem interpolate_returns
    (it : interpolator Q) (d d0 : dynamic_graph Q) (place : nat -> N -> coords Q) (time : Q) :
  build d = Normal d0 ->
  states d0 <> [] ->
  0 < transition_duration it ->
  0 <= time -> time <= length_of it (relocate place d0) ->
  let last := (length (states (relocate place d0)) - 1)%nat in
  let index_one := Nat.min (Z.to_nat (Qfloor (time / transition_duration it))) last in
  let index_two := Nat.min (Z.to_nat (Qceiling (time / transition_duration it))) last in
  exists frame cur next,
    interpolate it (relocate place d0) time = Ok frame
    /\ states (relocate place d0) !! index_one = Some cur
    /\ states (relocate place d0) !! index_two = Some next
    /\ (index_two = index_one \/ index_two = S index_one)
    /\ wf_graph frame
    /\ (forall i, node_exists frame i = true
          <-> node_exists cur i = true \/ node_exists next i = true)
    /\ (forall j, edge_exists frame j = true
          <-> edge_exists cur j = true \/ edge_exists next j = true).
Proof.
  intros Hb Hne Htd H0 Hlen. cbn zeta. unfold interpolate.
  change (fltb time fzero) with (Qltb time 0).
  change (fgtb time (length_of it (relocate place d0)))
    with (Qltb (length_of it (relocate place d0)) time).
  apply Qltb_ge in H0 as H0'. apply Qltb_ge in Hlen as Hlen'. rewrite H0', Hlen'.
  destruct (states (relocate place d0)) as [|first rest] eqn:Es.
  { exfalso. apply Hne. apply (f_equal length) in Es. unfold relocate, states in Es.
    cbn in Es. rewrite length_imap in Es. unfold states. by destruct (m_states d0). }
  cbn zeta. rewrite <- Es.
  set (td := transition_duration it) in *.
  set (i1 := Z.to_nat (ffloor (fdiv time td))).
  set (i2 := Z.to_nat (fceil (fdiv time td))).
  set (last := (length (states (relocate place d0)) - 1)%nat).
  destruct (current_phase_from_returns it (m_phases it) 0
              (fsub time (fmul (of_nat i1) td))) as [current Hc].
  { apply local_time_nonneg. exact H0. }
  { rewrite <- transition_duration_total. by apply local_time_below. }
  unfold get_current_phase. rewrite Hc.
  assert (Hq : 0 <= time / td) by (apply Qle_shift_div_l; lra).
  assert (Hi12 : Nat.min i2 last = Nat.min i1 last \/ Nat.min i2 last = S (Nat.min i1 last)).
  { destruct (ceiling_index (time / td) Hq) as [E|E]; unfold i1, i2;
      change (fceil (fdiv time td)) with (Qceiling (time / td));
      change (ffloor (fdiv time td)) with (Qfloor (time / td)); rewrite E; lia. }
  assert (Hlast : (0 < length (states (relocate place d0)))%nat) by (rewrite Es; cbn; lia).
  destruct (lookup_lt_is_Some_2 (states (relocate place d0)) (Nat.min i1 last))
    as [cur Hcur]; [lia|].
  destruct (lookup_lt_is_Some_2 (states (relocate place d0)) (Nat.min i2 last))
    as [next Hnext]; [lia|].
  rewrite Hcur, Hnext. cbn [default from_option id].
  destruct (built_states d d0 place _ cur Hb Hcur) as (Wc & Cc & Ic & Hfol).
  destruct (built_states d d0 place _ next Hb Hnext) as (Wn & Cn & In & _).
  assert (Hf : follows cur next).
  { destruct Hi12 as [E|E].
    - rewrite E, Hcur in Hnext. injection Hnext as <-. by apply follows_self.
    - apply Hfol. by rewrite <- E. }
  destruct (merge_returns cur next Wc Ic Cn Hf) as (merged & Hm & Wm & Mn & Me).
  rewrite Hm.
  destruct Hf as [Hfn Hfe].
  eexists _, cur, next. split; [done|]. split; [exact Hcur|]. split; [exact Hnext|].
  split; [exact Hi12|].
  set (frame := with_elements _ _ merged).
  assert (Wf : wf_graph frame).
  { destruct Wm as [Hn He]. split; cbn.
    - apply (map_agrees_fmap _ (m_nodes merged)); [|done]. intros x. apply morph_node_id.
    - apply (map_agrees_fmap _ (m_edges merged)); [|done]. intros x.
      by apply calc_alpha_id. }
  split; [done|]. split.
  - intros i. change (node_exists frame i) with (node_exists merged i).
    rewrite !node_exists_has_id by done. rewrite Mn. split.
    + intros [?|(n & Hn & _ & <-)]; [by left|]. right. by exists n.
    + intros [?|(n & Hn & <-)]; [by left|].
      destruct (node_exists cur (elem_id n)) eqn:Ex.
      * left. by apply node_exists_has_id.
      * right. exists n. split; [done|]. split; [by apply Hfn|done].
  - intros j. change (edge_exists frame j) with (edge_exists merged j).
    rewrite !edge_exists_has_id by done. rewrite Me. split.
    + intros [?|(e & He & _ & <-)]; [by left|]. right. by exists e.
    + intros [?|(e & He & <-)]; [by left|].
      destruct (edge_exists cur (elem_id e)) eqn:Ex.
      * left. by apply edge_exists_has_id.
      * right. exists e. split; [done|]. split; [by apply Hfe|done].
Qed.

End FrameReturned.

(** ** interpolator.h: the positions of a frame *)

Section FramePositions.
Local Open Scope Q_scope.

Lemma perform_done_interpolation (it : interpolator Q) p (an : frame_state Q) :
  unit_interval (interpolation an) ->
  unit_interval (interpolation (perform_phase it p (duration it p) an)).
Proof.
  intros Han. destruct p; cbn; try done; apply Qdiv_self_unit.
Qed.

Lemma perform_current_interpolation (it : interpolator Q) p time (an : frame_state Q) :
  0 <= time -> Qltb time (duration it p) = true ->
  unit_interval (interpolation an) ->
  unit_interval (interpolation (perform_phase it p time an)).
Proof.
  intros Ht Hd%Qltb_lt Han. destruct p; cbn; try done; by apply Qdiv_below_unit.
Qed.

Lemma animation_interpolation (it : interpolator Q) value current :
  0 <= value -> get_current_phase it value = Ok current ->
  unit_interval (interpolation (animation_at it current)).
Proof.
  intros Hv H. destruct current as [time j]. unfold get_current_phase in H.
  apply current_phase_from_spec in H as (Ht & _ & p & Hp & Hlt); [|done].
  rewrite Nat.sub_0_r in Hp. unfold animation_at. cbn [fst snd]. rewrite Hp.
  apply perform_current_interpolation; [done..|].
  assert (G : forall ps an, unit_interval (interpolation an) ->
            unit_interval (interpolation
              (foldl (fun an p => perform_phase it p (duration it p) an) an ps))).
  { induction ps as [|q ps IH]; intros an Han; [done|]. cbn [foldl].
    by apply IH, perform_done_interpolation. }
  apply G. cbn. split; [apply Qle_refl|discriminate].
Qed.

Lemma lerp_between (a b v lo hi : Q) :
  0 <= v -> v <= 1 -> lo <= a -> a <= hi -> lo <= b -> b <= hi ->
  lo <= lerp a b v /\ lerp a b v <= hi.
Proof.
  intros. unfold lerp. cbn [fadd fmul fsub Q_scalar]. split; nra.
Qed.

Lemma calc_alpha_pos (an : frame_state Q) (n : node Q) : pos (calc_alpha an n) = pos n.
Proof.
  unfold calc_alpha. destruct (negb (is_old n) && negb (is_new n)); [done|].
  by destruct (_ || _), (is_old n && deleted an), (is_new n && negb (added an)).
Qed.

(** The frames stay where the key frames are: in exact arithmetic, with
    phases of positive duration, when every node of every state lies in a
    rectangle, so does every node of every frame that [operator()]
    returns. *)
Theorem frames_within_canvas (it : interpolator Q) (dgraph : dynamic_graph Q)
    (time width height : Q) (centre : coords Q) (frame : graph_state Q) :
  positive_phases it ->
  (forall g n, g ∈ states dgraph -> n ∈ nodes g -> in_canvas width height centre (pos n)) ->
  interpolate it dgraph time = Ok frame ->
  forall n, n ∈ nodes frame -> in_canvas width height centre (pos n).
Proof.
  intros _ Hst. unfold interpolate.
  change (fltb time fzero) with (Qltb time 0).
  destruct (Qltb time 0) eqn:Et; [done|]. apply Qltb_ge in Et.
  destruct (fgtb time _); [done|].
  destruct (states dgraph) as [|first rest] eqn:Es.
  { intros [= <-] n Hn. by apply elem_of_nil in Hn. }
  cbn zeta.
  destruct (get_current_phase it _) as [current|] eqn:Ec; [|done].
  assert (Han : unit_interval (interpolation (animation_at it current))).
  { eapply animation_interpolation; [|exact Ec]. by apply local_time_nonneg. }
  set (an := animation_at it current) in *.
  set (cur := default first (_ !! Nat.min (Z.to_nat (ffloor _)) _)).
  set (next := default first (_ !! Nat.min (Z.to_nat (fceil _)) _)).
  assert (Hin : forall i n, n ∈ nodes (default first ((first :: rest) !! i)) ->
            in_canvas width height centre (pos n)).
  { intros i n. destruct ((first :: rest) !! i) as [g|] eqn:E; cbn.
    - apply Hst. by eapply list_elem_of_lookup_2.
    - apply Hst. by left. }
  assert (Hcur : forall n, n ∈ nodes cur -> in_canvas width height centre (pos n))
    by apply Hin.
  assert (Hnext : forall n, n ∈ nodes next -> in_canvas width height centre (pos n))
    by apply Hin.
  set (cleared := with_elements _ _ cur).
  assert (Hcl : forall n, n ∈ nodes cleared -> in_canvas width height centre (pos n)).
  { intros n (n0 & -> & Hn0)%list_elem_of_fmap. exact (Hcur n0 Hn0). }
  assert (Himp : forall n, n ∈ nodes (import_nodes next cleared) ->
            in_canvas width height centre (pos n)).
  { unfold import_nodes. revert Hcl Hnext. generalize cleared (nodes next). clear.
    intros g ns. revert g. induction ns as [|m ns IH]; intros g Hg Hns; [done|].
    cbn [foldl]. apply IH; [|intros x Hx; apply Hns; by right].
    destruct (is_new m); [|done]. intros x Hx.
    apply push_node_elements in Hx as [Hx| ->]; [by apply Hg|].
    change (pos (set_is_old false m)) with (pos m). apply (Hns m). by left. }
  destruct (import_edges _ _) as [merged|] eqn:Em; [|done].
  assert (Hm : forall n, n ∈ nodes merged -> in_canvas width height centre (pos n)).
  { revert Em Himp. generalize (import_nodes next cleared) (edges next). clear.
    intros g es. revert g. induction es as [|e es IH]; intros g; cbn [import_edges].
    - by intros [= <-].
    - destruct (is_new e); [|apply IH].
      destruct (push_edge (set_is_old false e) g) as [g1|] eqn:E; [|done].
      intros Hi Hg. eapply IH; [exact Hi|].
      destruct (push_edge_elements _ _ _ E) as [A _]. by rewrite A. }
  intros [= <-] n (n0 & -> & Hn0)%list_elem_of_fmap. unfold morph_node.
  rewrite calc_alpha_pos. specialize (Hm n0 Hn0).
  destruct (node_exists next (elem_id n0)); [|done].
  destruct (node_at next (elem_id n0)) as [nx|] eqn:Ex; [|done].
  assert (Hx : in_canvas width height centre (pos nx)).
  { apply Hnext. revert Ex. unfold node_at, container_at.
    destruct (c_map _ !! _); [|done]. apply list_elem_of_lookup_2. }
  destruct Han as [V0 V1]. destruct Hm as (A1 & A2 & A3 & A4).
  destruct Hx as (B1 & B2 & B3 & B4). unfold in_canvas.
  cbn [pos set_pos node_coords c_x c_y].
  destruct (lerp_between (c_x (pos n0)) (c_x (pos nx)) (interpolation an)
              (c_x centre - width / 2) (c_x centre + width / 2)) as [X1 X2]; [done..|].
  destruct (lerp_between (c_y (pos n0)) (c_y (pos nx)) (interpolation an)
              (c_y centre - height / 2) (c_y centre + height / 2)) as [Y1 Y2]; [done..|].
  done.
Qed.

End FramePositions.

(** ** interpolator.h: the key frames *)

Section KeyFrames.
Local Open Scope Q_scope.

(* at a key frame the state is merged with itself *)
Lemma import_nodes_self (ns : list (node Q)) (g : graph_state Q) :
  (forall n, n ∈ ns -> is_Some (c_map (m_nodes g) !! elem_id n)) ->
  foldl (fun g n => if is_new n then push_node (set_is_old false n) g else g) g ns = g.
Proof.
  induction ns as [|n ns IH]; intros Hns; [done|]. cbn [foldl].
  assert (Hn : (if is_new n then push_node (set_is_old false n) g else g) = g).
  { destruct (is_new n); [|done]. destruct (Hns n) as [k Hk]; [by left|].
    unfold push_node, push_node_at.
    change (elem_id (set_is_old false n)) with (elem_id n). by rewrite Hk. }
  rewrite Hn. apply IH. intros m Hm. apply Hns. by right.
Qed.

Lemma import_edges_self (es : list (edge Q)) (g : graph_state Q) :
  (forall e, e ∈ es -> is_Some (c_map (m_edges g) !! elem_id e)) ->
  import_edges es g = Ok g.
Proof.
  induction es as [|e es IH]; intros Hes; [done|]. cbn [import_edges].
  assert (IH' : import_edges es g = Ok g) by (apply IH; intros f Hf; apply Hes; by right).
  destruct (is_new e); [|done]. destruct (Hes e) as [k Hk]; [by left|].
  unfold push_edge, push_edge_at.
  change (elem_id (set_is_old false e)) with (elem_id e). rewrite Hk. cbn [fst]. done.
Qed.

(* the frame state at the start of a transition whose first phase lasts *)
Lemma first_phase_start (it : interpolator Q) p0 (value : Q) :
  value == 0 -> 0 < duration it p0 ->
  let an := perform_phase it p0 value initial_frame_state in
  added an = false /\ deleted an = false /\ fs_alpha an == 0.
Proof.
  intros Hv Hd.
  assert (Hge : Qle_bool (duration it p0) value = false).
  { destruct (Qle_bool (duration it p0) value) eqn:E; [|done].
    apply Qle_bool_iff in E. rewrite Hv in E. lra. }
  assert (Hdiv : value / duration it p0 == 0).
  { rewrite Hv. field. lra. }
  destruct p0; cbn in Hge, Hdiv |- *; unfold fgeb; cbn; rewrite ?Hge; repeat split;
    try done; try reflexivity.
Qed.

Lemma key_alpha {T} `{!Animated Q T} (an : frame_state Q) (el : T) :
  (forall a x, alpha (set_alpha a x) = a) ->
  (forall a x, is_new (set_alpha a x) = is_new x) ->
  (forall a x, is_old (set_alpha a x) = is_old x) ->
  added an = false -> deleted an = false -> fs_alpha an == 0 ->
  is_new el = false -> alpha el = 1 ->
  alpha (calc_alpha an el) == 1
  /\ is_new (calc_alpha an el) = false /\ is_old (calc_alpha an el) = is_old el.
Proof.
  intros Hset Hnew Hold Ha Hd Hal Hn He. unfold calc_alpha. rewrite Hn, Ha, Hd.
  destruct (is_old el) eqn:Eo; cbn [negb andb orb]; [|by rewrite He, Hn].
  destruct (deleting an); cbn [orb].
  - rewrite Hset, Hnew, Hold. split; [|done]. unfold of_bool. cbn.
    change (inject_Z 1) with 1. change (inject_Z 0) with 0. rewrite Hal. ring.
  - by rewrite He, Hn.
Qed.

Lemma calc_alpha_ends (an : frame_state Q) (e : edge Q) :
  one_id (calc_alpha an e) = one_id e /\ two_id (calc_alpha an e) = two_id e.
Proof.
  unfold calc_alpha. destruct (negb (is_old e) && negb (is_new e)); [done|].
  by destruct (_ || _), (is_old e && deleted an), (is_new e && negb (added an)).
Qed.

(** At the time [k * transition_duration()] the animation shows the state
    [k]: with a first phase of positive duration, on a dynamic graph fresh
    from [build] with the nodes placed anywhere, the frame of that time has
    the nodes and the edges of the state in their order, each node at its
    position and everything fully visible; [is_new] is cleared and [is_old]
    kept. *)
Theorem interpolate_keyframe
    (it : interpolator Q) (d d0 : dynamic_graph Q) (place : nat -> N -> coords Q)
    (k : nat) (g : graph_state Q) (p0 : phase) (ps : list phase) :
  build d = Normal d0 ->
  states (relocate place d0) !! k = Some g ->
  m_phases it = p0 :: ps -> 0 < duration it p0 -> 0 < transition_duration it ->
  inject_Z (Z.of_nat k) * transition_duration it <= length_of it (relocate place d0) ->
  exists frame,
    interpolate it (relocate place d0) (inject_Z (Z.of_nat k) * transition_duration it)
    = Ok frame
    /\ Forall2 (fun n m => elem_id n = elem_id m
                  /\ c_x (pos n) == c_x (pos m) /\ c_y (pos n) == c_y (pos m)
                  /\ alpha n == 1 /\ is_new n = false /\ is_old n = is_old m)
         (nodes frame) (nodes g)
    /\ Forall2 (fun e f => elem_id e = elem_id f
                  /\ one_id e = one_id f /\ two_id e = two_id f
                  /\ alpha e == 1 /\ is_new e = false /\ is_old e = is_old f)
         (edges frame) (edges g).
Proof.
  intros Hb Hg Hph Hd0 Htd Hlen.
  set (td := transition_duration it) in *.
  set (time := inject_Z (Z.of_nat k) * td) in *.
  assert (Hk0 : 0 <= inject_Z (Z.of_nat k)).
  { change 0 with (inject_Z 0). rewrite <- Zle_Qle. lia. }
  assert (H0 : 0 <= time) by (unfold time; nra).
  unfold interpolate.
  change (fltb time fzero) with (Qltb time 0).
  change (fgtb time (length_of it (relocate place d0)))
    with (Qltb (length_of it (relocate place d0)) time).
  apply Qltb_ge in H0 as H0'. apply Qltb_ge in Hlen as Hlen'. rewrite H0', Hlen'.
  destruct (states (relocate place d0)) as [|first rest] eqn:Es; [done|].
  cbn zeta. rewrite <- Es in Hg |- *. fold td.
  assert (Hq : time / td == inject_Z (Z.of_nat k)) by (unfold time; field; lra).
  assert (Hfl : Z.to_nat (ffloor (fdiv time td)) = k).
  { change (ffloor (fdiv time td)) with (Qfloor (time / td)).
    rewrite (Qfloor_comp _ _ Hq), Qfloor_Z. apply Nat2Z.id. }
  assert (Hce : Z.to_nat (fceil (fdiv time td)) = k).
  { change (fceil (fdiv time td)) with (Qceiling (time / td)).
    rewrite (Qceiling_comp _ _ Hq), Qceiling_Z. apply Nat2Z.id. }
  rewrite Hfl, Hce.
  assert (Hkl : (k < length (states (relocate place d0)))%nat) by (by eapply lookup_lt_Some).
  rewrite Nat.min_l by lia. rewrite Hg. cbn [default from_option id].
  set (value := fsub time (fmul (of_nat k) td)).
  assert (Hv : value == 0).
  { unfold value, time, of_nat. cbn [fsub fmul of_Z Q_scalar]. ring. }
  assert (Hc : get_current_phase it value = Ok (value, 0%nat)).
  { unfold get_current_phase. rewrite Hph. cbn [current_phase_from].
    change (fltb value (duration it p0)) with (Qltb value (duration it p0)).
    assert (E : Qltb value (duration it p0) = true) by (apply Qltb_lt; rewrite Hv; lra).
    by rewrite E. }
  rewrite Hc.
  assert (Han : animation_at it (value, 0%nat)
                = perform_phase it p0 value initial_frame_state).
  { unfold animation_at. cbn [fst snd take foldl]. by rewrite Hph. }
  rewrite Han. set (an := perform_phase it p0 value initial_frame_state).
  destruct (first_phase_start it p0 value Hv Hd0) as (Ha & Hdel & Hal). fold an in Ha, Hdel, Hal.
  destruct (built_states d d0 place k g Hb Hg) as (Wg & Cg & Ig & _).
  set (cleared := with_elements _ _ g).
  assert (Hnodes : import_nodes g cleared = cleared).
  { apply import_nodes_self. intros n Hn. cbn.
    apply (map_agrees_exists (m_nodes g)); [apply Wg|by exists n]. }
  rewrite Hnodes.
  assert (Hedges : import_edges (edges g) cleared = Ok cleared).
  { apply import_edges_self. intros e He. cbn.
    apply (map_agrees_exists (m_edges g)); [apply Wg|by exists e]. }
  rewrite Hedges. eexists. split; [done|].
  assert (Hdef : alpha_default g).
  { pose proof (build_alpha_default d d0 Hb) as Hall.
    rewrite relocate_lookup in Hg. destruct (states d0 !! k) as [g0|] eqn:Eg; [|done].
    cbn in Hg. injection Hg as <-. destruct (Forall_lookup_1 _ _ _ _ Hall Eg) as [An Ae].
    split.
    - intros n. rewrite nodes_relocate_state. intros (m & -> & Hm)%list_elem_of_fmap.
      exact (An m Hm).
    - intros e. rewrite edges_relocate_state. apply Ae. }
  destruct Hdef as [An Ae].
  change (nodes (with_elements ?a ?b ?c)) with a. change (edges (with_elements ?a ?b ?c)) with b.
  unfold cleared. change (nodes (with_elements ?a ?b ?c)) with a.
  change (edges (with_elements ?a ?b ?c)) with b.
  rewrite <- !list_fmap_compose. split.
  - apply Forall2_fmap_l, Forall_Forall2_diag, Forall_forall. intros n Hn. cbn [compose].
    unfold morph_node. change (elem_id (clear_new n)) with (elem_id n).
    assert (Hex : node_exists g (elem_id n) = true)
      by (apply node_exists_has_id; [done|by exists n]).
    assert (Hat : node_at g (elem_id n) = Some n)
      by (apply (map_agrees_at_Some (m_nodes g)); [apply Wg|done]).
    rewrite Hex, Hat.
    set (moved := set_pos _ (clear_new n)).
    destruct (key_alpha an moved) as (K1 & K2 & K3); try done.
    { exact (An n Hn). }
    rewrite calc_alpha_id by done. rewrite calc_alpha_pos.
    split; [done|]. split; [|split; [|done]].
    + unfold moved. cbn [pos set_pos node_coords c_x]. unfold lerp.
      change (pos (clear_new n)) with (pos n).
      change fadd with Qplus. change fmul with Qmult. change fsub with Qminus. ring.
    + unfold moved. cbn [pos set_pos node_coords c_y]. unfold lerp.
      change (pos (clear_new n)) with (pos n).
      change fadd with Qplus. change fmul with Qmult. change fsub with Qminus. ring.
  - apply Forall2_fmap_l, Forall_Forall2_diag, Forall_forall. intros e He. cbn [compose].
    destruct (key_alpha an (clear_new e)) as (K1 & K2 & K3); try done.
    { exact (Ae e He). }
    destruct (calc_alpha_ends an (clear_new e)) as [E1 E2].
    split; [by rewrite calc_alpha_id|]. by split; [|split].
Qed.

End KeyFrames.

(** ** parallel.h, foresighted_parallel.h: how the work is split *)

Lemma elem_of_concat {A} (x : A) (ls : list (list A)) :
  x ∈ concat ls <-> exists l, x ∈ l /\ l ∈ ls.
Proof.
  induction ls as [|l ls IH]; cbn.
  - split; [by intros ?%elem_of_nil|]. by intros (l & _ & ?%elem_of_nil).
  - rewrite elem_of_app, IH. split.
    + intros [?|(k & ? & ?)]; [exists l; split; [done|by left]|].
      exists k. split; [done|by right].
    + intros (k & Hx & [->|Hk]%elem_of_cons); [by left|]. right. by exists k.
Qed.

Lemma NoDup_concat_fmap {A B} (f : A -> list B) (bs : list A) :
  NoDup bs -> (forall b, b ∈ bs -> NoDup (f b)) ->
  (forall b1 b2 x, b1 ∈ bs -> b2 ∈ bs -> x ∈ f b1 -> x ∈ f b2 -> b1 = b2) ->
  NoDup (concat (f <$> bs)).
Proof.
  induction bs as [|b bs IH]; intros Hnd Hf Hdis; cbn; [constructor|].
  apply NoDup_cons in Hnd as [Hb Hnd]. apply NoDup_app. split; [apply Hf; by left|].
  split.
  - intros x Hx (l & Hl & (b' & -> & Hb')%list_elem_of_fmap)%elem_of_concat.
    apply Hb. rewrite (Hdis b b' x); [done|by left|by right|done|done].
  - apply IH; [done|intros b' Hb'; apply Hf; by right|].
    intros b1 b2 x H1 H2. apply Hdis; by right.
Qed.

(** The interleaved split of [for_each_interleaved]: with at least one
    thread, the index sequences of the threads [0 .. threads - 1], put
    together, hold every index below [size] exactly once. *)
Theorem interleaved_split (threads size : nat) :
  0 < threads ->
  concat ((fun b => strided b threads size) <$> seq 0 threads) ≡ₚ seq 0 size.
Proof.
  intros Hth. apply NoDup_Permutation.
  - apply NoDup_concat_fmap.
    + apply NoDup_seq.
    + intros b _. by apply strided_from_NoDup.
    + intros b1 b2 x H1%elem_of_seq H2%elem_of_seq.
      rewrite !strided_elem by lia. intros [_ <-] [_ <-]. done.
  - apply NoDup_seq.
  - intros x. rewrite elem_of_concat, elem_of_seq. split.
    + intros (l & Hx & (b & -> & Hb%elem_of_seq)%list_elem_of_fmap).
      apply strided_elem in Hx as [? _]; lia.
    + intros [_ Hx]. exists (strided (x mod threads) threads size).
      assert (Hm : x mod threads < threads) by (apply Nat.mod_upper_bound; lia).
      split; [by apply strided_elem|]. apply list_elem_of_fmap. exists (x mod threads).
      split; [done|]. apply elem_of_seq. lia.
Qed.

Section Chunks.
Local Open Scope N_scope.

Lemma uint_of_small (z : Z) : (0 <= z < 2 ^ 32)%Z -> Z.of_N (uint_of z) = z.
Proof.
  intros Hz. unfold uint_of, uint_wrap. rewrite Z.mod_small by done. lia.
Qed.

Lemma chunk_loop_spec (chunk size : N) (r : nat) (start : N) :
  start <= size -> size < 2 ^ 31 -> chunk <= size ->
  chunk_loop chunk size r start
  = (N.min (start + N.of_nat r * chunk) size, N.min (start + (N.of_nat r + 1) * chunk) size).
Proof.
  intros Hs Hsz Hc. revert start Hs. induction r as [|r IH]; intros start Hs;
    cbn [chunk_loop].
  - assert (E1 : uint_of (Z.of_N start + Z.of_N chunk) = start + chunk).
    { apply N2Z.inj. rewrite uint_of_small by lia. lia. }
    rewrite E1. destruct (size <? start + chunk) eqn:E.
    + apply N.ltb_lt in E.
      assert (E2 : uint_of (Z.of_N size - Z.of_N start) = size - start).
      { apply N2Z.inj. rewrite uint_of_small by lia. lia. }
      rewrite E2.
      assert (E3 : uint_of (Z.of_N start + Z.of_N (size - start)) = size).
      { apply N2Z.inj. rewrite uint_of_small by lia. lia. }
      rewrite E3. f_equal; lia.
    + apply N.ltb_ge in E. rewrite E1. f_equal; lia.
  - assert (E1 : uint_of (Z.of_N start + Z.of_N chunk) = start + chunk).
    { apply N2Z.inj. rewrite uint_of_small by lia. lia. }
    rewrite E1. destruct (size <? start + chunk) eqn:E.
    + apply N.ltb_lt in E.
      assert (E2 : uint_of (Z.of_N size - Z.of_N start) = size - start).
      { apply N2Z.inj. rewrite uint_of_small by lia. lia. }
      rewrite E2.
      assert (E3 : uint_of (Z.of_N start + Z.of_N (size - start)) = size).
      { apply N2Z.inj. rewrite uint_of_small by lia. lia. }
      rewrite E3, IH by lia. f_equal; lia.
    + apply N.ltb_ge in E. rewrite E1, IH by lia. f_equal; lia.
Qed.

Lemma chunk_size (count size : N) :
  0 < count -> size < 2 ^ 31 ->
  let chunk := uint_of (Qceiling (inject_Z (Z.of_N size) / inject_Z (Z.of_N count))) in
  chunk <= size /\ size <= count * chunk.
Proof.
  intros Hc Hs.
  set (q := (inject_Z (Z.of_N size) / inject_Z (Z.of_N count))%Q).
  assert (Hcq : (1 <= inject_Z (Z.of_N count))%Q).
  { change 1%Q with (inject_Z 1). rewrite <- Zle_Qle. lia. }
  assert (Hsq : (0 <= inject_Z (Z.of_N size))%Q).
  { change 0%Q with (inject_Z 0). rewrite <- Zle_Qle. lia. }
  assert (Hq0 : (0 <= q)%Q) by (apply Qle_shift_div_l; lra).
  assert (Hq1 : (q <= inject_Z (Z.of_N size))%Q).
  { apply Qle_shift_div_r; [lra|]. nra. }
  assert (Hce0 : (0 <= Qceiling q)%Z).
  { change 0%Z with (Qceiling 0). by apply Qceiling_resp_le. }
  assert (Hce1 : (Qceiling q <= Z.of_N size)%Z).
  { rewrite <- (Qceiling_Z (Z.of_N size)). by apply Qceiling_resp_le. }
  assert (Hce2 : (Z.of_N size <= Z.of_N count * Qceiling q)%Z).
  { pose proof (Qle_ceiling q) as H.
    assert (Hm : (q * inject_Z (Z.of_N count) == inject_Z (Z.of_N size))%Q).
    { unfold q. field. lra. }
    assert (H2 : (q * inject_Z (Z.of_N count)
                  <= inject_Z (Qceiling q) * inject_Z (Z.of_N count))%Q).
    { apply Qmult_le_compat_r; lra. }
    rewrite Hm, <- inject_Z_mult, <- Zle_Qle in H2. lia. }
  cbn zeta. assert (E : Z.of_N (uint_of (Qceiling q)) = Qceiling q).
  { apply uint_of_small. lia. }
  split; lia.
Qed.

(** The chunks of [for_each(size, func)], with the quotient of the size
    by the number of threads taken exactly, for a size and a number of
    threads below [2^24], which [float] holds without rounding: the chunk
    of thread 0 starts at 0, the chunk of every thread starts where the
    chunk of the thread before it ends, no chunk is longer than the first,
    and the chunk of the last thread ends at [size]; the chunks, in the
    order of the threads, tile the indices below [size]. *)
Theorem get_chunk_tiles (count size : N) :
  0 < count -> count < 2 ^ 24 -> size < 2 ^ 24 ->
  fst (get_chunk (F := Q) count 0 size) = 0
  /\ (forall t, fst (get_chunk (F := Q) count (S t) size)
                = snd (get_chunk (F := Q) count t size))
  /\ (forall t, fst (get_chunk (F := Q) count t size) <= snd (get_chunk (F := Q) count t size)
                /\ snd (get_chunk (F := Q) count t size) <= size
                /\ snd (get_chunk (F := Q) count t size) - fst (get_chunk (F := Q) count t size)
                   <= snd (get_chunk (F := Q) count 0 size))
  /\ (forall t, count <= N.of_nat (S t) -> snd (get_chunk (F := Q) count t size) = size).
Proof.
  intros Hc _ Hs'. assert (Hs : size < 2 ^ 31) by lia.
  destruct (chunk_size count size Hc Hs) as [H1 H2]. cbn zeta in H1, H2.
  unfold get_chunk. cbn [fceil fdiv of_Z Q_scalar].
  set (chunk := uint_of _) in *.
  split; [rewrite chunk_loop_spec by lia; cbn [fst]; lia|]. split; [|split].
  - intros t. rewrite !chunk_loop_spec by lia. cbn [fst snd]. f_equal. lia.
  - intros t. rewrite !chunk_loop_spec by lia. cbn [fst snd]. lia.
  - intros t Ht. rewrite chunk_loop_spec by lia. cbn [snd]. nia.
Qed.

End Chunks.

(** ** parse.h: white space, and what the reader throws *)

Section Spacing.

Lemma reduce_loop_blank (ws s : list ascii) ignore res :
  blank ws -> ws <> [] ->
  reduce_loop (ws ++ s) ignore res
  = reduce_loop s true (if ignore then res else res ++ [" "%char]).
Proof.
  intros Hws Hne. destruct ws as [|c ws]; [done|]. clear Hne.
  apply Forall_cons in Hws as [Hc Hws]. cbn [app reduce_loop]. rewrite Hc. cbn [negb].
  rewrite orb_false_r.
  assert (G : forall r, reduce_loop (ws ++ s) true r = reduce_loop s true r).
  { induction ws as [|c' ws IH]; intros r; [done|].
    apply Forall_cons in Hws as [Hc' Hws]. cbn [app reduce_loop]. rewrite Hc'. cbn.
    by apply IH. }
  rewrite G. by destruct ignore.
Qed.

Lemma reduce_loop_more (more : list (list ascii * list ascii)) (trail res : list ascii) :
  Forall (fun p => blank (fst p) /\ fst p <> [] /\ word (snd p)) more -> blank trail ->
  reduce_loop (concat ((fun p => fst p ++ snd p) <$> more) ++ trail) false res
  = res ++ concat ((fun p => " "%char :: snd p) <$> more)
    ++ (if bool_decide (trail = []) then [] else [" "%char]).
Proof.
  intros Hm Ht. revert res. induction Hm as [|[s w] more (Hs & Hne & Hw & Hp) _ IH];
    intros res; cbn [fmap list_fmap concat app fst snd].
  - destruct trail as [|c trail].
    + cbn. by rewrite app_nil_r.
    + rewrite bool_decide_eq_false_2 by done.
      rewrite <- (app_nil_r (c :: trail)). by rewrite reduce_loop_blank.
  - rewrite <- !app_assoc. rewrite reduce_loop_blank by done.
    rewrite reduce_loop_word by done. rewrite IH. by rewrite <- !app_assoc.
Qed.

Lemma split_loop_more (w chunk : list ascii) (more : list (list ascii * list ascii)) res :
  word w -> Forall (fun p => word (snd p)) more ->
  split_loop (w ++ concat ((fun p => " "%char :: snd p) <$> more)) " " chunk res
  = res ++ (chunk ++ w) :: (snd <$> more).
Proof.
  intros Hw Hm. revert w chunk res Hw.
  induction Hm as [|[s w'] more Hw' _ IH]; intros w chunk res [Hne Hp];
    cbn [fmap list_fmap concat app fst snd].
  - rewrite app_nil_r. by apply split_loop_last.
  - change ((" "%char :: w') ++ ?r) with (" "%char :: (w' ++ r)).
    rewrite split_loop_word by done. rewrite IH by done. by rewrite <- app_assoc.
Qed.

(** The parameters of a statement are its words, whatever white space
    stands before, between and after them: blanks, tabs and line ends
    alike, in any number. *)
Theorem parameters_spaced (lead trail first : list ascii)
    (more : list (list ascii * list ascii)) :
  blank lead -> blank trail -> word first ->
  Forall (fun p => blank (fst p) /\ fst p <> [] /\ word (snd p)) more ->
  parameters (lead ++ spaced first more ++ trail) = first :: (snd <$> more).
Proof.
  intros Hl Ht Hw Hm. unfold parameters, reduce_whitespace, spaced.
  set (J := first ++ concat ((fun p => " "%char :: snd p) <$> more)).
  set (mark := if bool_decide (trail = []) then [] else [" "%char]).
  assert (Hbody : forall ignore res,
            reduce_loop ((first ++ concat ((fun p => fst p ++ snd p) <$> more)) ++ trail)
              ignore res = res ++ J ++ mark).
  { intros ignore res. rewrite <- app_assoc. destruct Hw as [Hne Hp].
    rewrite reduce_loop_word by done. rewrite reduce_loop_more by done.
    unfold J, mark. by rewrite <- !app_assoc. }
  assert (Hloop : reduce_loop
                    (lead ++ (first ++ concat ((fun p => fst p ++ snd p) <$> more)) ++ trail)
                    false []
                  = (if bool_decide (lead = []) then [] else [" "%char]) ++ J ++ mark).
  { destruct lead as [|c lead].
    - rewrite bool_decide_eq_true_2 by done. cbn [app]. by rewrite Hbody.
    - rewrite bool_decide_eq_false_2 by done. rewrite reduce_loop_blank by done.
      by rewrite Hbody. }
  rewrite Hloop. cbv zeta.
  destruct Hw as [Hne Hp]. destruct first as [|c0 first']; [done|].
  apply Forall_cons in Hp as Hp0. destruct Hp0 as [Hc0 _].
  assert (Hhead : match (if bool_decide (lead = []) then [] else [" "%char]) ++ J ++ mark with
                  | c :: r =>
                      if Ascii.eqb c " "
                      then r else (if bool_decide (lead = []) then [] else [" "%char]) ++ J ++ mark
                  | [] => (if bool_decide (lead = []) then [] else [" "%char]) ++ J ++ mark
                  end = J ++ mark).
  { destruct (bool_decide (lead = [])); cbn [app].
    - unfold J. cbn [app]. by rewrite (plain_not_space c0).
    - done. }
  rewrite Hhead.
  assert (Hlast : exists J' x, J = J' ++ [x] /\ plain x).
  { unfold J. destruct more as [|p more'] using rev_ind.
    - cbn. rewrite app_nil_r.
      destruct (word_last (c0 :: first')) as (c' & x & E & Hx); [done..|]. by exists c', x.
    - rewrite fmap_app, concat_app. cbn [fmap list_fmap concat].
      apply Forall_app in Hm as [_ Hlastp]. apply Forall_cons in Hlastp as [(_ & _ & Hwp) _].
      destruct Hwp as [Hn1 Hp1].
      destruct (word_last (snd p) Hn1 Hp1) as (c' & x & E & Hx).
      exists ((c0 :: first') ++ concat ((fun p => " "%char :: snd p) <$> more')
              ++ " "%char :: c'), x.
      split; [|done]. rewrite E, app_nil_r. rewrite <- !app_assoc. cbn [app]. done. }
  destruct Hlast as (J' & x & EJ & Hx).
  assert (Htail : match last (J ++ mark) with
                  | Some c => if Ascii.eqb c " " then removelast (J ++ mark) else J ++ mark
                  | None => J ++ mark
                  end = J).
  { unfold mark. destruct (bool_decide (trail = [])).
    - rewrite app_nil_r, EJ, last_snoc. by rewrite (plain_not_space x).
    - rewrite last_snoc. change (Ascii.eqb " " " ") with true. cbv iota.
      by rewrite removelast_last. }
  rewrite Htail. unfold split, J.
  rewrite (split_loop_more (c0 :: first') [] more []); [done|done|].
  eapply Forall_impl; [exact Hm|]. by intros p (_ & _ & ?).
Qed.

End Spacing.

Section ReaderOutcome.
Context {F : Type} `{!Scalar F, !Textual F}.











End ReaderOutcome.

(** ** Instances of the further properties on concrete inputs *)

(** Node 0 is in keyframe 0 only and node 1 in keyframe 1 only: they share
    the partition node 0, and no keyframe holds both. *)
Lemma gap_partitions_disjoint_live_sets_witness :
  let sts := states (built relay_log) in
  exists sg gap,
    calculate_supergraph sts = Ok sg
    /\ calculate_gap sg (node_live_times sts) (edge_live_times sts) = Ok gap
    /\ (elem_id <$> nodes sg) = [0%N; 1%N]
    /\ (fun g => elem_id <$> nodes g) <$> sts = [[0%N]; [1%N]]
    /\ partition_of gap 0 = Some 0%N /\ partition_of gap 1 = Some 0%N
    /\ (forall n, n ∈ nodes sg ->
          exists P, assigned gap (elem_id n) P
                    /\ forall Q, assigned gap (elem_id n) Q -> Q = P)
    /\ (forall n1 n2 P, n1 ∈ nodes sg -> n2 ∈ nodes sg -> elem_id n1 <> elem_id n2 ->
          assigned gap (elem_id n1) P -> assigned gap (elem_id n2) P ->
          disjoint_live (live_of (node_live_times sts) (elem_id n1))
                        (live_of (node_live_times sts) (elem_id n2))
          /\ forall t g, sts !! t = Some g ->
               ~ (has_id (nodes g) (elem_id n1) /\ has_id (nodes g) (elem_id n2))).
Proof.
  cbn zeta.
  destruct (calculate_supergraph (states (built relay_log))) as [sg|] eqn:Esg;
    [|by vm_compute in Esg].
  destruct (calculate_gap sg (node_live_times (states (built relay_log)))
              (edge_live_times (states (built relay_log)))) as [gap|] eqn:Egap;
    [|vm_compute in Esg; injection Esg as <-; by vm_compute in Egap].
  exists sg, gap. split; [done|]. split; [done|].
  split; [vm_compute in Esg; by injection Esg as <-|].
  split; [vm_compute; reflexivity|].
  split; [vm_compute in Esg; injection Esg as <-; vm_compute in Egap;
          by injection Egap as <-|].
  split; [vm_compute in Esg; injection Esg as <-; vm_compute in Egap;
          by injection Egap as <-|].
  destruct (gap_partitions_disjoint_live_sets (states (built relay_log)) sg gap Esg Egap)
    as (A & _ & B).
  by split.
Defined.

Lemma push_node_then_lookup_witness :
  wf_graph (single_node 0 0)
  /\ nodes (push_node (new_node 5) (single_node 0 0))
     = nodes (single_node 0 0) ++ [new_node 5]
  /\ edges_at_node (push_node (new_node 5) (single_node 0 0)) 5 = Some ∅.
Proof.
  assert (Hwf : wf_graph (single_node 0 0)) by apply wf_push_node, wf_empty_graph.
  split; [exact Hwf|].
  destruct (push_node_then_lookup (new_node 5) (single_node 0 0) Hwf)
    as (_ & _ & _ & H & _).
  destruct H as (A & _ & _ & B); [vm_compute; reflexivity|].
  split; [exact A|exact B].
Defined.

Lemma push_edge_outcome_witness :
  wf_graph (single_node 0 0)
  /\ exists g', push_edge (new_edge 0 0 0) (single_node 0 0) = Normal g'
       /\ edges g' = edges (single_node 0 0) ++ [new_edge 0 0 0].
Proof.
  assert (Hwf : wf_graph (single_node 0 0)) by apply wf_push_node, wf_empty_graph.
  split; [exact Hwf|].
  destruct (push_edge_outcome (new_edge 0 0 0) (single_node 0 0) Hwf) as [_ H].
  destruct H as [H _]; [vm_compute; reflexivity|].
  destruct H as (g' & Hp & _ & _ & He & _).
  { split; vm_compute; eauto. }
  by exists g'.
Defined.

Lemma push_edge_throw_leaves_entry_witness :
  edge_exists (single_node 0 0) (elem_id (new_edge (F := Q) 0 0 7)) = false
  /\ m_index (single_node 0 0) !! one_id (new_edge (F := Q) 0 0 7) = Some ∅
  /\ (∅ : gmap N N) !! two_id (new_edge (F := Q) 0 0 7) = None
  /\ m_index (single_node 0 0) !! two_id (new_edge (F := Q) 0 0 7) = None
  /\ exists g', push_edge (new_edge 0 0 7) (single_node 0 0)
                = Throws (invalid_graph "node not available") g'
       /\ (m_index g' !! 0%N) ≫= (fun adj => adj !! 7%N) = Some 0%N.
Proof.
  assert (H1 : edge_exists (single_node 0 0) (elem_id (new_edge (F := Q) 0 0 7)) = false)
    by (vm_compute; reflexivity).
  assert (H2 : m_index (single_node 0 0) !! one_id (new_edge (F := Q) 0 0 7) = Some ∅)
    by (vm_compute; reflexivity).
  assert (H3 : (∅ : gmap N N) !! two_id (new_edge (F := Q) 0 0 7) = None)
    by (vm_compute; reflexivity).
  assert (H4 : m_index (single_node 0 0) !! two_id (new_edge (F := Q) 0 0 7) = None)
    by (vm_compute; reflexivity).
  do 4 (split; [assumption|]).
  destruct (push_edge_throw_leaves_entry (new_edge 0 0 7) (single_node 0 0) ∅ H1 H2 H3 H4)
    as (g' & Hp & _ & _ & Hi & _).
  by exists g'.
Defined.

Lemma remove_node_cascade_witness :
  wf_graph (single_node 0 0)
  /\ exists g', remove_node 0 (single_node 0 0) = Normal g'
       /\ nodes g' = [] /\ m_index g' !! 0%N = None.
Proof.
  assert (Hwf : wf_graph (single_node 0 0)) by apply wf_push_node, wf_empty_graph.
  split; [exact Hwf|].
  destruct (remove_node_cascade 0 (single_node 0 0) Hwf) as [_ H].
  destruct H as (g' & Hr & _ & Hn & _ & _ & Hi & _); [vm_compute; reflexivity|].
  exists g'. split; [done|]. split; [|done]. rewrite Hn. reflexivity.
Defined.

Lemma path_graph_built :
  apply_operations path_operations empty_graph = Normal path_graph.
Proof. vm_compute; reflexivity. Qed.

Lemma path_graph_wf : wf_graph path_graph.
Proof. eapply wf_apply_operations; [apply wf_empty_graph|exact path_graph_built]. Qed.

(** Of the two edges of the path the edge 0 is removed: the edge 1 and the
    three nodes stay. *)
Lemma remove_edge_outcome_witness :
  wf_graph path_graph
  /\ elem_id <$> edges path_graph = [0%N; 1%N]
  /\ edge_exists path_graph 0 = true
  /\ exists g', remove_edge 0 path_graph = Normal g'
       /\ elem_id <$> edges g' = [1%N]
       /\ length (edges g') + 1 = length (edges path_graph)
       /\ m_nodes g' = m_nodes path_graph
       /\ edge_exists g' 0 = false
       /\ edge_at g' 1 = edge_at path_graph 1.
Proof.
  split; [exact path_graph_wf|]. split; [reflexivity|].
  assert (Hex : edge_exists path_graph 0 = true) by (vm_compute; reflexivity).
  split; [exact Hex|].
  destruct (remove_edge_outcome 0 path_graph path_graph_wf) as [_ H].
  destruct (H Hex) as (g' & Hr & _ & Hn & He & Hl & Hx & Hat & _).
  exists g'. split; [exact Hr|]. split; [by rewrite He|].
  split; [exact Hl|]. split; [exact Hn|]. split; [exact Hx|]. by apply Hat.
Defined.

Lemma path_graph_grown : grown path_graph.
Proof.
  pose (g3 := push_node (new_node 2) (push_node (new_node 1)
                (push_node (new_node 0) (empty_graph : graph_state Q)))).
  pose (g4 := left_state (push_edge (new_edge 0 0 1) g3)).
  assert (G3 : grown g3) by (repeat apply grown_node; apply grown_empty).
  assert (E4 : push_edge (new_edge 0 0 1) g3 = Normal g4) by (vm_compute; reflexivity).
  assert (E5 : push_edge (new_edge 1 1 2) g4 = Normal path_graph)
    by (vm_compute; reflexivity).
  exact (grown_edge _ _ _ (grown_edge _ _ _ G3 E4) E5).
Qed.

(** On the path 0 - 1 - 2 the nodes 0 and 1 are joined, in both orders,
    and the nodes 0 and 2 are not. *)
Lemma grown_edge_exists_between_witness :
  grown path_graph
  /\ edge_exists_between path_graph 0 1 = edge_exists_between path_graph 1 0
  /\ edge_exists_between path_graph 0 1 = Some true
  /\ (exists e, e ∈ edges path_graph /\ joins e 0 1)
  /\ edge_exists_between path_graph 2 0 = Some false
  /\ ~ (exists e, e ∈ edges path_graph /\ joins e 2 0).
Proof.
  split; [exact path_graph_grown|].
  destruct (grown_edge_exists_between path_graph 0 1 path_graph_grown) as (A & _ & B).
  destruct (grown_edge_exists_between path_graph 2 0 path_graph_grown) as (_ & _ & C).
  assert (H01 : edge_exists_between path_graph 0 1 = Some true) by (vm_compute; reflexivity).
  assert (H20 : edge_exists_between path_graph 2 0 = Some false) by (vm_compute; reflexivity).
  split; [exact A|]. split; [exact H01|]. split; [by apply B|]. split; [exact H20|].
  intros He. apply C in He. by rewrite H20 in He.
Defined.

Lemma build_states_consistent_witness :
  build fading_log = Normal (built fading_log)
  /\ m_modifications (built fading_log) = []
  /\ length (states (built fading_log)) = length (m_modifications fading_log).
Proof.
  assert (Hb : build fading_log = Normal (built fading_log)) by (vm_compute; reflexivity).
  split; [exact Hb|].
  destruct (build_states_consistent fading_log (built fading_log) Hb) as (A & B & _).
  by split.
Defined.


Lemma add_modification_resizes_witness :
  valid_time 2
  /\ m_modifications (add_modification 2 (mod_push_node 7) (built fading_log))
     = [[]; []; [mod_push_node 7]]
  /\ length (m_modifications (dg_remove_node 4 7 fading_log)) = 5
  /\ m_modifications (dg_remove_node 4 7 fading_log) !! 4 = Some [mod_remove_node 7].
Proof.
  assert (H2 : valid_time 2) by reflexivity.
  assert (H4 : valid_time 4) by reflexivity.
  split; [exact H2|]. split; [reflexivity|].
  destruct (add_modification_resizes 4 (mod_remove_node 7) fading_log H4) as (A & B & _).
  split; [exact A|exact B].
Defined.

Lemma build_consumes_queue_witness :
  valid_time 2
  /\ build fading_log = Normal (built fading_log)
  /\ snd (add_node 2 (built fading_log)) = node_count fading_log
  /\ exists d'', build (fst (add_node 2 (built fading_log))) = Normal d''
       /\ length (states d'') = 3.
Proof.
  assert (H2 : valid_time 2) by reflexivity.
  assert (Hb : build fading_log = Normal (built fading_log)) by (vm_compute; reflexivity).
  split; [exact H2|]. split; [exact Hb|].
  destruct (build_consumes_queue fading_log (built fading_log) 2 H2 Hb)
    as (A & d'' & B & C & _).
  split; [exact A|]. by exists d''.
Defined.

Lemma build_from_fresh_ids_witness :
  (forall g n, g ∈ [single_node 0 0] -> n ∈ nodes g -> (elem_id n < 2 ^ 32 - 1)%N)
  /\ (forall g e, g ∈ [single_node 0 0] -> e ∈ edges g -> (elem_id e < 2 ^ 32 - 1)%N)
  /\ m_modifications (build_from [single_node 0 0] empty_dynamic_graph) = []
  /\ (forall g n, g ∈ states (build_from [single_node 0 0] empty_dynamic_graph) ->
        n ∈ nodes g ->
        (elem_id n < snd (add_node 0 (build_from [single_node 0 0] empty_dynamic_graph)))%N).
Proof.
  assert (H1 : forall g n, g ∈ [single_node 0 0] -> n ∈ nodes g
                           -> (elem_id n < 2 ^ 32 - 1)%N).
  { intros g n ->%list_elem_of_singleton Hn.
    change (nodes (single_node 0 0)) with [set_pos (mk_coords 0%Q 0%Q) (new_node (F := Q) 0)] in Hn.
    apply list_elem_of_singleton in Hn as ->. reflexivity. }
  assert (H2 : forall g e, g ∈ [single_node 0 0] -> e ∈ edges g
                           -> (elem_id e < 2 ^ 32 - 1)%N).
  { intros g e ->%list_elem_of_singleton He. by apply elem_of_nil in He. }
  split; [exact H1|]. split; [exact H2|].
  destruct (build_from_fresh_ids [single_node 0 0] empty_dynamic_graph H1 H2)
    as (A & _ & _ & _ & _ & B & _).
  by split.
Defined.

Lemma live_set_operations_witness :
  StronglySorted le [0; 2] /\ StronglySorted le [1; 2]
  /\ StronglySorted le (setunion [0; 2] [1; 2])
  /\ (forall t, t ∈ intersection [0; 2] [1; 2] <-> t ∈ [0; 2] /\ t ∈ [1; 2]).
Proof.
  assert (Ha : StronglySorted le [0; 2]) by (repeat constructor).
  assert (Hb : StronglySorted le [1; 2]) by (repeat constructor).
  split; [exact Ha|]. split; [exact Hb|].
  destruct (live_set_operations [0; 2] [1; 2] Ha Hb) as (A & _ & _ & B & _).
  by split.
Defined.

Lemma supergraph_unites_witness :
  Forall closed (states (built fading_log))
  /\ exists sg, calculate_supergraph (states (built fading_log)) = Ok sg
       /\ grown sg
       /\ forall i, node_exists sg i = true
            <-> exists g, g ∈ states (built fading_log) /\ has_id (nodes g) i.
Proof.
  assert (Hb : build fading_log = Normal (built fading_log)) by (vm_compute; reflexivity).
  assert (Hc : Forall closed (states (built fading_log))).
  { eapply Forall_impl; [exact (build_invariants _ _ Hb)|]. by intros g (_ & ? & _). }
  split; [exact Hc|].
  destruct (supergraph_unites (states (built fading_log)) Hc) as (sg & A & B & C & _).
  by exists sg.
Defined.

Lemma gap_of_returns_witness :
  Forall closed (states (built relay_log))
  /\ exists gap, gap_of (states (built relay_log)) = Ok gap
       /\ forall g n, g ∈ states (built relay_log) -> n ∈ nodes g ->
            exists P, mg_node_at gap (elem_id n) = Some P /\ P ∈ nodes (m_graph gap).
Proof.
  assert (Hb : build relay_log = Normal (built relay_log)) by (vm_compute; reflexivity).
  assert (Hc : Forall closed (states (built relay_log))).
  { eapply Forall_impl; [exact (build_invariants _ _ Hb)|]. by intros g (_ & ? & _). }
  split; [exact Hc|].
  destruct (gap_of_returns (states (built relay_log)) Hc) as (gap & A & B & _).
  by exists gap.
Defined.

Lemma spread_call_keeps_ids (G : graph_partitioning Q) (w h : Q) :
  c_map (m_nodes (spread_call G w h)) = c_map (m_nodes G)
  /\ elem_id <$> nodes (spread_call G w h) = elem_id <$> nodes G.
Proof.
  split; [done|]. unfold spread_call, with_nodes, nodes. cbn [m_nodes c_vec].
  rewrite <- list_fmap_compose. apply list_fmap_ext. by intros k P _.
Qed.

Lemma spread_call_in_canvas (G : graph_partitioning Q) (w h : Q) (P : node_partition Q) :
  (0 < w)%Q -> (0 < h)%Q -> P ∈ nodes (spread_call G w h) ->
  in_canvas w h (mk_coords 0%Q 0%Q) (pos (np_node P)).
Proof.
  intros Hw Hh. unfold spread_call, with_nodes, nodes. cbn [m_nodes c_vec].
  intros (P0 & -> & _)%list_elem_of_fmap. cbn [np_node]. change (pos (set_pos ?c ?n)) with c.
  unfold in_canvas. cbn [c_x c_y].
  set (p := N.succ_pos (elem_id P0)).
  assert (H1 : (0 <= 1 # (2 * p))%Q) by (by unfold Qle).
  assert (H2 : (1 # (2 * p) <= 1 # 2)%Q) by (unfold Qle; cbn; lia).
  assert (H3 : (0 <= w * (1 # (2 * p)))%Q) by (apply Qmult_le_0_compat; [lra|done]).
  assert (H4 : (w * (1 # (2 * p)) <= w * (1 # 2))%Q).
  { rewrite !(Qmult_comm w). apply Qmult_le_compat_r; [done|lra]. }
  assert (E1 : (w * (1 # 2) == w / 2)%Q) by field.
  rewrite E1 in H4.
  assert (E2 : (0 <= w / 2)%Q) by (rewrite <- E1; apply Qmult_le_0_compat; [lra|done]).
  assert (E3 : (0 <= h / 2)%Q).
  { assert (E : (h * (1 # 2) == h / 2)%Q) by field. rewrite <- E.
    apply Qmult_le_0_compat; [lra|done]. }
  repeat split; lra.
Qed.

Lemma foresighted_layout_returns_witness :
  (forall G w h, c_map (m_nodes (spread_call G w h)) = c_map (m_nodes G)
                 /\ elem_id <$> nodes (spread_call G w h) = elem_id <$> nodes G)
  /\ build fading_log = Normal (built fading_log)
  /\ exists d'',
       @foresighted_call Q _ still_layout spread_call wide_canvas (built fading_log)
       = Normal d''
       /\ length (states d'') = length (states (built fading_log))
       /\ exists place : N -> coords Q,
            states d'' = relocate_state place <$> states (built fading_log).
Proof.
  assert (Hb : build fading_log = Normal (built fading_log)) by (vm_compute; reflexivity).
  split; [exact spread_call_keeps_ids|]. split; [exact Hb|].
  destruct (@foresighted_layout_returns Q _ still_layout spread_call wide_canvas
              fading_log (built fading_log) spread_call_keeps_ids Hb)
    as (d'' & A & B & _ & _ & _ & C).
  exists d''. split; [exact A|]. split; [exact B|]. apply C. reflexivity.
Defined.

Lemma foresighted_layout_within_canvas_witness :
  (0 < m_canvas_width wide_canvas)%Q /\ (0 < m_canvas_height wide_canvas)%Q
  /\ build fading_log = Normal (built fading_log)
  /\ exists d'',
       @foresighted_call Q _ still_layout spread_call wide_canvas (built fading_log)
       = Normal d''
       /\ forall g n, g ∈ states d'' -> n ∈ nodes g ->
            in_canvas 4 2 (mk_coords 10%Q 20%Q) (pos n).
Proof.
  assert (Hw : (0 < m_canvas_width wide_canvas)%Q) by reflexivity.
  assert (Hh : (0 < m_canvas_height wide_canvas)%Q) by reflexivity.
  assert (Hb : build fading_log = Normal (built fading_log)) by (vm_compute; reflexivity).
  split; [exact Hw|]. split; [exact Hh|]. split; [exact Hb|].
  exact (@foresighted_layout_within_canvas still_layout spread_call wide_canvas
           fading_log (built fading_log) Hw Hh spread_call_keeps_ids spread_call_in_canvas
           (fun g w h t _ _ Hg => Hg) Hb).
Defined.

Lemma displacement_within_canvas_witness :
  (0 <= 2)%Q /\ (0 <= 2)%Q
  /\ length [mk_coords 5%Q 0%Q] = length (nodes (single_node 0 0))
  /\ (forall n, n ∈ nodes (displacement (single_node 0 0) 2%Q 2%Q 1%Q [mk_coords 5%Q 0%Q]) ->
        in_canvas 2 2 (mk_coords 0%Q 0%Q) (pos n))
  /\ elem_id <$> nodes (displacement (single_node 0 0) 2%Q 2%Q 1%Q [mk_coords 5%Q 0%Q])
     = elem_id <$> nodes (single_node 0 0).
Proof.
  assert (H0 : (0 <= 2)%Q) by (by vm_compute).
  assert (Hl : length [mk_coords 5%Q 0%Q] = length (nodes (single_node 0 0)))
    by reflexivity.
  split; [exact H0|]. split; [exact H0|]. split; [exact Hl|].
  destruct (displacement_within_canvas (single_node 0 0) 2%Q 2%Q 1%Q [mk_coords 5%Q 0%Q]
              H0 H0 Hl) as (A & B & _).
  by split.
Defined.

(** At the time 5/2, with a transition of 2 seconds, the frame is made of
    the states 1 and 2. *)
Lemma interpolate_returns_witness :
  let dgraph := relocate quarters (built fading_log) in
  build fading_log = Normal (built fading_log)
  /\ states (built fading_log) <> []
  /\ (0 < transition_duration (F := Q) interpolator_phased)%Q
  /\ (0 <= 5 # 2)%Q
  /\ (5 # 2 <= length_of interpolator_phased dgraph)%Q
  /\ Nat.min (Z.to_nat (Qfloor ((5 # 2) / transition_duration interpolator_phased)))
       (length (states dgraph) - 1) = 1
  /\ Nat.min (Z.to_nat (Qceiling ((5 # 2) / transition_duration interpolator_phased)))
       (length (states dgraph) - 1) = 2
  /\ exists frame cur next,
       interpolate interpolator_phased dgraph (5 # 2) = Ok frame
       /\ states dgraph !! 1 = Some cur /\ states dgraph !! 2 = Some next
       /\ wf_graph frame
       /\ (forall i, node_exists frame i = true
             <-> node_exists cur i = true \/ node_exists next i = true).
Proof.
  intros dgraph.
  assert (Hb : build fading_log = Normal (built fading_log)) by (vm_compute; reflexivity).
  assert (Hs : states (built fading_log) <> []) by (by vm_compute).
  assert (Hd : (0 < transition_duration (F := Q) interpolator_phased)%Q) by (by vm_compute).
  assert (H0 : (0 <= 5 # 2)%Q) by (by vm_compute).
  assert (H1 : (5 # 2 <= length_of interpolator_phased dgraph)%Q) by (by vm_compute).
  do 5 (split; [assumption|]).
  split; [vm_compute; reflexivity|]. split; [vm_compute; reflexivity|].
  destruct (interpolate_returns interpolator_phased fading_log (built fading_log) quarters
              (5 # 2) Hb Hs Hd H0 H1) as (frame & cur & next & A & B & C & _ & D & E & _).
  exists frame, cur, next. split; [exact A|]. split; [exact B|]. split; [exact C|].
  split; [exact D|exact E].
Defined.

Lemma frames_within_canvas_witness :
  let dgraph := relocate quarters (built fading_log) in
  let frame :=
    match interpolate interpolator_phased dgraph (5 # 4) with
    | Ok f => f
    | Raise _ => empty_graph
    end in
  positive_phases interpolator_phased
  /\ (forall g n, g ∈ states dgraph -> n ∈ nodes g ->
        in_canvas 2 2 (mk_coords 0%Q 0%Q) (pos n))
  /\ interpolate interpolator_phased dgraph (5 # 4) = Ok frame
  /\ forall n, n ∈ nodes frame -> in_canvas 2 2 (mk_coords 0%Q 0%Q) (pos n).
Proof.
  intros dgraph frame.
  assert (Hst : forall g n, g ∈ states dgraph -> n ∈ nodes g ->
                  in_canvas 2 2 (mk_coords 0%Q 0%Q) (pos n)).
  { intros g n Hg Hn. vm_compute in Hg.
    repeat (apply elem_of_cons in Hg as [->|Hg]); [..|by apply elem_of_nil in Hg];
      vm_compute in Hn;
      repeat (apply elem_of_cons in Hn as [->|Hn]); try (by apply elem_of_nil in Hn);
      by vm_compute. }
  assert (Hf : interpolate interpolator_phased dgraph (5 # 4) = Ok frame)
    by (vm_compute; reflexivity).
  assert (Hp : positive_phases interpolator_phased).
  { split; [done|]. repeat constructor. }
  split; [exact Hp|]. split; [exact Hst|]. split; [exact Hf|].
  exact (frames_within_canvas interpolator_phased dgraph (5 # 4) 2 2 (mk_coords 0%Q 0%Q)
           frame Hp Hst Hf).
Defined.

Lemma interpolate_keyframe_witness :
  let dgraph := relocate quarters (built fading_log) in
  let g : graph_state Q := default empty_graph (states dgraph !! 1) in
  build fading_log = Normal (built fading_log)
  /\ states dgraph !! 1 = Some g
  /\ m_phases (F := Q) interpolator_phased = idle :: [disappear; morph; appear]
  /\ (0 < duration (F := Q) interpolator_phased idle)%Q
  /\ (0 < transition_duration (F := Q) interpolator_phased)%Q
  /\ (inject_Z (Z.of_nat 1) * transition_duration interpolator_phased
      <= length_of interpolator_phased dgraph)%Q
  /\ exists frame,
       interpolate interpolator_phased dgraph
         (inject_Z (Z.of_nat 1) * transition_duration interpolator_phased)%Q
       = Ok frame
       /\ length (nodes frame) = length (nodes g)
       /\ length (edges frame) = length (edges g).
Proof.
  intros dgraph g.
  assert (Hb : build fading_log = Normal (built fading_log)) by (vm_compute; reflexivity).
  assert (Hg : states dgraph !! 1 = Some g) by (vm_compute; reflexivity).
  assert (Hp : m_phases (F := Q) interpolator_phased = idle :: [disappear; morph; appear])
    by reflexivity.
  assert (Hi : (0 < duration (F := Q) interpolator_phased idle)%Q) by (by vm_compute).
  assert (Hd : (0 < transition_duration (F := Q) interpolator_phased)%Q) by (by vm_compute).
  assert (Hl : (inject_Z (Z.of_nat 1) * transition_duration interpolator_phased
                <= length_of interpolator_phased dgraph)%Q) by (by vm_compute).
  do 6 (split; [assumption|]).
  destruct (interpolate_keyframe interpolator_phased fading_log (built fading_log) quarters
              1 g idle [disappear; morph; appear] Hb Hg Hp Hi Hd Hl) as (frame & A & B & C).
  exists frame. split; [exact A|].
  split; [exact (Forall2_length _ _ _ B)|exact (Forall2_length _ _ _ C)].
Defined.

Lemma interleaved_split_witness :
  0 < 2 /\ concat ((fun b => strided b 2 5) <$> seq 0 2) ≡ₚ seq 0 5.
Proof.
  assert (H : 0 < 2) by lia.
  split; [exact H|]. exact (interleaved_split 2 5 H).
Defined.

Lemma get_chunk_tiles_witness :
  (0 < 2)%N /\ (2 < 2 ^ 24)%N /\ (5 < 2 ^ 24)%N
  /\ fst (get_chunk (F := Q) 2 0 5) = 0%N
  /\ forall t, fst (get_chunk (F := Q) 2 (S t) 5) = snd (get_chunk (F := Q) 2 t 5).
Proof.
  assert (H1 : (0 < 2)%N) by reflexivity.
  assert (H2 : (2 < 2 ^ 24)%N) by reflexivity.
  assert (H3 : (5 < 2 ^ 24)%N) by reflexivity.
  split; [exact H1|]. split; [exact H2|]. split; [exact H3|].
  destruct (get_chunk_tiles 2 5 H1 H2 H3) as (A & B & _).
  by split.
Defined.

Lemma parameters_spaced_witness :
  blank (text " ") /\ blank (text "  ") /\ word (text "12")
  /\ Forall (fun p => blank (fst p) /\ fst p <> [] /\ word (snd p))
       [(["009"%char; " "%char], text "0.5"); (["010"%char], text "-3")]
  /\ parameters
       (text " "
        ++ spaced (text "12")
             [(["009"%char; " "%char], text "0.5"); (["010"%char], text "-3")]
        ++ text "  ")
     = [text "12"; text "0.5"; text "-3"].
Proof.
  assert (B1 : blank (text " ")) by (by repeat constructor).
  assert (B2 : blank (text "  ")) by (by repeat constructor).
  assert (W1 : word (text "12")) by (split; [done|by repeat constructor]).
  assert (M : Forall (fun p => blank (fst p) /\ fst p <> [] /\ word (snd p))
                [(["009"%char; " "%char], text "0.5"); (["010"%char], text "-3")]).
  { repeat constructor; done. }
  do 4 (split; [assumption|]).
  exact (parameters_spaced _ _ _ _ B1 B2 W1 M).
Defined.
